(** * Elastic binary trees (ebtree): a shallow embedding of the 32-bit
    front-end and of the generic substrate, with the properties of the
    specification proved over it.

    Layout of the development:
    - tagged pointers, structures and the cell store (ebtree.h);
    - the generic functions of ebtree.c and the scalar functions of
      eb32tree.c, loops run on fuel;
    - the 128-bit helpers of eb128tree.c that the specification singles out;
    - an abstract tree, the representation predicate that ties it to the
      store, and the refinement of insertion and deletion;
    - the radix invariants and what they give to lookups and walks. *)

From Stdlib Require Import ZArith List Lia Bool Permutation Sorted.
Import ListNotations.
Open Scope Z_scope.

(** ** Tagged pointers (ebtree.h) *)

Definition EB_NODE_BITS : Z := 1.
Definition EB_NODE_BRANCHES : Z := Z.shiftl 1 EB_NODE_BITS.
Definition EB_NODE_BRANCH_MASK : Z := EB_NODE_BRANCHES - 1.

Definition EB_LEFT : Z := 0.
Definition EB_RGHT : Z := 1.
Definition EB_LEAF : Z := 0.
Definition EB_NODE : Z := 1.

Definition EB_NORMAL : Z := 0.
Definition EB_UNIQUE : Z := 1.

Definition NULL : Z := 0.

(** Pointers are machine words; the low bit of an [eb_troot_t *] is the tag. *)
Definition eb_dotag (root tag : Z) : Z := root + tag.
Definition eb_untag (troot tag : Z) : Z := troot - tag.
Definition eb_gettag (troot : Z) : Z := Z.land troot 1.
Definition eb_clrtag (troot : Z) : Z := Z.land troot (Z.lnot 1).

(** [branches] is the first member of [struct eb_node], which is the first
    member of [struct eb32_node]: [container_of] subtracts offset 0. *)
Definition eb_root_to_node (root : Z) : Z := root.

(** ** Structures and the store

    [struct eb32_node] is flattened: the embedded [struct eb_root] is the
    array [branches] (indexed by side), then come [node_p], [leaf_p], [bit]
    and the key.  The [pfx] field is not touched by any scalar function and
    is left out.  The tree root, a bare [struct eb_root], lives in the same
    store: only the [branches] of its address are meaningful. *)

Record eb32_node : Type := mk_node {
  branches : Z -> Z;
  node_p : Z;
  leaf_p : Z;
  bit : Z;
  key : Z
}.

Definition mem : Type := Z -> eb32_node.

Definition upd (m : mem) (a : Z) (v : eb32_node) : mem :=
  fun x => if x =? a then v else m x.

Definition get_b (m : mem) (a i : Z) : Z := branches (m a) i.
Definition get_node_p (m : mem) (a : Z) : Z := node_p (m a).
Definition get_leaf_p (m : mem) (a : Z) : Z := leaf_p (m a).
Definition get_bit (m : mem) (a : Z) : Z := bit (m a).
Definition get_key (m : mem) (a : Z) : Z := key (m a).

Definition put_b (m : mem) (a i v : Z) : mem :=
  upd m a (mk_node (fun j => if j =? i then v else branches (m a) j)
                   (node_p (m a)) (leaf_p (m a)) (bit (m a)) (key (m a))).
Definition put_branches (m : mem) (a : Z) (f : Z -> Z) : mem :=
  upd m a (mk_node f (node_p (m a)) (leaf_p (m a)) (bit (m a)) (key (m a))).
Definition put_node_p (m : mem) (a v : Z) : mem :=
  upd m a (mk_node (branches (m a)) v (leaf_p (m a)) (bit (m a)) (key (m a))).
Definition put_leaf_p (m : mem) (a v : Z) : mem :=
  upd m a (mk_node (branches (m a)) (node_p (m a)) v (bit (m a)) (key (m a))).
Definition put_bit (m : mem) (a v : Z) : mem :=
  upd m a (mk_node (branches (m a)) (node_p (m a)) (leaf_p (m a)) v (key (m a))).
Definition put_key (m : mem) (a v : Z) : mem :=
  upd m a (mk_node (branches (m a)) (node_p (m a)) (leaf_p (m a)) (bit (m a)) v).

(** Bounds of the C types involved. *)
Definition UINT32_MOD : Z := 2 ^ 32.
Definition SHRT_MIN : Z := - 32768.

(** Loops run on fuel; [None] means the fuel ran out (or, in
    [eb_insert_dup], that a value does not fit its C type). *)
Definition obind {A B : Type} (o : option A) (f : A -> option B) : option B :=
  match o with
  | Some x => f x
  | None => None
  end.

Notation "x <- e ;; k" := (obind e (fun x => k))
  (at level 61, e at next level, right associativity).

(** ** Bit scan (ebtree.h, x86 branch)

    [flsnz] is [bsrl] plus one: the index of the highest set bit, counted
    from 1.  It is only meaningful on a non-zero argument; the one call made
    with equal keys has its result overwritten at once. *)
Definition flsnz (x : Z) : Z := Z.log2 x + 1.

(** ** Generic functions (ebtree.c) *)

Definition eb_is_empty (m : mem) (root : Z) : bool :=
  get_b m root EB_LEFT =? NULL.

Fixpoint eb_walk_down (fuel : nat) (m : mem) (start side : Z) : option Z :=
  match fuel with
  | O => None
  | S f =>
      if eb_gettag start =? EB_NODE
      then eb_walk_down f m (get_b m (eb_untag start EB_NODE) side) side
      else Some (eb_root_to_node (eb_untag start EB_LEAF))
  end.

Definition eb_first (fuel : nat) (m : mem) (root : Z) : option Z :=
  eb_walk_down fuel m (get_b m root 0) EB_LEFT.

Definition eb_last (fuel : nat) (m : mem) (root : Z) : option Z :=
  eb_walk_down fuel m (get_b m root 0) EB_RGHT.

(** The body of [eb_prev] from the point where [t] is set: the upward loop,
    then the crossing to the left sibling and the walk down its right side. *)
Fixpoint eb_prev_from (fuel : nat) (m : mem) (t : Z) : option Z :=
  match fuel with
  | O => None
  | S f =>
      if eb_gettag t =? EB_LEFT then
        if eb_clrtag (get_b m (eb_untag t EB_LEFT) EB_RGHT) =? NULL
        then Some NULL
        else eb_prev_from f m
               (get_node_p m (eb_root_to_node (eb_untag t EB_LEFT)))
      else
        eb_walk_down f m (get_b m (eb_untag t EB_RGHT) EB_LEFT) EB_RGHT
  end.

Definition eb_prev (fuel : nat) (m : mem) (node : Z) : option Z :=
  eb_prev_from fuel m (get_leaf_p m node).

(** The body of [eb_next] from the point where [t] is set. *)
Fixpoint eb_next_from (fuel : nat) (m : mem) (t : Z) : option Z :=
  match fuel with
  | O => None
  | S f =>
      if negb (eb_gettag t =? EB_LEFT) then
        eb_next_from f m (get_node_p m (eb_root_to_node (eb_untag t EB_RGHT)))
      else
        let t' := get_b m (eb_untag t EB_LEFT) EB_RGHT in
        if eb_clrtag t' =? NULL then Some NULL
        else eb_walk_down f m t' EB_LEFT
  end.

Definition eb_next (fuel : nat) (m : mem) (node : Z) : option Z :=
  eb_next_from fuel m (get_leaf_p m node).

(** The body of [eb_prev_unique] from the point where [t] is set: the loop
    goes on upward through the nodes of duplicates, and leaves by [break]
    on a right branch of a node whose [bit] is not negative. *)
Fixpoint eb_prev_unique_from (fuel : nat) (m : mem) (t : Z) : option Z :=
  match fuel with
  | O => None
  | S f =>
      if negb (eb_gettag t =? EB_LEFT) then
        let node := eb_root_to_node (eb_untag t EB_RGHT) in
        if get_bit m node >=? 0 then
          eb_walk_down f m (get_b m (eb_untag t EB_RGHT) EB_LEFT) EB_RGHT
        else eb_prev_unique_from f m (get_node_p m node)
      else
        if eb_clrtag (get_b m (eb_untag t EB_LEFT) EB_RGHT) =? NULL
        then Some NULL
        else eb_prev_unique_from f m
               (get_node_p m (eb_root_to_node (eb_untag t EB_LEFT)))
  end.

Definition eb_prev_unique (fuel : nat) (m : mem) (node : Z) : option Z :=
  eb_prev_unique_from fuel m (get_leaf_p m node).

(** The body of [eb_next_unique] from the point where [t] is set. *)
Fixpoint eb_next_unique_from (fuel : nat) (m : mem) (t : Z) : option Z :=
  match fuel with
  | O => None
  | S f =>
      if eb_gettag t =? EB_LEFT then
        if eb_clrtag (get_b m (eb_untag t EB_LEFT) EB_RGHT) =? NULL
        then Some NULL
        else
          let node := eb_root_to_node (eb_untag t EB_LEFT) in
          if get_bit m node >=? 0 then
            let t' := get_b m (eb_untag t EB_LEFT) EB_RGHT in
            if eb_clrtag t' =? NULL then Some NULL
            else eb_walk_down f m t' EB_LEFT
          else eb_next_unique_from f m (get_node_p m node)
      else
        eb_next_unique_from f m
          (get_node_p m (eb_root_to_node (eb_untag t EB_RGHT)))
  end.

Definition eb_next_unique (fuel : nat) (m : mem) (node : Z) : option Z :=
  eb_next_unique_from fuel m (get_leaf_p m node).

(** [!pside] on a side. *)
Definition lnot_side (s : Z) : Z := if s =? 0 then 1 else 0.

(** One round of the final loop of [eb_delete]: the child of [parent] on
    side [pside] gets its parent pointer set to [parent]. *)
Definition eb_delete_fix_child (m : mem) (parent pside : Z) : mem :=
  if eb_gettag (get_b m parent pside) =? EB_NODE then
    put_node_p m (eb_root_to_node (eb_untag (get_b m parent pside) EB_NODE))
               (eb_dotag parent pside)
  else
    put_leaf_p m (eb_root_to_node (eb_untag (get_b m parent pside) EB_LEAF))
               (eb_dotag parent pside).

Definition eb_delete (m : mem) (node : Z) : mem :=
  if get_leaf_p m node =? NULL then m
  else
    let pside := eb_gettag (get_leaf_p m node) in
    let parent := eb_root_to_node (eb_untag (get_leaf_p m node) pside) in
    if eb_clrtag (get_b m parent EB_RGHT) =? NULL then
      (* we're just below the root *)
      let m := put_b m parent EB_LEFT NULL in
      put_leaf_p m node NULL
    else
      let gpside := eb_gettag (get_node_p m parent) in
      let gparent := eb_untag (get_node_p m parent) gpside in
      let m := put_b m gparent gpside (get_b m parent (lnot_side pside)) in
      let sibtype := eb_gettag (get_b m gparent gpside) in
      let m :=
        if sibtype =? EB_LEAF then
          put_leaf_p m (eb_root_to_node (eb_untag (get_b m gparent gpside) EB_LEAF))
                     (eb_dotag gparent gpside)
        else
          put_node_p m (eb_root_to_node (eb_untag (get_b m gparent gpside) EB_NODE))
                     (eb_dotag gparent gpside) in
      let m := put_node_p m parent NULL in
      if get_node_p m node =? NULL then
        put_leaf_p m node NULL
      else
        let m := put_node_p m parent (get_node_p m node) in
        let m := put_branches m parent (branches (m node)) in
        let m := put_bit m parent (get_bit m node) in
        let gpside := eb_gettag (get_node_p m parent) in
        let gparent := eb_untag (get_node_p m parent) gpside in
        let m := put_b m gparent gpside (eb_dotag parent EB_NODE) in
        let m := eb_delete_fix_child m parent 0 in
        let m := eb_delete_fix_child m parent 1 in
        put_leaf_p m node NULL.

(** The right-side walk of [eb_insert_dup]: returns the final [head] and
    [sub]. *)
Fixpoint eb_insert_dup_walk (fuel : nat) (m : mem) (head sub : Z)
  : option (Z * Z) :=
  match fuel with
  | O => None
  | S f =>
      if negb (eb_gettag (get_b m head EB_RGHT) =? EB_LEAF) then
        let last := head in
        let head := eb_untag (get_b m head EB_RGHT) EB_NODE in
        let sub := if get_bit m head >? get_bit m last + 1 then head else sub in
        eb_insert_dup_walk f m head sub
      else Some (head, sub)
  end.

(** [bit] is a [short int]: a value below [SHRT_MIN] is not stored (the
    conversion is implementation-defined) and the function gives [None]. *)
Definition eb_insert_dup (fuel : nat) (m : mem) (sub new : Z)
  : option (mem * Z) :=
  let new_left := eb_dotag new EB_LEFT in
  let new_rght := eb_dotag new EB_RGHT in
  let new_leaf := eb_dotag new EB_LEAF in
  hs <- eb_insert_dup_walk fuel m sub sub ;;
  let head := fst hs in
  let sub := snd hs in
  if get_bit m head <? -1 then
    let m := put_bit m new (-1) in
    let sub := eb_untag (get_b m head EB_RGHT) EB_LEAF in
    let m := put_b m head EB_RGHT (eb_dotag new EB_NODE) in
    let m := put_node_p m new (get_leaf_p m sub) in
    let m := put_leaf_p m new new_rght in
    let m := put_leaf_p m sub new_left in
    let m := put_b m new EB_LEFT (eb_dotag sub EB_LEAF) in
    let m := put_b m new EB_RGHT new_leaf in
    Some (m, new)
  else
    if get_bit m sub - 1 <? SHRT_MIN then None
    else
      let m := put_bit m new (get_bit m sub - 1) in
      let side := eb_gettag (get_node_p m sub) in
      let head := eb_untag (get_node_p m sub) side in
      let m := put_b m head side (eb_dotag new EB_NODE) in
      let m := put_node_p m new (get_node_p m sub) in
      let m := put_leaf_p m new new_rght in
      let m := put_node_p m sub new_left in
      let m := put_b m new EB_LEFT (eb_dotag sub EB_NODE) in
      let m := put_b m new EB_RGHT new_leaf in
      Some (m, new).

(** ** Scalar functions on 32-bit keys (eb32tree.c)

    A C shift whose count is negative or not below the width of the shifted
    operand has no defined result.  The embedding takes that result from
    [undef_shr], about which nothing is assumed: a property proved here
    holds whatever such a shift yields. *)

Class UndefShift : Type := undef_shr : Z -> Z -> Z.

Section Scalar32.

Context {U : UndefShift}.

Definition shr32 (x n : Z) : Z :=
  if (0 <=? n) && (n <? 32) then Z.shiftr x n else undef_shr x n.

Fixpoint eb32_lookup_loop (fuel : nat) (m : mem) (troot x : Z) : option Z :=
  match fuel with
  | O => None
  | S f =>
      if eb_gettag troot =? EB_LEAF then
        let node := eb_untag troot EB_LEAF in
        if get_key m node =? x then Some node else Some NULL
      else
        let node := eb_untag troot EB_NODE in
        let node_bit := get_bit m node in
        let y := Z.lxor (get_key m node) x in
        if y =? 0 then
          if node_bit <? 0 then
            (* walk the duplicate tree down left to its first entry *)
            eb_walk_down f m (get_b m node EB_LEFT) EB_LEFT
          else Some node
        else if shr32 y node_bit >=? EB_NODE_BRANCHES then Some NULL
        else
          eb32_lookup_loop f m
            (get_b m node (Z.land (shr32 x node_bit) EB_NODE_BRANCH_MASK)) x
  end.

Definition eb32_lookup (fuel : nat) (m : mem) (root x : Z) : option Z :=
  let troot := get_b m root EB_LEFT in
  if troot =? NULL then Some NULL
  else eb32_lookup_loop fuel m troot x.

(** [up_ptr] of [eb32_insert] points either to [old->node.leaf_p] or to
    [old->node.node_p]. *)
Inductive up_field : Type := UpLeafP | UpNodeP.

Definition put_up (m : mem) (old : Z) (f : up_field) (v : Z) : mem :=
  match f with
  | UpLeafP => put_leaf_p m old v
  | UpNodeP => put_node_p m old v
  end.

(** [eb32_insert] after its loop: [root], [side], [troot], [old] and
    [up_ptr] are the values the loop left. *)
Definition eb32_insert_link (fuel : nat) (m : mem) (root_right new : Z)
    (root side troot old : Z) (up_ptr : up_field) : option (mem * Z) :=
  let new_left := eb_dotag new EB_LEFT in
  let new_rght := eb_dotag new EB_RGHT in
  let new_leaf := eb_dotag new EB_LEAF in
  let m := put_bit m new (flsnz (Z.lxor (get_key m new) (get_key m old)) - EB_NODE_BITS) in
  let link (m : mem) : option (mem * Z) :=
    let m :=
      if get_key m new >=? get_key m old then
        let m := put_b m new EB_LEFT troot in
        let m := put_b m new EB_RGHT new_leaf in
        let m := put_leaf_p m new new_rght in
        put_up m old up_ptr new_left
      else
        let m := put_b m new EB_LEFT new_leaf in
        let m := put_b m new EB_RGHT troot in
        let m := put_leaf_p m new new_left in
        put_up m old up_ptr new_rght in
    let m := put_b m root side (eb_dotag new EB_NODE) in
    Some (m, new) in
  if get_key m new =? get_key m old then
    let m := put_bit m new (-1) in
    if negb (eb_gettag root_right =? 0) then Some (m, old)
    else if negb (eb_gettag troot =? EB_LEAF) then eb_insert_dup fuel m old new
    else link m
  else link m.

(** The descent loop of [eb32_insert], continued by the code after it. *)
Fixpoint eb32_insert_from (fuel : nat) (m : mem) (root_right new newkey : Z)
    (root side troot : Z) : option (mem * Z) :=
  match fuel with
  | O => None
  | S f =>
      if eb_gettag troot =? EB_LEAF then
        let old := eb_untag troot EB_LEAF in
        let m := put_node_p m new (get_leaf_p m old) in
        eb32_insert_link f m root_right new root side troot old UpLeafP
      else
        let old := eb_untag troot EB_NODE in
        let old_node_bit := get_bit m old in
        if (old_node_bit <? 0)
           || (shr32 (Z.lxor (get_key m new) (get_key m old)) old_node_bit
               >=? EB_NODE_BRANCHES) then
          let m := put_node_p m new (get_node_p m old) in
          eb32_insert_link f m root_right new root side troot old UpNodeP
        else
          let root := old in
          let side := Z.land (shr32 newkey old_node_bit) EB_NODE_BRANCH_MASK in
          let troot := get_b m root side in
          eb32_insert_from f m root_right new newkey root side troot
  end.

Definition eb32_insert (fuel : nat) (m : mem) (root new : Z)
  : option (mem * Z) :=
  let side := EB_LEFT in
  let troot := get_b m root EB_LEFT in
  let root_right := get_b m root EB_RGHT in
  if troot =? NULL then
    let m := put_b m root EB_LEFT (eb_dotag new EB_LEAF) in
    let m := put_leaf_p m new (eb_dotag root EB_LEFT) in
    let m := put_node_p m new NULL in
    Some (m, new)
  else
    let newkey := get_key m new in
    eb32_insert_from fuel m root_right new newkey root side troot.

Fixpoint eb32_lookup_le_loop (fuel : nat) (m : mem) (troot x : Z)
  : option Z :=
  match fuel with
  | O => None
  | S f =>
      if eb_gettag troot =? EB_LEAF then
        let node := eb_untag troot EB_LEAF in
        if get_key m node <=? x then Some node
        else eb_prev_from f m (get_leaf_p m node)
      else
        let node := eb_untag troot EB_NODE in
        if get_bit m node <? 0 then
          if get_key m node <=? x then
            eb_walk_down f m (get_b m node EB_RGHT) EB_RGHT
          else eb_prev_from f m (get_node_p m node)
        else if shr32 (Z.lxor x (get_key m node)) (get_bit m node)
                >=? EB_NODE_BRANCHES then
          if shr32 (get_key m node) (get_bit m node) <? shr32 x (get_bit m node)
          then eb_walk_down f m (get_b m node EB_RGHT) EB_RGHT
          else eb_prev_from f m (get_node_p m node)
        else
          eb32_lookup_le_loop f m
            (get_b m node (Z.land (shr32 x (get_bit m node)) EB_NODE_BRANCH_MASK)) x
  end.

Definition eb32_lookup_le (fuel : nat) (m : mem) (root x : Z) : option Z :=
  let troot := get_b m root EB_LEFT in
  if troot =? NULL then Some NULL
  else eb32_lookup_le_loop fuel m troot x.

Fixpoint eb32_lookup_ge_loop (fuel : nat) (m : mem) (troot x : Z)
  : option Z :=
  match fuel with
  | O => None
  | S f =>
      if eb_gettag troot =? EB_LEAF then
        let node := eb_untag troot EB_LEAF in
        if get_key m node >=? x then Some node
        else eb_next_from f m (get_leaf_p m node)
      else
        let node := eb_untag troot EB_NODE in
        if get_bit m node <? 0 then
          if get_key m node >=? x then
            eb_walk_down f m (get_b m node EB_LEFT) EB_LEFT
          else eb_next_from f m (get_node_p m node)
        else if shr32 (Z.lxor x (get_key m node)) (get_bit m node)
                >=? EB_NODE_BRANCHES then
          if shr32 (get_key m node) (get_bit m node) >? shr32 x (get_bit m node)
          then eb_walk_down f m (get_b m node EB_LEFT) EB_LEFT
          else eb_next_from f m (get_node_p m node)
        else
          eb32_lookup_ge_loop f m
            (get_b m node (Z.land (shr32 x (get_bit m node)) EB_NODE_BRANCH_MASK)) x
  end.

Definition eb32_lookup_ge (fuel : nat) (m : mem) (root x : Z) : option Z :=
  let troot := get_b m root EB_LEFT in
  if troot =? NULL then Some NULL
  else eb32_lookup_ge_loop fuel m troot x.

(** ** Signed keys (eb32tree.c)

    The key of a cell is kept in its [uint32_t] field; the signed functions
    read it as an [int32_t] where they compare. *)

Definition to_uint32 (x : Z) : Z := x mod UINT32_MOD.
Definition to_int32 (x : Z) : Z :=
  let u := x mod UINT32_MOD in
  if u <? 2 ^ 31 then u else u - UINT32_MOD.

(** [x] is the [int32_t] argument; it is converted to [uint32_t] where it
    meets a [uint32_t]. *)
Fixpoint eb32i_lookup_loop (fuel : nat) (m : mem) (troot x : Z) : option Z :=
  match fuel with
  | O => None
  | S f =>
      let key := Z.lxor (to_uint32 x) 0x80000000 in
      if eb_gettag troot =? EB_LEAF then
        let node := eb_untag troot EB_LEAF in
        if get_key m node =? to_uint32 x then Some node else Some NULL
      else
        let node := eb_untag troot EB_NODE in
        let node_bit := get_bit m node in
        let y := Z.lxor (get_key m node) (to_uint32 x) in
        if y =? 0 then
          if node_bit <? 0 then
            eb_walk_down f m (get_b m node EB_LEFT) EB_LEFT
          else Some node
        else if shr32 y node_bit >=? EB_NODE_BRANCHES then Some NULL
        else
          eb32i_lookup_loop f m
            (get_b m node (Z.land (shr32 key node_bit) EB_NODE_BRANCH_MASK)) x
  end.

Definition eb32i_lookup (fuel : nat) (m : mem) (root x : Z) : option Z :=
  let troot := get_b m root EB_LEFT in
  if troot =? NULL then Some NULL
  else eb32i_lookup_loop fuel m troot x.

(** [eb32i_insert] after its loop: as in [eb32_insert], but for the order
    of the two keys, compared as [int32_t]. *)
Definition eb32i_insert_link (fuel : nat) (m : mem) (root_right new : Z)
    (root side troot old : Z) (up_ptr : up_field) : option (mem * Z) :=
  let new_left := eb_dotag new EB_LEFT in
  let new_rght := eb_dotag new EB_RGHT in
  let new_leaf := eb_dotag new EB_LEAF in
  let m := put_bit m new (flsnz (Z.lxor (get_key m new) (get_key m old)) - EB_NODE_BITS) in
  let link (m : mem) : option (mem * Z) :=
    let m :=
      if to_int32 (get_key m new) >=? to_int32 (get_key m old) then
        let m := put_b m new EB_LEFT troot in
        let m := put_b m new EB_RGHT new_leaf in
        let m := put_leaf_p m new new_rght in
        put_up m old up_ptr new_left
      else
        let m := put_b m new EB_LEFT new_leaf in
        let m := put_b m new EB_RGHT troot in
        let m := put_leaf_p m new new_left in
        put_up m old up_ptr new_rght in
    let m := put_b m root side (eb_dotag new EB_NODE) in
    Some (m, new) in
  if get_key m new =? get_key m old then
    let m := put_bit m new (-1) in
    if negb (eb_gettag root_right =? 0) then Some (m, old)
    else if negb (eb_gettag troot =? EB_LEAF) then eb_insert_dup fuel m old new
    else link m
  else link m.

(** The descent loop of [eb32i_insert]; [newkey] is an [int], shifted as
    one: the shift of a negative value keeps its sign. *)
Fixpoint eb32i_insert_from (fuel : nat) (m : mem) (root_right new newkey : Z)
    (root side troot : Z) : option (mem * Z) :=
  match fuel with
  | O => None
  | S f =>
      if eb_gettag troot =? EB_LEAF then
        let old := eb_untag troot EB_LEAF in
        let m := put_node_p m new (get_leaf_p m old) in
        eb32i_insert_link f m root_right new root side troot old UpLeafP
      else
        let old := eb_untag troot EB_NODE in
        let old_node_bit := get_bit m old in
        if (old_node_bit <? 0)
           || (shr32 (Z.lxor (get_key m new) (get_key m old)) old_node_bit
               >=? EB_NODE_BRANCHES) then
          let m := put_node_p m new (get_node_p m old) in
          eb32i_insert_link f m root_right new root side troot old UpNodeP
        else
          let root := old in
          let side := Z.land (shr32 newkey old_node_bit) EB_NODE_BRANCH_MASK in
          let troot := get_b m root side in
          eb32i_insert_from f m root_right new newkey root side troot
  end.

Definition eb32i_insert (fuel : nat) (m : mem) (root new : Z)
  : option (mem * Z) :=
  let side := EB_LEFT in
  let troot := get_b m root EB_LEFT in
  let root_right := get_b m root EB_RGHT in
  if troot =? NULL then
    let m := put_b m root EB_LEFT (eb_dotag new EB_LEAF) in
    let m := put_leaf_p m new (eb_dotag root EB_LEFT) in
    let m := put_node_p m new NULL in
    Some (m, new)
  else
    let newkey := to_int32 (to_uint32 (get_key m new + 0x80000000)) in
    eb32i_insert_from fuel m root_right new newkey root side troot.

End Scalar32.

(** ** 128-bit helpers (eb128tree.c) *)

Definition UINT64_MOD : Z := 2 ^ 64.
Definition UINT128_MOD : Z := 2 ^ 128.

(** Conversions between the integer types of C: to an unsigned type, the
    value modulo the width; to a signed one, its two's complement reading. *)
Definition to_uint64 (x : Z) : Z := x mod UINT64_MOD.
Definition to_uint128 (x : Z) : Z := x mod UINT128_MOD.
Definition to_int128 (x : Z) : Z :=
  let u := x mod UINT128_MOD in
  if u <? 2 ^ 127 then u else u - UINT128_MOD.

(** [((uint128_t)hi << 0x40) | lo] *)
Definition eb128_compose_264 (lo hi : Z) : Z :=
  Z.lor (to_uint128 (Z.shiftl (to_uint128 hi) 0x40)) lo.

(** [return (a >= b)? a >= b : -1;] on [uint128_t] values. *)
Definition eb128_cmp_264 (alo ahi blo bhi : Z) : Z :=
  let a := eb128_compose_264 alo ahi in
  let b := eb128_compose_264 blo bhi in
  if a >=? b then Z.b2z (a >=? b) else -1.

(** The same on [int128_t] values: the halves [ahi] and [bhi] are
    [int64_t], passed to [eb128_compose_264] as [uint64_t], and what it
    returns is stored in an [int128_t]. *)
Definition eb128i_cmp_264 (alo ahi blo bhi : Z) : Z :=
  let a := to_int128 (eb128_compose_264 alo (to_uint64 ahi)) in
  let b := to_int128 (eb128_compose_264 blo (to_uint64 bhi)) in
  if a >=? b then Z.b2z (a >=? b) else -1.

(** A right shift of an unsigned operand of [w] bits: C gives it no meaning
    when the amount is negative or not less than [w]. *)
Definition shr_checked (w x n : Z) : option Z :=
  if (0 <=? n) && (n <? w) then Some (Z.shiftr x n) else None.

(** The right shifts of the side selection in the descent of
    [eb128_insert] and [eb128i_insert], branch [ULONG_MAX >= UINT64_T_MAX]
    of the preprocessor: each with the width of its operand and its
    amount, in the order they are run. *)
Definition eb128_insert_side_shifts (old_node_bit : Z) : list (Z * Z) :=
  (64, old_node_bit) ::
  (if old_node_bit >=? 0x40
   then [(128, 0x40); (64, Z.land old_node_bit 0x3FF)]
   else []).

(** The side they select; [side] is a [uint64_t], [newkey] a [uint128_t]
    and [old_node_bit] an [int].  [None]: a shift without meaning was
    run. *)
Definition eb128_insert_side (newkey old_node_bit : Z) : option Z :=
  let side := to_uint64 newkey in
  side <- shr_checked 64 side old_node_bit ;;
  side <- (if old_node_bit >=? 0x40 then
             hi <- shr_checked 128 newkey 0x40 ;;
             shr_checked 64 (to_uint64 hi) (Z.land old_node_bit 0x3FF)
           else Some side) ;;
  Some (Z.land side EB_NODE_BRANCH_MASK).

(** [eb128i_compose_264]: [((uint128_t)hi << 0x40) | lo] with [hi] an
    [int64_t], returned as an [int128_t]. *)
Definition to_int64 (x : Z) : Z :=
  let u := x mod UINT64_MOD in
  if u <? 2 ^ 63 then u else u - UINT64_MOD.

Definition eb128i_compose_264 (lo hi : Z) : Z :=
  to_int128 (Z.lor (to_uint128 (Z.shiftl (to_uint128 hi) 0x40)) lo).

(** The comparisons; [true] and [false] are the [bool] of C. *)
Definition eb128_less_264 (alo ahi blo bhi : Z) : bool :=
  eb128_compose_264 alo ahi <? eb128_compose_264 blo bhi.
Definition eb128_less_or_equal_264 (alo ahi blo bhi : Z) : bool :=
  eb128_compose_264 alo ahi <=? eb128_compose_264 blo bhi.
Definition eb128_equal_264 (alo ahi blo bhi : Z) : bool :=
  eb128_compose_264 alo ahi =? eb128_compose_264 blo bhi.
Definition eb128_greater_or_equal_264 (alo ahi blo bhi : Z) : bool :=
  eb128_compose_264 alo ahi >=? eb128_compose_264 blo bhi.
Definition eb128_greater_264 (alo ahi blo bhi : Z) : bool :=
  eb128_compose_264 alo ahi >? eb128_compose_264 blo bhi.

(** The comparisons of the signed front-end call [eb128_compose_264]: their
    [int64_t] halves [ahi] and [bhi] are converted to [uint64_t] and the
    two results are compared as [uint128_t]. *)
Definition eb128i_less_264 (alo ahi blo bhi : Z) : bool :=
  eb128_compose_264 alo (to_uint64 ahi) <? eb128_compose_264 blo (to_uint64 bhi).
Definition eb128i_less_or_equal_264 (alo ahi blo bhi : Z) : bool :=
  eb128_compose_264 alo (to_uint64 ahi) <=? eb128_compose_264 blo (to_uint64 bhi).
Definition eb128i_equal_264 (alo ahi blo bhi : Z) : bool :=
  eb128_compose_264 alo (to_uint64 ahi) =? eb128_compose_264 blo (to_uint64 bhi).
Definition eb128i_greater_or_equal_264 (alo ahi blo bhi : Z) : bool :=
  eb128_compose_264 alo (to_uint64 ahi) >=? eb128_compose_264 blo (to_uint64 bhi).
Definition eb128i_greater_264 (alo ahi blo bhi : Z) : bool :=
  eb128_compose_264 alo (to_uint64 ahi) >? eb128_compose_264 blo (to_uint64 bhi).

(** The keys of the [struct eb128_node], a [uint128_t] each, by address. *)
Definition keys128 : Type := Z -> Z.

Definition eb128_node_setkey_264 (ks : keys128) (node lo hi : Z)
  : keys128 * Z :=
  (fun a => if a =? node then eb128_compose_264 lo hi else ks a, node).

Definition eb128i_node_setkey_264 (ks : keys128) (node lo hi : Z)
  : keys128 * Z :=
  (fun a => if a =? node then to_uint128 (eb128i_compose_264 lo hi) else ks a,
   node).

(** [*lo] and [*hi] as they are left. *)
Definition eb128_node_getkey_264 (ks : keys128) (node : Z) : Z * Z :=
  (to_uint64 (ks node), to_uint64 (Z.shiftr (ks node) 0x40)).

Definition eb128i_node_getkey_264 (ks : keys128) (node : Z) : Z * Z :=
  (to_uint64 (ks node), to_int64 (Z.shiftr (ks node) 0x40)).

(** ** Bit scans of the wider types (ebtree.h)

    [flsnz8_generic] is the C of the header; [flsnz8] is taken in the
    branch of the preprocessor that calls it, and [fls64] in the branch
    written in C, on two halves of 32 bits. *)

Section Bits.

Context {U : UndefShift}.

Definition flsnz8_generic (x : Z) : Z :=
  let ret := 0 in
  let '(x, ret) :=
    if negb (Z.shiftr x 4 =? 0) then (Z.shiftr x 4, ret + 4) else (x, ret) in
  ret + Z.land (shr32 0xFFFFAA50 (to_uint32 (Z.shiftl x 1))) 3 + 1.

Definition flsnz8 (x : Z) : Z := flsnz8_generic x.

Definition fls64 (x : Z) : Z :=
  let h := to_uint32 (Z.shiftr x 0x20) in
  if negb (h =? 0) then flsnz h + 0x20 else flsnz (to_uint32 x).

Definition fls128 (x : Z) : Z :=
  let h := to_uint64 (Z.shiftr x 0x40) in
  if negb (h =? 0) then fls64 h + 0x40 else fls64 (to_uint64 x).

End Bits.

(** ** Blocks of bytes compared bit by bit (ebtree.c)

    A block is an address in a store of [unsigned char]; bit 0 of a block
    is the highest bit of its first byte.  The counters are [int]s, taken
    here without their bound. *)

Definition bytes : Type := Z -> Z.

Module Bits.

Section Blocks.

Context {U : UndefShift}.

Fixpoint equal_bits_loop (fuel : nat) (mb : bytes) (a b ignore len : Z)
  : option Z :=
  match fuel with
  | O => None
  | S f =>
      if ignore <? len then
        let a := a + 1 in
        let b := b + 1 in
        let ignore := ignore + 8 in
        let c := Z.lxor (mb (b - 1)) (mb (a - 1)) in
        if negb (c =? 0) then Some (ignore - flsnz8 c)
        else equal_bits_loop f mb a b ignore len
      else Some ignore
  end.

Definition equal_bits (fuel : nat) (mb : bytes) (a b ignore len : Z)
  : option Z :=
  let ignore := Z.shiftr ignore 3 in
  let a := a + ignore in
  let b := b + ignore in
  let ignore := Z.shiftl ignore 3 in
  equal_bits_loop fuel mb a b ignore len.

(** The [while (1)] of [check_bits], entered with [ret] and [bit] set. *)
Fixpoint check_bits_loop (fuel : nat) (mb : bytes) (a b skip ret bit : Z)
  : option Z :=
  match fuel with
  | O => None
  | S f =>
      let skip := skip + 1 in
      if negb (ret =? 0) then Some ret
      else
        let ret := Z.lxor (mb (a + skip)) (mb (b + skip)) in
        let bit := bit + 8 in
        if bit >=? 0 then Some (shr32 ret bit)
        else check_bits_loop f mb a b skip ret bit
  end.

Definition check_bits (fuel : nat) (mb : bytes) (a b skip len : Z)
  : option Z :=
  let bit := Z.lnot len + Z.shiftl skip 3 + 9 in
  let ret := Z.lxor (mb (a + skip)) (mb (b + skip)) in
  if bit >=? 0 then Some (shr32 ret bit)
  else check_bits_loop fuel mb a b skip ret bit.

Fixpoint string_equal_bits_loop (fuel : nat) (mb : bytes) (a b beg : Z)
  : option Z :=
  match fuel with
  | O => None
  | S f =>
      let c := mb (a + beg) in
      let d := mb (b + beg) in
      let beg := beg + 1 in
      let c := Z.lxor c d in
      if negb (c =? 0) then Some (Z.shiftl beg 3 - flsnz8 c)
      else if d =? 0 then Some (-1)
      else string_equal_bits_loop f mb a b beg
  end.

Definition string_equal_bits (fuel : nat) (mb : bytes) (a b ignore : Z)
  : option Z :=
  string_equal_bits_loop fuel mb a b (Z.shiftr ignore 3).

Definition cmp_bits (mb : bytes) (a b pos : Z) : Z :=
  let ofs := Z.shiftr pos 3 in
  let pos := Z.land (Z.lnot pos) 7 in
  let bit_a := Z.land (Z.shiftr (mb (a + ofs)) pos) 1 in
  let bit_b := Z.land (Z.shiftr (mb (b + ofs)) pos) 1 in
  bit_a - bit_b.

Definition get_bit (mb : bytes) (a pos : Z) : Z :=
  let ofs := Z.shiftr pos 3 in
  let pos := Z.land (Z.lnot pos) 7 in
  Z.land (Z.shiftr (mb (a + ofs)) pos) 1.

End Blocks.

End Bits.

(** * Reasoning tools

    ** Reads over writes *)

Ltac mem_unfold :=
  unfold get_b, get_node_p, get_leaf_p, get_bit, get_key,
         put_b, put_branches, put_node_p, put_leaf_p, put_bit, put_key, upd.

Ltac mem_other :=
  intros; mem_unfold;
  match goal with
  | |- context [?x =? ?y] => destruct (Z.eqb_spec x y); subst; reflexivity
  end.

Lemma get_b_put_b m a i v a' i' :
  get_b (put_b m a i v) a' i' =
  if (a' =? a) && (i' =? i) then v else get_b m a' i'.
Proof.
  mem_unfold. destruct (Z.eqb_spec a' a); subst; simpl; auto.
Qed.

Lemma get_b_put_branches m a f a' i :
  get_b (put_branches m a f) a' i = if a' =? a then f i else get_b m a' i.
Proof.
  mem_unfold. destruct (Z.eqb_spec a' a); subst; simpl; auto.
Qed.

Lemma get_node_p_put_node_p m a v a' :
  get_node_p (put_node_p m a v) a' = if a' =? a then v else get_node_p m a'.
Proof.
  mem_unfold. destruct (Z.eqb_spec a' a); subst; simpl; auto.
Qed.

Lemma get_leaf_p_put_leaf_p m a v a' :
  get_leaf_p (put_leaf_p m a v) a' = if a' =? a then v else get_leaf_p m a'.
Proof.
  mem_unfold. destruct (Z.eqb_spec a' a); subst; simpl; auto.
Qed.

Lemma get_bit_put_bit m a v a' :
  get_bit (put_bit m a v) a' = if a' =? a then v else get_bit m a'.
Proof.
  mem_unfold. destruct (Z.eqb_spec a' a); subst; simpl; auto.
Qed.

Lemma get_key_put_key m a v a' :
  get_key (put_key m a v) a' = if a' =? a then v else get_key m a'.
Proof.
  mem_unfold. destruct (Z.eqb_spec a' a); subst; simpl; auto.
Qed.

Lemma get_node_p_put_b m a i v a' : get_node_p (put_b m a i v) a' = get_node_p m a'.
Proof. mem_other. Qed.

Lemma get_node_p_put_branches m a g a' :
  get_node_p (put_branches m a g) a' = get_node_p m a'.
Proof. mem_other. Qed.

Lemma get_b_put_node_p m a v a' i : get_b (put_node_p m a v) a' i = get_b m a' i.
Proof. mem_other. Qed.

Lemma get_node_p_put_leaf_p m a v a' : get_node_p (put_leaf_p m a v) a' = get_node_p m a'.
Proof. mem_other. Qed.

Lemma get_node_p_put_bit m a v a' : get_node_p (put_bit m a v) a' = get_node_p m a'.
Proof. mem_other. Qed.

Lemma get_node_p_put_key m a v a' : get_node_p (put_key m a v) a' = get_node_p m a'.
Proof. mem_other. Qed.

Lemma get_leaf_p_put_b m a i v a' : get_leaf_p (put_b m a i v) a' = get_leaf_p m a'.
Proof. mem_other. Qed.

Lemma get_leaf_p_put_branches m a g a' :
  get_leaf_p (put_branches m a g) a' = get_leaf_p m a'.
Proof. mem_other. Qed.

Lemma get_b_put_leaf_p m a v a' i : get_b (put_leaf_p m a v) a' i = get_b m a' i.
Proof. mem_other. Qed.

Lemma get_leaf_p_put_node_p m a v a' : get_leaf_p (put_node_p m a v) a' = get_leaf_p m a'.
Proof. mem_other. Qed.

Lemma get_leaf_p_put_bit m a v a' : get_leaf_p (put_bit m a v) a' = get_leaf_p m a'.
Proof. mem_other. Qed.

Lemma get_leaf_p_put_key m a v a' : get_leaf_p (put_key m a v) a' = get_leaf_p m a'.
Proof. mem_other. Qed.

Lemma get_bit_put_b m a i v a' : get_bit (put_b m a i v) a' = get_bit m a'.
Proof. mem_other. Qed.

Lemma get_bit_put_branches m a g a' :
  get_bit (put_branches m a g) a' = get_bit m a'.
Proof. mem_other. Qed.

Lemma get_b_put_bit m a v a' i : get_b (put_bit m a v) a' i = get_b m a' i.
Proof. mem_other. Qed.

Lemma get_bit_put_node_p m a v a' : get_bit (put_node_p m a v) a' = get_bit m a'.
Proof. mem_other. Qed.

Lemma get_bit_put_leaf_p m a v a' : get_bit (put_leaf_p m a v) a' = get_bit m a'.
Proof. mem_other. Qed.

Lemma get_bit_put_key m a v a' : get_bit (put_key m a v) a' = get_bit m a'.
Proof. mem_other. Qed.

Lemma get_key_put_b m a i v a' : get_key (put_b m a i v) a' = get_key m a'.
Proof. mem_other. Qed.

Lemma get_key_put_branches m a g a' :
  get_key (put_branches m a g) a' = get_key m a'.
Proof. mem_other. Qed.

Lemma get_b_put_key m a v a' i : get_b (put_key m a v) a' i = get_b m a' i.
Proof. mem_other. Qed.

Lemma get_key_put_node_p m a v a' : get_key (put_node_p m a v) a' = get_key m a'.
Proof. mem_other. Qed.

Lemma get_key_put_leaf_p m a v a' : get_key (put_leaf_p m a v) a' = get_key m a'.
Proof. mem_other. Qed.

Lemma get_key_put_bit m a v a' : get_key (put_bit m a v) a' = get_key m a'.
Proof. mem_other. Qed.

Create Rewrite HintDb mem.

#[export] Hint Rewrite get_b_put_b get_b_put_branches get_node_p_put_node_p get_node_p_put_b get_node_p_put_branches get_b_put_node_p get_node_p_put_leaf_p get_node_p_put_bit get_node_p_put_key get_leaf_p_put_leaf_p get_leaf_p_put_b get_leaf_p_put_branches get_b_put_leaf_p get_leaf_p_put_node_p get_leaf_p_put_bit get_leaf_p_put_key get_bit_put_bit get_bit_put_b get_bit_put_branches get_b_put_bit get_bit_put_node_p get_bit_put_leaf_p get_bit_put_key get_key_put_key get_key_put_b get_key_put_branches get_b_put_key get_key_put_node_p get_key_put_leaf_p get_key_put_bit : mem.

Lemma branches_get_b m a i : branches (m a) i = get_b m a i.
Proof. reflexivity. Qed.

(** Decides the tests [x =? y] of the goal from the context, by [lia]. *)
Ltac eqb_decide :=
  repeat match goal with
  | |- context [?x =? ?y] =>
      first
        [ rewrite (Z.eqb_refl x)
        | let H := fresh in
          assert (H : (x =? y) = true) by (apply Z.eqb_eq; lia);
          rewrite H; clear H
        | let H := fresh in
          assert (H : (x =? y) = false) by (apply Z.eqb_neq; lia);
          rewrite H; clear H ]
  end.

Ltac msimpl :=
  repeat (progress (autorewrite with mem; eqb_decide; simpl andb; cbv iota)).

(** ** Tags on aligned addresses *)

Definition aligned (a : Z) : Prop := a mod 2 = 0.

Lemma land_1 x : Z.land x 1 = x mod 2.
Proof. change 1 with (Z.ones 1). rewrite Z.land_ones by lia. reflexivity. Qed.

Lemma land_lnot_1 x : Z.land x (Z.lnot 1) = x - x mod 2.
Proof.
  rewrite <- Z.ldiff_land. change 1 with (Z.ones 1).
  rewrite Z.ldiff_ones_r by lia.
  rewrite Z.shiftr_div_pow2, Z.shiftl_mul_pow2 by lia.
  change (2 ^ 1) with 2. Z.div_mod_to_equations. lia.
Qed.

Lemma gettag_dotag a t :
  aligned a -> 0 <= t <= 1 -> eb_gettag (eb_dotag a t) = t.
Proof.
  unfold aligned, eb_gettag, eb_dotag. intros Ha Ht. rewrite land_1.
  Z.div_mod_to_equations. lia.
Qed.

Lemma untag_dotag a t : eb_untag (eb_dotag a t) t = a.
Proof. unfold eb_untag, eb_dotag. lia. Qed.

Lemma clrtag_dotag a t :
  aligned a -> 0 <= t <= 1 -> eb_clrtag (eb_dotag a t) = a.
Proof.
  unfold aligned, eb_clrtag, eb_dotag. intros Ha Ht. rewrite land_lnot_1.
  Z.div_mod_to_equations. lia.
Qed.

Lemma gettag_range t : 0 <= eb_gettag t <= 1.
Proof. unfold eb_gettag. rewrite land_1. Z.div_mod_to_equations. lia. Qed.

Lemma dotag_inj a t a' t' :
  aligned a -> aligned a' -> 0 <= t <= 1 -> 0 <= t' <= 1 ->
  eb_dotag a t = eb_dotag a' t' -> a = a' /\ t = t'.
Proof.
  unfold aligned, eb_dotag. intros.
  Z.div_mod_to_equations. lia.
Qed.

(** ** Termination on fuel *)

Definition terminates {A : Type} (f : nat -> option A) (r : A) : Prop :=
  exists n, forall fuel, (n <= fuel)%nat -> f fuel = Some r.

Notation "f ⇓ r" := (terminates f r) (at level 70).

Lemma terminates_det {A : Type} (f : nat -> option A) r1 r2 :
  f ⇓ r1 -> f ⇓ r2 -> r1 = r2.
Proof.
  intros [n1 H1] [n2 H2].
  specialize (H1 (Nat.max n1 n2) ltac:(lia)).
  specialize (H2 (Nat.max n1 n2) ltac:(lia)). congruence.
Qed.

Lemma terminates_const {A : Type} (r : A) : (fun _ => Some r) ⇓ r.
Proof. exists 0%nat. reflexivity. Qed.

Lemma terminates_ext {A : Type} (f g : nat -> option A) r :
  (forall fuel, f fuel = g fuel) -> f ⇓ r -> g ⇓ r.
Proof. intros E [n H]. exists n. intros. rewrite <- E. auto. Qed.

(** A loop that takes one more round. *)
Lemma terminates_step {A : Type} (f g : nat -> option A) r :
  (forall fuel, g (S fuel) = f fuel) -> f ⇓ r -> g ⇓ r.
Proof.
  intros E [n H]. exists (S n). intros [|fuel] Hle; [lia|].
  rewrite E. apply H. lia.
Qed.

Lemma terminates_now {A : Type} (g : nat -> option A) r :
  (forall fuel, g (S fuel) = Some r) -> g ⇓ r.
Proof.
  intros E. exists 1%nat. intros [|fuel] Hle; [lia|]. apply E.
Qed.

Lemma terminates_bind {A B : Type} (f : nat -> option A)
    (g : nat -> A -> option B) a r :
  f ⇓ a -> (fun fuel => g fuel a) ⇓ r ->
  (fun fuel => x <- f fuel ;; g fuel x) ⇓ r.
Proof.
  intros [n1 H1] [n2 H2]. exists (Nat.max n1 n2). intros fuel Hle.
  rewrite H1 by lia. simpl. apply H2. lia.
Qed.

(** * The abstract tree and its representation in the store

    A tree records which cell plays which role: [Leaf c] is the leaf part of
    cell [c], [Node c k l r] the node part of cell [c] with [bit = k]. *)

Inductive tree : Type :=
| Leaf (c : Z)
| Node (c : Z) (k : Z) (l r : tree).

Fixpoint leaves (t : tree) : list Z :=
  match t with
  | Leaf c => [c]
  | Node _ _ l r => leaves l ++ leaves r
  end.

Fixpoint nodes (t : tree) : list Z :=
  match t with
  | Leaf _ => []
  | Node c _ l r => c :: nodes l ++ nodes r
  end.

Fixpoint first_leaf (t : tree) : Z :=
  match t with
  | Leaf c => c
  | Node _ _ l _ => first_leaf l
  end.

Fixpoint last_leaf (t : tree) : Z :=
  match t with
  | Leaf c => c
  | Node _ _ _ r => last_leaf r
  end.

(** The branch pointer that designates [t], and the parent pointer of its
    topmost part. *)
Definition ttag (t : tree) : Z :=
  match t with
  | Leaf c => eb_dotag c EB_LEAF
  | Node c _ _ _ => eb_dotag c EB_NODE
  end.

Definition up (m : mem) (t : tree) : Z :=
  match t with
  | Leaf c => get_leaf_p m c
  | Node c _ _ _ => get_node_p m c
  end.

Arguments ttag : simpl never.

Definition cell (a : Z) : Prop := aligned a /\ a <> 0.

Fixpoint acells (t : tree) : Prop :=
  match t with
  | Leaf c => cell c
  | Node c _ l r => cell c /\ acells l /\ acells r
  end.

(** Everything below the topmost part of [t] is laid out in the store. *)
Fixpoint inner (m : mem) (t : tree) : Prop :=
  match t with
  | Leaf _ => True
  | Node c k l r =>
      get_bit m c = k /\
      get_b m c EB_LEFT = ttag l /\
      get_b m c EB_RGHT = ttag r /\
      up m l = eb_dotag c EB_LEFT /\
      up m r = eb_dotag c EB_RGHT /\
      inner m l /\ inner m r
  end.

(** [t] hangs on side [s] of the branches at [p]. *)
Definition repr (m : mem) (p s : Z) (t : tree) : Prop :=
  up m t = eb_dotag p s /\ inner m t.

Lemma inner_node_intro m c k l r :
  get_bit m c = k ->
  get_b m c EB_LEFT = ttag l ->
  get_b m c EB_RGHT = ttag r ->
  up m l = eb_dotag c EB_LEFT ->
  up m r = eb_dotag c EB_RGHT ->
  inner m l -> inner m r ->
  inner m (Node c k l r).
Proof. simpl. auto 10. Qed.

Lemma repr_node_intro m p s c k l r :
  get_node_p m c = eb_dotag p s ->
  inner m (Node c k l r) ->
  repr m p s (Node c k l r).
Proof. split; auto. Qed.

Lemma repr_leaf_intro m p s c :
  get_leaf_p m c = eb_dotag p s -> repr m p s (Leaf c).
Proof. split; simpl; auto. Qed.

(** ** Lists *)

Lemma leaves_first t : exists l, leaves t = first_leaf t :: l.
Proof.
  induction t as [c|c k l [l1 IHl] r _]; simpl; eauto.
  rewrite IHl. simpl. eauto.
Qed.

Lemma leaves_last t : exists l, leaves t = l ++ [last_leaf t].
Proof.
  induction t as [c|c k l _ r [l1 IHr]]; simpl.
  - exists []. reflexivity.
  - rewrite IHr. exists (leaves l ++ l1). now rewrite app_assoc.
Qed.

Lemma leaves_nonempty t : leaves t <> [].
Proof. destruct (leaves_first t) as [l E]. rewrite E. discriminate. Qed.

Lemma first_leaf_In t : In (first_leaf t) (leaves t).
Proof. destruct (leaves_first t) as [l E]. rewrite E. now left. Qed.

Lemma last_leaf_In t : In (last_leaf t) (leaves t).
Proof.
  destruct (leaves_last t) as [l E]. rewrite E. apply in_or_app.
  right. now left.
Qed.

Lemma hd_leaves d t l : hd d (leaves t ++ l) = first_leaf t.
Proof. destruct (leaves_first t) as [l' E]. rewrite E. reflexivity. Qed.

Lemma last_leaves d t l : last (l ++ leaves t) d = last_leaf t.
Proof.
  destruct (leaves_last t) as [l' E]. rewrite E, app_assoc.
  apply last_last.
Qed.

(** Where an element of [a ++ b] sits. *)
Lemma app_split_at {A : Type} (a b l1 l2 : list A) (c : A) :
  a ++ b = l1 ++ c :: l2 ->
  (exists l2', a = l1 ++ c :: l2' /\ l2 = l2' ++ b) \/
  (exists l1', b = l1' ++ c :: l2 /\ l1 = a ++ l1').
Proof.
  revert l1. induction a as [|x a IH]; intros l1 E; simpl in *.
  - right. exists l1. auto.
  - destruct l1 as [|y l1]; simpl in *.
    + inversion E; subst. left. exists a. auto.
    + inversion E; subst. destruct (IH _ H1) as [[l2' [E1 E2]]|[l1' [E1 E2]]].
      * left. exists l2'. subst. auto.
      * right. exists l1'. subst. auto.
Qed.

Lemma NoDup_app_iff {A : Type} (l1 l2 : list A) :
  NoDup (l1 ++ l2) <->
  NoDup l1 /\ NoDup l2 /\ (forall x, In x l1 -> ~ In x l2).
Proof.
  induction l1 as [|a l1 IH]; simpl.
  - split; [intros H; repeat split; auto; constructor | tauto].
  - split.
    + intros H. inversion H as [|? ? Hn Hd]; subst.
      apply IH in Hd. destruct Hd as (H1 & H2 & H3).
      repeat split; auto.
      * constructor; auto. intro. apply Hn. apply in_or_app. auto.
      * intros x [->|Hx]; auto. intro. apply Hn. apply in_or_app. auto.
    + intros (H1 & H2 & H3). inversion H1; subst. constructor.
      * intro Hin. apply in_app_or in Hin. destruct Hin; auto.
        eapply H3; eauto.
      * apply IH. repeat split; auto.
Qed.

(** ** Alignment *)

Lemma acells_leaves t c : acells t -> In c (leaves t) -> cell c.
Proof.
  induction t; simpl; intros H Hin.
  - destruct Hin as [<-|[]]. auto.
  - apply in_app_or in Hin. tauto.
Qed.

Lemma acells_nodes t c : acells t -> In c (nodes t) -> cell c.
Proof.
  induction t; simpl; intros H Hin; [tauto|].
  destruct Hin as [<-|Hin]; [tauto|]. apply in_app_or in Hin. tauto.
Qed.

Lemma ttag_leaf c : ttag (Leaf c) = c.
Proof. unfold ttag, eb_dotag, EB_LEAF. lia. Qed.

Lemma gettag_ttag t :
  acells t ->
  eb_gettag (ttag t) = match t with Leaf _ => EB_LEAF | Node _ _ _ _ => EB_NODE end.
Proof.
  destruct t; unfold ttag; simpl; intros H; apply gettag_dotag;
    unfold cell, EB_LEAF, EB_NODE in *; try tauto; lia.
Qed.

Lemma untag_ttag_leaf c : eb_untag (ttag (Leaf c)) EB_LEAF = c.
Proof. apply untag_dotag. Qed.

Lemma untag_ttag_node c k l r : eb_untag (ttag (Node c k l r)) EB_NODE = c.
Proof. apply untag_dotag. Qed.

Lemma clrtag_ttag t : acells t -> eb_clrtag (ttag t) <> NULL.
Proof.
  destruct t; unfold ttag; simpl; intros H; rewrite clrtag_dotag;
    unfold cell, EB_LEAF, EB_NODE, NULL in *; try tauto; lia.
Qed.

Lemma ttag_nonnull t : acells t -> ttag t <> NULL.
Proof.
  destruct t; simpl; unfold ttag, cell, aligned, eb_dotag, EB_LEAF, EB_NODE, NULL;
    intros; Z.div_mod_to_equations; lia.
Qed.

(** ** Frames *)

(** [m'] agrees with [m] on the fields that lay [t] out. *)
Definition same_on (m m' : mem) (t : tree) : Prop :=
  (forall c, In c (leaves t) -> get_leaf_p m' c = get_leaf_p m c) /\
  (forall c, In c (nodes t) ->
     get_node_p m' c = get_node_p m c /\
     get_bit m' c = get_bit m c /\
     forall i, get_b m' c i = get_b m c i).

Lemma same_on_node m m' c k l r :
  same_on m m' (Node c k l r) -> same_on m m' l /\ same_on m m' r.
Proof.
  intros [H1 H2]. split; split; intros; simpl in *;
    first [apply H1 | apply H2]; rewrite ?in_app_iff; auto.
Qed.

Lemma up_same m m' t : same_on m m' t -> up m' t = up m t.
Proof.
  intros [H1 H2]. destruct t; simpl.
  - apply H1. now left.
  - apply H2. now left.
Qed.

Lemma inner_same m m' t : same_on m m' t -> inner m t -> inner m' t.
Proof.
  induction t as [c|c k l IHl r IHr]; simpl; auto.
  intros Hs (Hb & Hl & Hr & Hul & Hur & Hil & Hir).
  destruct (same_on_node _ _ _ _ _ _ Hs) as [Hsl Hsr].
  destruct Hs as [_ Hs]. destruct (Hs c (or_introl eq_refl)) as (_ & E2 & E3).
  rewrite E2, !E3, (up_same m m' l), (up_same m m' r) by assumption.
  auto 10.
Qed.

Lemma repr_same m m' p s t : same_on m m' t -> repr m p s t -> repr m' p s t.
Proof.
  intros Hs [H1 H2]. split.
  - now rewrite (up_same m m').
  - now apply inner_same with m.
Qed.

(** ** Walking down *)

Lemma walk_down_left m t :
  inner m t -> acells t ->
  (fun fuel => eb_walk_down fuel m (ttag t) EB_LEFT) ⇓ first_leaf t.
Proof.
  induction t as [c|c k l IHl r _]; intros Hi Ha.
  - apply terminates_now. intros fuel. simpl eb_walk_down.
    rewrite (gettag_ttag (Leaf c)) by assumption.
    change (EB_LEAF =? EB_NODE) with false. cbv iota.
    now rewrite untag_ttag_leaf.
  - simpl in Hi, Ha. destruct Hi as (_ & Hl & _ & _ & _ & Hil & _).
    eapply terminates_step; [|apply IHl; tauto].
    intros fuel. simpl eb_walk_down.
    rewrite (gettag_ttag (Node c k l r)) by (simpl; tauto).
    rewrite (untag_ttag_node c k l r), Hl. reflexivity.
Qed.

Lemma walk_down_right m t :
  inner m t -> acells t ->
  (fun fuel => eb_walk_down fuel m (ttag t) EB_RGHT) ⇓ last_leaf t.
Proof.
  induction t as [c|c k l _ r IHr]; intros Hi Ha.
  - apply terminates_now. intros fuel. simpl eb_walk_down.
    rewrite (gettag_ttag (Leaf c)) by assumption.
    change (EB_LEAF =? EB_NODE) with false. cbv iota.
    now rewrite untag_ttag_leaf.
  - simpl in Hi, Ha. destruct Hi as (_ & _ & Hr & _ & _ & _ & Hir).
    eapply terminates_step; [|apply IHr; tauto].
    intros fuel. simpl eb_walk_down.
    rewrite (gettag_ttag (Node c k l r)) by (simpl; tauto).
    rewrite (untag_ttag_node c k l r), Hr. reflexivity.
Qed.

(** ** Walking up: [eb_next] and [eb_prev]

    [nx] is what the walk gives once it has left [t] by its parent pointer:
    the leaf that follows [t], or [NULL]. *)

Lemma next_from_left m c t :
  cell c -> get_b m c EB_RGHT = ttag t -> inner m t -> acells t ->
  (fun fuel => eb_next_from fuel m (eb_dotag c EB_LEFT)) ⇓ first_leaf t.
Proof.
  intros [Hc Hc0] Hb Hi Ha.
  eapply terminates_step; [|apply walk_down_left; eassumption].
  intros fuel. simpl eb_next_from.
  rewrite gettag_dotag by (auto; unfold EB_LEFT; lia).
  rewrite untag_dotag, Hb. simpl.
  destruct (Z.eqb_spec (eb_clrtag (ttag t)) NULL) as [E|E]; auto.
  now apply clrtag_ttag in E.
Qed.

Lemma next_from_right m c v nx :
  cell c -> get_node_p m c = v ->
  (fun fuel => eb_next_from fuel m v) ⇓ nx ->
  (fun fuel => eb_next_from fuel m (eb_dotag c EB_RGHT)) ⇓ nx.
Proof.
  intros [Hc Hc0] Hb H.
  eapply terminates_step; [|exact H].
  intros fuel. simpl eb_next_from.
  rewrite gettag_dotag by (auto; unfold EB_RGHT; lia).
  rewrite untag_dotag. unfold eb_root_to_node. rewrite Hb. reflexivity.
Qed.

Lemma eb_next_spec m t :
  forall p s nx,
    repr m p s t -> acells t ->
    (fun fuel => eb_next_from fuel m (eb_dotag p s)) ⇓ nx ->
    forall l1 c l2, leaves t = l1 ++ c :: l2 ->
      (fun fuel => eb_next fuel m c) ⇓ hd nx l2.
Proof.
  induction t as [c0|c0 k l IHl r IHr]; intros p s nx [Hu Hi] Ha Hnx l1 c l2 E.
  - simpl in E. destruct l1 as [|x l1]; [|destruct l1; discriminate].
    inversion E; subst. simpl. unfold eb_next. simpl in Hu. now rewrite Hu.
  - simpl in Hi, Ha, Hu, E.
    destruct Hi as (Hk & Hbl & Hbr & Hul & Hur & Hil & Hir).
    destruct Ha as (Hc & Hal & Har).
    apply app_split_at in E. destruct E as [[l2' [E ->]]|[l1' [E ->]]].
    + replace (hd nx (l2' ++ leaves r)) with (hd (first_leaf r) l2').
      * eapply (IHl c0 EB_LEFT); eauto; [split; auto|].
        eapply next_from_left; eauto.
      * destruct l2'; simpl; auto. symmetry.
        rewrite <- (app_nil_r (leaves r)). apply hd_leaves.
    + eapply (IHr c0 EB_RGHT); eauto; [split; auto|].
      eapply next_from_right; eauto.
Qed.

Lemma prev_from_right m c t :
  cell c -> get_b m c EB_LEFT = ttag t -> inner m t -> acells t ->
  (fun fuel => eb_prev_from fuel m (eb_dotag c EB_RGHT)) ⇓ last_leaf t.
Proof.
  intros [Hc Hc0] Hb Hi Ha.
  eapply terminates_step; [|apply walk_down_right; eassumption].
  intros fuel. simpl eb_prev_from.
  rewrite gettag_dotag by (auto; unfold EB_RGHT; lia).
  rewrite untag_dotag, Hb. reflexivity.
Qed.

Lemma prev_from_left m c t v pv :
  cell c -> get_b m c EB_RGHT = ttag t -> acells t ->
  get_node_p m c = v ->
  (fun fuel => eb_prev_from fuel m v) ⇓ pv ->
  (fun fuel => eb_prev_from fuel m (eb_dotag c EB_LEFT)) ⇓ pv.
Proof.
  intros [Hc Hc0] Hb Ha Hv H.
  eapply terminates_step; [|exact H].
  intros fuel. simpl eb_prev_from.
  rewrite gettag_dotag by (auto; unfold EB_LEFT; lia).
  rewrite untag_dotag, Hb. simpl.
  destruct (Z.eqb_spec (eb_clrtag (ttag t)) NULL) as [E|E].
  - now apply clrtag_ttag in E.
  - unfold eb_root_to_node. now rewrite Hv.
Qed.

Lemma eb_prev_spec m t :
  forall p s pv,
    repr m p s t -> acells t ->
    (fun fuel => eb_prev_from fuel m (eb_dotag p s)) ⇓ pv ->
    forall l1 c l2, leaves t = l1 ++ c :: l2 ->
      (fun fuel => eb_prev fuel m c) ⇓ last l1 pv.
Proof.
  induction t as [c0|c0 k l IHl r IHr]; intros p s pv [Hu Hi] Ha Hpv l1 c l2 E.
  - simpl in E. destruct l1 as [|x l1]; [|destruct l1; discriminate].
    inversion E; subst. simpl. unfold eb_prev. simpl in Hu. now rewrite Hu.
  - simpl in Hi, Ha, Hu, E.
    destruct Hi as (Hk & Hbl & Hbr & Hul & Hur & Hil & Hir).
    destruct Ha as (Hc & Hal & Har).
    apply app_split_at in E. destruct E as [[l2' [E ->]]|[l1' [E ->]]].
    + eapply (IHl c0 EB_LEFT); eauto; [split; auto|].
      eapply prev_from_left; eauto.
    + replace (last (leaves l ++ l1') pv) with (last l1' (last_leaf l)).
      * eapply (IHr c0 EB_RGHT); eauto; [split; auto|].
        eapply prev_from_right; eauto.
      * destruct l1' as [|x l1'] using rev_ind.
        -- rewrite app_nil_r. symmetry. apply (last_leaves pv l []).
        -- rewrite app_assoc, !last_last. reflexivity.
Qed.

(** * Frames of the updates *)

Ltac norm_consts :=
  unfold EB_LEFT, EB_RGHT, EB_LEAF, EB_NODE, NULL, EB_NODE_BRANCHES,
         EB_NODE_BRANCH_MASK, EB_NODE_BITS, EB_NORMAL, EB_UNIQUE in *;
  simpl Z.shiftl in *.

(** No cell plays a role twice in [t]. *)
Definition distinct (t : tree) : Prop := NoDup (leaves t) /\ NoDup (nodes t).

(** The cell [n] plays no role in [t]. *)
Definition fresh (n : Z) (t : tree) : Prop :=
  ~ In n (leaves t) /\ ~ In n (nodes t).

(** What an update may change: [leaf_p] at the cells of [L]; [node_p],
    [bit] and [branches] at the cells of [N]; the branch [s] of [p]; no
    key. *)
Definition frame (m m' : mem) (L N : list Z) (p s : Z) : Prop :=
  (forall c, ~ In c L -> get_leaf_p m' c = get_leaf_p m c) /\
  (forall c, ~ In c N ->
     get_node_p m' c = get_node_p m c /\ get_bit m' c = get_bit m c) /\
  (forall c i, ~ In c N -> (c = p -> i <> s) -> get_b m' c i = get_b m c i) /\
  (forall c, get_key m' c = get_key m c).

Lemma frame_refl m L N p s : frame m m L N p s.
Proof. repeat split; auto. Qed.

Lemma frame_weaken m m' L N p s L' N' p' s' :
  frame m m' L N p s ->
  incl L L' -> incl N N' -> In p N' ->
  frame m m' L' N' p' s'.
Proof.
  intros (H1 & H2 & H3 & H4) HL HN Hp. repeat split; intros.
  - apply H1. auto.
  - apply H2. auto.
  - apply H2. auto.
  - apply H3; auto. intros ->. contradiction.
  - apply H4.
Qed.

Lemma frame_incl m m' L N p s L' N' :
  frame m m' L N p s -> incl L L' -> incl N N' -> frame m m' L' N' p s.
Proof.
  intros (H1 & H2 & H3 & H4) HL HN. repeat split; intros.
  - apply H1. auto.
  - apply H2. auto.
  - apply H2. auto.
  - apply H3; auto.
  - apply H4.
Qed.

Lemma frame_trans m1 m2 m3 L N p s :
  frame m1 m2 L N p s -> frame m2 m3 L N p s -> frame m1 m3 L N p s.
Proof.
  intros (A1 & A2 & A3 & A4) (B1 & B2 & B3 & B4). repeat split; intros.
  - rewrite B1, A1; auto.
  - destruct (B2 c H), (A2 c H). congruence.
  - destruct (B2 c H), (A2 c H). congruence.
  - rewrite B3, A3; auto.
  - rewrite B4, A4; auto.
Qed.

Lemma frame_same_on m m' L N p s t :
  frame m m' L N p s ->
  (forall c, In c (leaves t) -> ~ In c L) ->
  (forall c, In c (nodes t) -> ~ In c N) ->
  ~ In p (nodes t) ->
  same_on m m' t.
Proof.
  intros (H1 & H2 & H3 & _) HL HN Hp. split.
  - intros c Hc. apply H1. auto.
  - intros c Hc. destruct (H2 c (HN c Hc)) as [E1 E2].
    repeat split; auto. intros i. apply H3; auto.
    intros ->. contradiction.
Qed.

(** [inner] does not read the parent pointer of the topmost part. *)
Definition same_in (m m' : mem) (t : tree) : Prop :=
  match t with
  | Leaf _ => True
  | Node c _ l r =>
      get_bit m' c = get_bit m c /\
      (forall i, get_b m' c i = get_b m c i) /\
      same_on m m' l /\ same_on m m' r
  end.

Lemma inner_same_in m m' t : same_in m m' t -> inner m t -> inner m' t.
Proof.
  destruct t as [c|c k l r]; simpl; auto.
  intros (E1 & E2 & Hl & Hr) (Hk & Hbl & Hbr & Hul & Hur & Hil & Hir).
  rewrite E1, !E2, (up_same m m' l), (up_same m m' r) by assumption.
  repeat split; auto; eapply inner_same; eauto.
Qed.

Lemma same_on_in m m' t : same_on m m' t -> same_in m m' t.
Proof.
  destruct t as [c|c k l r]; simpl; auto. intros Hs.
  destruct (same_on_node _ _ _ _ _ _ Hs). destruct Hs as [_ Hs].
  destruct (Hs c (or_introl eq_refl)) as (_ & ? & ?). auto.
Qed.

(** ** Membership automation *)

Lemma distinct_node c k l r :
  distinct (Node c k l r) <->
  distinct l /\ distinct r /\
  (forall x, In x (leaves l) -> ~ In x (leaves r)) /\
  (forall x, In x (nodes l) -> ~ In x (nodes r)) /\
  ~ In c (nodes l) /\ ~ In c (nodes r).
Proof.
  unfold distinct. simpl. rewrite NoDup_cons_iff, !NoDup_app_iff, in_app_iff.
  tauto.
Qed.

Lemma fresh_node n c k l r :
  fresh n (Node c k l r) <-> n <> c /\ fresh n l /\ fresh n r.
Proof.
  unfold fresh. simpl. rewrite !in_app_iff. intuition congruence.
Qed.

Lemma fresh_leaf n c : fresh n (Leaf c) <-> n <> c.
Proof. unfold fresh. simpl. intuition congruence. Qed.

Lemma distinct_leaf c : distinct (Leaf c).
Proof. split; simpl; repeat constructor. simpl. tauto. Qed.

(** ** Putting a changed child back under its parent *)

Lemma rebuild_right m m' c k l r r' p s L N :
  repr m p s (Node c k l r) ->
  frame m m' L N c EB_RGHT ->
  ~ In c N ->
  (forall x, In x (leaves l) -> ~ In x L) ->
  (forall x, In x (nodes l) -> ~ In x N) ->
  ~ In c (nodes l) ->
  repr m' c EB_RGHT r' -> get_b m' c EB_RGHT = ttag r' ->
  repr m' p s (Node c k l r').
Proof.
  intros [Hu Hi] Hf HcN HL HN Hcl [Hu' Hi'] Hb'. simpl in Hu, Hi.
  destruct Hi as (Hk & Hbl & Hbr & Hul & Hur & Hil & Hir).
  assert (Hs : same_on m m' l) by (eapply frame_same_on; eauto).
  destruct Hf as (F1 & F2 & F3 & _). destruct (F2 c HcN) as [E1 E2].
  split; simpl.
  - congruence.
  - rewrite E2, F3, (up_same m m' l) by (auto; norm_consts; lia).
    repeat split; auto. eapply inner_same; eauto.
Qed.

Lemma rebuild_left m m' c k l r l' p s L N :
  repr m p s (Node c k l r) ->
  frame m m' L N c EB_LEFT ->
  ~ In c N ->
  (forall x, In x (leaves r) -> ~ In x L) ->
  (forall x, In x (nodes r) -> ~ In x N) ->
  ~ In c (nodes r) ->
  repr m' c EB_LEFT l' -> get_b m' c EB_LEFT = ttag l' ->
  repr m' p s (Node c k l' r).
Proof.
  intros [Hu Hi] Hf HcN HL HN Hcl [Hu' Hi'] Hb'. simpl in Hu, Hi.
  destruct Hi as (Hk & Hbl & Hbr & Hul & Hur & Hil & Hir).
  assert (Hs : same_on m m' r) by (eapply frame_same_on; eauto).
  destruct Hf as (F1 & F2 & F3 & _). destruct (F2 c HcN) as [E1 E2].
  split; simpl.
  - congruence.
  - rewrite E2, (F3 c EB_RGHT), (up_same m m' r) by (auto; norm_consts; lia).
    repeat split; auto. eapply inner_same; eauto.
Qed.

(** The branch of the parent that holds the unchanged side. *)
Lemma frame_parent_branch m m' L N c s p' s' :
  frame m m' L N c s -> ~ In p' N -> p' <> c ->
  get_b m' p' s' = get_b m p' s'.
Proof. intros (_ & _ & F3 & _) H1 H2. apply F3; auto. Qed.

(** Side conditions on cells: split what is known, then decide membership. *)
Ltac split_known :=
  repeat match goal with
  | H : distinct (Node _ _ _ _) |- _ => apply distinct_node in H
  | H : fresh _ (Node _ _ _ _) |- _ => apply fresh_node in H
  | H : fresh _ (Leaf _) |- _ => apply fresh_leaf in H
  | H : acells (Node _ _ _ _) |- _ => simpl in H
  | H : _ /\ _ |- _ => destruct H
  end.

Ltac inst_disj :=
  repeat match goal with
  | H : forall x, In x ?A -> ~ In x ?B |- _ =>
      repeat match goal with
      | H1 : In ?y _ |- _ =>
          lazymatch goal with
          | _ : In y A -> ~ In y B |- _ => fail
          | _ => pose proof (H y)
          end
      end; clear H
  end.

Ltac in_solve :=
  unfold incl, fresh in *; intros;
  repeat match goal with
  | H : _ /\ _ |- _ => destruct H
  end;
  inst_disj;
  repeat match goal with
  | H : context [nodes (Node _ _ _ _)] |- _ => simpl nodes in H
  | H : context [leaves (Node _ _ _ _)] |- _ => simpl leaves in H
  | H : context [leaves (Leaf _)] |- _ => simpl leaves in H
  | H : context [nodes (Leaf _)] |- _ => simpl nodes in H
  | H : context [In _ (_ ++ _)] |- _ => rewrite in_app_iff in H
  | H : context [In _ (_ :: _)] |- _ => simpl In in H
  | H : context [In _ []] |- _ => simpl In in H
  end;
  simpl nodes; simpl leaves;
  repeat first [progress simpl In | rewrite in_app_iff];
  solve [intuition (subst; eauto; try congruence; try lia)].

(** A frame over explicit cells, for a straight sequence of writes. *)
Ltac not_in_split :=
  repeat match goal with
  | H : ~ In _ (_ :: _) |- _ => simpl in H
  | H : ~ (_ \/ _) |- _ => apply Decidable.not_or in H; destruct H
  | H : ~ False |- _ => clear H
  | H : ~ In _ [] |- _ => clear H
  end.

Ltac frame_writes :=
  unfold frame; repeat split; intros; not_in_split; msimpl; auto;
  repeat match goal with
  | |- context [?x =? ?y] =>
      destruct (Z.eqb_spec x y); subst; simpl andb; cbv iota;
      try tauto; try lia; auto
  end.

Ltac side_cond :=
  solve [ assumption | split; auto | norm_consts; lia
        | unfold cell in *; tauto | in_solve ].

(** * Insertion on the abstract tree

    ** Duplicates: what [eb_insert_dup] does to the tree *)

(** The right-side walk: the last node met, its bit, and the deepest hole
    ([sub] with its bit). *)
Fixpoint dup_walk (t : tree) (sub subk : Z) : Z * Z * Z * Z :=
  match t with
  | Leaf c => (c, 0, sub, subk)
  | Node c k _ r =>
      match r with
      | Leaf _ => (c, k, sub, subk)
      | Node c' k' _ _ =>
          if k' >? k + 1 then dup_walk r c' k' else dup_walk r sub subk
      end
  end.

(** The new cell goes above the last leaf of the right side. *)
Fixpoint graft_leaf (n : Z) (t : tree) : tree :=
  match t with
  | Leaf c => Node n (-1) (Leaf c) (Leaf n)
  | Node c k l r => Node c k l (graft_leaf n r)
  end.

(** The new cell goes above the node [sub] of the right side. *)
Fixpoint graft_above (sub n : Z) (t : tree) : tree :=
  match t with
  | Leaf c => Leaf c
  | Node c k l r =>
      if c =? sub then Node n (k - 1) t (Leaf n)
      else Node c k l (graft_above sub n r)
  end.

Definition ins_dup (n : Z) (t : tree) : option tree :=
  match t with
  | Leaf _ => None
  | Node c k _ _ =>
      let '(_, hk, sub, subk) := dup_walk t c k in
      if hk <? -1 then Some (graft_leaf n t)
      else if subk - 1 <? SHRT_MIN then None
      else Some (graft_above sub n t)
  end.

(** The cells of the right side, top first, with their bits. *)
Fixpoint rspine (t : tree) : list (Z * Z) :=
  match t with
  | Leaf _ => []
  | Node c k _ r => (c, k) :: rspine r
  end.

(** The parent of the last leaf. *)
Fixpoint plast (p : Z) (t : tree) : Z :=
  match t with
  | Leaf _ => p
  | Node c _ _ r => plast c r
  end.

Lemma rspine_nodes t c k : In (c, k) (rspine t) -> In c (nodes t).
Proof.
  induction t as [|c0 k0 l _ r IH]; simpl; [tauto|].
  intros [E|H]; [inversion E; auto|]. right. apply in_or_app. auto.
Qed.

Lemma rspine_bit m t c k : inner m t -> In (c, k) (rspine t) -> get_bit m c = k.
Proof.
  induction t as [|c0 k0 l _ r IH]; simpl; [tauto|].
  intros (Hk & _ & _ & _ & _ & _ & Hr) [E|H]; [inversion E; subst; auto|auto].
Qed.

Lemma dup_walk_sub t : forall sub subk h hk sub' subk',
  dup_walk t sub subk = (h, hk, sub', subk') ->
  (sub', subk') = (sub, subk) \/ In (sub', subk') (rspine t).
Proof.
  induction t as [c|c k l _ r IHr]; intros sub subk h hk sub' subk' E; simpl in E.
  - inversion E; auto.
  - destruct r as [c'|c' k' l' r'].
    + inversion E; auto.
    + destruct (k' >? k + 1).
      * apply IHr in E. destruct E as [E|E].
        -- right. right. inversion E. now left.
        -- right. right. exact E.
      * apply IHr in E. destruct E as [E|E]; auto. right. right. exact E.
Qed.

Lemma dup_walk_head t : forall c k l r sub subk h hk sub' subk',
  t = Node c k l r ->
  dup_walk t sub subk = (h, hk, sub', subk') ->
  h = plast c t /\ In (h, hk) (rspine t).
Proof.
  induction t as [c0|c0 k0 l0 _ r0 IHr]; intros c k l r sub subk h hk sub' subk' Et E.
  - discriminate.
  - inversion Et; subst. simpl in E. destruct r as [c'|c' k' l' r'].
    + inversion E; subst. simpl. auto.
    + assert (H : exists s sk, dup_walk (Node c' k' l' r') s sk = (h, hk, sub', subk')).
      { destruct (k' >? k + 1); eauto. }
      destruct H as (s & sk & H).
      destruct (IHr c' k' l' r' s sk h hk sub' subk' eq_refl H) as [H1 H2].
      split; [exact H1|]. right. exact H2.
Qed.

Lemma eb_insert_dup_walk_spec m t : forall c k l r sub subk,
  t = Node c k l r -> inner m t -> acells t ->
  (fun fuel => eb_insert_dup_walk fuel m c sub) ⇓
    (let '(h, _, sub', _) := dup_walk t sub subk in (h, sub')).
Proof.
  induction t as [c0|c0 k0 l0 _ r0 IHr]; intros c k l r sub subk Et Hi Ha.
  - discriminate.
  - inversion Et; subst. simpl in Hi, Ha.
    destruct Hi as (Hk & Hbl & Hbr & Hul & Hur & Hil & Hir).
    destruct Ha as (Hc & Hal & Har).
    destruct r as [c'|c' k' l' r'].
    + apply terminates_now. intros fuel. simpl.
      rewrite Hbr, (gettag_ttag (Leaf c')) by assumption. reflexivity.
    + assert (Hk' : get_bit m c' = k') by (simpl in Hir; tauto).
      change (dup_walk (Node c k l (Node c' k' l' r')) sub subk)
        with (if k' >? k + 1 then dup_walk (Node c' k' l' r') c' k'
              else dup_walk (Node c' k' l' r') sub subk).
      eapply terminates_step with
        (f := fun fuel => eb_insert_dup_walk fuel m c'
                (if k' >? k + 1 then c' else sub)).
      * intros fuel. simpl.
        rewrite Hbr, (gettag_ttag (Node c' k' l' r')) by assumption.
        rewrite (untag_ttag_node c' k' l' r'), Hk', Hk. reflexivity.
      * destruct (k' >? k + 1).
        -- apply (IHr c' k' l' r' c' k' eq_refl Hir Har).
        -- apply (IHr c' k' l' r' sub subk eq_refl Hir Har).
Qed.

(** ** The two branches of [eb_insert_dup] on the store *)

Definition dup_link_leaf (m : mem) (head new : Z) : mem :=
  let new_left := eb_dotag new EB_LEFT in
  let new_rght := eb_dotag new EB_RGHT in
  let new_leaf := eb_dotag new EB_LEAF in
  let m := put_bit m new (-1) in
  let sub := eb_untag (get_b m head EB_RGHT) EB_LEAF in
  let m := put_b m head EB_RGHT (eb_dotag new EB_NODE) in
  let m := put_node_p m new (get_leaf_p m sub) in
  let m := put_leaf_p m new new_rght in
  let m := put_leaf_p m sub new_left in
  let m := put_b m new EB_LEFT (eb_dotag sub EB_LEAF) in
  put_b m new EB_RGHT new_leaf.

Definition dup_link_above (m : mem) (sub new : Z) : mem :=
  let new_left := eb_dotag new EB_LEFT in
  let new_rght := eb_dotag new EB_RGHT in
  let new_leaf := eb_dotag new EB_LEAF in
  let m := put_bit m new (get_bit m sub - 1) in
  let side := eb_gettag (get_node_p m sub) in
  let head := eb_untag (get_node_p m sub) side in
  let m := put_b m head side (eb_dotag new EB_NODE) in
  let m := put_node_p m new (get_node_p m sub) in
  let m := put_leaf_p m new new_rght in
  let m := put_node_p m sub new_left in
  let m := put_b m new EB_LEFT (eb_dotag sub EB_NODE) in
  put_b m new EB_RGHT new_leaf.

Lemma eb_insert_dup_unfold fuel m sub new :
  eb_insert_dup fuel m sub new =
  (hs <- eb_insert_dup_walk fuel m sub sub ;;
   if get_bit m (fst hs) <? -1 then Some (dup_link_leaf m (fst hs) new, new)
   else if get_bit m (snd hs) - 1 <? SHRT_MIN then None
   else Some (dup_link_above m (snd hs) new, new)).
Proof. reflexivity. Qed.

Lemma dup_link_leaf_spec m n h : forall t p s,
  repr m p s t -> get_b m p s = ttag t -> acells t -> distinct t ->
  fresh n t -> cell n -> p <> n -> ~ In p (nodes t) ->
  plast p t = h -> (forall c, t = Leaf c -> s = EB_RGHT) ->
  repr (dup_link_leaf m h n) p s (graft_leaf n t) /\
  get_b (dup_link_leaf m h n) p s = ttag (graft_leaf n t) /\
  frame m (dup_link_leaf m h n) (n :: leaves t) (n :: nodes t) p s.
Proof.
  induction t as [c|c k l _ r IHr];
    intros p s [Hu Hi] Hb Ha Hd Hf Hn Hpn Hp Hh Hs.
  - simpl in Hh. subst h. rewrite (Hs c eq_refl) in *. clear Hs.
    apply fresh_leaf in Hf. simpl in Hu.
    assert (Hsub : eb_untag (get_b (put_bit m n (-1)) p EB_RGHT) EB_LEAF = c).
    { msimpl. rewrite Hb. apply untag_ttag_leaf. }
    assert (Hcn : c <> n) by congruence.
    assert (Hfr : frame m (dup_link_leaf m p n) [n; c] [n] p 1).
    { unfold dup_link_leaf. rewrite Hsub. frame_writes. }
    simpl graft_leaf. split; [|split].
    + unfold dup_link_leaf. rewrite Hsub. unfold repr, ttag. simpl.
      norm_consts. repeat split; msimpl; auto.
    + unfold dup_link_leaf. rewrite Hsub. msimpl. reflexivity.
    + eapply frame_incl; eauto; in_solve.
  - simpl in Hh. simpl in Hi, Hu.
    destruct Hi as (Hk & Hbl & Hbr & Hul & Hur & Hil & Hir).
    split_known.
    destruct (IHr c EB_RGHT) as (R1 & R2 & R3); auto; try side_cond.
    assert (HcN : ~ In c (n :: nodes r)) by in_solve.
    simpl graft_leaf. split; [|split].
    + apply (rebuild_right m _ c k l r _ p s (n :: leaves r) (n :: nodes r));
        auto; try solve [in_solve].
      split; simpl; auto 10.
    + erewrite frame_parent_branch; eauto; try solve [in_solve].
    + eapply frame_weaken; eauto; try solve [in_solve].
Qed.

Lemma dup_link_above_spec m n sub subk : forall t p s,
  repr m p s t -> get_b m p s = ttag t -> acells t -> distinct t ->
  fresh n t -> cell n -> p <> n -> ~ In p (nodes t) ->
  aligned p -> 0 <= s <= 1 ->
  In (sub, subk) (rspine t) ->
  repr (dup_link_above m sub n) p s (graft_above sub n t) /\
  get_b (dup_link_above m sub n) p s = ttag (graft_above sub n t) /\
  frame m (dup_link_above m sub n) (n :: leaves t) (n :: nodes t) p s.
Proof.
  induction t as [c|c k l _ r IHr];
    intros p s [Hu Hi] Hb Ha Hd Hf Hn Hpn Hp Hap Hs Hin.
  - simpl in Hin. tauto.
  - simpl in Hin. simpl graft_above. destruct (Z.eqb_spec c sub) as [->|Hne].
    + (* the new cell goes above this node *)
      clear IHr Hin. simpl in Hu.
      assert (Hcp : sub <> p) by (intros ->; apply Hp; now left).
      assert (Hcn : n <> sub) by (apply fresh_node in Hf; tauto).
      set (m' := dup_link_above m sub n).
      assert (Hside : eb_gettag (get_node_p (put_bit m n (get_bit m sub - 1)) sub) = s).
      { msimpl. rewrite Hu. now apply gettag_dotag. }
      assert (Hhead : eb_untag (get_node_p (put_bit m n (get_bit m sub - 1)) sub) s = p).
      { msimpl. rewrite Hu. apply untag_dotag. }
      assert (Hfr : frame m m' [n] [n; sub] p s).
      { unfold m', dup_link_above. rewrite Hside, Hhead. frame_writes. }
      assert (Hin' : inner m' (Node sub k l r)).
      { apply inner_same_in with m; auto. simpl.
        split_known. split; [|split; [|split]].
        - unfold m', dup_link_above. rewrite Hside, Hhead. msimpl. reflexivity.
        - intros i. unfold m', dup_link_above. rewrite Hside, Hhead. msimpl.
          reflexivity.
        - apply (frame_same_on _ _ _ _ _ _ _ Hfr); in_solve.
        - apply (frame_same_on _ _ _ _ _ _ _ Hfr); in_solve. }
      simpl in Hi. destruct Hi as (Hk & _).
      split; [|split].
      * apply repr_node_intro; [|apply inner_node_intro]; auto;
          try (unfold up); unfold m', dup_link_above;
          rewrite Hside, Hhead; msimpl; unfold ttag; norm_consts; auto;
          try lia; try exact I.
      * unfold m', dup_link_above. rewrite Hside, Hhead. msimpl. reflexivity.
      * eapply frame_incl; eauto; in_solve.
    + destruct Hin as [E|Hin]; [inversion E; congruence|].
      simpl in Hi, Hu.
      destruct Hi as (Hk & Hbl & Hbr & Hul & Hur & Hil & Hir).
      split_known.
      destruct (IHr c EB_RGHT) as (R1 & R2 & R3); auto; try side_cond.
      assert (HcN : ~ In c (n :: nodes r)) by in_solve.
      split; [|split].
      * apply (rebuild_right m _ c k l r _ p s (n :: leaves r) (n :: nodes r));
          auto; try solve [in_solve].
        split; simpl; auto 10.
      * erewrite frame_parent_branch; eauto; try solve [in_solve].
      * eapply frame_weaken; eauto; try solve [in_solve].
Qed.

Lemma eb_insert_dup_spec m n c k l r p s t' t :
  t = Node c k l r ->
  repr m p s t -> get_b m p s = ttag t -> acells t -> distinct t ->
  fresh n t -> cell n -> p <> n -> ~ In p (nodes t) ->
  aligned p -> 0 <= s <= 1 ->
  ins_dup n t = Some t' ->
  exists m',
    (fun fuel => eb_insert_dup fuel m c n) ⇓ (m', n) /\
    repr m' p s t' /\ get_b m' p s = ttag t' /\
    frame m m' (n :: leaves t) (n :: nodes t) p s.
Proof.
  intros Et Hr Hb Ha Hd Hf Hn Hpn Hp Hap Hs Hins.
  assert (Hins' : (let '(_, hk, sub, subk) := dup_walk t c k in
                   if hk <? -1 then Some (graft_leaf n t)
                   else if subk - 1 <? SHRT_MIN then None
                   else Some (graft_above sub n t)) = Some t').
  { rewrite <- Hins. subst t. reflexivity. }
  clear Hins. rename Hins' into Hins.
  destruct (dup_walk t c k) as [[[h hk] sub] subk] eqn:E.
  destruct (dup_walk_head t c k l r c k h hk sub subk Et E) as [Hh Hhk].
  assert (Hsub : In (sub, subk) (rspine t)).
  { destruct (dup_walk_sub _ _ _ _ _ _ _ E) as [E'|H]; auto.
    inversion E'; subst. simpl. now left. }
  pose proof (rspine_bit m t h hk (proj2 Hr) Hhk) as Bh.
  pose proof (rspine_bit m t sub subk (proj2 Hr) Hsub) as Bs.
  pose proof (eb_insert_dup_walk_spec m t c k l r c k Et (proj2 Hr) Ha) as W.
  rewrite E in W.
  assert (T : forall m', 
    (if get_bit m h <? -1 then Some (dup_link_leaf m h n, n)
     else if get_bit m sub - 1 <? SHRT_MIN then None
     else Some (dup_link_above m sub n, n)) = Some (m', n) ->
    (fun fuel => eb_insert_dup fuel m c n) ⇓ (m', n)).
  { intros m' Em'.
    apply terminates_ext with
      (f := fun fuel => hs <- eb_insert_dup_walk fuel m c c ;;
              (fun (_ : nat) hs =>
                 if get_bit m (fst hs) <? -1
                 then Some (dup_link_leaf m (fst hs) n, n)
                 else if get_bit m (snd hs) - 1 <? SHRT_MIN then None
                 else Some (dup_link_above m (snd hs) n, n)) fuel hs).
    - reflexivity.
    - eapply terminates_bind; [exact W|]. simpl. rewrite Em'.
      apply terminates_const. }
  rewrite Bh, Bs in T.
  destruct (hk <? -1).
  - injection Hins as <-. eexists. split; [apply T; reflexivity|].
    subst t. apply dup_link_leaf_spec; auto. discriminate.
  - destruct (subk - 1 <? SHRT_MIN); [discriminate|].
    injection Hins as <-. eexists. split; [apply T; reflexivity|].
    apply dup_link_above_spec with subk; auto.
Qed.

(** ** The insertion of [eb32_insert] on the tree *)

Section Insert.

Context {U : UndefShift}.

(** The keys of the cells. *)
Variable kf : Z -> Z.

(** The tree is unique-mode: an equal key is refused. *)
Variable uniq : bool.

(** What is built where the descent stopped, in front of [t] whose topmost
    cell is [old]; with the tree comes the cell that is returned. *)
Definition ins_here (n : Z) (t : tree) (old : Z) : option (tree * Z) :=
  if kf n =? kf old then
    if uniq then Some (t, old)
    else
      match t with
      | Leaf _ => Some (Node n (-1) t (Leaf n), n)
      | Node _ _ _ _ => t' <- ins_dup n t ;; Some (t', n)
      end
  else if kf n >=? kf old then
    Some (Node n (flsnz (Z.lxor (kf n) (kf old)) - EB_NODE_BITS) t (Leaf n), n)
  else
    Some (Node n (flsnz (Z.lxor (kf n) (kf old)) - EB_NODE_BITS) (Leaf n) t, n).

Fixpoint ins (n : Z) (t : tree) : option (tree * Z) :=
  match t with
  | Leaf old => ins_here n t old
  | Node old k l r =>
      if (k <? 0)
         || (shr32 (Z.lxor (kf n) (kf old)) k >=? EB_NODE_BRANCHES)
      then ins_here n t old
      else if Z.land (shr32 (kf n) k) EB_NODE_BRANCH_MASK =? EB_LEFT then
        lr <- ins n l ;; Some (Node old k (fst lr) r, snd lr)
      else
        lr <- ins n r ;; Some (Node old k l (fst lr), snd lr)
  end.

End Insert.

(** * [eb32_insert] refines the insertion on the tree *)

(** The topmost cell of a tree, and the field that holds its parent
    pointer. *)
Definition tcell (t : tree) : Z :=
  match t with
  | Leaf c => c
  | Node c _ _ _ => c
  end.

Definition tfield (t : tree) : up_field :=
  match t with
  | Leaf _ => UpLeafP
  | Node _ _ _ _ => UpNodeP
  end.

(** The writes that link [new] between [root] and [old]. *)
Definition link_writes (m : mem) (new root side troot old : Z)
    (up_ptr : up_field) (ge : bool) : mem :=
  let new_left := eb_dotag new EB_LEFT in
  let new_rght := eb_dotag new EB_RGHT in
  let new_leaf := eb_dotag new EB_LEAF in
  let m :=
    if ge then
      let m := put_b m new EB_LEFT troot in
      let m := put_b m new EB_RGHT new_leaf in
      let m := put_leaf_p m new new_rght in
      put_up m old up_ptr new_left
    else
      let m := put_b m new EB_LEFT new_leaf in
      let m := put_b m new EB_RGHT troot in
      let m := put_leaf_p m new new_left in
      put_up m old up_ptr new_rght in
  put_b m root side (eb_dotag new EB_NODE).

Lemma tcell_leaves_or_nodes t :
  match t with
  | Leaf _ => In (tcell t) (leaves t)
  | Node _ _ _ _ => In (tcell t) (nodes t)
  end.
Proof. destruct t; simpl; auto. Qed.

Lemma link_writes_spec m m2 n p s t kb ge :
  repr m p s t -> acells t -> distinct t -> fresh n t -> cell n ->
  p <> n -> ~ In p (nodes t) ->
  frame m m2 [] [n] p s ->
  get_node_p m2 n = up m t -> get_bit m2 n = kb ->
  let m' := link_writes m2 n p s (ttag t) (tcell t) (tfield t) ge in
  let t' := if ge then Node n kb t (Leaf n) else Node n kb (Leaf n) t in
  repr m' p s t' /\ get_b m' p s = ttag t' /\
  frame m m' (n :: leaves t) (n :: nodes t) p s.
Proof.
  intros [Hu Hi] Ha Hd Hf Hn Hpn Hp Hfr Hnp Hbit m' t'.
  assert (Hfr2 : frame m2 m' (n :: match t with Leaf c => [c] | _ => [] end)
                       (n :: match t with Leaf _ => [] | Node c _ _ _ => [c] end)
                       p s).
  { unfold m', link_writes. destruct t, ge; simpl; frame_writes. }
  assert (Hfr' : frame m m' (n :: match t with Leaf c => [c] | _ => [] end)
                       (n :: match t with Leaf _ => [] | Node c _ _ _ => [c] end)
                       p s).
  { eapply frame_trans; [|exact Hfr2].
    eapply frame_incl; [exact Hfr| |]; in_solve. }
  assert (Hin : inner m' t).
  { apply inner_same_in with m; auto.
    destruct t as [c|c k l r]; simpl; auto.
    assert (c <> n) by (apply fresh_node in Hf; intuition congruence).
    assert (c <> p) by (intros ->; apply Hp; now left).
    destruct Hfr as (_ & F2 & F3 & _). destruct (F2 c) as [_ Eb]; [in_solve|].
    split_known.
    split; [|split; [|split]].
    - rewrite <- Eb. unfold m', link_writes. destruct ge; simpl; msimpl; auto.
    - intros i. rewrite <- (F3 c i) by in_solve.
      unfold m', link_writes. destruct ge; simpl; msimpl; auto.
    - apply (frame_same_on _ _ _ _ _ _ _ Hfr'); in_solve.
    - apply (frame_same_on _ _ _ _ _ _ _ Hfr'); in_solve. }
  assert (Hnt : n <> tcell t).
  { destruct t; [apply fresh_leaf in Hf|apply fresh_node in Hf]; simpl; tauto. }
  split; [|split].
  - unfold t'. destruct ge.
    + apply repr_node_intro; [|apply inner_node_intro]; auto;
        try (exact I); unfold m', link_writes;
        destruct t; simpl in *; msimpl; unfold ttag; norm_consts;
        try congruence; auto.
    + apply repr_node_intro; [|apply inner_node_intro]; auto;
        try (exact I); unfold m', link_writes;
        destruct t; simpl in *; msimpl; unfold ttag; norm_consts;
        try congruence; auto.
  - unfold m', t', link_writes. destruct ge; msimpl; reflexivity.
  - eapply frame_incl; [exact Hfr'| |]; destruct t; in_solve.
Qed.

Section InsertRefines.

Context {U : UndefShift}.

Lemma eb32_insert_link_unfold fuel m1 rr n p s troot old fld :
  eb32_insert_link fuel m1 rr n p s troot old fld =
  let m2 := put_bit m1 n (flsnz (Z.lxor (get_key m1 n) (get_key m1 old))
                          - EB_NODE_BITS) in
  let ge := get_key m1 n >=? get_key m1 old in
  if get_key m1 n =? get_key m1 old then
    let m3 := put_bit m2 n (-1) in
    if negb (eb_gettag rr =? 0) then Some (m3, old)
    else if negb (eb_gettag troot =? EB_LEAF) then eb_insert_dup fuel m3 old n
    else Some (link_writes m3 n p s troot old fld ge, n)
  else Some (link_writes m2 n p s troot old fld ge, n).
Proof.
  unfold eb32_insert_link, link_writes. cbv zeta.
  rewrite !get_key_put_bit.
  destruct (get_key m1 n =? get_key m1 old); [|reflexivity].
  destruct (negb (eb_gettag rr =? 0)); [reflexivity|].
  destruct (negb (eb_gettag troot =? EB_LEAF)); reflexivity.
Qed.

Lemma eb32_insert_link_spec m n p s t rr t' ret :
  repr m p s t -> get_b m p s = ttag t -> acells t -> distinct t ->
  fresh n t -> cell n -> p <> n -> ~ In p (nodes t) ->
  aligned p -> 0 <= s <= 1 ->
  ins_here (get_key m) (negb (eb_gettag rr =? 0)) n t (tcell t) = Some (t', ret) ->
  exists m',
    (fun fuel => eb32_insert_link fuel (put_node_p m n (up m t)) rr n p s
                   (ttag t) (tcell t) (tfield t)) ⇓ (m', ret) /\
    repr m' p s t' /\ get_b m' p s = ttag t' /\
    frame m m' (n :: leaves t) (n :: nodes t) p s.
Proof.
  intros Hr Hb Ha Hd Hf Hn Hpn Hp Hap Hs Hins.
  set (m1 := put_node_p m n (up m t)).
  set (kb := flsnz (Z.lxor (get_key m n) (get_key m (tcell t))) - EB_NODE_BITS).
  assert (Hk1 : forall x, get_key m1 x = get_key m x)
    by (intros; unfold m1; msimpl; reflexivity).
  assert (F2 : forall v, frame m (put_bit m1 n v) [] [n] p s)
    by (intros; unfold m1; frame_writes).
  assert (F3 : forall v w, frame m (put_bit (put_bit m1 n v) n w) [] [n] p s)
    by (intros; unfold m1; frame_writes).
  assert (Hnt : n <> tcell t).
  { destruct t; [apply fresh_leaf in Hf|apply fresh_node in Hf]; simpl; tauto. }
  assert (N2 : forall v, get_node_p (put_bit m1 n v) n = up m t)
    by (intros; unfold m1; msimpl; reflexivity).
  assert (N3 : forall v w, get_node_p (put_bit (put_bit m1 n v) n w) n = up m t)
    by (intros; unfold m1; msimpl; reflexivity).
  unfold ins_here in Hins.
  assert (T : forall r, 
    eb32_insert_link 0 m1 rr n p s (ttag t) (tcell t) (tfield t) = Some r ->
    (fun fuel => eb32_insert_link fuel m1 rr n p s (ttag t) (tcell t) (tfield t)) ⇓ r).
  { intros r E. exists 0%nat. intros fuel _.
    rewrite eb32_insert_link_unfold in E. rewrite <- E.
    rewrite eb32_insert_link_unfold. cbv zeta in *.
    destruct (get_key m1 n =? get_key m1 (tcell t)); [|reflexivity].
    destruct (negb (eb_gettag rr =? 0)); [reflexivity|].
    destruct (negb (eb_gettag (ttag t) =? EB_LEAF)) eqn:Eg; [|reflexivity].
    rewrite eb_insert_dup_unfold in E. simpl in E. discriminate. }
  destruct (get_key m n =? get_key m (tcell t)) eqn:Ek.
  - destruct (negb (eb_gettag rr =? 0)) eqn:Eu.
    + (* unique mode: the key is refused *)
      injection Hins as <- <-. eexists. split; [|split; [|split]].
      * apply T. rewrite eb32_insert_link_unfold. cbv zeta.
        rewrite !Hk1, Ek, Eu. reflexivity.
      * eapply repr_same; [|exact Hr].
        apply (frame_same_on _ _ _ _ _ _ _ (F3 _ _)); in_solve.
      * unfold m1. msimpl. exact Hb.
      * eapply frame_incl; [apply F3| |]; in_solve.
    + destruct t as [c|c k l r].
      * (* a first duplicate, beside a leaf *)
        injection Hins as <- <-.
        pose proof (link_writes_spec m (put_bit (put_bit m1 n kb) n (-1))
                      n p s (Leaf c) (-1) true Hr Ha Hd Hf Hn Hpn Hp
                      (F3 _ _) (N3 _ _)) as L.
        simpl in L. eexists. split; [|apply L; unfold m1; msimpl; reflexivity].
        apply T. rewrite eb32_insert_link_unfold. cbv zeta.
        rewrite !Hk1, Ek, Eu. simpl tcell in *.
        rewrite (gettag_ttag (Leaf c)) by assumption.
        change (negb (EB_LEAF =? EB_LEAF)) with false. cbv iota.
        apply Z.eqb_eq in Ek.
        replace (get_key m n >=? get_key m c) with true
          by (symmetry; apply Z.geb_le; lia).
        reflexivity.
      * (* one more duplicate in a tree of duplicates *)
        destruct (ins_dup n (Node c k l r)) as [td|] eqn:Ed; [|discriminate].
        simpl in Hins. injection Hins as <- <-.
        set (m3 := put_bit (put_bit m1 n kb) n (-1)).
        assert (Hr3 : repr m3 p s (Node c k l r)).
        { eapply repr_same; [|exact Hr].
          apply (frame_same_on _ _ _ _ _ _ _ (F3 _ _)); in_solve. }
        assert (Hb3 : get_b m3 p s = ttag (Node c k l r)).
        { unfold m3, m1. msimpl. exact Hb. }
        destruct (eb_insert_dup_spec m3 n c k l r p s td (Node c k l r)
                    eq_refl Hr3 Hb3 Ha Hd Hf Hn Hpn Hp Hap Hs Ed)
          as (m' & T' & R1 & R2 & R3).
        exists m'. split; [|split; [|split]]; auto.
        -- eapply terminates_ext; [|exact T']. intros fuel. cbv beta.
           rewrite eb32_insert_link_unfold. cbv zeta.
           rewrite !Hk1, Ek, Eu. simpl tcell.
           rewrite (gettag_ttag (Node c k l r)) by assumption.
           reflexivity.
        -- eapply frame_trans; [|exact R3].
           eapply frame_incl; [apply F3| |]; in_solve.
  - (* a new key *)
    assert (E : exists ge, (get_key m n >=? get_key m (tcell t)) = ge /\
              Some (if ge then Node n kb t (Leaf n) else Node n kb (Leaf n) t, n)
              = Some (t', ret)).
    { destruct (get_key m n >=? get_key m (tcell t)); eauto. }
    destruct E as (ge & Ege & E). injection E as <- <-.
    pose proof (link_writes_spec m (put_bit m1 n kb) n p s t kb ge
                  Hr Ha Hd Hf Hn Hpn Hp (F2 _) (N2 _)) as L.
    eexists. split; [|apply L; unfold m1; msimpl; reflexivity].
    apply T. rewrite eb32_insert_link_unfold. cbv zeta.
    rewrite !Hk1, Ek, Ege. reflexivity.
Qed.

Lemma land_mask_cases x :
  Z.land x EB_NODE_BRANCH_MASK = 0 \/ Z.land x EB_NODE_BRANCH_MASK = 1.
Proof.
  norm_consts. change (2 - 1) with 1. rewrite land_1.
  Z.div_mod_to_equations. lia.
Qed.

Lemma eb32_insert_from_spec m n rr : forall t p s t' ret,
  repr m p s t -> get_b m p s = ttag t -> acells t -> distinct t ->
  fresh n t -> cell n -> p <> n -> ~ In p (nodes t) ->
  aligned p -> 0 <= s <= 1 ->
  ins (get_key m) (negb (eb_gettag rr =? 0)) n t = Some (t', ret) ->
  exists m',
    (fun fuel => eb32_insert_from fuel m rr n (get_key m n) p s (ttag t))
      ⇓ (m', ret) /\
    repr m' p s t' /\ get_b m' p s = ttag t' /\
    frame m m' (n :: leaves t) (n :: nodes t) p s.
Proof.
  induction t as [c|c k l IHl r IHr];
    intros p s t' ret Hr Hb Ha Hd Hf Hn Hpn Hp Hap Hs Hins.
  - simpl in Hins.
    destruct (eb32_insert_link_spec m n p s (Leaf c) rr t' ret)
      as (m' & T & R); auto.
    exists m'. split; [|exact R].
    eapply terminates_step; [|exact T]. intros fuel. simpl eb32_insert_from.
    rewrite (gettag_ttag (Leaf c)) by assumption.
    change (EB_LEAF =? EB_LEAF) with true. cbv iota.
    rewrite untag_ttag_leaf. reflexivity.
  - simpl in Hins.
    pose proof Hr as [Hu Hi]. simpl in Hi.
    destruct Hi as (Hk & Hbl & Hbr & Hul & Hur & Hil & Hir).
    assert (Estep : forall fuel,
      eb32_insert_from (S fuel) m rr n (get_key m n) p s (ttag (Node c k l r)) =
      if (k <? 0) || (shr32 (Z.lxor (get_key m n) (get_key m c)) k
                      >=? EB_NODE_BRANCHES)
      then eb32_insert_link fuel (put_node_p m n (get_node_p m c)) rr n p s
             (ttag (Node c k l r)) c UpNodeP
      else eb32_insert_from fuel m rr n (get_key m n) c
             (Z.land (shr32 (get_key m n) k) EB_NODE_BRANCH_MASK)
             (get_b m c (Z.land (shr32 (get_key m n) k) EB_NODE_BRANCH_MASK))).
    { intros fuel. simpl eb32_insert_from.
      rewrite (gettag_ttag (Node c k l r)) by assumption.
      change (EB_NODE =? EB_LEAF) with false. cbv iota.
      rewrite untag_ttag_node, Hk. reflexivity. }
    destruct ((k <? 0) || (shr32 (Z.lxor (get_key m n) (get_key m c)) k
                           >=? EB_NODE_BRANCHES)) eqn:Estop.
    + destruct (eb32_insert_link_spec m n p s (Node c k l r) rr t' ret)
        as (m' & T & R); auto.
      exists m'. split; [|exact R].
      eapply terminates_step; [|exact T]. intros fuel.
      rewrite Estep. reflexivity.
    + split_known.
      assert (Hcn : c <> n) by congruence.
      assert (Hcp : c <> p) by (intros ->; apply Hp; now left).
      destruct (land_mask_cases (shr32 (get_key m n) k)) as [Es|Es];
        rewrite Es in *; simpl in Hins.
      * destruct (ins (get_key m) (negb (eb_gettag rr =? 0)) n l)
          as [[l' ret']|] eqn:El; [|discriminate].
        simpl in Hins. injection Hins as <- <-.
        destruct (IHl c EB_LEFT l' ret') as (m' & T & R1 & R2 & R3);
          auto; try side_cond.
        exists m'.
        assert (HcN : ~ In c (n :: nodes l)) by in_solve.
        split; [|split; [|split]].
        -- eapply terminates_step; [|exact T]. intros fuel.
           rewrite Estep. change 0 with EB_LEFT. rewrite Hbl. reflexivity.
        -- apply (rebuild_left m _ c k l r _ p s (n :: leaves l) (n :: nodes l));
             auto; try solve [in_solve].
        -- erewrite frame_parent_branch; eauto; try solve [in_solve].
        -- eapply frame_weaken; eauto; try solve [in_solve].
      * destruct (ins (get_key m) (negb (eb_gettag rr =? 0)) n r)
          as [[r' ret']|] eqn:El; [|discriminate].
        simpl in Hins. injection Hins as <- <-.
        destruct (IHr c EB_RGHT r' ret') as (m' & T & R1 & R2 & R3);
          auto; try side_cond.
        exists m'.
        assert (HcN : ~ In c (n :: nodes r)) by in_solve.
        split; [|split; [|split]].
        -- eapply terminates_step; [|exact T]. intros fuel.
           rewrite Estep. change 1 with EB_RGHT. rewrite Hbr. reflexivity.
        -- apply (rebuild_right m _ c k l r _ p s (n :: leaves r) (n :: nodes r));
             auto; try solve [in_solve].
        -- erewrite frame_parent_branch; eauto; try solve [in_solve].
        -- eapply frame_weaken; eauto; try solve [in_solve].
Qed.

(** ** A refused insertion

    When [eb32_insert] returns another cell than [new], it has written the
    [node_p] and the [bit] of [new] and nothing else. *)

Definition untouched (m m' : mem) (n : Z) : Prop :=
  forall c,
    get_leaf_p m' c = get_leaf_p m c /\
    get_key m' c = get_key m c /\
    (forall i, get_b m' c i = get_b m c i) /\
    (c <> n -> get_node_p m' c = get_node_p m c /\ get_bit m' c = get_bit m c).

Lemma eb_insert_dup_ret fuel m sub n m' ret :
  eb_insert_dup fuel m sub n = Some (m', ret) -> ret = n.
Proof.
  rewrite eb_insert_dup_unfold.
  destruct (eb_insert_dup_walk fuel m sub sub) as [hs|]; simpl; [|discriminate].
  destruct (get_bit m (fst hs) <? -1); [congruence|].
  destruct (get_bit m (snd hs) - 1 <? SHRT_MIN); congruence.
Qed.

Lemma eb32_insert_link_reject fuel m v rr n p s troot old fld m' ret :
  eb32_insert_link fuel (put_node_p m n v) rr n p s troot old fld
    = Some (m', ret) ->
  ret <> n -> untouched m m' n.
Proof.
  rewrite eb32_insert_link_unfold. cbv zeta. intros H Hne.
  destruct (_ =? _) in H; [|congruence].
  destruct (negb (eb_gettag rr =? 0)).
  - injection H as <- <-. intros c. repeat split; intros; msimpl; reflexivity.
  - destruct (negb (eb_gettag troot =? EB_LEAF)); [|congruence].
    apply eb_insert_dup_ret in H. congruence.
Qed.

Lemma eb32_insert_from_reject rr n key : forall fuel m p s troot m' ret,
  eb32_insert_from fuel m rr n key p s troot = Some (m', ret) ->
  ret <> n -> untouched m m' n.
Proof.
  induction fuel as [|fuel IH]; intros m p s troot m' ret H Hne;
    [discriminate|].
  simpl in H. destruct (eb_gettag troot =? EB_LEAF).
  - eapply eb32_insert_link_reject; eauto.
  - destruct (_ || _).
    + eapply eb32_insert_link_reject; eauto.
    + eapply IH; eauto.
Qed.

End InsertRefines.

(** * Deletion

    ** On the tree *)

Definition is_leaf (c : Z) (t : tree) : bool :=
  match t with
  | Leaf x => x =? c
  | Node _ _ _ _ => false
  end.

Definition inb (c : Z) (l : list Z) : bool := existsb (Z.eqb c) l.

(** The leaf [c] goes away with its parent node, whose cell is returned;
    the sibling takes the place of the parent. *)
Fixpoint unlink (c : Z) (t : tree) : option (tree * Z) :=
  match t with
  | Leaf _ => None
  | Node q k l r =>
      if is_leaf c l then Some (r, q)
      else if is_leaf c r then Some (l, q)
      else if inb c (leaves l) then
        lp <- unlink c l ;; Some (Node q k (fst lp) r, snd lp)
      else
        rp <- unlink c r ;; Some (Node q k l (fst rp), snd rp)
  end.

(** The node part of [c] is taken over by the cell [q]. *)
Fixpoint rename (c q : Z) (t : tree) : tree :=
  match t with
  | Leaf x => Leaf x
  | Node x k l r =>
      Node (if x =? c then q else x) k (rename c q l) (rename c q r)
  end.

Lemma inb_In c l : inb c l = true <-> In c l.
Proof.
  unfold inb. rewrite existsb_exists. split.
  - intros (x & Hx & E). apply Z.eqb_eq in E. now subst.
  - intros H. exists c. split; auto. apply Z.eqb_refl.
Qed.

Lemma inb_not_In c l : inb c l = false <-> ~ In c l.
Proof.
  rewrite <- inb_In. destruct (inb c l); intuition congruence.
Qed.

Lemma is_leaf_true c t : is_leaf c t = true <-> t = Leaf c.
Proof.
  destruct t; simpl; [rewrite Z.eqb_eq|]; intuition congruence.
Qed.

Lemma rename_id c q t : ~ In c (nodes t) -> rename c q t = t.
Proof.
  induction t as [x|x k l IHl r IHr]; simpl; auto.
  rewrite in_app_iff. intros H.
  destruct (Z.eqb_spec x c); [tauto|]. rewrite IHl, IHr by tauto. reflexivity.
Qed.

Lemma rename_leaves c q t : leaves (rename c q t) = leaves t.
Proof. induction t; simpl; congruence. Qed.

Lemma rename_ttag_other c q t : tcell t <> c \/ is_leaf (tcell t) t = true ->
  ttag (rename c q t) = ttag t.
Proof.
  destruct t as [x|x k l r]; simpl; auto.
  intros [H|H]; [|discriminate]. destruct (Z.eqb_spec x c); tauto.
Qed.

(** ** On the store: the two stages of [eb_delete] *)

(** The sibling of [node] is reparented to the grand parent, and the
    parent's node part is released. *)
Definition delete_unlink_writes (m : mem) (node : Z) : mem :=
  let pside := eb_gettag (get_leaf_p m node) in
  let parent := eb_root_to_node (eb_untag (get_leaf_p m node) pside) in
  let gpside := eb_gettag (get_node_p m parent) in
  let gparent := eb_untag (get_node_p m parent) gpside in
  let m := put_b m gparent gpside (get_b m parent (lnot_side pside)) in
  let sibtype := eb_gettag (get_b m gparent gpside) in
  let m :=
    if sibtype =? EB_LEAF then
      put_leaf_p m (eb_root_to_node (eb_untag (get_b m gparent gpside) EB_LEAF))
                 (eb_dotag gparent gpside)
    else
      put_node_p m (eb_root_to_node (eb_untag (get_b m gparent gpside) EB_NODE))
                 (eb_dotag gparent gpside) in
  put_node_p m parent NULL.

(** The released [parent] replaces the node part of [node]. *)
Definition delete_replace_writes (m : mem) (node parent : Z) : mem :=
  let m := put_node_p m parent (get_node_p m node) in
  let m := put_branches m parent (branches (m node)) in
  let m := put_bit m parent (get_bit m node) in
  let gpside := eb_gettag (get_node_p m parent) in
  let gparent := eb_untag (get_node_p m parent) gpside in
  let m := put_b m gparent gpside (eb_dotag parent EB_NODE) in
  let m := eb_delete_fix_child m parent 0 in
  eb_delete_fix_child m parent 1.

Lemma eb_delete_unfold m node :
  eb_delete m node =
  if get_leaf_p m node =? NULL then m
  else
    let pside := eb_gettag (get_leaf_p m node) in
    let parent := eb_root_to_node (eb_untag (get_leaf_p m node) pside) in
    if eb_clrtag (get_b m parent EB_RGHT) =? NULL then
      put_leaf_p (put_b m parent EB_LEFT NULL) node NULL
    else
      let m3 := delete_unlink_writes m node in
      if get_node_p m3 node =? NULL then put_leaf_p m3 node NULL
      else put_leaf_p (delete_replace_writes m3 node parent) node NULL.
Proof. reflexivity. Qed.

(** Writing the parent pointer of the topmost part of a tree. *)
Definition set_up (m : mem) (t : tree) (v : Z) : mem :=
  put_up m (tcell t) (tfield t) v.

Lemma delete_unlink_writes_eq m c q side p s sib :
  cell q -> aligned p -> 0 <= s <= 1 -> 0 <= side <= 1 -> acells sib ->
  get_leaf_p m c = eb_dotag q side ->
  get_node_p m q = eb_dotag p s ->
  get_b m q (lnot_side side) = ttag sib ->
  delete_unlink_writes m c =
  put_node_p (set_up (put_b m p s (ttag sib)) sib (eb_dotag p s)) q NULL.
Proof.
  intros [Hq Hq0] Hp Hs Hside Ha Hl Hn Hb.
  unfold delete_unlink_writes, eb_root_to_node. cbv zeta.
  rewrite Hl, (gettag_dotag q side), untag_dotag by assumption.
  rewrite Hn, (gettag_dotag p s), untag_dotag by assumption.
  rewrite Hb. msimpl. rewrite gettag_ttag by assumption.
  destruct sib as [x|x k l r]; unfold set_up; simpl.
  - rewrite untag_ttag_leaf. reflexivity.
  - rewrite untag_ttag_node. reflexivity.
Qed.

Lemma unlink_here_spec m q p s sib :
  inner m sib -> acells sib -> distinct sib ->
  ~ In q (nodes sib) -> ~ In p (nodes sib) -> p <> q ->
  let m' := put_node_p (set_up (put_b m p s (ttag sib)) sib (eb_dotag p s)) q NULL in
  repr m' p s sib /\ get_b m' p s = ttag sib /\
  frame m m' (leaves sib) (q :: nodes sib) p s /\
  get_node_p m' q = NULL.
Proof.
  intros Hi Ha Hd Hq Hp Hpq m'.
  assert (Hfr : frame m m' (match sib with Leaf c => [c] | _ => [] end)
                      (q :: match sib with Leaf _ => [] | Node c _ _ _ => [c] end)
                      p s).
  { unfold m', set_up. destruct sib; simpl; frame_writes. }
  assert (Hin : inner m' sib).
  { apply inner_same_in with m; auto.
    destruct sib as [c|c k l r]; simpl; auto.
    assert (c <> q) by (intros ->; apply Hq; now left).
    assert (c <> p) by (intros ->; apply Hp; now left).
    split_known.
    split; [|split; [|split]].
    - unfold m', set_up. simpl. msimpl. reflexivity.
    - intros i. unfold m', set_up. simpl. msimpl. reflexivity.
    - apply (frame_same_on _ _ _ _ _ _ _ Hfr); in_solve.
    - apply (frame_same_on _ _ _ _ _ _ _ Hfr); in_solve. }
  split; [|split; [|split]].
  - split; auto. unfold m', set_up.
    destruct sib as [c|c k l r]; simpl; msimpl; auto.
    assert (c <> q) by (intros ->; apply Hq; now left).
    msimpl. reflexivity.
  - unfold m', set_up. destruct sib; simpl; msimpl; reflexivity.
  - eapply frame_incl; [exact Hfr| |]; destruct sib; in_solve.
  - unfold m'. msimpl. reflexivity.
Qed.

Lemma lnot_side_0 : lnot_side EB_LEFT = EB_RGHT.
Proof. reflexivity. Qed.

Lemma lnot_side_1 : lnot_side EB_RGHT = EB_LEFT.
Proof. reflexivity. Qed.

Lemma delete_unlink_spec m c : forall t p s,
  repr m p s t -> get_b m p s = ttag t -> acells t -> distinct t ->
  ~ In p (nodes t) -> aligned p -> 0 <= s <= 1 ->
  In c (leaves t) -> t <> Leaf c ->
  exists t' q,
    unlink c t = Some (t', q) /\
    q = eb_untag (get_leaf_p m c) (eb_gettag (get_leaf_p m c)) /\
    In q (nodes t) /\
    eb_clrtag (get_b m q EB_RGHT) <> NULL /\
    repr (delete_unlink_writes m c) p s t' /\
    get_b (delete_unlink_writes m c) p s = ttag t' /\
    frame m (delete_unlink_writes m c) (leaves t) (nodes t) p s /\
    get_node_p (delete_unlink_writes m c) q = NULL.
Proof.
  induction t as [x|x k l IHl r IHr];
    intros p s Hr Hb Ha Hd Hp Hap Hs Hc Hne.
  - simpl in Hc. destruct Hc as [->|[]]. congruence.
  - pose proof Hr as [Hu Hi]. simpl in Hu, Hi.
    destruct Hi as (Hk & Hbl & Hbr & Hul & Hur & Hil & Hir).
    assert (Hxp : p <> x) by (intros ->; apply Hp; now left).
    pose proof Ha as Ha'. pose proof Hd as Hd'. split_known.
    assert (Hal : aligned x) by (unfold cell in *; tauto).
    assert (Hclr : eb_clrtag (get_b m x EB_RGHT) <> NULL)
      by (rewrite Hbr; now apply clrtag_ttag).
    simpl unlink. destruct (is_leaf c l) eqn:El; [|destruct (is_leaf c r) eqn:Er].
    + (* the left child is the leaf *)
      apply is_leaf_true in El. subst l. simpl in Hul.
      exists r, x.
      rewrite (delete_unlink_writes_eq m c x EB_LEFT p s r); auto;
        try side_cond.
      destruct (unlink_here_spec m x p s r) as (R1 & R2 & R3 & R4); auto;
        try solve [in_solve].
      rewrite Hul, gettag_dotag, untag_dotag by side_cond.
      split; [reflexivity|]. split; [reflexivity|]. split; [now left|].
      split; [assumption|]. split; [exact R1|]. split; [exact R2|].
      split; [|exact R4].
      eapply frame_incl; [exact R3| |]; in_solve.
    + (* the right child is the leaf *)
      apply is_leaf_true in Er. subst r. simpl in Hur.
      exists l, x.
      rewrite (delete_unlink_writes_eq m c x EB_RGHT p s l); auto;
        try side_cond.
      destruct (unlink_here_spec m x p s l) as (R1 & R2 & R3 & R4); auto;
        try solve [in_solve].
      rewrite Hur, gettag_dotag, untag_dotag by side_cond.
      split; [reflexivity|]. split; [reflexivity|]. split; [now left|].
      split; [assumption|]. split; [exact R1|]. split; [exact R2|].
      split; [|exact R4].
      eapply frame_incl; [exact R3| |]; in_solve.
    + assert (Hnl : l <> Leaf c)
        by (intros E; apply is_leaf_true in E; congruence).
      assert (Hnr : r <> Leaf c)
        by (intros E; apply is_leaf_true in E; congruence).
      simpl in Hc. apply in_app_or in Hc.
      destruct (inb c (leaves l)) eqn:Ein.
      * apply inb_In in Ein.
        destruct (IHl x EB_LEFT) as (l' & q & E & Eq & Hq & Hcl & R1 & R2 & R3 & R4);
          auto; try side_cond.
        rewrite E. simpl. exists (Node x k l' r), q.
        assert (HxN : ~ In x (nodes l)) by assumption.
        split; [reflexivity|]. split; [exact Eq|].
        split; [right; apply in_or_app; auto|]. split; [assumption|].
        split; [|split; [|split; [|exact R4]]].
        -- apply (rebuild_left m _ x k l r l' p s (leaves l) (nodes l));
             auto; try solve [in_solve].
        -- erewrite frame_parent_branch; eauto; try solve [in_solve].
        -- eapply frame_weaken; eauto; try solve [in_solve].
      * apply inb_not_In in Ein. destruct Hc as [Hc|Hc]; [tauto|].
        destruct (IHr x EB_RGHT) as (r' & q & E & Eq & Hq & Hcl & R1 & R2 & R3 & R4);
          auto; try side_cond.
        rewrite E. simpl. exists (Node x k l r'), q.
        assert (HxN : ~ In x (nodes r)) by assumption.
        split; [reflexivity|]. split; [exact Eq|].
        split; [right; apply in_or_app; auto|]. split; [assumption|].
        split; [|split; [|split; [|exact R4]]].
        -- apply (rebuild_right m _ x k l r r' p s (leaves r) (nodes r));
             auto; try solve [in_solve].
        -- erewrite frame_parent_branch; eauto; try solve [in_solve].
        -- eapply frame_weaken; eauto; try solve [in_solve].
Qed.

Definition up_leaf (t : tree) : list Z :=
  match t with
  | Leaf c => [c]
  | Node _ _ _ _ => []
  end.

Definition up_node (t : tree) : list Z :=
  match t with
  | Leaf _ => []
  | Node c _ _ _ => [c]
  end.

Lemma eb_delete_fix_child_eq m q side t :
  acells t -> get_b m q side = ttag t ->
  eb_delete_fix_child m q side = set_up m t (eb_dotag q side).
Proof.
  intros Ha Hb. unfold eb_delete_fix_child, set_up, eb_root_to_node.
  rewrite Hb, gettag_ttag by assumption.
  destruct t; simpl.
  - now rewrite untag_ttag_leaf.
  - now rewrite untag_ttag_node.
Qed.

Lemma delete_replace_writes_eq m c q k l r p s :
  repr m p s (Node c k l r) -> acells (Node c k l r) ->
  aligned p -> 0 <= s <= 1 -> c <> q -> p <> q ->
  delete_replace_writes m c q =
  set_up (set_up (put_b (put_bit (put_branches (put_node_p m q (eb_dotag p s))
                                    q (branches (m c))) q k)
                        p s (eb_dotag q EB_NODE))
                 l (eb_dotag q EB_LEFT))
         r (eb_dotag q EB_RGHT).
Proof.
  intros [Hu Hi] Ha Hp Hs Hcq Hpq. simpl in Hu, Hi, Ha.
  destruct Hi as (Hk & Hbl & Hbr & _). destruct Ha as (_ & Hal & Har).
  unfold delete_replace_writes. cbv zeta.
  assert (E1 : branches (put_node_p m q (get_node_p m c) c) = branches (m c)).
  { unfold put_node_p, upd. destruct (Z.eqb_spec c q); [contradiction|reflexivity]. }
  rewrite E1. msimpl. rewrite Hu, Hk.
  rewrite gettag_dotag, untag_dotag by assumption.
  rewrite (eb_delete_fix_child_eq _ q 0 l); auto.
  - rewrite (eb_delete_fix_child_eq _ q 1 r); auto.
    unfold set_up. destruct l; simpl; msimpl; rewrite branches_get_b; exact Hbr.
  - msimpl. rewrite branches_get_b. exact Hbl.
Qed.

Lemma delete_replace_here m c q k l r p s :
  repr m p s (Node c k l r) -> acells (Node c k l r) ->
  distinct (Node c k l r) -> ~ In p (nodes (Node c k l r)) ->
  ~ In q (nodes (Node c k l r)) -> p <> q ->
  let m' :=
    set_up (set_up (put_b (put_bit (put_branches (put_node_p m q (eb_dotag p s))
                                      q (branches (m c))) q k)
                          p s (eb_dotag q EB_NODE))
                   l (eb_dotag q EB_LEFT))
           r (eb_dotag q EB_RGHT) in
  repr m' p s (Node q k l r) /\ get_b m' p s = ttag (Node q k l r) /\
  frame m m' (leaves (Node c k l r)) (q :: nodes (Node c k l r)) p s.
Proof.
  intros [Hu Hi] Ha Hd Hp Hq Hpq m'. simpl in Hu, Hi.
  destruct Hi as (Hk & Hbl & Hbr & Hul & Hur & Hil & Hir).
  assert (Hfr : frame m m' (up_leaf l ++ up_leaf r)
                      (q :: up_node l ++ up_node r) p s).
  { unfold m', set_up. destruct l, r; simpl; frame_writes. }
  assert (Hsub : forall t, t = l \/ t = r -> inner m' t).
  { intros t Ht.
    assert (Hit : inner m t) by (destruct Ht; subst; auto).
    apply inner_same_in with m; auto.
    destruct t as [x|x kx lx rx]; simpl; auto.
    assert (Hx : In x (nodes l ++ nodes r)).
    { apply in_or_app. destruct Ht as [<-|<-]; simpl; auto. }
    assert (x <> q) by (intros ->; apply Hq; now right).
    assert (x <> p) by (intros ->; apply Hp; now right).
    assert (Dl : distinct l /\ distinct r) by (apply distinct_node in Hd; tauto).
    split; [|split; [|split]].
    - unfold m', set_up. destruct l, r; simpl; msimpl; reflexivity.
    - intros i. unfold m', set_up. destruct l, r; simpl; msimpl; reflexivity.
    - apply (frame_same_on _ _ _ _ _ _ _ Hfr);
        destruct Ht as [<-|<-]; destruct Dl as [D1 D2];
        try (destruct l); try (destruct r); split_known; in_solve.
    - apply (frame_same_on _ _ _ _ _ _ _ Hfr);
        destruct Ht as [<-|<-]; destruct Dl as [D1 D2];
        try (destruct l); try (destruct r); split_known; in_solve. }
  split; [|split].
  - apply repr_node_intro; [|apply inner_node_intro]; auto;
      unfold m', set_up; split_known; unfold up;
      destruct l, r; simpl in *; msimpl; rewrite ?branches_get_b;
      try assumption; try reflexivity;
      match goal with
      | |- context [?a =? ?b] =>
          destruct (Z.eqb_spec a b); auto; subst; exfalso; in_solve
      end.
  - unfold m', set_up. destruct l, r; simpl; msimpl; reflexivity.
  - eapply frame_incl; [exact Hfr| |]; destruct l, r;
      unfold up_leaf, up_node; simpl app; in_solve.
Qed.

Lemma delete_replace_spec m c q : forall t p s,
  repr m p s t -> get_b m p s = ttag t -> acells t -> distinct t ->
  ~ In p (nodes t) -> aligned p -> 0 <= s <= 1 -> p <> q -> c <> q ->
  In c (nodes t) -> ~ In q (nodes t) ->
  repr (delete_replace_writes m c q) p s (rename c q t) /\
  get_b (delete_replace_writes m c q) p s = ttag (rename c q t) /\
  frame m (delete_replace_writes m c q) (leaves t) (q :: nodes t) p s.
Proof.
  induction t as [x|x k l IHl r IHr];
    intros p s Hr Hb Ha Hd Hp Hap Hs Hpq Hcq Hc Hq.
  - simpl in Hc. tauto.
  - simpl rename. destruct (Z.eqb_spec x c) as [->|Hne].
    + pose proof Hd as Hd'. apply distinct_node in Hd'.
      rewrite !rename_id by tauto.
      rewrite (delete_replace_writes_eq m c q k l r p s); auto.
      apply delete_replace_here; auto.
    + pose proof Hr as [Hu Hi]. simpl in Hu, Hi.
      destruct Hi as (Hk & Hbl & Hbr & Hul & Hur & Hil & Hir).
      assert (Hxp : p <> x) by (intros ->; apply Hp; now left).
      assert (Hxq : x <> q) by (intros ->; apply Hq; now left).
      pose proof Ha as Ha'. pose proof Hd as Hd'. split_known.
      assert (Hal : aligned x) by (unfold cell in *; tauto).
      simpl in Hc. destruct Hc as [Hc|Hc]; [congruence|].
      apply in_app_or in Hc. destruct Hc as [Hc|Hc].
      * assert (Hcr : ~ In c (nodes r)) by in_solve.
        rewrite (rename_id c q r) by assumption.
        destruct (IHl x EB_LEFT) as (R1 & R2 & R3); auto; try side_cond.
        assert (HxN : ~ In x (q :: nodes l)) by in_solve.
        split; [|split].
        -- apply (rebuild_left m _ x k l r _ p s (leaves l) (q :: nodes l));
             auto; try solve [in_solve].
        -- erewrite frame_parent_branch; eauto; try solve [in_solve].
        -- eapply frame_weaken; eauto; try solve [in_solve].
      * assert (Hcl : ~ In c (nodes l)) by in_solve.
        rewrite (rename_id c q l) by assumption.
        destruct (IHr x EB_RGHT) as (R1 & R2 & R3); auto; try side_cond.
        assert (HxN : ~ In x (q :: nodes r)) by in_solve.
        split; [|split].
        -- apply (rebuild_right m _ x k l r _ p s (leaves r) (q :: nodes r));
             auto; try solve [in_solve].
        -- erewrite frame_parent_branch; eauto; try solve [in_solve].
        -- eapply frame_weaken; eauto; try solve [in_solve].
Qed.

(** * What insertion and deletion do to the leaves and to the nodes *)

(** Every node part lies above the leaf part of its own cell. *)
Fixpoint over (t : tree) : Prop :=
  match t with
  | Leaf _ => True
  | Node c _ l r => In c (leaves l ++ leaves r) /\ over l /\ over r
  end.

Lemma over_nodes_leaves t : over t -> incl (nodes t) (leaves t).
Proof.
  induction t as [x|x k l IHl r IHr]; simpl; intros H c Hc; [destruct Hc|].
  destruct H as (Hx & Hl & Hr). destruct Hc as [<-|Hc]; auto.
  apply in_app_or in Hc. apply in_or_app.
  destruct Hc; [left; apply IHl|right; apply IHr]; auto.
Qed.

(** ** Duplicates *)

Lemma graft_leaf_leaves n t : leaves (graft_leaf n t) = leaves t ++ [n].
Proof.
  induction t as [x|x k l _ r IHr]; simpl; auto.
  rewrite IHr. now rewrite app_assoc.
Qed.

Lemma graft_leaf_nodes n t : Permutation (nodes (graft_leaf n t)) (n :: nodes t).
Proof.
  induction t as [x|x k l _ r IHr]; simpl; auto.
  rewrite IHr. rewrite perm_swap. constructor.
  now rewrite Permutation_middle.
Qed.

Lemma graft_above_leaves sub subk n t :
  In (sub, subk) (rspine t) -> leaves (graft_above sub n t) = leaves t ++ [n].
Proof.
  induction t as [x|x k l _ r IHr]; simpl; [tauto|].
  intros H. destruct (Z.eqb_spec x sub); simpl; auto.
  destruct H as [E|H]; [inversion E; congruence|].
  rewrite IHr by assumption. now rewrite app_assoc.
Qed.

Lemma graft_above_nodes sub subk n t :
  In (sub, subk) (rspine t) ->
  Permutation (nodes (graft_above sub n t)) (n :: nodes t).
Proof.
  induction t as [x|x k l _ r IHr]; simpl; [tauto|].
  intros H. destruct (Z.eqb_spec x sub); simpl.
  - rewrite app_nil_r. reflexivity.
  - destruct H as [E|H]; [inversion E; congruence|].
    rewrite IHr by assumption. rewrite perm_swap. constructor.
    now rewrite Permutation_middle.
Qed.

Lemma graft_leaf_acells n t : cell n -> acells t -> acells (graft_leaf n t).
Proof. induction t; simpl; tauto. Qed.

Lemma graft_above_acells sub n t : cell n -> acells t -> acells (graft_above sub n t).
Proof.
  induction t as [x|x k l _ r IHr]; simpl; auto.
  destruct (x =? sub); simpl; tauto.
Qed.

Lemma graft_leaf_over n t : over t -> over (graft_leaf n t).
Proof.
  induction t as [x|x k l _ r IHr]; simpl.
  - auto.
  - rewrite graft_leaf_leaves. rewrite !in_app_iff. simpl.
    intros (Hx & Hl & Hr). tauto.
Qed.

Lemma graft_above_over sub subk n t :
  In (sub, subk) (rspine t) -> over t -> over (graft_above sub n t).
Proof.
  induction t as [x|x k l _ r IHr]; simpl; [tauto|].
  intros H Ho. destruct (Z.eqb_spec x sub); simpl.
  - rewrite !in_app_iff in *. simpl. tauto.
  - destruct H as [E|H]; [inversion E; congruence|].
    rewrite (graft_above_leaves sub subk) by assumption.
    rewrite !in_app_iff in *. simpl. intuition.
Qed.

(** The spot of [ins_dup]: the new leaf comes last. *)
Lemma ins_dup_spot n t t' :
  ins_dup n t = Some t' ->
  leaves t' = leaves t ++ [n] /\
  Permutation (nodes t') (n :: nodes t) /\
  (cell n -> acells t -> acells t') /\
  (over t -> over t').
Proof.
  unfold ins_dup. destruct t as [x|x k l r]; [discriminate|].
  destruct (dup_walk (Node x k l r) x k) as [[[h hk] sub] subk] eqn:E.
  assert (Hsub : In (sub, subk) (rspine (Node x k l r))).
  { destruct (dup_walk_sub _ _ _ _ _ _ _ E) as [E'|H]; auto.
    inversion E'; subst. simpl. now left. }
  destruct (hk <? -1).
  - intros H. injection H as <-. split; [|split; [|split]].
    + apply (graft_leaf_leaves n (Node x k l r)).
    + apply (graft_leaf_nodes n (Node x k l r)).
    + apply (graft_leaf_acells n (Node x k l r)).
    + apply (graft_leaf_over n (Node x k l r)).
  - destruct (subk - 1 <? SHRT_MIN); [discriminate|].
    intros H. injection H as <-. split; [|split; [|split]].
    + apply (graft_above_leaves sub subk n (Node x k l r) Hsub).
    + apply (graft_above_nodes sub subk n (Node x k l r) Hsub).
    + apply (graft_above_acells sub n (Node x k l r)).
    + apply (graft_above_over sub subk n (Node x k l r) Hsub).
Qed.

(** ** Insertion *)

Section InsertSpot.

Context {U : UndefShift}.
Variable kf : Z -> Z.
Variable uniq : bool.

(** Either the new cell [n] is linked, one leaf and one node more, or the
    tree is left alone and the cell met is returned. *)
Definition inserted (n : Z) (t t' : tree) (ret : Z) : Prop :=
  (ret = n /\
   (exists l1 l2, leaves t = l1 ++ l2 /\ leaves t' = l1 ++ n :: l2) /\
   Permutation (nodes t') (n :: nodes t)) \/
  (uniq = true /\ t' = t /\ kf ret = kf n /\
   (In ret (leaves t) \/ In ret (nodes t))).

Lemma ins_here_inserted n t t' ret :
  ins_here kf uniq n t (tcell t) = Some (t', ret) ->
  inserted n t t' ret.
Proof.
  unfold ins_here, inserted.
  destruct (Z.eqb_spec (kf n) (kf (tcell t))) as [Ek|Ek].
  - destruct uniq.
    + intros H. injection H as <- <-. right. repeat split; auto.
      destruct t; simpl; auto.
    + destruct t as [x|x k l r].
      * intros H. injection H as <- <-. left. split; auto. split.
        -- exists [x], []. simpl. auto.
        -- simpl. reflexivity.
      * destruct (ins_dup n (Node x k l r)) as [td|] eqn:Ed; [|discriminate].
        simpl. intros H. injection H as <- <-.
        destruct (ins_dup_spot _ _ _ Ed) as (L & N & _).
        left. split; auto. split; auto.
        exists (leaves (Node x k l r)), []. rewrite app_nil_r. auto.
  - destruct (kf n >=? kf (tcell t)); intros H; injection H as <- <-; left;
      (split; [reflexivity|split]).
    + exists (leaves t), []. rewrite app_nil_r. auto.
    + simpl. rewrite app_nil_r. reflexivity.
    + exists [], (leaves t). auto.
    + simpl. reflexivity.
Qed.

Lemma inserted_left n x k l r l' ret :
  inserted n l l' ret -> inserted n (Node x k l r) (Node x k l' r) ret.
Proof.
  intros [(E & (l1 & l2 & E1 & E2) & P)|(Hu & -> & Hk & Hin)].
  - left. split; auto. split.
    + exists l1, (l2 ++ leaves r). simpl. rewrite E1, E2.
      now rewrite <- !app_assoc.
    + simpl. rewrite P. simpl. apply perm_swap.
  - right. repeat split; auto. simpl. rewrite !in_app_iff. tauto.
Qed.

Lemma inserted_right n x k l r r' ret :
  inserted n r r' ret -> inserted n (Node x k l r) (Node x k l r') ret.
Proof.
  intros [(E & (l1 & l2 & E1 & E2) & P)|(Hu & -> & Hk & Hin)].
  - left. split; auto. split.
    + exists (leaves l ++ l1), l2. simpl. rewrite E1, E2.
      now rewrite <- !app_assoc.
    + simpl. rewrite P. rewrite perm_swap. constructor.
      symmetry. apply Permutation_middle.
  - right. repeat split; auto. simpl. rewrite !in_app_iff. tauto.
Qed.

Lemma ins_inserted n : forall t t' ret,
  ins kf uniq n t = Some (t', ret) -> inserted n t t' ret.
Proof.
  induction t as [x|x k l IHl r IHr]; intros t' ret H; simpl in H.
  - apply (ins_here_inserted n (Leaf x)). exact H.
  - destruct ((k <? 0) || _).
    + apply (ins_here_inserted n (Node x k l r)). exact H.
    + destruct (_ =? EB_LEFT).
      * destruct (ins kf uniq n l) as [[l' ret']|] eqn:E; [|discriminate].
        simpl in H. injection H as <- <-. apply inserted_left. auto.
      * destruct (ins kf uniq n r) as [[r' ret']|] eqn:E; [|discriminate].
        simpl in H. injection H as <- <-. apply inserted_right. auto.
Qed.

Lemma ins_here_acells n t t' ret :
  ins_here kf uniq n t (tcell t) = Some (t', ret) ->
  cell n -> acells t -> acells t'.
Proof.
  unfold ins_here. intros H Hn Ha.
  destruct (kf n =? kf (tcell t)).
  - destruct uniq; [injection H as <- <-; auto|].
    destruct t as [x|x k l r].
    + injection H as <- <-. simpl. auto.
    + destruct (ins_dup n (Node x k l r)) as [td|] eqn:Ed; [|discriminate].
      simpl in H. injection H as <- <-.
      now apply (ins_dup_spot _ _ _ Ed).
  - destruct (kf n >=? kf (tcell t)); injection H as <- <-; simpl; auto.
Qed.

Lemma ins_acells n : forall t t' ret,
  ins kf uniq n t = Some (t', ret) -> cell n -> acells t -> acells t'.
Proof.
  induction t as [x|x k l IHl r IHr]; intros t' ret H Hn Ha; simpl in H.
  - eapply (ins_here_acells n (Leaf x)); eauto.
  - destruct ((k <? 0) || _).
    + eapply (ins_here_acells n (Node x k l r)); eauto.
    + simpl in Ha. destruct (_ =? EB_LEFT).
      * destruct (ins kf uniq n l) as [[l' ret']|] eqn:E; [|discriminate].
        simpl in H. injection H as <- <-. simpl. intuition eauto.
      * destruct (ins kf uniq n r) as [[r' ret']|] eqn:E; [|discriminate].
        simpl in H. injection H as <- <-. simpl. intuition eauto.
Qed.

Lemma ins_here_over n t t' ret :
  ins_here kf uniq n t (tcell t) = Some (t', ret) -> over t -> over t'.
Proof.
  unfold ins_here. intros H Ho.
  destruct (kf n =? kf (tcell t)).
  - destruct uniq; [injection H as <- <-; auto|].
    destruct t as [x|x k l r].
    + injection H as <- <-. simpl. auto.
    + destruct (ins_dup n (Node x k l r)) as [td|] eqn:Ed; [|discriminate].
      simpl in H. injection H as <- <-.
      now apply (ins_dup_spot _ _ _ Ed).
  - destruct (kf n >=? kf (tcell t)); injection H as <- <-; simpl;
      rewrite ?in_app_iff; simpl; auto.
Qed.

Lemma inserted_In n t t' ret x :
  inserted n t t' ret -> In x (leaves t) -> In x (leaves t').
Proof.
  intros [(E & (l1 & l2 & E1 & E2) & P)|(Hu & -> & _)]; auto.
  rewrite E1, E2, !in_app_iff. simpl. tauto.
Qed.

Lemma ins_over n : forall t t' ret,
  ins kf uniq n t = Some (t', ret) -> over t -> over t'.
Proof.
  induction t as [x|x k l IHl r IHr]; intros t' ret H Ho; simpl in H.
  - eapply (ins_here_over n (Leaf x)); eauto.
  - destruct ((k <? 0) || _).
    + eapply (ins_here_over n (Node x k l r)); eauto.
    + simpl in Ho. destruct Ho as (Hx & Hl & Hr). destruct (_ =? EB_LEFT).
      * destruct (ins kf uniq n l) as [[l' ret']|] eqn:E; [|discriminate].
        simpl in H. injection H as <- <-. simpl.
        split; [|split]; eauto.
        apply in_app_or in Hx. apply in_or_app. destruct Hx; auto.
        left. eapply inserted_In; eauto. eapply ins_inserted; eauto.
      * destruct (ins kf uniq n r) as [[r' ret']|] eqn:E; [|discriminate].
        simpl in H. injection H as <- <-. simpl.
        split; [|split]; eauto.
        apply in_app_or in Hx. apply in_or_app. destruct Hx; auto.
        right. eapply inserted_In; eauto. eapply ins_inserted; eauto.
Qed.

End InsertSpot.

(** * Bits of the keys *)

(** A key cut at bit [k]: what lies above, the bit, what lies below. *)
Lemma key_cut a k :
  0 <= k ->
  a = 2 ^ (k + 1) * Z.shiftr a (k + 1) + 2 ^ k * Z.b2z (Z.testbit a k)
      + a mod 2 ^ k /\
  0 <= a mod 2 ^ k < 2 ^ k.
Proof.
  intros Hk.
  assert (Hp : 0 < 2 ^ k) by (apply Z.pow_pos_nonneg; lia).
  split; [|apply Z.mod_pos_bound; lia].
  rewrite Z.testbit_spec' by lia.
  rewrite Z.shiftr_div_pow2 by lia.
  replace (2 ^ (k + 1)) with (2 ^ k * 2) by (rewrite Z.pow_add_r; lia).
  rewrite <- Z.div_div by lia.
  pose proof (Z.div_mod a (2 ^ k)). pose proof (Z.div_mod (a / 2 ^ k) 2).
  nia.
Qed.

Lemma shiftr_succ a k : 0 <= k -> Z.shiftr a (k + 1) = Z.shiftr a k / 2.
Proof.
  intros. rewrite <- Z.shiftr_shiftr by lia.
  now rewrite (Z.shiftr_div_pow2 _ 1) by lia.
Qed.

Lemma shiftr_bit a k :
  0 <= k -> Z.shiftr a k = 2 * Z.shiftr a (k + 1) + Z.b2z (Z.testbit a k).
Proof.
  intros. rewrite shiftr_succ by lia.
  rewrite Z.testbit_spec' by lia. rewrite <- Z.shiftr_div_pow2 by lia.
  pose proof (Z.div_mod (Z.shiftr a k) 2). lia.
Qed.

(** The side taken at bit [k]. *)
Lemma side_bit a k :
  0 <= k -> Z.land (Z.shiftr a k) EB_NODE_BRANCH_MASK = Z.b2z (Z.testbit a k).
Proof.
  intros. unfold EB_NODE_BRANCH_MASK, EB_NODE_BRANCHES, EB_NODE_BITS.
  change (Z.shiftl 1 1 - 1) with 1. rewrite land_1.
  rewrite Z.testbit_spec', Z.shiftr_div_pow2 by lia. reflexivity.
Qed.

(** The test that stops a descent: the keys part above bit [k]. *)
Lemma diverge_above a b k :
  0 <= a -> 0 <= b -> 0 <= k ->
  (Z.shiftr (Z.lxor a b) k >=? EB_NODE_BRANCHES) = true <->
  Z.shiftr a (k + 1) <> Z.shiftr b (k + 1).
Proof.
  intros Ha Hb Hk. unfold EB_NODE_BRANCHES, EB_NODE_BITS.
  change (Z.shiftl 1 1) with 2.
  rewrite Z.geb_ge.
  assert (Hx : 0 <= Z.shiftr (Z.lxor a b) k).
  { apply Z.shiftr_nonneg. apply Z.lxor_nonneg. tauto. }
  assert (E : Z.shiftr (Z.lxor a b) (k + 1) =
              Z.lxor (Z.shiftr a (k + 1)) (Z.shiftr b (k + 1)))
    by apply Z.shiftr_lxor.
  rewrite shiftr_succ in E by lia.
  rewrite <- Z.lxor_eq_0_iff, <- E.
  pose proof (Z.div_mod (Z.shiftr (Z.lxor a b) k) 2).
  Z.div_mod_to_equations. lia.
Qed.

Lemma shiftr_more a b k k' :
  0 <= k <= k' -> Z.shiftr a k = Z.shiftr b k -> Z.shiftr a k' = Z.shiftr b k'.
Proof.
  intros H E. replace k' with (k + (k' - k)) by lia.
  rewrite <- !Z.shiftr_shiftr by lia. now rewrite E.
Qed.

Lemma testbit_above a b k k' :
  0 <= k <= k' -> Z.shiftr a k = Z.shiftr b k ->
  Z.testbit a k' = Z.testbit b k'.
Proof.
  intros H E. replace k' with ((k' - k) + k) by lia.
  rewrite <- !Z.shiftr_spec by lia. now rewrite E.
Qed.

(** The highest bit where two different keys differ. *)
Lemma log2_lxor a b :
  0 <= a -> 0 <= b -> a <> b ->
  let k := Z.log2 (Z.lxor a b) in
  0 <= k /\
  Z.shiftr a (k + 1) = Z.shiftr b (k + 1) /\
  Z.testbit a k <> Z.testbit b k.
Proof.
  intros Ha Hb Hab k.
  assert (Hx : 0 < Z.lxor a b).
  { assert (0 <= Z.lxor a b) by (apply Z.lxor_nonneg; tauto).
    assert (Z.lxor a b <> 0) by (rewrite Z.lxor_eq_0_iff; auto). lia. }
  split; [apply Z.log2_nonneg|]. split.
  - apply Z.lxor_eq_0_iff. rewrite <- Z.shiftr_lxor.
    apply Z.shiftr_eq_0; [lia|]. unfold k. lia.
  - pose proof (Z.bit_log2 _ Hx) as B. fold k in B.
    rewrite Z.lxor_spec in B.
    destruct (Z.testbit a k), (Z.testbit b k); simpl in B; congruence.
Qed.

Lemma log2_lxor_lt a b w :
  0 <= a < 2 ^ w -> 0 <= b < 2 ^ w -> a <> b -> Z.log2 (Z.lxor a b) < w.
Proof.
  intros Ha Hb Hab.
  destruct (Z.le_gt_cases w 0) as [Hw|Hw].
  - assert (2 ^ w <= 1).
    { destruct (Z.eq_dec w 0) as [->|]; [simpl; lia|].
      rewrite Z.pow_neg_r by lia. lia. }
    lia.
  - assert (Hx : 0 < Z.lxor a b).
    { assert (0 <= Z.lxor a b) by (apply Z.lxor_nonneg; lia).
      assert (Z.lxor a b <> 0) by (rewrite Z.lxor_eq_0_iff; auto). lia. }
    apply Z.log2_lt_pow2; auto.
    destruct (Z.lt_ge_cases (Z.lxor a b) (2 ^ w)) as [|Hge]; auto.
    exfalso.
    assert (Hl : w <= Z.log2 (Z.lxor a b)) by (apply Z.log2_le_pow2; lia).
    pose proof (Z.bit_log2 _ Hx) as B. rewrite Z.lxor_spec in B.
    assert (Ba : Z.testbit a (Z.log2 (Z.lxor a b)) = false).
    { destruct (Z.eq_dec a 0) as [->|]; [apply Z.bits_0|].
      apply Z.bits_above_log2; [lia|].
      assert (Z.log2 a < w) by (apply Z.log2_lt_pow2; lia). lia. }
    assert (Bb : Z.testbit b (Z.log2 (Z.lxor a b)) = false).
    { destruct (Z.eq_dec b 0) as [->|]; [apply Z.bits_0|].
      apply Z.bits_above_log2; [lia|].
      assert (Z.log2 b < w) by (apply Z.log2_lt_pow2; lia). lia. }
    rewrite Ba, Bb in B. discriminate.
Qed.

(** Keys that agree above bit [k] compare as their bits [k] do. *)
Lemma bit_order a b k :
  0 <= k -> Z.shiftr a (k + 1) = Z.shiftr b (k + 1) ->
  Z.testbit a k = false -> Z.testbit b k = true -> a < b.
Proof.
  intros Hk E Ba Bb.
  destruct (key_cut a k Hk) as [Ea Ra]. destruct (key_cut b k Hk) as [Eb Rb].
  rewrite Ba in Ea. rewrite Bb in Eb. rewrite E in Ea. simpl Z.b2z in *.
  lia.
Qed.

(** Keys that part above bit [k] compare as what lies above does. *)
Lemma above_order a b k :
  0 <= k -> Z.shiftr a (k + 1) < Z.shiftr b (k + 1) -> a < b.
Proof.
  intros Hk H. rewrite !Z.shiftr_div_pow2 in H by lia.
  assert (0 < 2 ^ (k + 1)) by (apply Z.pow_pos_nonneg; lia).
  destruct (Z.lt_ge_cases a b) as [|Hge]; auto.
  apply (Z.div_le_mono _ _ (2 ^ (k + 1))) in Hge; lia.
Qed.

Lemma shiftr_lt_succ a b k :
  0 <= k -> Z.shiftr a (k + 1) <> Z.shiftr b (k + 1) ->
  (Z.shiftr a k <? Z.shiftr b k) = true <->
  Z.shiftr a (k + 1) < Z.shiftr b (k + 1).
Proof.
  intros Hk Hne. rewrite Z.ltb_lt.
  rewrite (shiftr_bit a k), (shiftr_bit b k) by lia.
  destruct (Z.testbit a k), (Z.testbit b k); simpl Z.b2z; lia.
Qed.

Lemma shiftr_gt_succ a b k :
  0 <= k -> Z.shiftr a (k + 1) <> Z.shiftr b (k + 1) ->
  (Z.shiftr a k >? Z.shiftr b k) = true <->
  Z.shiftr b (k + 1) < Z.shiftr a (k + 1).
Proof.
  intros Hk Hne. rewrite Z.gtb_ltb. rewrite shiftr_lt_succ by auto. tauto.
Qed.

(** * The radix invariant *)

(** Inside a tree of duplicates every bit is negative. *)
Fixpoint negbits (t : tree) : Prop :=
  match t with
  | Leaf _ => True
  | Node _ k l r => k < 0 /\ negbits l /\ negbits r
  end.

Section Radix.

Variable kf : Z -> Z.

Definition same_keys (l : list Z) : Prop :=
  forall x y, In x l -> In y l -> kf x = kf y.

Definition same_above (k : Z) (l : list Z) : Prop :=
  forall x y, In x l -> In y l ->
    Z.shiftr (kf x) (k + 1) = Z.shiftr (kf y) (k + 1).

Definition bit_is (k : Z) (b : bool) (l : list Z) : Prop :=
  forall x, In x l -> Z.testbit (kf x) k = b.

(** A node with a negative bit heads a tree of duplicates: one key below.
    A node with bit [k >= 0] splits its leaves on bit [k] of the key, and
    they all agree above it. *)
Fixpoint radix (t : tree) : Prop :=
  match t with
  | Leaf _ => True
  | Node _ k l r =>
      (k < 0 /\ negbits l /\ negbits r /\ same_keys (leaves l ++ leaves r)) \/
      (0 <= k < 32 /\ radix l /\ radix r /\
       same_above k (leaves l ++ leaves r) /\
       bit_is k false (leaves l) /\ bit_is k true (leaves r))
  end.

Definition keys_ok : Prop := forall c, 0 <= kf c < UINT32_MOD.

Lemma negbits_radix t : negbits t -> same_keys (leaves t) -> radix t.
Proof.
  induction t as [x|x k l IHl r IHr]; simpl; auto.
  intros (Hk & Hl & Hr) Hs. left. auto.
Qed.

Lemma same_keys_app_l l1 l2 : same_keys (l1 ++ l2) -> same_keys l1.
Proof. intros H x y Hx Hy. apply H; apply in_or_app; auto. Qed.

Lemma same_keys_app_r l1 l2 : same_keys (l1 ++ l2) -> same_keys l2.
Proof. intros H x y Hx Hy. apply H; apply in_or_app; auto. Qed.

Lemma same_keys_add l n v :
  (forall x, In x l -> kf x = v) -> kf n = v -> same_keys (l ++ [n]).
Proof.
  intros H Hn x y Hx Hy. apply in_app_or in Hx, Hy. simpl in *.
  assert (forall z, In z l \/ z = n -> kf z = v)
    by (intros z [Hz| ->]; auto).
  transitivity v; [|symmetry]; apply H0; intuition.
Qed.

Lemma same_keys_sub l l' :
  incl l' l -> same_keys l -> same_keys l'.
Proof. intros Hi H x y Hx Hy. apply H; auto. Qed.

Lemma same_above_sub k l l' :
  incl l' l -> same_above k l -> same_above k l'.
Proof. intros Hi H x y Hx Hy. apply H; auto. Qed.

Lemma bit_is_sub k b l l' : incl l' l -> bit_is k b l -> bit_is k b l'.
Proof. intros Hi H x Hx. apply H; auto. Qed.

(** ** Grafting a duplicate *)

Lemma graft_leaf_negbits n t : negbits t -> negbits (graft_leaf n t).
Proof. induction t; simpl; intuition lia. Qed.

Lemma graft_above_negbits sub n t : negbits t -> negbits (graft_above sub n t).
Proof.
  induction t as [x|x k l _ r IHr]; simpl; auto.
  intros (Hk & Hl & Hr). destruct (x =? sub); simpl; intuition lia.
Qed.

Lemma ins_dup_radix n t t' :
  ins_dup n t = Some t' ->
  negbits t -> same_keys (leaves t) -> kf n = kf (first_leaf t) ->
  negbits t' /\ same_keys (leaves t') /\ radix t'.
Proof.
  intros Hi Hn Hs Hk.
  destruct (ins_dup_spot _ _ _ Hi) as (L & _).
  assert (S' : same_keys (leaves t')).
  { rewrite L. apply same_keys_add with (kf (first_leaf t)); auto.
    intros x Hx. apply Hs; auto. apply first_leaf_In. }
  assert (N' : negbits t').
  { unfold ins_dup in Hi. destruct t as [x|x k l r]; [discriminate|].
    destruct (dup_walk (Node x k l r) x k) as [[[h hk] sub] subk].
    destruct (hk <? -1).
    - injection Hi as <-. now apply (graft_leaf_negbits n (Node x k l r)).
    - destruct (subk - 1 <? SHRT_MIN); [discriminate|].
      injection Hi as <-. now apply (graft_above_negbits sub n (Node x k l r)). }
  split; [|split]; auto. apply negbits_radix; auto.
Qed.

End Radix.

Lemma shr32_in_range {U : UndefShift} x k :
  0 <= k < 32 -> shr32 x k = Z.shiftr x k.
Proof.
  intros H. unfold shr32.
  destruct (Z.leb_spec 0 k); [|lia]. destruct (Z.ltb_spec k 32); [|lia].
  reflexivity.
Qed.

Lemma flsnz_log2 x : flsnz x - EB_NODE_BITS = Z.log2 x.
Proof. unfold flsnz, EB_NODE_BITS. lia. Qed.

(** ** Insertion keeps the invariant *)

Section InsertRadix.

Context {U : UndefShift}.
Variable kf : Z -> Z.
Variable uniq : bool.
Hypothesis Hkeys : keys_ok kf.

(** How the keys below [t] relate to the key of its topmost cell. *)
Definition like_top (t : tree) (x : Z) : Prop :=
  match t with
  | Leaf o => x = o
  | Node o k _ _ =>
      (k < 0 -> kf x = kf o) /\
      (0 <= k -> Z.shiftr (kf x) (k + 1) = Z.shiftr (kf o) (k + 1))
  end.

Lemma radix_like_top t x :
  radix kf t -> over t -> In x (leaves t) -> like_top t x.
Proof.
  destruct t as [o|o k l r]; simpl.
  - intros _ _ [<-|[]]. reflexivity.
  - intros [(Hk & _ & _ & Hs)|(Hk & _ & _ & Hs & _)] (Ho & _) Hx.
    + split; [intros _; apply Hs; auto|lia].
    + split; [lia|intros _; apply Hs; auto].
Qed.

(** The new node above [t]: all of [t] lies on one side of the bit where
    the new key leaves the key of the topmost cell of [t]. *)
Lemma new_node_bits t n :
  radix kf t -> over t -> kf n <> kf (tcell t) ->
  match t with
  | Leaf _ => True
  | Node o k _ _ =>
      k < 0 \/ (0 <= k /\ Z.shiftr (kf n) (k + 1) <> Z.shiftr (kf o) (k + 1))
  end ->
  let kb := Z.log2 (Z.lxor (kf n) (kf (tcell t))) in
  0 <= kb < 32 /\
  Z.shiftr (kf n) (kb + 1) = Z.shiftr (kf (tcell t)) (kb + 1) /\
  Z.testbit (kf n) kb <> Z.testbit (kf (tcell t)) kb /\
  forall x, In x (leaves t) ->
    Z.shiftr (kf x) (kb + 1) = Z.shiftr (kf (tcell t)) (kb + 1) /\
    Z.testbit (kf x) kb = Z.testbit (kf (tcell t)) kb.
Proof.
  intros Hr Ho Hne Hstop kb.
  pose proof (Hkeys n) as Kn. pose proof (Hkeys (tcell t)) as Ko.
  unfold UINT32_MOD in *.
  destruct (log2_lxor (kf n) (kf (tcell t))) as (K0 & K1 & K2);
    try lia; auto.
  fold kb in K0, K1, K2.
  assert (K3 : kb < 32) by (apply log2_lxor_lt; auto).
  split; [lia|]. split; [exact K1|]. split; [exact K2|].
  intros x Hx. pose proof (radix_like_top t x Hr Ho Hx) as L.
  destruct t as [o|o k l r]; simpl in *.
  - subst x. auto.
  - destruct L as [L1 L2]. destruct Hstop as [Hk|[Hk Hd]].
    + rewrite (L1 Hk). auto.
    + assert (Hkb : k + 1 <= kb).
      { destruct (Z.le_gt_cases (k + 1) kb); auto. exfalso. apply Hd.
        apply shiftr_more with (kb + 1); auto. lia. }
      split.
      * apply shiftr_more with (k + 1); auto. lia.
      * apply testbit_above with (k + 1); auto. lia.
Qed.

Lemma ins_here_radix t n t' ret :
  radix kf t -> over t ->
  match t with
  | Leaf _ => True
  | Node o k _ _ =>
      k < 0 \/ (0 <= k /\ Z.shiftr (kf n) (k + 1) <> Z.shiftr (kf o) (k + 1))
  end ->
  ins_here kf uniq n t (tcell t) = Some (t', ret) ->
  radix kf t'.
Proof.
  intros Hr Ho Hstop Hi. unfold ins_here in Hi.
  destruct (Z.eqb_spec (kf n) (kf (tcell t))) as [Ek|Ek].
  - destruct uniq; [injection Hi as <- <-; auto|].
    destruct t as [o|o k l r].
    + injection Hi as <- <-. simpl. left.
      repeat split; auto; try lia.
      intros x y [<-|[<-|[]]] [<-|[<-|[]]]; simpl in *; congruence.
    + destruct (ins_dup n (Node o k l r)) as [td|] eqn:Ed; [|discriminate].
      simpl in Hi. injection Hi as <- <-. simpl in Ek, Hstop.
      assert (Hk : k < 0).
      { destruct Hstop as [|[_ Hd]]; auto. rewrite Ek in Hd. congruence. }
      simpl in Hr. destruct Hr as [(_ & Nl & Nr & Hs)|(Hk' & _)]; [|lia].
      destruct Ho as (Ho & _).
      apply (ins_dup_radix kf n (Node o k l r) td Ed); simpl; auto.
      rewrite Ek. apply Hs; auto.
      apply (first_leaf_In (Node o k l r)).
  - destruct (new_node_bits t n Hr Ho Ek Hstop) as (K1 & K2 & K3 & K4).
    rewrite flsnz_log2 in Hi.
    set (kb := Z.log2 (Z.lxor (kf n) (kf (tcell t)))) in *.
    assert (Sa : forall x y, In x (n :: leaves t) -> In y (n :: leaves t) ->
                 Z.shiftr (kf x) (kb + 1) = Z.shiftr (kf y) (kb + 1)).
    { assert (forall z, In z (n :: leaves t) ->
                Z.shiftr (kf z) (kb + 1) = Z.shiftr (kf (tcell t)) (kb + 1)).
      { intros z [<-|Hz]; auto. now apply K4. }
      intros x y Hx Hy. rewrite (H x Hx), (H y Hy). reflexivity. }
    destruct (Z.geb_spec (kf n) (kf (tcell t))) as [Hge|Hlt].
    + (* the new key is the larger one: its bit is set *)
      assert (Bn : Z.testbit (kf n) kb = true).
      { destruct (Z.testbit (kf n) kb) eqn:B1; auto.
        destruct (Z.testbit (kf (tcell t)) kb) eqn:B2; [|congruence].
        pose proof (bit_order _ _ kb (proj1 K1) K2 B1 B2). lia. }
      injection Hi as <- <-. simpl. right.
      split; [lia|]. split; [auto|]. split; [auto|]. split; [|split].
      * intros x y Hx Hy. apply Sa; simpl;
          rewrite in_app_iff in *; simpl in *; tauto.
      * intros x Hx. destruct (K4 x Hx) as [_ ->].
        destruct (Z.testbit (kf (tcell t)) kb); congruence.
      * intros x [<-|[]]. exact Bn.
    + assert (Bn : Z.testbit (kf n) kb = false).
      { destruct (Z.testbit (kf n) kb) eqn:B1; auto.
        destruct (Z.testbit (kf (tcell t)) kb) eqn:B2; [congruence|].
        symmetry in K2.
        pose proof (bit_order _ _ kb (proj1 K1) K2 B2 B1). lia. }
      injection Hi as <- <-. simpl. right.
      split; [lia|]. split; [auto|]. split; [auto|]. split; [|split].
      * intros x y Hx Hy. apply Sa; simpl; simpl in *; tauto.
      * intros x [<-|[]]. exact Bn.
      * intros x Hx. destruct (K4 x Hx) as [_ ->].
        destruct (Z.testbit (kf (tcell t)) kb); congruence.
Qed.

Lemma inserted_In_inv n t t' ret x :
  inserted kf uniq n t t' ret -> In x (leaves t') -> x = n \/ In x (leaves t).
Proof.
  intros [(E & (l1 & l2 & E1 & E2) & P)|(Hu & -> & _)]; auto.
  rewrite E1, E2, !in_app_iff. simpl. intuition.
Qed.

(** When the descent goes on below a node, the new key agrees with the
    keys of that node above its bit. *)
Lemma descend_cond o k x :
  0 <= k < 32 ->
  (k <? 0) || (shr32 (Z.lxor (kf x) (kf o)) k >=? EB_NODE_BRANCHES) = false ->
  Z.shiftr (kf x) (k + 1) = Z.shiftr (kf o) (k + 1).
Proof.
  intros Hk H. apply orb_false_elim in H. destruct H as [_ H].
  rewrite shr32_in_range in H by assumption.
  pose proof (Hkeys x). pose proof (Hkeys o). unfold UINT32_MOD in *.
  destruct (Z.eq_dec (Z.shiftr (kf x) (k + 1)) (Z.shiftr (kf o) (k + 1)))
    as [|Hne]; auto.
  apply (diverge_above (kf x) (kf o) k) in Hne; [congruence|lia|lia|lia].
Qed.

Lemma stop_cond o k x :
  k < 32 ->
  (k <? 0) || (shr32 (Z.lxor (kf x) (kf o)) k >=? EB_NODE_BRANCHES) = true ->
  k < 0 \/ (0 <= k /\ Z.shiftr (kf x) (k + 1) <> Z.shiftr (kf o) (k + 1)).
Proof.
  intros Hk H. destruct (Z.ltb_spec k 0); [auto|]. right. split; auto.
  simpl in H. rewrite shr32_in_range in H by lia.
  pose proof (Hkeys x). pose proof (Hkeys o). unfold UINT32_MOD in *.
  apply (diverge_above (kf x) (kf o) k); auto; lia.
Qed.

Lemma radix_bit_lt t :
  radix kf t -> match t with Leaf _ => True | Node _ k _ _ => k < 32 end.
Proof. destruct t; simpl; auto. intros [H|H]; lia. Qed.

Lemma ins_radix n : forall t t' ret,
  radix kf t -> over t ->
  ins kf uniq n t = Some (t', ret) -> radix kf t'.
Proof.
  induction t as [o|o k l IHl r IHr]; intros t' ret Hr Ho Hi; simpl in Hi.
  - eapply (ins_here_radix (Leaf o)); eauto.
  - pose proof (radix_bit_lt _ Hr) as Hk32. simpl in Hk32.
    destruct ((k <? 0) || _) eqn:Estop.
    + eapply (ins_here_radix (Node o k l r)); eauto.
      apply stop_cond; auto.
    + assert (Hk : 0 <= k < 32).
      { apply orb_false_elim in Estop. destruct Estop as [E _].
        apply Z.ltb_ge in E. lia. }
      pose proof (descend_cond o k n Hk Estop) as Hpre.
      rewrite shr32_in_range, side_bit in Hi by lia.
      simpl in Hr. destruct Hr as [(Hk' & _)|(_ & Rl & Rr & Sa & Bl & Br)]; [lia|].
      simpl in Ho. destruct Ho as (Hot & Ol & Or).
      assert (Pre : forall x, In x (leaves l ++ leaves r) ->
                Z.shiftr (kf x) (k + 1) = Z.shiftr (kf n) (k + 1)).
      { intros x Hx. rewrite Hpre. apply Sa; auto. }
      destruct (Z.testbit (kf n) k) eqn:Bn; simpl in Hi.
      * destruct (ins kf uniq n r) as [[r' ret']|] eqn:E; [|discriminate].
        simpl in Hi. injection Hi as <- <-.
        pose proof (ins_inserted kf uniq n r r' ret' E) as Hins.
        simpl. right. split; [lia|]. split; [auto|]. split; [eauto|].
        assert (Hin : forall x, In x (leaves l ++ leaves r') ->
                  x = n \/ In x (leaves l ++ leaves r)).
        { intros x Hx. apply in_app_or in Hx. rewrite in_app_iff.
          destruct Hx as [Hx|Hx]; auto.
          destruct (inserted_In_inv _ _ _ _ _ Hins Hx); auto. }
        split; [|split]; auto.
        -- assert (forall z, In z (leaves l ++ leaves r') ->
                     Z.shiftr (kf z) (k + 1) = Z.shiftr (kf n) (k + 1)).
           { intros z Hz. destruct (Hin z Hz) as [->|Hz']; auto. }
           intros x y Hx Hy. rewrite (H x Hx), (H y Hy). reflexivity.
        -- intros x Hx. destruct (inserted_In_inv _ _ _ _ _ Hins Hx) as [->|Hx'];
             auto.
      * destruct (ins kf uniq n l) as [[l' ret']|] eqn:E; [|discriminate].
        simpl in Hi. injection Hi as <- <-.
        pose proof (ins_inserted kf uniq n l l' ret' E) as Hins.
        simpl. right. split; [lia|]. split; [eauto|]. split; [auto|].
        assert (Hin : forall x, In x (leaves l' ++ leaves r) ->
                  x = n \/ In x (leaves l ++ leaves r)).
        { intros x Hx. apply in_app_or in Hx. rewrite in_app_iff.
          destruct Hx as [Hx|Hx]; auto.
          destruct (inserted_In_inv _ _ _ _ _ Hins Hx); auto. }
        split; [|split]; auto.
        -- assert (forall z, In z (leaves l' ++ leaves r) ->
                     Z.shiftr (kf z) (k + 1) = Z.shiftr (kf n) (k + 1)).
           { intros z Hz. destruct (Hin z Hz) as [->|Hz']; auto. }
           intros x y Hx Hy. rewrite (H x Hx), (H y Hy). reflexivity.
        -- intros x Hx. destruct (inserted_In_inv _ _ _ _ _ Hins Hx) as [->|Hx'];
             auto.
Qed.

End InsertRadix.

(** * What deletion does to the tree *)

Lemma unlink_spot c : forall t t' q,
  unlink c t = Some (t', q) ->
  (exists l1 l2, leaves t = l1 ++ c :: l2 /\ leaves t' = l1 ++ l2) /\
  Permutation (nodes t) (q :: nodes t') /\
  (acells t -> acells t').
Proof.
  induction t as [x|x k l IHl r IHr]; intros t' q H; simpl in H;
    [discriminate|].
  destruct (is_leaf c l) eqn:El; [|destruct (is_leaf c r) eqn:Er].
  - apply is_leaf_true in El. subst l. injection H as <- <-.
    split; [|split].
    + exists [], (leaves r). auto.
    + simpl. reflexivity.
    + simpl. tauto.
  - apply is_leaf_true in Er. subst r. injection H as <- <-.
    split; [|split].
    + exists (leaves l), []. simpl. now rewrite app_nil_r.
    + simpl. now rewrite app_nil_r.
    + simpl. tauto.
  - destruct (inb c (leaves l)).
    + destruct (unlink c l) as [[l' q']|] eqn:E; [|discriminate].
      simpl in H. injection H as <- <-.
      destruct (IHl _ _ eq_refl) as ((l1 & l2 & E1 & E2) & P & A).
      split; [|split].
      * exists l1, (l2 ++ leaves r). simpl. rewrite E1, E2.
        now rewrite <- !app_assoc.
      * simpl. rewrite P. simpl. apply perm_swap.
      * simpl. tauto.
    + destruct (unlink c r) as [[r' q']|] eqn:E; [|discriminate].
      simpl in H. injection H as <- <-.
      destruct (IHr _ _ eq_refl) as ((l1 & l2 & E1 & E2) & P & A).
      split; [|split].
      * exists (leaves l ++ l1), l2. simpl. rewrite E1, E2.
        now rewrite <- !app_assoc.
      * simpl. rewrite P. rewrite perm_swap. constructor.
        symmetry. apply Permutation_middle.
      * simpl. tauto.
Qed.

Lemma unlink_incl c t t' q :
  unlink c t = Some (t', q) -> incl (leaves t') (leaves t).
Proof.
  intros H. destruct (unlink_spot _ _ _ _ H) as ((l1 & l2 & E1 & E2) & _).
  rewrite E1, E2. intros x Hx. rewrite in_app_iff in *. simpl. tauto.
Qed.

Lemma unlink_negbits c : forall t t' q,
  unlink c t = Some (t', q) -> negbits t -> negbits t'.
Proof.
  induction t as [x|x k l IHl r IHr]; intros t' q H Hn; simpl in H;
    [discriminate|].
  simpl in Hn. destruct Hn as (Hk & Hl & Hr).
  destruct (is_leaf c l); [injection H as <- <-; auto|].
  destruct (is_leaf c r); [injection H as <- <-; auto|].
  destruct (inb c (leaves l)).
  - destruct (unlink c l) as [[l' q']|] eqn:E; [|discriminate].
    simpl in H. injection H as <- <-. simpl. eauto.
  - destruct (unlink c r) as [[r' q']|] eqn:E; [|discriminate].
    simpl in H. injection H as <- <-. simpl. eauto.
Qed.

Lemma incl_app_app {A : Type} (a a' b b' : list A) :
  incl a' a -> incl b' b -> incl (a' ++ b') (a ++ b).
Proof.
  intros H1 H2 x Hx. apply in_app_or in Hx. apply in_or_app.
  destruct Hx; auto.
Qed.

Lemma unlink_radix kf c : forall t t' q,
  unlink c t = Some (t', q) -> radix kf t -> radix kf t'.
Proof.
  induction t as [x|x k l IHl r IHr]; intros t' q H Hr; simpl in H;
    [discriminate|].
  simpl in Hr.
  assert (Rl : radix kf l).
  { destruct Hr as [(_ & Nl & _ & Hs)|(_ & Rl & _)]; auto.
    apply negbits_radix; auto. eapply same_keys_app_l; eauto. }
  assert (Rr : radix kf r).
  { destruct Hr as [(_ & _ & Nr & Hs)|(_ & _ & Rr & _)]; auto.
    apply negbits_radix; auto. eapply same_keys_app_r; eauto. }
  destruct (is_leaf c l); [injection H as <- <-; auto|].
  destruct (is_leaf c r); [injection H as <- <-; auto|].
  destruct (inb c (leaves l)).
  - destruct (unlink c l) as [[l' q']|] eqn:E; [|discriminate].
    simpl in H. injection H as <- <-.
    pose proof (unlink_incl _ _ _ _ E) as Hi.
    assert (Hi' : incl (leaves l' ++ leaves r) (leaves l ++ leaves r))
      by (apply incl_app_app; auto using incl_refl).
    simpl. destruct Hr as [(Hk & Nl & Nr & Hs)|(Hk & _ & _ & Sa & Bl & Br)].
    + left. repeat split; auto.
      * eapply unlink_negbits; eauto.
      * eapply same_keys_sub; eauto.
    + right. repeat split; eauto; try lia.
      * eapply same_above_sub; eauto.
      * eapply bit_is_sub; eauto.
  - destruct (unlink c r) as [[r' q']|] eqn:E; [|discriminate].
    simpl in H. injection H as <- <-.
    pose proof (unlink_incl _ _ _ _ E) as Hi.
    assert (Hi' : incl (leaves l ++ leaves r') (leaves l ++ leaves r))
      by (apply incl_app_app; auto using incl_refl).
    simpl. destruct Hr as [(Hk & Nl & Nr & Hs)|(Hk & _ & _ & Sa & Bl & Br)].
    + left. repeat split; auto.
      * eapply unlink_negbits; eauto.
      * eapply same_keys_sub; eauto.
    + right. repeat split; eauto; try lia.
      * eapply same_above_sub; eauto.
      * eapply bit_is_sub; eauto.
Qed.

Lemma rename_negbits c q t : negbits (rename c q t) <-> negbits t.
Proof. induction t; simpl; tauto. Qed.

Lemma rename_radix kf c q t : radix kf (rename c q t) <-> radix kf t.
Proof.
  induction t as [x|x k l IHl r IHr]; simpl; [tauto|].
  rewrite !rename_leaves, !rename_negbits, IHl, IHr. tauto.
Qed.

Lemma rename_acells c q t : cell q -> acells t -> acells (rename c q t).
Proof.
  induction t as [x|x k l IHl r IHr]; simpl; auto.
  destruct (x =? c); tauto.
Qed.

Lemma rename_nodes c q t :
  nodes (rename c q t) = map (fun x => if x =? c then q else x) (nodes t).
Proof.
  induction t as [x|x k l IHl r IHr]; simpl; auto.
  rewrite map_app, IHl, IHr. reflexivity.
Qed.

Lemma rename_nodes_NoDup c q t :
  NoDup (nodes t) -> ~ In q (nodes t) -> NoDup (nodes (rename c q t)).
Proof.
  intros Hn Hq. rewrite rename_nodes.
  apply NoDup_map_NoDup_ForallPairs; auto.
  intros x y Hx Hy. destruct (Z.eqb_spec x c), (Z.eqb_spec y c);
    intros E; subst; auto; contradiction.
Qed.

Lemma rename_nodes_In c q t x :
  In x (nodes (rename c q t)) <->
  (x = q /\ In c (nodes t)) \/ (x <> c /\ In x (nodes t)).
Proof.
  rewrite rename_nodes, in_map_iff. split.
  - intros (y & E & Hy). destruct (Z.eqb_spec y c); subst; auto.
  - intros [(-> & H)|(Hne & H)].
    + exists c. rewrite Z.eqb_refl. auto.
    + exists x. destruct (Z.eqb_spec x c); [contradiction|auto].
Qed.

(** After the leaf of [c] is gone, the cell [q] that was its parent takes
    the node part of [c]: every node is again above its own leaf. *)
Lemma unlink_over c : forall t t' q,
  over t -> distinct t -> unlink c t = Some (t', q) ->
  (q <> c -> In q (leaves t')) /\ over (rename c q t').
Proof.
  induction t as [x|x k l IHl r IHr]; intros t' q Ho Hd H; simpl in H;
    [discriminate|].
  simpl in Ho. destruct Ho as (Hx & Ol & Or).
  apply distinct_node in Hd.
  destruct Hd as (Dl & Dr & Hll & Hnn & Hxl & Hxr).
  pose proof (over_nodes_leaves l Ol) as Il.
  pose proof (over_nodes_leaves r Or) as Ir.
  apply in_app_or in Hx.
  destruct (is_leaf c l) eqn:El; [|destruct (is_leaf c r) eqn:Er].
  - apply is_leaf_true in El. subst l. injection H as <- <-.
    assert (Hcr : ~ In c (nodes r)).
    { intros Hc. apply Ir in Hc. apply (Hll c); simpl; auto. }
    rewrite rename_id by assumption. split; auto.
    intros Hne. destruct Hx as [[E|[]]|Hx]; [congruence|auto].
  - apply is_leaf_true in Er. subst r. injection H as <- <-.
    assert (Hcl : ~ In c (nodes l)).
    { intros Hc. apply Il in Hc. apply (Hll c); simpl; auto. }
    rewrite rename_id by assumption. split; auto.
    intros Hne. destruct Hx as [Hx|[E|[]]]; [auto|congruence].
  - destruct (inb c (leaves l)) eqn:Ein.
    + apply inb_In in Ein.
      destruct (unlink c l) as [[l' q']|] eqn:E; [|discriminate].
      simpl in H. injection H as <- <-.
      destruct (IHl _ _ Ol Dl eq_refl) as (Hq & Ov).
      destruct (unlink_spot _ _ _ _ E) as ((l1 & l2 & E1 & E2) & P & _).
      assert (Hql : In q' (nodes l)).
      { eapply Permutation_in; [symmetry; exact P|]. now left. }
      assert (Hcr : ~ In c (nodes r)).
      { intros Hc. apply Ir in Hc. apply (Hll c); auto. }
      simpl. split.
      * intros Hne. apply in_or_app. auto.
      * rewrite (rename_id c q' r) by assumption.
        rewrite rename_leaves. split; [|split]; auto.
        apply in_or_app. destruct (Z.eqb_spec x c) as [->|Hne].
        -- left. apply Hq. intros ->. contradiction.
        -- destruct Hx as [Hx|Hx]; auto. left.
           rewrite E1 in Hx. rewrite E2. rewrite in_app_iff in *.
           simpl in Hx. intuition congruence.
    + apply inb_not_In in Ein.
      destruct (unlink c r) as [[r' q']|] eqn:E; [|discriminate].
      simpl in H. injection H as <- <-.
      destruct (IHr _ _ Or Dr eq_refl) as (Hq & Ov).
      destruct (unlink_spot _ _ _ _ E) as ((l1 & l2 & E1 & E2) & P & _).
      assert (Hql : In q' (nodes r)).
      { eapply Permutation_in; [symmetry; exact P|]. now left. }
      assert (Hcl : ~ In c (nodes l)).
      { intros Hc. apply Il in Hc. contradiction. }
      simpl. split.
      * intros Hne. apply in_or_app. auto.
      * rewrite (rename_id c q' l) by assumption.
        rewrite rename_leaves. split; [|split]; auto.
        apply in_or_app. destruct (Z.eqb_spec x c) as [->|Hne].
        -- right. apply Hq. intros ->. apply (Hnn c); auto.
           contradiction.
        -- destruct Hx as [Hx|Hx]; auto. right.
           rewrite E1 in Hx. rewrite E2. rewrite in_app_iff in *.
           simpl in Hx. intuition congruence.
Qed.

(** * The invariant of a tree in the store *)

Lemma dotag_nonnull p s : cell p -> 0 <= s <= 1 -> eb_dotag p s <> NULL.
Proof.
  unfold cell, aligned, eb_dotag, NULL. intros [H1 H2] Hs.
  Z.div_mod_to_equations. lia.
Qed.

Lemma leaf_p_nonnull m : forall t p s,
  repr m p s t -> acells t -> cell p -> 0 <= s <= 1 ->
  forall c, In c (leaves t) -> get_leaf_p m c <> NULL.
Proof.
  induction t as [x|x k l IHl r IHr]; intros p s [Hu Hi] Ha Hp Hs c Hc.
  - simpl in Hc. destruct Hc as [<-|[]]. simpl in Hu. rewrite Hu.
    now apply dotag_nonnull.
  - simpl in Hi, Ha, Hc.
    destruct Hi as (Hk & Hbl & Hbr & Hul & Hur & Hil & Hir).
    apply in_app_or in Hc. destruct Hc as [Hc|Hc].
    + apply (IHl x EB_LEFT); auto; try tauto. split; auto.
      unfold EB_LEFT; lia.
    + apply (IHr x EB_RGHT); auto; try tauto. split; auto.
      unfold EB_RGHT; lia.
Qed.

Lemma node_p_nonnull m : forall t p s,
  repr m p s t -> acells t -> cell p -> 0 <= s <= 1 ->
  forall c, In c (nodes t) -> get_node_p m c <> NULL.
Proof.
  induction t as [x|x k l IHl r IHr]; intros p s [Hu Hi] Ha Hp Hs c Hc.
  - simpl in Hc. tauto.
  - simpl in Hi, Ha, Hc, Hu.
    destruct Hi as (Hk & Hbl & Hbr & Hul & Hur & Hil & Hir).
    destruct Hc as [<-|Hc].
    + rewrite Hu. now apply dotag_nonnull.
    + apply in_app_or in Hc. destruct Hc as [Hc|Hc].
      * apply (IHl x EB_LEFT); auto; try tauto. split; auto.
        unfold EB_LEFT; lia.
      * apply (IHr x EB_RGHT); auto; try tauto. split; auto.
        unfold EB_RGHT; lia.
Qed.

Lemma radix_ext kf kf' t :
  (forall c, kf' c = kf c) -> radix kf t -> radix kf' t.
Proof.
  intros E. induction t as [x|x k l IHl r IHr]; simpl; auto.
  intros [(Hk & Nl & Nr & Hs)|(Hk & Rl & Rr & Sa & Bl & Br)].
  - left. repeat split; auto. intros a b Ha Hb. rewrite !E. auto.
  - right. repeat split; auto; try lia.
    + intros a b Ha Hb. rewrite !E. auto.
    + intros a Ha. rewrite E. auto.
    + intros a Ha. rewrite E. auto.
Qed.

Lemma map_ext_keys (kf kf' : Z -> Z) (l : list Z) :
  (forall c, kf' c = kf c) -> map kf' l = map kf l.
Proof. intros E. apply map_ext. auto. Qed.

Lemma NoDup_insert {A : Type} (a : A) l1 l2 :
  NoDup (l1 ++ a :: l2) <-> NoDup (l1 ++ l2) /\ ~ In a (l1 ++ l2).
Proof.
  split.
  - intros H. split; [eapply NoDup_remove_1|eapply NoDup_remove_2]; eauto.
  - intros [H1 H2].
    eapply Permutation_NoDup; [apply Permutation_middle|].
    constructor; auto.
Qed.

Section Global.

Context {U : UndefShift}.

(** The tree takes no equal key twice: the right branch of its root is
    tagged. *)
Definition unique_mode (m : mem) (root : Z) : bool :=
  negb (eb_gettag (get_b m root EB_RGHT) =? 0).

Record shape (m : mem) (root : Z) (t : tree) : Prop := {
  sh_b : get_b m root EB_LEFT = ttag t;
  sh_repr : repr m root EB_LEFT t;
  sh_cells : acells t;
  sh_distinct : distinct t;
  sh_root : ~ In root (leaves t);
  sh_over : over t;
  sh_nodeless :
    forall c, In c (leaves t) -> ~ In c (nodes t) -> get_node_p m c = NULL;
  sh_radix : radix (get_key m) t;
  sh_uniq :
    unique_mode m root = true -> NoDup (map (get_key m) (leaves t))
}.

(** The cell [c] is in the tree. *)
Definition linked (st : option tree) (c : Z) : Prop :=
  match st with
  | None => False
  | Some t => In c (leaves t)
  end.

Record inv (m : mem) (root : Z) (st : option tree) : Prop := {
  inv_root : cell root;
  inv_right : eb_clrtag (get_b m root EB_RGHT) = NULL;
  inv_keys : keys_ok (get_key m);
  inv_linked : forall c, get_leaf_p m c <> NULL <-> linked st c;
  inv_tree :
    match st with
    | None => get_b m root EB_LEFT = NULL
    | Some t => shape m root t
    end
}.

Lemma shape_root_nodes m root t : shape m root t -> ~ In root (nodes t).
Proof.
  intros S H. apply (sh_root _ _ _ S).
  apply (over_nodes_leaves t (sh_over _ _ _ S)). exact H.
Qed.

(** ** The steps on the abstract state *)

Definition ins_top (kf : Z -> Z) (uniq : bool) (n : Z) (st : option tree)
  : option (option tree * Z) :=
  match st with
  | None => Some (Some (Leaf n), n)
  | Some t =>
      match ins kf uniq n t with
      | Some (t', ret) => Some (Some t', ret)
      | None => None
      end
  end.

Definition del_top (c : Z) (st : option tree) : option tree :=
  match st with
  | None => None
  | Some t =>
      if inb c (leaves t) then
        match unlink c t with
        | Some (t', q) => Some (rename c q t')
        | None => None
        end
      else Some t
  end.

End Global.

(** * Insertion keeps the invariant *)

Section InsertInv.

Context {U : UndefShift}.

(** In a tree without duplicates, the descent for a key that is there ends
    on its leaf. *)
Lemma ins_found kf n : forall t x,
  keys_ok kf -> radix kf t -> over t -> NoDup (map kf (leaves t)) ->
  In x (leaves t) -> kf x = kf n ->
  ins kf true n t = Some (t, x).
Proof.
  induction t as [o|o k l IHl r IHr]; intros x Hk Hr Ho Hn Hx Ex.
  - simpl in Hx. destruct Hx as [<-|[]]. simpl. unfold ins_here.
    rewrite Ex, Z.eqb_refl. reflexivity.
  - simpl in Hr, Ho, Hn, Hx. rewrite map_app in Hn.
    apply NoDup_app_iff in Hn. destruct Hn as (Nl & Nr & Nd).
    destruct Ho as (Hot & Ol & Or).
    destruct Hr as [(_ & _ & _ & Hs)|(Hk' & Rl & Rr & Sa & Bl & Br)].
    + exfalso. apply (Nd (kf (first_leaf l))).
      * apply in_map. apply first_leaf_In.
      * rewrite (Hs (first_leaf l) (first_leaf r)).
        -- apply in_map. apply first_leaf_In.
        -- apply in_or_app. left. apply first_leaf_In.
        -- apply in_or_app. right. apply first_leaf_In.
    + assert (Hpre : Z.shiftr (kf n) (k + 1) = Z.shiftr (kf o) (k + 1)).
      { rewrite <- Ex. apply Sa; auto. }
      assert (Estop : (k <? 0)
                || (shr32 (Z.lxor (kf n) (kf o)) k >=? EB_NODE_BRANCHES) = false).
      { destruct (Z.ltb_spec k 0); [lia|]. simpl.
        rewrite shr32_in_range by lia.
        destruct (Z.shiftr (Z.lxor (kf n) (kf o)) k >=? EB_NODE_BRANCHES) eqn:E;
          auto.
        pose proof (Hk n). pose proof (Hk o). unfold UINT32_MOD in *.
        apply diverge_above in E; [contradiction|lia|lia|lia]. }
      simpl. rewrite Estop. rewrite shr32_in_range, side_bit by lia.
      apply in_app_or in Hx. destruct Hx as [Hx|Hx].
      * rewrite <- Ex, (Bl x Hx). simpl.
        rewrite (IHl x); auto.
      * rewrite <- Ex, (Br x Hx). simpl.
        rewrite (IHr x); auto.
Qed.

Lemma eb32_insert_nonempty fuel m root n :
  get_b m root EB_LEFT <> NULL ->
  eb32_insert fuel m root n =
  eb32_insert_from fuel m (get_b m root EB_RGHT) n (get_key m n) root EB_LEFT
    (get_b m root EB_LEFT).
Proof.
  intros H. unfold eb32_insert.
  destruct (Z.eqb_spec (get_b m root EB_LEFT) NULL); [contradiction|].
  reflexivity.
Qed.

Lemma eb32_insert_empty fuel m root n :
  get_b m root EB_LEFT = NULL ->
  eb32_insert fuel m root n =
  Some (put_node_p (put_leaf_p (put_b m root EB_LEFT (eb_dotag n EB_LEAF))
                      n (eb_dotag root EB_LEFT)) n NULL, n).
Proof.
  intros H. unfold eb32_insert. rewrite H. reflexivity.
Qed.

(** What an insertion leaves alone outside the tree. *)
Definition outside_kept (m m' : mem) (root : Z) : Prop :=
  (forall c, get_key m' c = get_key m c) /\
  get_b m' root EB_RGHT = get_b m root EB_RGHT.

Theorem eb32_insert_inv m root st n st' ret :
  inv m root st -> cell n -> n <> root -> get_leaf_p m n = NULL ->
  ins_top (get_key m) (unique_mode m root) n st = Some (st', ret) ->
  exists m',
    (fun fuel => eb32_insert fuel m root n) ⇓ (m', ret) /\
    inv m' root st' /\ outside_kept m m' root /\
    (ret <> n -> untouched m m' n).
Proof.
  intros I Hn Hnr Hl Hins.
  destruct I as [Iroot Iright Ikeys Ilinked Itree].
  destruct st as [t|]; simpl in Hins.
  - (* a tree with cells *)
    destruct (ins (get_key m) (unique_mode m root) n t) as [[t' ret']|] eqn:Ei;
      [|discriminate].
    injection Hins as <- <-.
    pose proof Itree as [Sb Sr Sc Sd Sro So Sn Sra Su].
    assert (Hnl : ~ In n (leaves t)).
    { intros H. apply (Ilinked n) in H. contradiction. }
    assert (Hf : fresh n t).
    { split; auto. intros H. apply Hnl. now apply (over_nodes_leaves t So). }
    assert (Hrn : ~ In root (nodes t)) by (eapply shape_root_nodes; eauto).
    destruct (eb32_insert_from_spec m n (get_b m root EB_RGHT) t root EB_LEFT
                t' ret') as (m' & T & R1 & R2 & R3); auto.
    { unfold cell in Iroot. tauto. } { unfold EB_LEFT. lia. }
    assert (T' : (fun fuel => eb32_insert fuel m root n) ⇓ (m', ret')).
    { eapply terminates_ext; [|exact T]. intros fuel. cbv beta.
      rewrite eb32_insert_nonempty, Sb; auto.
      rewrite Sb. now apply ttag_nonnull. }
    pose proof (ins_inserted _ _ _ _ _ _ Ei) as Hi.
    assert (Hrej : ret' <> n -> untouched m m' n).
    { intros Hne. destruct T as [f0 T].
      eapply eb32_insert_from_reject; eauto. }
    destruct R3 as (F1 & F2 & F3 & F4).
    assert (Hright : get_b m' root EB_RGHT = get_b m root EB_RGHT).
    { apply F3; [in_solve|]. intros _. unfold EB_RGHT, EB_LEFT. lia. }
    assert (Hu' : unique_mode m' root = unique_mode m root).
    { unfold unique_mode. now rewrite Hright. }
    assert (Hc' : acells t') by (eapply ins_acells; eauto).
    exists m'. split; [exact T'|]. split; [|split; [split; auto|exact Hrej]].
    constructor; auto.
    + now rewrite Hright.
    + intros c. rewrite F4. apply Ikeys.
    + (* linked cells *)
      intros c. simpl. split.
      * intros Hc.
        destruct Hi as [(-> & (l1 & l2 & E1 & E2) & _)|(_ & -> & _ & Hin)].
        -- rewrite E2. rewrite in_app_iff. simpl.
           destruct (Z.eq_dec c n) as [->|Hcn]; auto.
           assert (In c (leaves t)).
           { destruct (in_dec Z.eq_dec c (leaves t)) as [|Hnc]; auto.
             exfalso. apply Hc. rewrite F1.
             - destruct (Z.eq_dec (get_leaf_p m c) NULL) as [|Hz]; auto.
               apply Ilinked in Hz. contradiction.
             - intros [E|H']; [congruence|contradiction]. }
           rewrite E1, in_app_iff in H. tauto.
        -- assert (Hne : ret' <> n).
           { intros ->. destruct Hin; [contradiction|].
             destruct Hf. contradiction. }
           destruct (Hrej Hne c) as (E & _). rewrite E in Hc.
           now apply Ilinked.
      * intros Hc. eapply leaf_p_nonnull; eauto. unfold EB_LEFT; lia.
    + (* the shape *)
      assert (Hl' : forall x, In x (leaves t') -> x = n \/ In x (leaves t))
        by (intros x; eapply inserted_In_inv; eauto).
      constructor; auto.
      * (* distinct *)
        destruct Hi as [(-> & (l1 & l2 & E1 & E2) & P)|(_ & -> & _)]; auto.
        destruct Sd as [D1 D2]. split.
        -- rewrite E2. apply NoDup_insert. rewrite <- E1. auto.
        -- eapply Permutation_NoDup; [symmetry; exact P|].
           constructor; auto. apply Hf.
      * intros H. destruct (Hl' _ H); [congruence|contradiction].
      * eapply ins_over; eauto.
      * (* the cell without a node part *)
        intros c Hc Hcn.
        destruct Hi as [(-> & (l1 & l2 & E1 & E2) & P)|(_ & -> & _ & Hin)].
        -- assert (Hc1 : ~ In c (n :: nodes t)).
           { intros H. apply Hcn. eapply Permutation_in; [symmetry; exact P|].
             exact H. }
           destruct (F2 c Hc1) as [-> _]. apply Sn.
           ++ destruct (Hl' c Hc) as [->|]; auto. exfalso. apply Hc1. now left.
           ++ intros H. apply Hc1. now right.
        -- assert (Hne : ret' <> n).
           { intros ->. destruct Hin; [contradiction|].
             destruct Hf. contradiction. }
           destruct (Hrej Hne c) as (_ & _ & _ & E).
           destruct E as [-> _]; [congruence|]. auto.
      * (* radix *)
        apply radix_ext with (get_key m); auto.
        eapply ins_radix; eauto.
      * (* unique keys *)
        rewrite Hu'. intros Hu. rewrite (map_ext_keys _ _ _ F4).
        pose proof (Su Hu) as ND.
        destruct Hi as [(-> & (l1 & l2 & E1 & E2) & P)|(_ & -> & _)]; auto.
        rewrite E2, map_app. simpl. apply NoDup_insert.
        rewrite <- map_app, <- E1. split; auto.
        intros Hin. apply in_map_iff in Hin. destruct Hin as (x & Ex & Hx).
        rewrite Hu in Ei.
        rewrite (ins_found (get_key m) n t x) in Ei; auto.
        injection Ei as _ <-. contradiction.
  - (* the empty tree *)
    injection Hins as <- <-. simpl in Itree.
    eexists. split; [|split; [|split; [split|]]].
    + apply terminates_now. intros fuel. now apply eb32_insert_empty.
    + assert (Hal : forall c, get_leaf_p m c = NULL).
      { intros c. destruct (Z.eq_dec (get_leaf_p m c) NULL) as [|H]; auto.
        apply Ilinked in H. destruct H. }
      assert (Hright : forall v w x,
        get_b (put_node_p (put_leaf_p (put_b m root EB_LEFT v) n w) n x)
              root EB_RGHT = get_b m root EB_RGHT).
      { intros. msimpl. norm_consts. msimpl. reflexivity. }
      constructor; auto.
      * now rewrite Hright.
      * intros c. msimpl. apply Ikeys.
      * intros c. simpl. msimpl. destruct (Z.eqb_spec c n) as [->|Hne].
        -- split; auto. intros _. now apply dotag_nonnull; unfold EB_LEFT; try lia.
        -- rewrite Hal. split; [congruence|]. intros [E|[]]. congruence.
      * constructor.
        -- msimpl. reflexivity.
        -- apply repr_leaf_intro. msimpl. reflexivity.
        -- exact Hn.
        -- apply distinct_leaf.
        -- simpl. intuition congruence.
        -- exact I.
        -- intros c [<-|[]] _. msimpl. reflexivity.
        -- exact I.
        -- intros _. simpl. repeat constructor. simpl. tauto.
    + intros c. msimpl. reflexivity.
    + msimpl. norm_consts. msimpl. reflexivity.
    + congruence.
Qed.

End InsertInv.

(** * Deletion keeps the invariant *)

Lemma repr_put_leaf_p m c v p s t :
  ~ In c (leaves t) -> repr m p s t -> repr (put_leaf_p m c v) p s t.
Proof.
  intros Hc. apply repr_same. split.
  - intros x Hx. msimpl. destruct (Z.eqb_spec x c); [subst; contradiction|].
    reflexivity.
  - intros x Hx. repeat split; intros; msimpl; reflexivity.
Qed.

Lemma eb_delete_unlinked m c : get_leaf_p m c = NULL -> eb_delete m c = m.
Proof. intros H. rewrite eb_delete_unfold, H. reflexivity. Qed.

(** The two-stage deletion below a node, on the tree [t] under the root. *)
Lemma eb_delete_below m root t c :
  shape m root t -> cell root ->
  (forall x, get_leaf_p m x <> NULL <-> In x (leaves t)) ->
  In c (leaves t) -> t <> Leaf c ->
  exists t' q,
    unlink c t = Some (t', q) /\
    let m' := eb_delete m c in
    shape m' root (rename c q t') /\
    (forall x, get_leaf_p m' x <> NULL <-> In x (leaves t')) /\
    (forall x, get_key m' x = get_key m x) /\
    get_b m' root EB_RGHT = get_b m root EB_RGHT.
Proof.
  intros S Hroot Hlinked Hc Hne.
  pose proof S as [Sb Sr Sc Sd Sro So Sn Sra Su].
  assert (Hrn : ~ In root (nodes t)) by (eapply shape_root_nodes; eauto).
  assert (Har : aligned root) by (unfold cell in Hroot; tauto).
  destruct (delete_unlink_spec m c t root EB_LEFT)
    as (t' & q & E & Eq & Hq & Hclr & R1 & R2 & R3 & R4); auto.
  { unfold EB_LEFT. lia. }
  exists t', q. split; [exact E|]. cbv zeta.
  destruct (unlink_spot _ _ _ _ E) as ((l1 & l2 & E1 & E2) & P & A).
  destruct Sd as [D1 D2].
  assert (D1' : NoDup (leaves t')).
  { rewrite E2. rewrite E1 in D1. eapply NoDup_remove_1; eauto. }
  assert (Hcl' : ~ In c (leaves t')).
  { rewrite E2. rewrite E1 in D1. eapply NoDup_remove_2; eauto. }
  assert (D2' : NoDup (q :: nodes t')).
  { eapply Permutation_NoDup; eauto. }
  apply NoDup_cons_iff in D2'. destruct D2' as [Hqn D2''].
  assert (Hsub : forall x, In x (leaves t') -> In x (leaves t)).
  { eapply unlink_incl; eauto. }
  assert (Hnsub : forall x, In x (nodes t) <-> x = q \/ In x (nodes t')).
  { intros x. split; intros H.
    - apply (Permutation_in _ P) in H. simpl in H. intuition.
    - apply (Permutation_in _ (Permutation_sym P)). simpl. intuition. }
  assert (Hqr : root <> q) by (intros ->; contradiction).
  assert (Hqc : cell q) by (eapply acells_nodes; eauto).
  assert (Hlnz : get_leaf_p m c <> NULL) by (now apply Hlinked).
  set (m3 := delete_unlink_writes m c) in *.
  (* the node part of [c] is in use iff it is in the tree after stage one *)
  assert (Hnp : get_node_p m3 c = NULL <-> ~ In c (nodes t')).
  { split.
    - intros H Hin. revert H.
      eapply node_p_nonnull; eauto. unfold EB_LEFT; lia.
    - intros Hin. destruct (Z.eq_dec c q) as [->|Hcq]; [exact R4|].
      destruct R3 as (_ & F2 & _). destruct (F2 c) as [-> _].
      + rewrite Hnsub. tauto.
      + apply Sn; auto. rewrite Hnsub. tauto. }
  (* what [eb_delete] computes *)
  assert (Hdel : eb_delete m c =
            if get_node_p m3 c =? NULL then put_leaf_p m3 c NULL
            else put_leaf_p (delete_replace_writes m3 c q) c NULL).
  { rewrite eb_delete_unfold. cbv zeta. unfold eb_root_to_node.
    destruct (Z.eqb_spec (get_leaf_p m c) NULL); [contradiction|].
    rewrite <- Eq.
    destruct (Z.eqb_spec (eb_clrtag (get_b m q EB_RGHT)) NULL);
      [contradiction|].
    reflexivity. }
  rewrite Hdel. clear Hdel.
  destruct (Z.eqb_spec (get_node_p m3 c) NULL) as [Hz|Hz].
  - (* the node part of [c] was not used, or was its leaf's parent *)
    apply Hnp in Hz. rewrite (rename_id c q t') by assumption.
    destruct R3 as (F1 & F2 & F3 & F4).
    split; [|split; [|split]].
    + constructor.
      * msimpl. exact R2.
      * now apply repr_put_leaf_p.
      * auto.
      * split; auto.
      * intros H. apply Sro. auto.
      * pose proof (unlink_over c t t' q So (conj D1 D2) E) as [_ Ov].
        now rewrite rename_id in Ov.
      * intros x Hx Hxn. msimpl.
        destruct (Z.eq_dec x q) as [->|Hxq]; [exact R4|].
        destruct (F2 x) as [-> _]; [rewrite Hnsub; tauto|].
        apply Sn; auto. rewrite Hnsub. tauto.
      * apply radix_ext with (get_key m).
        -- intros x. msimpl. apply F4.
        -- eapply unlink_radix; eauto.
      * unfold unique_mode. msimpl. rewrite F3; [|auto|unfold EB_LEFT, EB_RGHT; lia].
        intros Hu. apply Su in Hu.
        erewrite map_ext_keys; [|intros x; msimpl; apply F4].
        rewrite E2, map_app. rewrite E1, map_app in Hu. simpl in Hu.
        eapply NoDup_remove_1; eauto.
    + intros x. msimpl. destruct (Z.eqb_spec x c) as [->|Hxc].
      * split; [congruence|contradiction].
      * split.
        -- intros H. destruct (in_dec Z.eq_dec x (leaves t)) as [Hx|Hx].
           ++ rewrite E1 in Hx. rewrite E2. rewrite in_app_iff in *.
              simpl in Hx. intuition congruence.
           ++ rewrite F1 in H by assumption. apply Hlinked in H. contradiction.
        -- intros H. eapply leaf_p_nonnull; eauto. unfold EB_LEFT; lia.
    + intros x. msimpl. apply F4.
    + msimpl. apply F3; auto. unfold EB_LEFT, EB_RGHT; lia.
  - (* the released parent takes over the node part of [c] *)
    assert (Hcn : In c (nodes t')).
    { destruct (in_dec Z.eq_dec c (nodes t')); auto. apply Hnp in n.
      contradiction. }
    assert (Hcq : c <> q) by (intros ->; contradiction).
    assert (Hrn' : ~ In root (nodes t')) by (rewrite Hnsub in Hrn; tauto).
    assert (Hc' : acells t') by auto.
    destruct (delete_replace_spec m3 c q t' root EB_LEFT)
      as (Q1 & Q2 & Q3); auto.
    { split; auto. } { unfold EB_LEFT; lia. }
    set (m9 := delete_replace_writes m3 c q) in *.
    destruct R3 as (F1 & F2 & F3 & F4). destruct Q3 as (G1 & G2 & G3 & G4).
    assert (Hca : acells (rename c q t')) by (now apply rename_acells).
    split; [|split; [|split]].
    + constructor.
      * msimpl. exact Q2.
      * apply repr_put_leaf_p; auto. now rewrite rename_leaves.
      * auto.
      * split; [now rewrite rename_leaves|].
        now apply rename_nodes_NoDup.
      * rewrite rename_leaves. intros H. apply Sro. auto.
      * pose proof (unlink_over c t t' q So (conj D1 D2) E) as [_ Ov]. exact Ov.
      * rewrite rename_leaves. intros x Hx Hxn. msimpl.
        rewrite rename_nodes_In in Hxn.
        assert (Hxc : x <> c) by (intros ->; contradiction).
        assert (Hxq : x <> q) by (intros ->; apply Hxn; auto).
        assert (Hxn' : ~ In x (nodes t')) by tauto.
        destruct (G2 x) as [-> _]; [simpl; intuition congruence|].
        destruct (F2 x) as [-> _]; [rewrite Hnsub; tauto|].
        apply Sn; auto. rewrite Hnsub. tauto.
      * apply rename_radix. apply radix_ext with (get_key m).
        -- intros x. msimpl. rewrite G4. apply F4.
        -- eapply unlink_radix; eauto.
      * unfold unique_mode. msimpl.
        rewrite G3, F3; auto; try (unfold EB_LEFT, EB_RGHT; lia);
          try (simpl; intuition congruence).
        intros Hu. apply Su in Hu.
        erewrite map_ext_keys; [|intros x; msimpl; rewrite G4; apply F4].
        rewrite rename_leaves.
        rewrite E2, map_app. rewrite E1, map_app in Hu. simpl in Hu.
        eapply NoDup_remove_1; eauto.
    + intros x. msimpl. destruct (Z.eqb_spec x c) as [->|Hxc].
      * split; [congruence|contradiction].
      * split.
        -- intros H. destruct (in_dec Z.eq_dec x (leaves t)) as [Hx|Hx].
           ++ rewrite E1 in Hx. rewrite E2. rewrite in_app_iff in *.
              simpl in Hx. intuition congruence.
           ++ rewrite G1, F1 in H; auto. apply Hlinked in H. contradiction.
        -- intros H. rewrite <- (rename_leaves c q) in H.
           eapply leaf_p_nonnull; eauto. unfold EB_LEFT; lia.
    + intros x. msimpl. rewrite G4. apply F4.
    + msimpl. rewrite G3, F3; auto; try (unfold EB_LEFT, EB_RGHT; lia).
      simpl. intuition congruence.
Qed.

Theorem eb_delete_inv m root st c :
  inv m root st ->
  inv (eb_delete m c) root (del_top c st) /\
  outside_kept m (eb_delete m c) root.
Proof.
  intros I. pose proof I as [Iroot Iright Ikeys Ilinked Itree].
  assert (Hno : ~ linked st c -> get_leaf_p m c = NULL).
  { intros H. destruct (Z.eq_dec (get_leaf_p m c) NULL) as [|Hz]; auto.
    apply Ilinked in Hz. contradiction. }
  destruct st as [t|]; simpl.
  - destruct (inb c (leaves t)) eqn:Hin.
    + apply inb_In in Hin.
      destruct t as [x|x k l r].
      * (* the one cell of the tree, just below the root *)
        simpl in Hin. destruct Hin as [->|[]]. simpl.
        pose proof Itree as [Sb Sr Sc Sd Sro So Sn Sra Su].
        destruct Sr as [Hu _]. simpl in Hu.
        assert (Har : aligned root) by (unfold cell in Iroot; tauto).
        assert (Hd : eb_delete m c =
                     put_leaf_p (put_b m root EB_LEFT NULL) c NULL).
        { rewrite eb_delete_unfold. cbv zeta. unfold eb_root_to_node.
          rewrite Hu, gettag_dotag, untag_dotag, Iright
            by (auto; unfold EB_LEFT; lia).
          destruct (Z.eqb_spec (eb_dotag root EB_LEFT) NULL) as [E|_];
            [|reflexivity].
          exfalso. revert E. apply dotag_nonnull; auto. unfold EB_LEFT; lia. }
        rewrite Hd. split.
        -- constructor; auto.
           ++ msimpl. norm_consts. msimpl. exact Iright.
           ++ intros x. msimpl. apply Ikeys.
           ++ intros x. simpl. msimpl.
              destruct (Z.eqb_spec x c) as [->|Hne]; [tauto|].
              split; [|tauto]. intros H. apply Ilinked in H. simpl in H.
              intuition congruence.
           ++ msimpl. reflexivity.
        -- split; [intros x; msimpl; reflexivity|].
           msimpl. norm_consts. msimpl. reflexivity.
      * destruct (eb_delete_below m root (Node x k l r) c)
          as (t' & q & E & S' & L' & K' & B'); auto; [discriminate|].
        rewrite E. split; [|split; auto].
        constructor; auto.
        -- rewrite B'. exact Iright.
        -- intros y. rewrite K'. apply Ikeys.
        -- intros y. simpl. rewrite rename_leaves. apply L'.
    + apply inb_not_In in Hin. rewrite eb_delete_unlinked by auto.
      split; [exact I|]. split; auto.
  - rewrite eb_delete_unlinked by auto. split; [exact I|]. split; auto.
Qed.

(** * When [eb_insert_dup] cannot store the bit

    The insertion on the tree gives no tree exactly when the bit of the new
    node would not fit a [short]; the functions then give no result. *)

Definition gives_none {A : Type} (f : nat -> option A) : Prop :=
  exists n, forall fuel, (n <= fuel)%nat -> f fuel = None.

Lemma gives_none_not_terminates {A : Type} (f : nat -> option A) r :
  gives_none f -> ~ f ⇓ r.
Proof.
  intros [n1 H1] [n2 H2].
  specialize (H1 (Nat.max n1 n2) ltac:(lia)).
  specialize (H2 (Nat.max n1 n2) ltac:(lia)). congruence.
Qed.

Lemma gives_none_step {A : Type} (f g : nat -> option A) :
  (forall fuel, g (S fuel) = f fuel) -> gives_none f -> gives_none g.
Proof.
  intros E [n H]. exists (S n). intros [|fuel] Hle; [lia|].
  rewrite E. apply H. lia.
Qed.

Lemma gives_none_ext {A : Type} (f g : nat -> option A) :
  (forall fuel, f fuel = g fuel) -> gives_none f -> gives_none g.
Proof. intros E [n H]. exists n. intros. rewrite <- E. auto. Qed.

Lemma eb_insert_dup_none m n c k l r :
  inner m (Node c k l r) -> acells (Node c k l r) ->
  ins_dup n (Node c k l r) = None ->
  gives_none (fun fuel => eb_insert_dup fuel m c n).
Proof.
  intros Hi Ha Hins.
  set (t := Node c k l r) in *.
  assert (Hins' : (let '(_, hk, sub, subk) := dup_walk t c k in
                   if hk <? -1 then Some (graft_leaf n t)
                   else if subk - 1 <? SHRT_MIN then None
                   else Some (graft_above sub n t)) = None) by exact Hins.
  clear Hins.
  destruct (dup_walk t c k) as [[[h hk] sub] subk] eqn:E.
  destruct (dup_walk_head t c k l r c k h hk sub subk eq_refl E) as [Hh Hhk].
  assert (Hsub : In (sub, subk) (rspine t)).
  { destruct (dup_walk_sub _ _ _ _ _ _ _ E) as [E'|H]; auto.
    inversion E'; subst. simpl. now left. }
  pose proof (rspine_bit m t h hk Hi Hhk) as Bh.
  pose proof (rspine_bit m t sub subk Hi Hsub) as Bs.
  pose proof (eb_insert_dup_walk_spec m t c k l r c k eq_refl Hi Ha) as W.
  rewrite E in W. destruct W as [n0 W]. exists n0. intros fuel Hle.
  rewrite eb_insert_dup_unfold, (W fuel Hle). simpl. rewrite Bh, Bs.
  destruct (hk <? -1); [discriminate|].
  destruct (subk - 1 <? SHRT_MIN); [reflexivity|discriminate].
Qed.

Section InsertNone.

Context {U : UndefShift}.

Lemma eb32_insert_link_none m n p s t rr :
  inner m t -> acells t -> fresh n t ->
  ins_here (get_key m) (negb (eb_gettag rr =? 0)) n t (tcell t) = None ->
  gives_none (fun fuel =>
    eb32_insert_link fuel (put_node_p m n (up m t)) rr n p s
      (ttag t) (tcell t) (tfield t)).
Proof.
  intros Hi Ha Hf Hins. unfold ins_here in Hins.
  set (m1 := put_node_p m n (up m t)).
  assert (Hk1 : forall x, get_key m1 x = get_key m x)
    by (intros; unfold m1; msimpl; reflexivity).
  destruct (get_key m n =? get_key m (tcell t)) eqn:Ek.
  - destruct (negb (eb_gettag rr =? 0)) eqn:Eu; [discriminate|].
    destruct t as [c|c k l r]; [discriminate|].
    destruct (ins_dup n (Node c k l r)) as [td|] eqn:Ed; [discriminate|].
    set (kb := flsnz (Z.lxor (get_key m1 n) (get_key m1 c)) - EB_NODE_BITS).
    assert (Hi3 : inner (put_bit (put_bit m1 n kb) n (-1)) (Node c k l r)).
    { eapply inner_same; [|exact Hi]. split.
      - intros x Hx. unfold m1. msimpl. simpl.
        destruct (Z.eqb_spec x n); [subst; destruct Hf; contradiction|].
        reflexivity.
      - intros x Hx. assert (x <> n) by (intros ->; destruct Hf; contradiction).
        repeat split; intros; unfold m1; msimpl; reflexivity. }
    eapply gives_none_ext;
      [|exact (eb_insert_dup_none _ n c k l r Hi3 Ha Ed)].
    intros fuel. cbv beta. rewrite eb32_insert_link_unfold. cbv zeta.
    rewrite !Hk1. simpl tcell. simpl tcell in Ek. rewrite Ek, Eu.
    rewrite (gettag_ttag (Node c k l r)) by assumption.
    change (negb (EB_NODE =? EB_LEAF)) with true. cbv iota.
    unfold kb. rewrite !Hk1. reflexivity.
  - destruct (get_key m n >=? get_key m (tcell t)); discriminate.
Qed.

Lemma eb32_insert_from_none m n rr : forall t p s,
  inner m t -> get_b m p s = ttag t -> acells t -> fresh n t ->
  ins (get_key m) (negb (eb_gettag rr =? 0)) n t = None ->
  gives_none (fun fuel =>
    eb32_insert_from fuel m rr n (get_key m n) p s (ttag t)).
Proof.
  induction t as [c|c k l IHl r IHr]; intros p s Hi Hb Ha Hf Hins.
  - simpl in Hins.
    eapply gives_none_step;
      [|exact (eb32_insert_link_none m n p s (Leaf c) rr Hi Ha Hf Hins)].
    intros fuel. simpl eb32_insert_from.
    rewrite (gettag_ttag (Leaf c)) by assumption.
    change (EB_LEAF =? EB_LEAF) with true. cbv iota.
    rewrite untag_ttag_leaf. reflexivity.
  - simpl in Hins. pose proof Hi as Hi'. simpl in Hi'.
    destruct Hi' as (Hk & Hbl & Hbr & Hul & Hur & Hil & Hir).
    assert (Estep : forall fuel,
      eb32_insert_from (S fuel) m rr n (get_key m n) p s (ttag (Node c k l r)) =
      if (k <? 0) || (shr32 (Z.lxor (get_key m n) (get_key m c)) k
                      >=? EB_NODE_BRANCHES)
      then eb32_insert_link fuel (put_node_p m n (get_node_p m c)) rr n p s
             (ttag (Node c k l r)) c UpNodeP
      else eb32_insert_from fuel m rr n (get_key m n) c
             (Z.land (shr32 (get_key m n) k) EB_NODE_BRANCH_MASK)
             (get_b m c (Z.land (shr32 (get_key m n) k) EB_NODE_BRANCH_MASK))).
    { intros fuel. simpl eb32_insert_from.
      rewrite (gettag_ttag (Node c k l r)) by assumption.
      change (EB_NODE =? EB_LEAF) with false. cbv iota.
      rewrite untag_ttag_node, Hk. reflexivity. }
    destruct ((k <? 0) || (shr32 (Z.lxor (get_key m n) (get_key m c)) k
                           >=? EB_NODE_BRANCHES)) eqn:Estop.
    + eapply gives_none_step;
        [|exact (eb32_insert_link_none m n p s (Node c k l r) rr Hi Ha Hf Hins)].
      intros fuel. rewrite Estep. reflexivity.
    + apply fresh_node in Hf. destruct Hf as (Hcn & Hfl & Hfr).
      simpl in Ha. destruct Ha as (Hc & Hal & Har).
      destruct (land_mask_cases (shr32 (get_key m n) k)) as [Es|Es];
        rewrite Es in *; simpl in Hins.
      * destruct (ins (get_key m) (negb (eb_gettag rr =? 0)) n l)
          as [[l' ret']|] eqn:El; [discriminate|].
        eapply gives_none_step; [|exact (IHl c EB_LEFT Hil Hbl Hal Hfl eq_refl)].
        intros fuel. rewrite Estep. change 0 with EB_LEFT. rewrite Hbl.
        reflexivity.
      * destruct (ins (get_key m) (negb (eb_gettag rr =? 0)) n r)
          as [[r' ret']|] eqn:El; [discriminate|].
        eapply gives_none_step; [|exact (IHr c EB_RGHT Hir Hbr Har Hfr eq_refl)].
        intros fuel. rewrite Estep. change 1 with EB_RGHT. rewrite Hbr.
        reflexivity.
Qed.

(** A call of [eb32_insert] that returns is an insertion on the tree. *)
Theorem eb32_insert_returns m root st n m' ret :
  inv m root st -> cell n -> n <> root -> get_leaf_p m n = NULL ->
  (fun fuel => eb32_insert fuel m root n) ⇓ (m', ret) ->
  exists st',
    ins_top (get_key m) (unique_mode m root) n st = Some (st', ret) /\
    inv m' root st' /\ outside_kept m m' root /\
    (ret <> n -> untouched m m' n).
Proof.
  intros I Hn Hnr Hl T.
  destruct (ins_top (get_key m) (unique_mode m root) n st)
    as [[st' ret']|] eqn:E.
  - destruct (eb32_insert_inv m root st n st' ret' I Hn Hnr Hl E)
      as (m'' & T' & I' & K & R).
    pose proof (terminates_det _ _ _ T T') as Eq. injection Eq as -> ->.
    exists st'. auto.
  - exfalso. destruct st as [t|]; simpl in E; [|discriminate].
    destruct (ins (get_key m) (unique_mode m root) n t) as [[t' r']|] eqn:Ei;
      [discriminate|].
    destruct I as [Iroot Iright Ikeys Ilinked Itree].
    pose proof Itree as [Sb Sr Sc Sd Sro So Sn Sra Su].
    assert (Hnl : ~ In n (leaves t)).
    { intros H. apply (Ilinked n) in H. contradiction. }
    assert (Hf : fresh n t).
    { split; auto. intros H. apply Hnl. now apply (over_nodes_leaves t So). }
    refine (gives_none_not_terminates _ _ _ T).
    eapply gives_none_ext;
      [|exact (eb32_insert_from_none m n (get_b m root EB_RGHT) t root EB_LEFT
                 (proj2 Sr) Sb Sc Hf Ei)].
    intros fuel. cbv beta. rewrite eb32_insert_nonempty; [now rewrite Sb|].
    rewrite Sb. now apply ttag_nonnull.
Qed.

End InsertNone.

(** * The leaves come in key order *)

Definition key_le (kf : Z -> Z) (a b : Z) : Prop := kf a <= kf b.

Lemma sorted_app {A : Type} (R : A -> A -> Prop) l1 l2 :
  StronglySorted R l1 -> StronglySorted R l2 ->
  (forall a b, In a l1 -> In b l2 -> R a b) ->
  StronglySorted R (l1 ++ l2).
Proof.
  induction l1 as [|x l1 IH]; simpl; intros S1 S2 H; auto.
  inversion S1 as [|? ? S1' F]; subst. constructor.
  - apply IH; auto.
  - apply Forall_app. split; auto.
    apply Forall_forall. intros b Hb. apply H; auto.
Qed.

Lemma sorted_all {A : Type} (R : A -> A -> Prop) l :
  (forall a b, In a l -> In b l -> R a b) -> StronglySorted R l.
Proof.
  induction l as [|x l IH]; intros H; constructor.
  - apply IH. intros; apply H; simpl; auto.
  - apply Forall_forall. intros b Hb. apply H; simpl; auto.
Qed.

Lemma sorted_map (kf : Z -> Z) l :
  StronglySorted (key_le kf) l -> StronglySorted Z.le (map kf l).
Proof.
  induction 1 as [|x l S IH F]; simpl; constructor; auto.
  apply Forall_forall. intros b Hb. apply in_map_iff in Hb.
  destruct Hb as (c & <- & Hc). rewrite Forall_forall in F. now apply F.
Qed.

Lemma radix_sorted kf t :
  radix kf t -> StronglySorted (key_le kf) (leaves t).
Proof.
  induction t as [c|c k l IHl r IHr]; simpl.
  - intros _. repeat constructor.
  - intros [(Hk & Nl & Nr & Sk)|(Hk & Rl & Rr & Sa & Bl & Br)].
    + apply sorted_all. intros a b Ha Hb. unfold key_le.
      rewrite (Sk a b Ha Hb). lia.
    + apply sorted_app; auto. intros a b Ha Hb. unfold key_le.
      assert (kf a < kf b); [|lia].
      apply (bit_order _ _ k); [lia| | |]; auto.
      apply Sa; apply in_or_app; auto.
Qed.

(** * Lookups *)

Lemma filter_all {A : Type} (f : A -> bool) l :
  (forall a, In a l -> f a = true) -> filter f l = l.
Proof.
  induction l as [|x l IH]; simpl; intros H; auto.
  rewrite (H x) by auto. f_equal. auto.
Qed.

Lemma filter_none {A : Type} (f : A -> bool) l :
  (forall a, In a l -> f a = false) -> filter f l = [].
Proof.
  induction l as [|x l IH]; simpl; intros H; auto.
  rewrite (H x) by auto. auto.
Qed.

Section Lookup.

Context {U : UndefShift}.
Variable m : mem.
Variable x : Z.
Hypothesis Hx : 0 <= x < UINT32_MOD.
Hypothesis Hkeys : keys_ok (get_key m).

Local Notation "'kf'" := (get_key m).

Lemma lookup_step_leaf c fuel :
  cell c ->
  eb32_lookup_loop (S fuel) m (ttag (Leaf c)) x =
  if kf c =? x then Some c else Some NULL.
Proof.
  intros Hc. simpl eb32_lookup_loop.
  rewrite (gettag_ttag (Leaf c)) by assumption.
  change (EB_LEAF =? EB_LEAF) with true. cbv iota.
  now rewrite untag_ttag_leaf.
Qed.

Lemma lookup_step_node c k l r fuel :
  inner m (Node c k l r) -> acells (Node c k l r) ->
  eb32_lookup_loop (S fuel) m (ttag (Node c k l r)) x =
  if Z.lxor (kf c) x =? 0 then
    if k <? 0 then eb_walk_down fuel m (ttag l) EB_LEFT else Some c
  else if shr32 (Z.lxor (kf c) x) k >=? EB_NODE_BRANCHES then Some NULL
  else eb32_lookup_loop fuel m
         (get_b m c (Z.land (shr32 x k) EB_NODE_BRANCH_MASK)) x.
Proof.
  intros Hi Ha. simpl in Hi. destruct Hi as (Hk & Hbl & _).
  simpl eb32_lookup_loop.
  rewrite (gettag_ttag (Node c k l r)) by assumption.
  change (EB_NODE =? EB_LEAF) with false. cbv iota.
  rewrite untag_ttag_node, Hk, Hbl. reflexivity.
Qed.

(** What [eb32_lookup] finds below a branch. *)
Definition found (L : list Z) (r : Z) : Prop :=
  ((exists c, In c L /\ kf c = x) -> In r L /\ kf r = x) /\
  ((forall c, In c L -> kf c <> x) -> r = NULL).

Lemma eb32_lookup_loop_spec : forall t,
  inner m t -> acells t -> radix kf t -> over t ->
  exists r,
    (fun fuel => eb32_lookup_loop fuel m (ttag t) x) ⇓ r /\
    found (leaves t) r.
Proof.
  induction t as [c|c k l IHl r IHr]; intros Hi Ha Hr Ho.
  - exists (if kf c =? x then c else NULL). split.
    + apply terminates_now. intros fuel. rewrite lookup_step_leaf by exact Ha.
      now destruct (kf c =? x).
    + unfold found. simpl. destruct (Z.eqb_spec (kf c) x) as [E|E]; split.
      * auto.
      * intros H. exfalso. apply (H c); auto.
      * intros (c' & [<-|[]] & E'). contradiction.
      * auto.
  - pose proof Hi as Hi'. simpl in Hi'.
    destruct Hi' as (Hk & Hbl & Hbr & Hul & Hur & Hil & Hir).
    pose proof Ha as Ha'. simpl in Ha'. destruct Ha' as (Hc & Hal & Har).
    pose proof Ho as Ho'. simpl in Ho'. destruct Ho' as (Hcin & Hol & Hor).
    simpl leaves.
    destruct (Z.eqb_spec (Z.lxor (kf c) x) 0) as [Ey|Ey].
    + apply (proj1 (Z.lxor_eq_0_iff _ _)) in Ey.
      destruct (Z.ltb_spec k 0) as [Hk0|Hk0].
      * exists (first_leaf l). split.
        { eapply terminates_step; [|apply (walk_down_left m l Hil Hal)].
          intros fuel. rewrite lookup_step_node by assumption.
          destruct (Z.eqb_spec (Z.lxor (kf c) x) 0) as [_|N];
            [|exfalso; apply N; apply (proj2 (Z.lxor_eq_0_iff _ _)); exact Ey].
          destruct (Z.ltb_spec k 0); [reflexivity|lia]. }
        simpl in Hr. destruct Hr as [(_ & Nl & Nr & Sk)|(Hk1 & _)]; [|lia].
        assert (Hf : In (first_leaf l) (leaves l ++ leaves r))
          by (apply in_or_app; left; apply first_leaf_In).
        split.
        { intros _. split; auto. rewrite <- Ey. now apply Sk. }
        { intros H. exfalso. apply (H c); auto. }
      * exists c. split.
        { apply terminates_now. intros fuel.
          rewrite lookup_step_node by assumption.
          destruct (Z.eqb_spec (Z.lxor (kf c) x) 0) as [_|N];
            [|exfalso; apply N; apply (proj2 (Z.lxor_eq_0_iff _ _)); exact Ey].
          destruct (Z.ltb_spec k 0); [lia|reflexivity]. }
        split; [auto|]. intros H. exfalso. apply (H c); auto.
    + assert (Ecx : kf c <> x)
        by (intros E; apply Ey; apply (proj2 (Z.lxor_eq_0_iff _ _)); exact E).
      assert (Estep : forall fuel,
        eb32_lookup_loop (S fuel) m (ttag (Node c k l r)) x =
        if shr32 (Z.lxor (kf c) x) k >=? EB_NODE_BRANCHES then Some NULL
        else eb32_lookup_loop fuel m
               (get_b m c (Z.land (shr32 x k) EB_NODE_BRANCH_MASK)) x).
      { intros fuel. rewrite lookup_step_node by assumption.
        destruct (Z.eqb_spec (Z.lxor (kf c) x) 0); [contradiction|reflexivity]. }
      simpl in Hr.
      destruct Hr as [(Hk0 & Nl & Nr & Sk)|(Hk0 & Rl & Rr & Sa & Bl & Br)].
      * (* a tree of duplicates of another key *)
        assert (Hno : forall c', In c' (leaves l ++ leaves r) -> kf c' <> x).
        { intros c' Hc'. rewrite (Sk c' c Hc' Hcin). exact Ecx. }
        destruct (shr32 (Z.lxor (kf c) x) k >=? EB_NODE_BRANCHES) eqn:E.
        { exists NULL. split.
          - apply terminates_now. intros fuel. rewrite Estep; try rewrite E; reflexivity.
          - split; auto. intros (c' & Hc' & E'). now apply Hno in Hc'. }
        destruct (land_mask_cases (shr32 x k)) as [Es|Es].
        { destruct (IHl Hil Hal) as (r0 & T & P1 & P2); auto.
          { apply negbits_radix; auto. eapply same_keys_app_l; eauto. }
          exists r0. split.
          - eapply terminates_step; [|exact T]. intros fuel.
            rewrite Estep; try rewrite E; rewrite Es. change 0 with EB_LEFT. now rewrite Hbl.
          - split.
            + intros (c' & Hc' & E'). now apply Hno in Hc'.
            + intros _. apply P2. intros c' Hc'. apply Hno.
              apply in_or_app; auto. }
        { destruct (IHr Hir Har) as (r0 & T & P1 & P2); auto.
          { apply negbits_radix; auto. eapply same_keys_app_r; eauto. }
          exists r0. split.
          - eapply terminates_step; [|exact T]. intros fuel.
            rewrite Estep; try rewrite E; rewrite Es. change 1 with EB_RGHT. now rewrite Hbr.
          - split.
            + intros (c' & Hc' & E'). now apply Hno in Hc'.
            + intros _. apply P2. intros c' Hc'. apply Hno.
              apply in_or_app; auto. }
      * pose proof (Hkeys c) as Kc. unfold UINT32_MOD in *.
        destruct (shr32 (Z.lxor (kf c) x) k >=? EB_NODE_BRANCHES) eqn:E.
        { exists NULL. split.
          - apply terminates_now. intros fuel. rewrite Estep; try rewrite E; reflexivity.
          - split; auto. intros (c' & Hc' & E').
            rewrite shr32_in_range in E by assumption.
            apply diverge_above in E; [|lia|lia|lia].
            exfalso. apply E. rewrite <- E'. now apply Sa. }
        rewrite shr32_in_range in E by assumption.
        assert (Eab : Z.shiftr (kf c) (k + 1) = Z.shiftr x (k + 1)).
        { destruct (Z.eq_dec (Z.shiftr (kf c) (k + 1)) (Z.shiftr x (k + 1)))
            as [|N]; auto.
          apply (diverge_above (kf c) x k) in N; [congruence|lia|lia|lia]. }
        assert (Eside : Z.land (shr32 x k) EB_NODE_BRANCH_MASK =
                        Z.b2z (Z.testbit x k)).
        { rewrite shr32_in_range by assumption. apply side_bit. lia. }
        destruct (Z.testbit x k) eqn:B; simpl in Eside.
        { destruct (IHr Hir Har Rr Hor) as (r0 & T & P1 & P2).
          exists r0. split.
          - eapply terminates_step; [|exact T]. intros fuel.
            rewrite Estep; try rewrite E; rewrite Eside.
            change 1 with EB_RGHT. now rewrite Hbr.
          - split.
            + intros (c' & Hc' & E'). apply in_app_or in Hc'.
              destruct Hc' as [Hc'|Hc'].
              * apply Bl in Hc'. rewrite E' in Hc'. congruence.
              * destruct P1 as [P1 P1']; [eauto|]. split; auto.
                apply in_or_app; auto.
            + intros H. apply P2. intros c' Hc'. apply H.
              apply in_or_app; auto. }
        { destruct (IHl Hil Hal Rl Hol) as (r0 & T & P1 & P2).
          exists r0. split.
          - eapply terminates_step; [|exact T]. intros fuel.
            rewrite Estep; try rewrite E; rewrite Eside.
            change 0 with EB_LEFT. now rewrite Hbl.
          - split.
            + intros (c' & Hc' & E'). apply in_app_or in Hc'.
              destruct Hc' as [Hc'|Hc'].
              * destruct P1 as [P1 P1']; [eauto|]. split; auto.
                apply in_or_app; auto.
              * apply Br in Hc'. rewrite E' in Hc'. congruence.
            + intros H. apply P2. intros c' Hc'. apply H.
              apply in_or_app; auto. }
Qed.

End Lookup.

(** ** The nearest keys *)

Section Nearest.

Context {U : UndefShift}.
Variable m : mem.
Variable x : Z.
Hypothesis Hx : 0 <= x < UINT32_MOD.
Hypothesis Hkeys : keys_ok (get_key m).

Local Notation "'kf'" := (get_key m).

(** The last cell of a list whose key is at most [x], the first one whose
    key is at least [x]; [NULL] when there is none. *)
Definition last_le (L : list Z) : Z :=
  last (filter (fun c => kf c <=? x) L) NULL.

Definition first_ge (L : list Z) : Z :=
  hd NULL (filter (fun c => kf c >=? x) L).

Lemma le_step_leaf c fuel :
  cell c ->
  eb32_lookup_le_loop (S fuel) m (ttag (Leaf c)) x =
  if kf c <=? x then Some c else eb_prev_from fuel m (get_leaf_p m c).
Proof.
  intros Hc. simpl eb32_lookup_le_loop.
  rewrite (gettag_ttag (Leaf c)) by assumption.
  change (EB_LEAF =? EB_LEAF) with true. cbv iota.
  now rewrite untag_ttag_leaf.
Qed.

Lemma le_step_node c k l r fuel :
  inner m (Node c k l r) -> acells (Node c k l r) ->
  eb32_lookup_le_loop (S fuel) m (ttag (Node c k l r)) x =
  if k <? 0 then
    if kf c <=? x then eb_walk_down fuel m (ttag r) EB_RGHT
    else eb_prev_from fuel m (get_node_p m c)
  else if shr32 (Z.lxor x (kf c)) k >=? EB_NODE_BRANCHES then
    if shr32 (kf c) k <? shr32 x k then eb_walk_down fuel m (ttag r) EB_RGHT
    else eb_prev_from fuel m (get_node_p m c)
  else eb32_lookup_le_loop fuel m
         (get_b m c (Z.land (shr32 x k) EB_NODE_BRANCH_MASK)) x.
Proof.
  intros Hi Ha. simpl in Hi. destruct Hi as (Hk & Hbl & Hbr & _).
  simpl eb32_lookup_le_loop.
  rewrite (gettag_ttag (Node c k l r)) by assumption.
  change (EB_NODE =? EB_LEAF) with false. cbv iota.
  rewrite untag_ttag_node, Hk, Hbr. reflexivity.
Qed.

Lemma ge_step_leaf c fuel :
  cell c ->
  eb32_lookup_ge_loop (S fuel) m (ttag (Leaf c)) x =
  if kf c >=? x then Some c else eb_next_from fuel m (get_leaf_p m c).
Proof.
  intros Hc. simpl eb32_lookup_ge_loop.
  rewrite (gettag_ttag (Leaf c)) by assumption.
  change (EB_LEAF =? EB_LEAF) with true. cbv iota.
  now rewrite untag_ttag_leaf.
Qed.

Lemma ge_step_node c k l r fuel :
  inner m (Node c k l r) -> acells (Node c k l r) ->
  eb32_lookup_ge_loop (S fuel) m (ttag (Node c k l r)) x =
  if k <? 0 then
    if kf c >=? x then eb_walk_down fuel m (ttag l) EB_LEFT
    else eb_next_from fuel m (get_node_p m c)
  else if shr32 (Z.lxor x (kf c)) k >=? EB_NODE_BRANCHES then
    if shr32 (kf c) k >? shr32 x k then eb_walk_down fuel m (ttag l) EB_LEFT
    else eb_next_from fuel m (get_node_p m c)
  else eb32_lookup_ge_loop fuel m
         (get_b m c (Z.land (shr32 x k) EB_NODE_BRANCH_MASK)) x.
Proof.
  intros Hi Ha. simpl in Hi. destruct Hi as (Hk & Hbl & Hbr & _).
  simpl eb32_lookup_ge_loop.
  rewrite (gettag_ttag (Node c k l r)) by assumption.
  change (EB_NODE =? EB_LEAF) with false. cbv iota.
  rewrite untag_ttag_node, Hk, Hbl. reflexivity.
Qed.

Lemma last_le_keep before L :
  (forall b, In b before -> kf b <= x) ->
  (forall c, In c L -> kf c <= x) ->
  last_le (before ++ L) = last (before ++ L) NULL.
Proof.
  intros Hb HL. unfold last_le. rewrite filter_all; auto.
  intros a Ha. apply Z.leb_le. apply in_app_or in Ha. destruct Ha; auto.
Qed.

Lemma last_le_drop before L :
  (forall b, In b before -> kf b <= x) ->
  (forall c, In c L -> x < kf c) ->
  last_le (before ++ L) = last before NULL.
Proof.
  intros Hb HL. unfold last_le. rewrite filter_app.
  rewrite (filter_none _ L), app_nil_r.
  - rewrite filter_all; auto. intros a Ha. apply Z.leb_le. auto.
  - intros a Ha. apply Z.leb_gt. auto.
Qed.

Lemma last_le_cut L R :
  (forall c, In c R -> x < kf c) -> last_le (L ++ R) = last_le L.
Proof.
  intros HR. unfold last_le. rewrite filter_app.
  rewrite (filter_none _ R), app_nil_r; auto.
  intros a Ha. apply Z.leb_gt. auto.
Qed.

Lemma first_ge_keep L after :
  (forall c, In c L -> x <= kf c) ->
  (forall a, In a after -> x <= kf a) ->
  first_ge (L ++ after) = hd NULL (L ++ after).
Proof.
  intros HL Ha. unfold first_ge. rewrite filter_all; auto.
  intros a Hin. apply Z.geb_le. apply in_app_or in Hin. destruct Hin; auto.
Qed.

Lemma first_ge_drop L after :
  (forall c, In c L -> kf c < x) ->
  (forall a, In a after -> x <= kf a) ->
  first_ge (L ++ after) = hd NULL after.
Proof.
  intros HL Ha. unfold first_ge. rewrite filter_app.
  rewrite (filter_none _ L); simpl.
  - rewrite filter_all; auto. intros a Hin. apply Z.geb_le. auto.
  - intros a Hin. rewrite Z.geb_leb. apply Z.leb_gt. auto.
Qed.

Lemma first_ge_cut L R :
  (forall c, In c L -> kf c < x) -> first_ge (L ++ R) = first_ge R.
Proof.
  intros HL. unfold first_ge. rewrite filter_app.
  rewrite (filter_none _ L); auto.
  intros a Hin. rewrite Z.geb_leb. apply Z.leb_gt. auto.
Qed.

(** Below a node with bit [k >= 0] whose keys part with [x] above [k]. *)
Lemma parted_cases c k L :
  0 <= k < 32 -> In c L -> same_above kf k L ->
  (shr32 (Z.lxor x (kf c)) k >=? EB_NODE_BRANCHES) = true ->
  ((shr32 (kf c) k <? shr32 x k) = true /\ (shr32 (kf c) k >? shr32 x k) = false
   /\ forall y, In y L -> kf y < x) \/
  ((shr32 (kf c) k <? shr32 x k) = false /\ (shr32 (kf c) k >? shr32 x k) = true
   /\ forall y, In y L -> x < kf y).
Proof.
  intros Hk Hc Sa E. rewrite !shr32_in_range in * by assumption.
  pose proof (Hkeys c) as Kc. unfold UINT32_MOD in *.
  apply diverge_above in E; [|lia|lia|lia].
  assert (E' : Z.shiftr (kf c) (k + 1) <> Z.shiftr x (k + 1)) by congruence.
  pose proof (shiftr_lt_succ (kf c) x k ltac:(lia) E') as Hlt.
  pose proof (shiftr_gt_succ (kf c) x k ltac:(lia) E') as Hgt.
  destruct (Z.lt_ge_cases (Z.shiftr (kf c) (k + 1)) (Z.shiftr x (k + 1)))
    as [H|H].
  - left. split; [tauto|]. split.
    + destruct (Z.shiftr (kf c) k >? Z.shiftr x k); auto.
      assert (Z.shiftr x (k + 1) < Z.shiftr (kf c) (k + 1)) by tauto. lia.
    + intros y Hy. apply (above_order _ _ k); [lia|].
      rewrite (Sa y c Hy Hc). exact H.
  - assert (H' : Z.shiftr x (k + 1) < Z.shiftr (kf c) (k + 1)) by lia.
    right. split.
    + destruct (Z.shiftr (kf c) k <? Z.shiftr x k); auto.
      assert (Z.shiftr (kf c) (k + 1) < Z.shiftr x (k + 1)) by tauto. lia.
    + split; [tauto|]. intros y Hy. apply (above_order _ _ k); [lia|].
      rewrite (Sa y c Hy Hc). exact H'.
Qed.

(** Below a node with bit [k >= 0] whose keys agree with [x] above [k]. *)
Lemma joined_cases c k L R :
  0 <= k < 32 -> In c (L ++ R) -> same_above kf k (L ++ R) ->
  bit_is kf k false L -> bit_is kf k true R ->
  (shr32 (Z.lxor x (kf c)) k >=? EB_NODE_BRANCHES) = false ->
  (Z.land (shr32 x k) EB_NODE_BRANCH_MASK = EB_LEFT /\
   forall y, In y R -> x < kf y) \/
  (Z.land (shr32 x k) EB_NODE_BRANCH_MASK = EB_RGHT /\
   forall y, In y L -> kf y < x).
Proof.
  intros Hk Hc Sa Bl Br E. rewrite !shr32_in_range in * by assumption.
  pose proof (Hkeys c) as Kc. unfold UINT32_MOD in *.
  assert (Eab : Z.shiftr x (k + 1) = Z.shiftr (kf c) (k + 1)).
  { destruct (Z.eq_dec (Z.shiftr x (k + 1)) (Z.shiftr (kf c) (k + 1)))
      as [|N]; auto.
    apply (diverge_above x (kf c) k) in N; [congruence|lia|lia|lia]. }
  rewrite side_bit by lia.
  destruct (Z.testbit x k) eqn:B; simpl Z.b2z.
  - right. split; [reflexivity|]. intros y Hy.
    apply (bit_order _ _ k); [lia| |auto|auto].
    rewrite Eab. apply Sa; auto. apply in_or_app; auto.
  - left. split; [reflexivity|]. intros y Hy.
    apply (bit_order _ _ k); [lia| |auto|auto].
    rewrite Eab. apply Sa; auto. apply in_or_app; auto.
Qed.

Lemma eb32_lookup_le_loop_spec : forall t p s before,
  repr m p s t -> acells t -> radix kf t -> over t ->
  (forall b, In b before -> kf b <= x) ->
  (fun fuel => eb_prev_from fuel m (eb_dotag p s)) ⇓ last before NULL ->
  (fun fuel => eb32_lookup_le_loop fuel m (ttag t) x)
    ⇓ last_le (before ++ leaves t).
Proof.
  induction t as [c|c k l IHl r IHr];
    intros p s before [Hu Hi] Ha Hr Ho Hb Hpv.
  - simpl in Hu, Ha. simpl leaves.
    destruct (Z.leb_spec (kf c) x) as [Hle|Hgt].
    + rewrite last_le_keep by (auto; intros ? [<-|[]]; auto).
      rewrite last_last. apply terminates_now. intros fuel.
      rewrite le_step_leaf by assumption.
      destruct (Z.leb_spec (kf c) x); [reflexivity|lia].
    + rewrite last_le_drop by (auto; intros ? [<-|[]]; auto).
      eapply terminates_step; [|exact Hpv]. intros fuel.
      rewrite le_step_leaf by assumption.
      destruct (Z.leb_spec (kf c) x); [lia|]. now rewrite Hu.
  - pose proof Hi as Hi'. simpl in Hi'.
    destruct Hi' as (Hk & Hbl & Hbr & Hul & Hur & Hil & Hir).
    pose proof Ha as Ha'. simpl in Ha'. destruct Ha' as (Hc & Hal & Har).
    pose proof Ho as Ho'. simpl in Ho'. destruct Ho' as (Hcin & Hol & Hor).
    simpl in Hu. simpl in Hr. simpl leaves.
    destruct Hr as [(Hk0 & Nl & Nr & Sk)|(Hk0 & Rl & Rr & Sa & Bl & Br)].
    + assert (Kb : (k <? 0) = true) by (apply Z.ltb_lt; lia).
      destruct (Z.leb_spec (kf c) x) as [Hle|Hgt].
      * rewrite last_le_keep;
          [|auto|intros y Hy; rewrite (Sk y c Hy Hcin); auto].
        change (leaves l ++ leaves r) with (leaves (Node c k l r)).
        rewrite last_leaves. simpl last_leaf.
        eapply terminates_step; [|apply (walk_down_right m r Hir Har)].
        intros fuel. rewrite le_step_node, Kb by assumption.
        destruct (Z.leb_spec (kf c) x); [reflexivity|lia].
      * rewrite last_le_drop;
          [|auto|intros y Hy; rewrite (Sk y c Hy Hcin); auto].
        eapply terminates_step; [|exact Hpv]. intros fuel.
        rewrite le_step_node, Kb by assumption.
        destruct (Z.leb_spec (kf c) x); [lia|]. now rewrite Hu.
    + assert (Kb : (k <? 0) = false) by (apply Z.ltb_ge; lia).
      destruct (shr32 (Z.lxor x (kf c)) k >=? EB_NODE_BRANCHES) eqn:E.
      * destruct (parted_cases c k _ Hk0 Hcin Sa E)
          as [(E1 & _ & Hall)|(E1 & _ & Hall)].
        { rewrite last_le_keep; [|auto|intros y Hy; apply Hall in Hy; lia].
          change (leaves l ++ leaves r) with (leaves (Node c k l r)).
          rewrite last_leaves. simpl last_leaf.
          eapply terminates_step; [|apply (walk_down_right m r Hir Har)].
          intros fuel. now rewrite le_step_node, Kb, E, E1 by assumption. }
        { rewrite last_le_drop; auto.
          eapply terminates_step; [|exact Hpv]. intros fuel.
          rewrite le_step_node, Kb, E, E1 by assumption. now rewrite Hu. }
      * destruct (joined_cases c k _ _ Hk0 Hcin Sa Bl Br E)
          as [(Es & Hall)|(Es & Hall)].
        { rewrite app_assoc, last_le_cut by assumption.
          eapply terminates_step;
            [|apply (IHl c EB_LEFT before); auto; [split; auto|]].
          - intros fuel.
            now rewrite le_step_node, Kb, E, Es, Hbl by assumption.
          - eapply prev_from_left; eauto. }
        { rewrite app_assoc.
          eapply terminates_step;
            [|apply (IHr c EB_RGHT (before ++ leaves l)); auto;
              [split; auto| |]].
          - intros fuel.
            now rewrite le_step_node, Kb, E, Es, Hbr by assumption.
          - intros b Hin. apply in_app_or in Hin.
            destruct Hin as [Hin|Hin]; auto. apply Hall in Hin. lia.
          - rewrite last_leaves. eapply prev_from_right; eauto. }
Qed.

Lemma eb32_lookup_ge_loop_spec : forall t p s after,
  repr m p s t -> acells t -> radix kf t -> over t ->
  (forall a, In a after -> x <= kf a) ->
  (fun fuel => eb_next_from fuel m (eb_dotag p s)) ⇓ hd NULL after ->
  (fun fuel => eb32_lookup_ge_loop fuel m (ttag t) x)
    ⇓ first_ge (leaves t ++ after).
Proof.
  induction t as [c|c k l IHl r IHr];
    intros p s after [Hu Hi] Ha Hr Ho Hb Hnx.
  - simpl in Hu, Ha. simpl leaves.
    destruct (Z.leb_spec x (kf c)) as [Hle|Hgt].
    + rewrite first_ge_keep by (auto; intros ? [<-|[]]; auto).
      simpl hd. apply terminates_now. intros fuel.
      rewrite ge_step_leaf by assumption. rewrite Z.geb_leb.
      destruct (Z.leb_spec x (kf c)); [reflexivity|lia].
    + rewrite first_ge_drop by (auto; intros ? [<-|[]]; auto).
      eapply terminates_step; [|exact Hnx]. intros fuel.
      rewrite ge_step_leaf by assumption. rewrite Z.geb_leb.
      destruct (Z.leb_spec x (kf c)); [lia|]. now rewrite Hu.
  - pose proof Hi as Hi'. simpl in Hi'.
    destruct Hi' as (Hk & Hbl & Hbr & Hul & Hur & Hil & Hir).
    pose proof Ha as Ha'. simpl in Ha'. destruct Ha' as (Hc & Hal & Har).
    pose proof Ho as Ho'. simpl in Ho'. destruct Ho' as (Hcin & Hol & Hor).
    simpl in Hu. simpl in Hr. simpl leaves.
    destruct Hr as [(Hk0 & Nl & Nr & Sk)|(Hk0 & Rl & Rr & Sa & Bl & Br)].
    + assert (Kb : (k <? 0) = true) by (apply Z.ltb_lt; lia).
      destruct (Z.leb_spec x (kf c)) as [Hle|Hgt].
      * rewrite first_ge_keep;
          [|intros y Hy; rewrite (Sk y c Hy Hcin); auto|auto].
        rewrite <- app_assoc, hd_leaves.
        eapply terminates_step; [|apply (walk_down_left m l Hil Hal)].
        intros fuel. rewrite ge_step_node, Kb by assumption.
        rewrite Z.geb_leb.
        destruct (Z.leb_spec x (kf c)); [reflexivity|lia].
      * rewrite first_ge_drop;
          [|intros y Hy; rewrite (Sk y c Hy Hcin); auto|auto].
        eapply terminates_step; [|exact Hnx]. intros fuel.
        rewrite ge_step_node, Kb by assumption. rewrite Z.geb_leb.
        destruct (Z.leb_spec x (kf c)); [lia|]. now rewrite Hu.
    + assert (Kb : (k <? 0) = false) by (apply Z.ltb_ge; lia).
      destruct (shr32 (Z.lxor x (kf c)) k >=? EB_NODE_BRANCHES) eqn:E.
      * destruct (parted_cases c k _ Hk0 Hcin Sa E)
          as [(_ & E1 & Hall)|(_ & E1 & Hall)].
        { rewrite first_ge_drop; auto.
          eapply terminates_step; [|exact Hnx]. intros fuel.
          rewrite ge_step_node, Kb, E, E1 by assumption. now rewrite Hu. }
        { rewrite first_ge_keep; [|intros y Hy; apply Hall in Hy; lia|auto].
          rewrite <- app_assoc, hd_leaves.
          eapply terminates_step; [|apply (walk_down_left m l Hil Hal)].
          intros fuel. now rewrite ge_step_node, Kb, E, E1 by assumption. }
      * destruct (joined_cases c k _ _ Hk0 Hcin Sa Bl Br E)
          as [(Es & Hall)|(Es & Hall)].
        { rewrite <- app_assoc.
          eapply terminates_step;
            [|apply (IHl c EB_LEFT (leaves r ++ after)); auto;
              [split; auto| |]].
          - intros fuel.
            now rewrite ge_step_node, Kb, E, Es, Hbl by assumption.
          - intros b Hin. apply in_app_or in Hin.
            destruct Hin as [Hin|Hin]; auto. apply Hall in Hin. lia.
          - rewrite hd_leaves. eapply next_from_left; eauto. }
        { rewrite <- app_assoc, first_ge_cut by assumption.
          eapply terminates_step;
            [|apply (IHr c EB_RGHT after); auto; [split; auto|]].
          - intros fuel.
            now rewrite ge_step_node, Kb, E, Es, Hbr by assumption.
          - eapply next_from_right; eauto. }
Qed.

(** What the two lists functions pick in a list in key order. *)
Lemma last_le_sorted L :
  StronglySorted (key_le kf) L ->
  forall c, In c L -> kf c <= x ->
    In (last_le L) L /\ kf (last_le L) <= x /\ kf c <= kf (last_le L).
Proof.
  unfold last_le.
  induction 1 as [|a L S IH F]; intros c Hc Hcx; [destruct Hc|].
  rewrite Forall_forall in F. unfold key_le in F.
  assert (Hstep : forall b, In b L -> kf b <= x ->
            In (last (filter (fun c => kf c <=? x) (a :: L)) NULL) (a :: L) /\
            kf (last (filter (fun c => kf c <=? x) (a :: L)) NULL) <= x /\
            kf b <= kf (last (filter (fun c => kf c <=? x) (a :: L)) NULL)).
  { intros b Hb Hbx. destruct (IH b Hb Hbx) as (I1 & I2 & I3).
    assert (Hne : filter (fun c => kf c <=? x) L <> []).
    { intros E. assert (Hin : In b (filter (fun c => kf c <=? x) L)).
      { apply filter_In. split; auto. now apply Z.leb_le. }
      rewrite E in Hin. destruct Hin. }
    simpl filter. destruct (kf a <=? x).
    - destruct (filter (fun c => kf c <=? x) L) as [|y F'] eqn:EF;
        [congruence|].
      change (last (a :: y :: F') NULL) with (last (y :: F') NULL).
      simpl In. auto.
    - simpl In. auto. }
  destruct Hc as [<-|Hc]; [|auto].
  destruct (filter (fun c => kf c <=? x) L) as [|y F'] eqn:EF.
  - simpl filter. destruct (Z.leb_spec (kf a) x); [|lia]. rewrite EF.
    simpl. split; auto. split; lia.
  - assert (Hy : In y L /\ kf y <= x).
    { assert (Hin : In y (filter (fun c => kf c <=? x) L))
        by (rewrite EF; now left).
      apply filter_In in Hin. destruct Hin as [Hin Hle].
      apply Z.leb_le in Hle. auto. }
    destruct Hy as [Hy Hyx]. destruct (Hstep y Hy Hyx) as (I1 & I2 & I3).
    split; auto. split; auto. specialize (F y Hy). lia.
Qed.

Lemma first_ge_sorted L :
  StronglySorted (key_le kf) L ->
  forall c, In c L -> x <= kf c ->
    In (first_ge L) L /\ x <= kf (first_ge L) /\ kf (first_ge L) <= kf c.
Proof.
  unfold first_ge.
  induction 1 as [|a L S IH F]; intros c Hc Hcx; [destruct Hc|].
  rewrite Forall_forall in F. unfold key_le in F.
  simpl filter. rewrite Z.geb_leb.
  destruct (Z.leb_spec x (kf a)) as [Ha|Ha].
  - simpl. split; auto. split; auto.
    destruct Hc as [<-|Hc]; [lia|]. now apply F.
  - destruct Hc as [<-|Hc]; [lia|].
    destruct (IH c Hc Hcx) as (I1 & I2 & I3). simpl In. auto.
Qed.

Lemma last_le_none L : (forall c, In c L -> x < kf c) -> last_le L = NULL.
Proof.
  intros H. unfold last_le. rewrite filter_none; auto.
  intros a Ha. apply Z.leb_gt. auto.
Qed.

Lemma first_ge_none L : (forall c, In c L -> kf c < x) -> first_ge L = NULL.
Proof.
  intros H. unfold first_ge. rewrite filter_none; auto.
  intros a Ha. rewrite Z.geb_leb. apply Z.leb_gt. auto.
Qed.

End Nearest.

(** * Where a new leaf lands *)

Section InsertAfter.

Context {U : UndefShift}.
Variable kf : Z -> Z.
Variable uniq : bool.
Hypothesis Hkeys : keys_ok kf.

(** Either the new cell is linked, and no leaf after it has its key, or the
    tree is left alone and a leaf is returned. *)
Definition landed (n : Z) (t t' : tree) (ret : Z) : Prop :=
  (ret = n /\
   exists l1 l2, leaves t = l1 ++ l2 /\ leaves t' = l1 ++ n :: l2 /\
                 forall y, In y l2 -> kf y <> kf n) \/
  (t' = t /\ In ret (leaves t)).

Lemma tcell_leaf t : over t -> In (tcell t) (leaves t).
Proof. destruct t; simpl; [auto|tauto]. Qed.

Lemma ins_here_landed t n t' ret :
  radix kf t -> over t ->
  match t with
  | Leaf _ => True
  | Node o k _ _ =>
      k < 0 \/ (0 <= k /\ Z.shiftr (kf n) (k + 1) <> Z.shiftr (kf o) (k + 1))
  end ->
  ins_here kf uniq n t (tcell t) = Some (t', ret) ->
  landed n t t' ret.
Proof.
  intros Hr Ho Hstop Hi. unfold ins_here in Hi.
  destruct (Z.eqb_spec (kf n) (kf (tcell t))) as [Ek|Ek].
  - destruct uniq.
    + injection Hi as <- <-. right. split; auto. now apply tcell_leaf.
    + left. destruct t as [x|x k l r].
      * injection Hi as <- <-. split; auto.
        exists [x], []. simpl. repeat split; auto; intros y [].
      * destruct (ins_dup n (Node x k l r)) as [td|] eqn:Ed; [|discriminate].
        simpl in Hi. injection Hi as <- <-.
        destruct (ins_dup_spot _ _ _ Ed) as (L & _).
        split; auto. exists (leaves (Node x k l r)), [].
        rewrite app_nil_r. repeat split; auto; intros y [].
  - left. destruct (kf n >=? kf (tcell t)); injection Hi as <- <-;
      (split; [reflexivity|]).
    + exists (leaves t), []. rewrite app_nil_r. simpl. repeat split; auto; intros y [].
    + exists [], (leaves t). simpl. repeat split; auto.
      intros y Hy E.
      destruct (new_node_bits kf Hkeys t n Hr Ho Ek Hstop)
        as (_ & _ & Hb & Hall).
      destruct (Hall y Hy) as [_ Hy']. rewrite E in Hy'. congruence.
Qed.

Lemma landed_left n x k l r l' ret :
  (forall y, In y (leaves r) -> kf y <> kf n) ->
  landed n l l' ret -> landed n (Node x k l r) (Node x k l' r) ret.
Proof.
  intros Hr [(E & l1 & l2 & E1 & E2 & P)|(-> & Hin)].
  - left. split; auto. exists l1, (l2 ++ leaves r). simpl.
    rewrite E1, E2, <- !app_assoc. repeat split; auto.
    intros y Hy. apply in_app_or in Hy. destruct Hy; auto.
  - right. split; auto. simpl. apply in_or_app. auto.
Qed.

Lemma landed_right n x k l r r' ret :
  landed n r r' ret -> landed n (Node x k l r) (Node x k l r') ret.
Proof.
  intros [(E & l1 & l2 & E1 & E2 & P)|(-> & Hin)].
  - left. split; auto. exists (leaves l ++ l1), l2. simpl.
    rewrite E1, E2, <- !app_assoc. repeat split; auto.
  - right. split; auto. simpl. apply in_or_app. auto.
Qed.

Lemma ins_landed n : forall t t' ret,
  radix kf t -> over t ->
  ins kf uniq n t = Some (t', ret) -> landed n t t' ret.
Proof.
  induction t as [x|x k l IHl r IHr]; intros t' ret Hr Ho H; simpl in H.
  - apply (ins_here_landed (Leaf x)); auto.
  - pose proof (radix_bit_lt kf _ Hr) as Hk32. simpl in Hk32.
    destruct ((k <? 0) || _) eqn:Estop.
    + apply (ins_here_landed (Node x k l r)); auto.
      apply (stop_cond kf Hkeys); auto.
    + assert (Hk0 : 0 <= k < 32).
      { apply orb_false_elim in Estop. destruct Estop as [E _].
        apply Z.ltb_ge in E. lia. }
      simpl in Hr, Ho.
      destruct Hr as [(Hk & _)|(_ & Rl & Rr & Sa & Bl & Br)]; [lia|].
      destruct Ho as (_ & Ol & Or).
      destruct (Z.eqb_spec (Z.land (shr32 (kf n) k) EB_NODE_BRANCH_MASK)
                           EB_LEFT) as [Es|Es].
      * destruct (ins kf uniq n l) as [[l' ret']|] eqn:E; [|discriminate].
        simpl in H. injection H as <- <-. apply landed_left; auto.
        intros y Hy Ey. rewrite shr32_in_range, side_bit in Es by lia.
        apply Br in Hy. rewrite Ey in Hy. rewrite Hy in Es. discriminate.
      * destruct (ins kf uniq n r) as [[r' ret']|] eqn:E; [|discriminate].
        simpl in H. injection H as <- <-. apply landed_right; auto.
Qed.

(** A key that the tree does not hold is always taken. *)
Lemma ins_here_new n t :
  kf n <> kf (tcell t) ->
  exists t', ins_here kf uniq n t (tcell t) = Some (t', n).
Proof.
  intros H. unfold ins_here.
  destruct (Z.eqb_spec (kf n) (kf (tcell t))); [contradiction|].
  destruct (kf n >=? kf (tcell t)); eauto.
Qed.

Lemma ins_new n : forall t,
  over t -> (forall y, In y (leaves t) -> kf y <> kf n) ->
  exists t', ins kf uniq n t = Some (t', n).
Proof.
  induction t as [x|x k l IHl r IHr]; intros Ho Hnew; simpl.
  - apply (ins_here_new n (Leaf x)). intros E. apply (Hnew x); simpl; auto.
  - destruct ((k <? 0) || _).
    + apply (ins_here_new n (Node x k l r)). intros E.
      apply (Hnew x); auto. apply (tcell_leaf (Node x k l r) Ho).
    + simpl in Ho. destruct Ho as (_ & Ol & Or).
      destruct (_ =? EB_LEFT).
      * destruct (IHl Ol) as [l' El].
        { intros y Hy. apply Hnew. simpl. apply in_or_app. auto. }
        rewrite El. simpl. eauto.
      * destruct (IHr Or) as [r' Er].
        { intros y Hy. apply Hnew. simpl. apply in_or_app. auto. }
        rewrite Er. simpl. eauto.
Qed.

End InsertAfter.

(** * Lists with one element taken out *)

Lemma remove_middle (c : Z) l1 l2 :
  ~ In c l1 -> ~ In c l2 ->
  remove Z.eq_dec c (l1 ++ c :: l2) = l1 ++ l2.
Proof.
  intros H1 H2. rewrite remove_app. simpl.
  destruct (Z.eq_dec c c); [|congruence].
  now rewrite !notin_remove by assumption.
Qed.

Lemma filter_remove (f : Z -> bool) c l :
  filter f (remove Z.eq_dec c l) = remove Z.eq_dec c (filter f l).
Proof.
  induction l as [|a l IH]; simpl; auto.
  destruct (Z.eq_dec c a) as [<-|N].
  - destruct (f c); simpl; auto.
    destruct (Z.eq_dec c c); [auto|congruence].
  - simpl. destruct (f a); simpl; auto.
    destruct (Z.eq_dec c a); [contradiction|]. now rewrite IH.
Qed.

Lemma NoDup_remove_elt (c : Z) l : NoDup l -> NoDup (remove Z.eq_dec c l).
Proof.
  induction 1 as [|a l Ha Hl IH]; simpl; [constructor|].
  destruct (Z.eq_dec c a); auto. constructor; auto.
  intros H. apply in_remove in H. tauto.
Qed.

Lemma in_remove_iff (c x : Z) l :
  In x (remove Z.eq_dec c l) <-> In x l /\ x <> c.
Proof.
  split; [apply in_remove|]. intros [H N]. now apply in_in_remove.
Qed.

Lemma radix_ext_in kf kf' t :
  (forall c, In c (leaves t) -> kf' c = kf c) -> radix kf t -> radix kf' t.
Proof.
  induction t as [x|x k l IHl r IHr]; simpl; auto.
  intros E [(Hk & Nl & Nr & Hs)|(Hk & Rl & Rr & Sa & Bl & Br)].
  - left. repeat split; auto. intros a b Ha Hb. rewrite !E; auto.
  - right. split; [lia|]. split; [|split; [|split; [|split]]].
    + apply IHl; auto. intros; apply E; apply in_or_app; auto.
    + apply IHr; auto. intros; apply E; apply in_or_app; auto.
    + intros a b Ha Hb. rewrite !E; auto.
    + intros a Ha. rewrite E; auto. apply in_or_app; auto.
    + intros a Ha. rewrite E; auto. apply in_or_app; auto.
Qed.

(** * The states a program can reach *)

Section Runs.

Context {U : UndefShift}.

(** A tree starts from [EB_ROOT] or [EB_ROOT_UNIQUE], with cells that are
    not linked: their [leaf_p] is null. Keys are 32-bit unsigned. *)
Definition initial (m : mem) (root : Z) : Prop :=
  cell root /\
  get_b m root EB_LEFT = NULL /\
  (get_b m root EB_RGHT = EB_NORMAL \/ get_b m root EB_RGHT = EB_UNIQUE) /\
  (forall c, get_leaf_p m c = NULL) /\
  keys_ok (get_key m).

(** The caller owns the cells that are not in the tree: it may write what
    it likes in one of them, its key for one, as long as it stays marked as
    not linked. *)
Definition caller_write (root : Z) (m m' : mem) : Prop :=
  exists c,
    c <> root /\ get_leaf_p m c = NULL /\ get_leaf_p m' c = NULL /\
    0 <= get_key m' c < UINT32_MOD /\
    forall a, a <> c -> m' a = m a.

(** The stores reached by calls of [eb32_insert] and [eb_delete] and by
    writes of the caller in its own cells.  With each store comes the list
    of the linked cells, in the order of their insertion. *)
Inductive run (root : Z) : mem -> list Z -> Prop :=
| run_init m : initial m root -> run root m []
| run_write m h m' :
    run root m h -> caller_write root m m' -> run root m' h
| run_insert m h n m' ret :
    run root m h -> cell n -> n <> root -> get_leaf_p m n = NULL ->
    (fun fuel => eb32_insert fuel m root n) ⇓ (m', ret) ->
    run root m' (if ret =? n then h ++ [n] else h)
| run_delete m h c :
    run root m h -> run root (eb_delete m c) (remove Z.eq_dec c h).

Definition cells_of (st : option tree) : list Z :=
  match st with
  | None => []
  | Some t => leaves t
  end.

(** The list that comes with a store names the leaves of the tree, and
    cells of equal key come in the same order in both. *)
Record ghost (m : mem) (st : option tree) (h : list Z) : Prop := {
  gh_linked : forall c, In c h <-> In c (cells_of st);
  gh_nodup : NoDup h;
  gh_order : forall k,
    filter (fun c => get_key m c =? k) (cells_of st) =
    filter (fun c => get_key m c =? k) h
}.

Lemma linked_cells st c : linked st c <-> In c (cells_of st).
Proof. destruct st; simpl; tauto. Qed.

Lemma inv_cells_NoDup m root st : inv m root st -> NoDup (cells_of st).
Proof.
  intros I. destruct st as [t|]; simpl; [|constructor].
  apply (sh_distinct _ _ _ (inv_tree _ _ _ I)).
Qed.

Lemma inv_initial m root : initial m root -> inv m root None.
Proof.
  intros (Hr & Hl & Hrt & Hlp & Hk). constructor; auto.
  - destruct Hrt as [-> | ->]; reflexivity.
  - intros c. simpl. rewrite Hlp. tauto.
Qed.

Lemma inv_write m m' root st :
  inv m root st -> caller_write root m m' -> inv m' root st.
Proof.
  intros I (c & Hcr & Hl & Hl' & Hk' & Hsame).
  assert (Eroot : m' root = m root) by (apply Hsame; auto).
  assert (Hnl : ~ linked st c) by (intros H; apply (inv_linked _ _ _ I) in H; auto).
  destruct I as [Iroot Iright Ikeys Ilinked Itree].
  constructor; auto.
  - unfold get_b. now rewrite Eroot.
  - intros a. destruct (Z.eq_dec a c) as [->|N]; auto.
    unfold get_key. rewrite Hsame by auto. apply Ikeys.
  - intros a. destruct (Z.eq_dec a c) as [->|N].
    + rewrite Hl'. split; [congruence|]. intros H. contradiction.
    + unfold get_leaf_p. rewrite Hsame by auto. apply Ilinked.
  - destruct st as [t|]; [|unfold get_b; now rewrite Eroot].
    destruct Itree as [Sb Sr Sc Sd Sro So Sn Sra Su]. simpl in Hnl.
    assert (Hnn : ~ In c (nodes t))
      by (intros H; apply Hnl; now apply (over_nodes_leaves t So)).
    assert (Hs : same_on m m' t).
    { split.
      - intros a Ha. unfold get_leaf_p. rewrite Hsame; auto. congruence.
      - intros a Ha. unfold get_node_p, get_bit, get_b.
        rewrite Hsame; auto. congruence. }
    assert (Ekeys : forall a, In a (leaves t) -> get_key m' a = get_key m a).
    { intros a Ha. unfold get_key. rewrite Hsame; auto. congruence. }
    constructor; auto.
    + unfold get_b. now rewrite Eroot.
    + now apply repr_same with m.
    + intros a Ha Hna. unfold get_node_p. rewrite Hsame by congruence.
      now apply Sn.
    + now apply radix_ext_in with (get_key m).
    + intros Hu. rewrite (map_ext_in _ _ _ Ekeys). apply Su.
      unfold unique_mode, get_b in *. now rewrite Eroot in Hu.
Qed.

Lemma unlink_defined c : forall t,
  In c (leaves t) -> is_leaf c t = false -> exists p, unlink c t = Some p.
Proof.
  induction t as [x|x k l IHl r IHr]; simpl; intros Hin Hl.
  - destruct Hin as [->|[]]. rewrite Z.eqb_refl in Hl. discriminate.
  - destruct (is_leaf c l) eqn:El; [eauto|].
    destruct (is_leaf c r) eqn:Er; [eauto|].
    destruct (inb c (leaves l)) eqn:Ei.
    + apply inb_In in Ei. destruct (IHl Ei eq_refl) as [p ->]. simpl. eauto.
    + assert (Hr : In c (leaves r)).
      { apply in_app_or in Hin. destruct Hin as [H|H]; auto.
        apply inb_In in H. congruence. }
      destruct (IHr Hr eq_refl) as [p ->]. simpl. eauto.
Qed.

Lemma del_top_cells c st :
  NoDup (cells_of st) ->
  cells_of (del_top c st) = remove Z.eq_dec c (cells_of st).
Proof.
  destruct st as [t|]; simpl; auto. intros Hn.
  destruct (inb c (leaves t)) eqn:E.
  - destruct (unlink c t) as [[t' q]|] eqn:Eu.
    + destruct (unlink_spot c t t' q Eu) as ((l1 & l2 & E1 & E2) & _).
      simpl. rewrite rename_leaves, E1, E2. rewrite E1 in Hn.
      apply NoDup_insert in Hn. destruct Hn as [_ Hn].
      symmetry. apply remove_middle; intros H; apply Hn, in_or_app; auto.
    + apply inb_In in E. destruct (is_leaf c t) eqn:El.
      * apply is_leaf_true in El. subst t. simpl.
        destruct (Z.eq_dec c c); [reflexivity|congruence].
      * destruct (unlink_defined c t E El) as [p Hp]. congruence.
  - simpl. symmetry. apply notin_remove. intros H. apply inb_In in H.
    congruence.
Qed.

(** Every store that is reached holds a tree that satisfies the invariant,
    and the list that comes with it is the insertion order of its leaves. *)
Theorem run_inv root m h :
  run root m h -> exists st, inv m root st /\ ghost m st h.
Proof.
  induction 1 as [m Hi|m h m' R IH W|m h n m' ret R IH Hn Hnr Hl T|m h c R IH].
  - exists None. split; [now apply inv_initial|].
    constructor; simpl; [tauto|constructor|reflexivity].
  - destruct IH as (st & I & [G1 G2 G3]). exists st.
    split; [eapply inv_write; eauto|].
    destruct W as (c & Hcr & Hl & Hl' & Hk' & Hsame).
    assert (Hnl : ~ In c (cells_of st)).
    { intros H. apply linked_cells in H. apply (inv_linked _ _ _ I) in H.
      auto. }
    assert (Ek : forall L k, ~ In c L ->
              filter (fun a => get_key m' a =? k) L =
              filter (fun a => get_key m a =? k) L).
    { intros L k HL. apply filter_ext_in. intros a Ha. unfold get_key.
      rewrite Hsame; auto. congruence. }
    constructor; auto. intros k. rewrite !Ek; auto. now rewrite <- G1 in Hnl.
  - destruct IH as (st & I & [G1 G2 G3]).
    destruct (eb32_insert_returns m root st n m' ret I Hn Hnr Hl T)
      as (st' & Hins & I' & [Kk _] & _).
    exists st'. split; auto.
    assert (Hnl : ~ In n (cells_of st)).
    { intros H. apply linked_cells in H. apply (inv_linked _ _ _ I) in H.
      auto. }
    assert (Ek : forall L k,
              filter (fun a => get_key m' a =? k) L =
              filter (fun a => get_key m a =? k) L).
    { intros L k. apply filter_ext. intros a. now rewrite Kk. }
    destruct st as [t|]; simpl in Hins.
    + destruct (ins (get_key m) (unique_mode m root) n t) as [[t' r']|] eqn:Ei;
        [|discriminate].
      injection Hins as <- <-.
      pose proof (inv_tree _ _ _ I) as S. simpl in S.
      destruct (ins_landed (get_key m) (unique_mode m root) (inv_keys _ _ _ I)
                  n t t' r' (sh_radix _ _ _ S) (sh_over _ _ _ S) Ei)
        as [(-> & l1 & l2 & E1 & E2 & P)|(-> & Hin)].
      * rewrite Z.eqb_refl. simpl in *. constructor; simpl cells_of.
        -- intros c. rewrite in_app_iff, G1, E1, E2, !in_app_iff. simpl.
           tauto.
        -- apply NoDup_app_iff. split; auto. split; [repeat constructor; auto|].
           intros x Hx [<-|[]]. apply Hnl. now apply G1.
        -- intros k. rewrite !Ek, E2, !filter_app. simpl.
           rewrite <- G3, E1, filter_app.
           destruct (Z.eqb_spec (get_key m n) k) as [Ekn|Ekn].
           ++ rewrite (filter_none _ l2); [now rewrite app_nil_r|].
              intros a Ha. apply Z.eqb_neq. rewrite <- Ekn. auto.
           ++ now rewrite app_nil_r.
      * destruct (Z.eqb_spec r' n) as [->|_]; [contradiction|].
        constructor; auto. intros k. rewrite !Ek. apply G3.
    + injection Hins as <- <-. rewrite Z.eqb_refl. simpl in *.
      assert (Eh : h = []).
      { destruct h as [|a h]; auto. exfalso. apply (G1 a). now left. }
      subst h. simpl. constructor; simpl.
      * tauto.
      * repeat constructor; auto.
      * reflexivity.
  - destruct IH as (st & I & [G1 G2 G3]).
    destruct (eb_delete_inv m root st c I) as (I' & [Kk _]).
    exists (del_top c st). split; auto.
    assert (Ek : forall L k,
              filter (fun a => get_key (eb_delete m c) a =? k) L =
              filter (fun a => get_key m a =? k) L).
    { intros L k. apply filter_ext. intros a. now rewrite Kk. }
    constructor.
    + intros x. rewrite (del_top_cells c st (inv_cells_NoDup _ _ _ I)).
      rewrite !in_remove_iff, G1. tauto.
    + now apply NoDup_remove_elt.
    + intros k. rewrite (del_top_cells c st (inv_cells_NoDup _ _ _ I)).
      now rewrite !Ek, !filter_remove, G3.
Qed.

End Runs.

(** * Walks over the whole tree

    The loops a caller writes: from [eb_first], [eb_next] until it returns
    null; from [eb_last], [eb_prev] until it returns null.  They give the
    cells in the order of the visit. *)

Fixpoint eb_walk_next (fuel : nat) (m : mem) (c : Z) : option (list Z) :=
  match fuel with
  | O => None
  | S f =>
      if c =? NULL then Some []
      else nx <- eb_next f m c ;;
           rest <- eb_walk_next f m nx ;; Some (c :: rest)
  end.

Definition eb_forward (fuel : nat) (m : mem) (root : Z) : option (list Z) :=
  c <- eb_first fuel m root ;; eb_walk_next fuel m c.

Fixpoint eb_walk_prev (fuel : nat) (m : mem) (c : Z) : option (list Z) :=
  match fuel with
  | O => None
  | S f =>
      if c =? NULL then Some []
      else pv <- eb_prev f m c ;;
           rest <- eb_walk_prev f m pv ;; Some (c :: rest)
  end.

Definition eb_backward (fuel : nat) (m : mem) (root : Z) : option (list Z) :=
  c <- eb_last fuel m root ;; eb_walk_prev fuel m c.

Lemma next_from_root m root :
  cell root -> eb_clrtag (get_b m root EB_RGHT) = NULL ->
  (fun fuel => eb_next_from fuel m (eb_dotag root EB_LEFT)) ⇓ NULL.
Proof.
  intros [Hr Hr0] H. apply terminates_now. intros fuel. simpl eb_next_from.
  rewrite gettag_dotag by (auto; unfold EB_LEFT; lia).
  rewrite Z.eqb_refl. simpl negb. cbv iota.
  rewrite untag_dotag, H. reflexivity.
Qed.

Lemma prev_from_root m root :
  cell root -> eb_clrtag (get_b m root EB_RGHT) = NULL ->
  (fun fuel => eb_prev_from fuel m (eb_dotag root EB_LEFT)) ⇓ NULL.
Proof.
  intros [Hr Hr0] H. apply terminates_now. intros fuel. simpl eb_prev_from.
  rewrite gettag_dotag by (auto; unfold EB_LEFT; lia).
  rewrite Z.eqb_refl. rewrite untag_dotag, H. reflexivity.
Qed.

Lemma walk_next_nil m : (fun fuel => eb_walk_next fuel m NULL) ⇓ [].
Proof. apply terminates_now. reflexivity. Qed.

Lemma walk_prev_nil m : (fun fuel => eb_walk_prev fuel m NULL) ⇓ [].
Proof. apply terminates_now. reflexivity. Qed.

Lemma walk_next_cons m c nx rest :
  c <> NULL ->
  (fun fuel => eb_next fuel m c) ⇓ nx ->
  (fun fuel => eb_walk_next fuel m nx) ⇓ rest ->
  (fun fuel => eb_walk_next fuel m c) ⇓ (c :: rest).
Proof.
  intros Hc Hn Hr.
  apply terminates_step with
    (f := fun fuel => nx <- eb_next fuel m c ;;
                      rest <- eb_walk_next fuel m nx ;; Some (c :: rest)).
  - intros fuel. simpl. destruct (Z.eqb_spec c NULL); [contradiction|].
    reflexivity.
  - apply (terminates_bind (fun fuel => eb_next fuel m c)
             (fun fuel nx => rest <- eb_walk_next fuel m nx ;; Some (c :: rest))
             nx); auto.
    apply (terminates_bind (fun fuel => eb_walk_next fuel m nx)
             (fun _ rest => Some (c :: rest)) rest); auto.
    apply terminates_const.
Qed.

Lemma walk_prev_cons m c pv rest :
  c <> NULL ->
  (fun fuel => eb_prev fuel m c) ⇓ pv ->
  (fun fuel => eb_walk_prev fuel m pv) ⇓ rest ->
  (fun fuel => eb_walk_prev fuel m c) ⇓ (c :: rest).
Proof.
  intros Hc Hn Hr.
  apply terminates_step with
    (f := fun fuel => pv <- eb_prev fuel m c ;;
                      rest <- eb_walk_prev fuel m pv ;; Some (c :: rest)).
  - intros fuel. simpl. destruct (Z.eqb_spec c NULL); [contradiction|].
    reflexivity.
  - apply (terminates_bind (fun fuel => eb_prev fuel m c)
             (fun fuel pv => rest <- eb_walk_prev fuel m pv ;; Some (c :: rest))
             pv); auto.
    apply (terminates_bind (fun fuel => eb_walk_prev fuel m pv)
             (fun _ rest => Some (c :: rest)) rest); auto.
    apply terminates_const.
Qed.

Lemma walk_next_spec m root t :
  cell root -> eb_clrtag (get_b m root EB_RGHT) = NULL ->
  repr m root EB_LEFT t -> acells t ->
  forall l2 l1, leaves t = l1 ++ l2 ->
    (fun fuel => eb_walk_next fuel m (hd NULL l2)) ⇓ l2.
Proof.
  intros Hr Hrt Hre Ha.
  induction l2 as [|c l2 IH]; intros l1 E; simpl hd.
  - apply walk_next_nil.
  - assert (Hc : cell c).
    { apply (acells_leaves t c Ha). rewrite E. apply in_or_app. right. now left. }
    apply walk_next_cons with (hd NULL l2).
    + apply Hc.
    + apply (eb_next_spec m t root EB_LEFT NULL Hre Ha
               (next_from_root m root Hr Hrt) l1 c l2 E).
    + apply (IH (l1 ++ [c])). rewrite <- app_assoc. exact E.
Qed.

Lemma walk_prev_spec m root t :
  cell root -> eb_clrtag (get_b m root EB_RGHT) = NULL ->
  repr m root EB_LEFT t -> acells t ->
  forall l1 l2, leaves t = l1 ++ l2 ->
    (fun fuel => eb_walk_prev fuel m (last l1 NULL)) ⇓ rev l1.
Proof.
  intros Hr Hrt Hre Ha.
  induction l1 as [|c l1 IH] using rev_ind; intros l2 E.
  - apply walk_prev_nil.
  - rewrite last_last, rev_unit. rewrite <- app_assoc in E. simpl in E.
    assert (Hc : cell c).
    { apply (acells_leaves t c Ha). rewrite E. apply in_or_app. right. now left. }
    apply walk_prev_cons with (last l1 NULL).
    + apply Hc.
    + apply (eb_prev_spec m t root EB_LEFT NULL Hre Ha
               (prev_from_root m root Hr Hrt) l1 c l2 E).
    + apply (IH (c :: l2)). exact E.
Qed.

Section Reads.

Context {U : UndefShift}.
Variables (m : mem) (root : Z) (st : option tree).
Hypothesis I : inv m root st.

Lemma walk_down_null side :
  (fun fuel => eb_walk_down fuel m NULL side) ⇓ NULL.
Proof. apply terminates_now. reflexivity. Qed.

Lemma eb_first_spec :
  (fun fuel => eb_first fuel m root) ⇓ hd NULL (cells_of st).
Proof.
  pose proof (inv_tree _ _ _ I) as S. unfold eb_first.
  change 0 with EB_LEFT. destruct st as [t|]; simpl in *.
  - rewrite (sh_b _ _ _ S). rewrite <- (app_nil_r (leaves t)), hd_leaves.
    apply walk_down_left; [apply (sh_repr _ _ _ S)|apply (sh_cells _ _ _ S)].
  - rewrite S. apply walk_down_null.
Qed.

Lemma eb_last_spec :
  (fun fuel => eb_last fuel m root) ⇓ last (cells_of st) NULL.
Proof.
  pose proof (inv_tree _ _ _ I) as S. unfold eb_last.
  change 0 with EB_LEFT. destruct st as [t|]; simpl in *.
  - rewrite (sh_b _ _ _ S).
    change (leaves t) with ([] ++ leaves t). rewrite last_leaves.
    apply walk_down_right; [apply (sh_repr _ _ _ S)|apply (sh_cells _ _ _ S)].
  - rewrite S. apply walk_down_null.
Qed.

Lemma eb_forward_spec :
  (fun fuel => eb_forward fuel m root) ⇓ cells_of st.
Proof.
  apply (terminates_bind (fun fuel => eb_first fuel m root)
           (fun fuel c => eb_walk_next fuel m c) (hd NULL (cells_of st)));
    [apply eb_first_spec|].
  pose proof (inv_tree _ _ _ I) as S. destruct st as [t|]; simpl in *.
  - apply (walk_next_spec m root t (inv_root _ _ _ I) (inv_right _ _ _ I)
             (sh_repr _ _ _ S) (sh_cells _ _ _ S) (leaves t) []).
    reflexivity.
  - apply walk_next_nil.
Qed.

Lemma eb_backward_spec :
  (fun fuel => eb_backward fuel m root) ⇓ rev (cells_of st).
Proof.
  apply (terminates_bind (fun fuel => eb_last fuel m root)
           (fun fuel c => eb_walk_prev fuel m c) (last (cells_of st) NULL));
    [apply eb_last_spec|].
  pose proof (inv_tree _ _ _ I) as S. destruct st as [t|]; simpl in *.
  - apply (walk_prev_spec m root t (inv_root _ _ _ I) (inv_right _ _ _ I)
             (sh_repr _ _ _ S) (sh_cells _ _ _ S) (leaves t) []).
    now rewrite app_nil_r.
  - apply walk_prev_nil.
Qed.

Lemma cells_sorted : StronglySorted (key_le (get_key m)) (cells_of st).
Proof.
  pose proof (inv_tree _ _ _ I) as S. destruct st as [t|]; simpl in *.
  - apply radix_sorted. apply (sh_radix _ _ _ S).
  - constructor.
Qed.

Lemma cells_linked c : In c (cells_of st) <-> get_leaf_p m c <> NULL.
Proof. rewrite (inv_linked _ _ _ I). symmetry. apply linked_cells. Qed.

Variable x : Z.
Hypothesis Hx : 0 <= x < UINT32_MOD.

Lemma eb32_lookup_spec :
  exists r,
    (fun fuel => eb32_lookup fuel m root x) ⇓ r /\
    found m x (cells_of st) r.
Proof.
  pose proof (inv_tree _ _ _ I) as S. destruct st as [t|]; simpl in *.
  - destruct (eb32_lookup_loop_spec m x Hx (inv_keys _ _ _ I) t
                (proj2 (sh_repr _ _ _ S)) (sh_cells _ _ _ S)
                (sh_radix _ _ _ S) (sh_over _ _ _ S)) as (r & T & F).
    exists r. split; auto. eapply terminates_ext; [|exact T].
    intros fuel. unfold eb32_lookup. rewrite (sh_b _ _ _ S).
    destruct (Z.eqb_spec (ttag t) NULL) as [E|_]; auto.
    exfalso. revert E. apply ttag_nonnull. apply (sh_cells _ _ _ S).
  - exists NULL. split.
    + exists 0%nat. intros fuel _. unfold eb32_lookup. now rewrite S.
    + split; auto. intros (c & [] & _).
Qed.

Lemma eb32_lookup_le_spec :
  (fun fuel => eb32_lookup_le fuel m root x) ⇓ last_le m x (cells_of st).
Proof.
  pose proof (inv_tree _ _ _ I) as S. destruct st as [t|]; simpl in *.
  - eapply terminates_ext;
      [|apply (eb32_lookup_le_loop_spec m x Hx (inv_keys _ _ _ I) t root
                 EB_LEFT [] (sh_repr _ _ _ S) (sh_cells _ _ _ S)
                 (sh_radix _ _ _ S) (sh_over _ _ _ S))].
    + intros fuel. unfold eb32_lookup_le. rewrite (sh_b _ _ _ S).
      destruct (Z.eqb_spec (ttag t) NULL) as [E|_]; auto.
      exfalso. revert E. apply ttag_nonnull. apply (sh_cells _ _ _ S).
    + intros b [].
    + apply prev_from_root; [apply (inv_root _ _ _ I)|apply (inv_right _ _ _ I)].
  - exists 0%nat. intros fuel _. unfold eb32_lookup_le. now rewrite S.
Qed.

Lemma eb32_lookup_ge_spec :
  (fun fuel => eb32_lookup_ge fuel m root x) ⇓ first_ge m x (cells_of st).
Proof.
  pose proof (inv_tree _ _ _ I) as S. destruct st as [t|]; simpl in *.
  - rewrite <- (app_nil_r (leaves t)).
    eapply terminates_ext;
      [|apply (eb32_lookup_ge_loop_spec m x Hx (inv_keys _ _ _ I) t root
                 EB_LEFT [] (sh_repr _ _ _ S) (sh_cells _ _ _ S)
                 (sh_radix _ _ _ S) (sh_over _ _ _ S))].
    + intros fuel. unfold eb32_lookup_ge. rewrite (sh_b _ _ _ S).
      destruct (Z.eqb_spec (ttag t) NULL) as [E|_]; auto.
      exfalso. revert E. apply ttag_nonnull. apply (sh_cells _ _ _ S).
    + intros b [].
    + apply next_from_root; [apply (inv_root _ _ _ I)|apply (inv_right _ _ _ I)].
  - exists 0%nat. intros fuel _. unfold eb32_lookup_ge. now rewrite S.
Qed.

End Reads.

(** * The 128-bit helpers *)

Lemma lor_high_low hi lo :
  0 <= lo < 2 ^ 64 -> Z.lor (Z.shiftl hi 64) lo = hi * 2 ^ 64 + lo.
Proof.
  intros Hlo.
  assert (Hland : Z.land (Z.shiftl hi 64) lo = 0).
  { apply Z.bits_inj'. intros n Hn. rewrite Z.land_spec, Z.bits_0.
    destruct (Z.lt_ge_cases n 64).
    - rewrite Z.shiftl_spec_low by lia. reflexivity.
    - assert (Hb : Z.testbit lo n = false).
      { destruct (Z.eq_dec lo 0) as [->|]; [apply Z.bits_0|].
        apply Z.bits_above_log2; [lia|].
        assert (Z.log2 lo < 64) by (apply Z.log2_lt_pow2; lia). lia. }
      rewrite Hb. apply andb_false_r. }
  rewrite <- Z.lxor_lor by assumption.
  rewrite <- Z.add_nocarry_lxor by assumption.
  rewrite Z.shiftl_mul_pow2 by lia. reflexivity.
Qed.

Lemma eb128_compose_264_value lo hi :
  0 <= lo < UINT64_MOD -> 0 <= hi < UINT64_MOD ->
  eb128_compose_264 lo hi = hi * 2 ^ 64 + lo.
Proof.
  unfold eb128_compose_264, to_uint128, UINT64_MOD, UINT128_MOD.
  intros Hlo Hhi. change 0x40 with 64.
  rewrite (Z.mod_small hi) by lia.
  rewrite Z.mod_small; [now apply lor_high_low|].
  rewrite Z.shiftl_mul_pow2 by lia. lia.
Qed.

Lemma eb128i_compose_value lo hi :
  0 <= lo < UINT64_MOD -> - 2 ^ 63 <= hi < 2 ^ 63 ->
  to_int128 (eb128_compose_264 lo (to_uint64 hi)) = hi * 2 ^ 64 + lo.
Proof.
  intros Hlo Hhi. unfold UINT64_MOD in *.
  assert (Hu : 0 <= to_uint64 hi < UINT64_MOD)
    by (apply Z.mod_pos_bound; reflexivity).
  rewrite eb128_compose_264_value by (auto; unfold UINT64_MOD; lia).
  unfold to_int128, to_uint64, UINT64_MOD, UINT128_MOD in *.
  destruct (Z.lt_ge_cases hi 0) as [Hneg|Hpos].
  - assert (E : hi mod 2 ^ 64 = hi + 2 ^ 64).
    { symmetry. apply (Z.mod_unique_pos hi (2 ^ 64) (-1)); lia. }
    rewrite E. rewrite Z.mod_small by lia.
    destruct (Z.ltb_spec ((hi + 2 ^ 64) * 2 ^ 64 + lo) (2 ^ 127)); lia.
  - rewrite (Z.mod_small hi) by lia. rewrite Z.mod_small by lia.
    destruct (Z.ltb_spec (hi * 2 ^ 64 + lo) (2 ^ 127)); lia.
Qed.

Lemma cmp_result a b :
  (if a >=? b then Z.b2z (a >=? b) else -1) = if a >=? b then 1 else -1.
Proof. destruct (a >=? b) eqn:E; reflexivity. Qed.

Lemma shr_checked_none w x n : w <= n -> shr_checked w x n = None.
Proof.
  intros H. unfold shr_checked. destruct (Z.ltb_spec n w); [lia|].
  now rewrite andb_false_r.
Qed.

Lemma shr_checked_some w x n :
  0 <= n < w -> shr_checked w x n = Some (Z.shiftr x n).
Proof.
  intros H. unfold shr_checked.
  destruct (Z.leb_spec 0 n); [|lia]. destruct (Z.ltb_spec n w); [|lia].
  reflexivity.
Qed.

(** * Signed keys

    A tree of signed keys is a tree of unsigned keys once the sign bit of
    every key is flipped: the signed functions run as the unsigned ones do
    on the store with the flipped keys. *)

Definition bias (k : Z) : Z := Z.lxor k 0x80000000.

Lemma bias_range k : 0 <= k < UINT32_MOD -> 0 <= bias k < UINT32_MOD.
Proof.
  unfold bias, UINT32_MOD. intros Hk. split.
  - apply Z.lxor_nonneg. lia.
  - destruct (Z.eq_dec (Z.lxor k 0x80000000) 0) as [->|N]; [lia|].
    assert (0 <= Z.lxor k 0x80000000) by (apply Z.lxor_nonneg; lia).
    apply Z.log2_lt_cancel. rewrite Z.log2_pow2 by lia.
    eapply Z.le_lt_trans; [apply Z.log2_lxor; lia|].
    apply Z.max_lub_lt.
    + destruct (Z.eq_dec k 0) as [->|]; [simpl; lia|].
      apply Z.log2_lt_pow2; lia.
    + reflexivity.
Qed.

Lemma bias_bias k : bias (bias k) = k.
Proof.
  unfold bias. now rewrite Z.lxor_assoc, Z.lxor_nilpotent, Z.lxor_0_r.
Qed.

Lemma bias_lxor a b : Z.lxor (bias a) (bias b) = Z.lxor a b.
Proof.
  unfold bias.
  rewrite Z.lxor_assoc, (Z.lxor_comm 0x80000000), Z.lxor_assoc.
  now rewrite Z.lxor_nilpotent, Z.lxor_0_r.
Qed.

Lemma bias_eqb a b : (bias a =? bias b) = (a =? b).
Proof.
  destruct (Z.eqb_spec a b) as [->|N]; [apply Z.eqb_refl|].
  apply Z.eqb_neq. intros E. apply N.
  rewrite <- (bias_bias a), <- (bias_bias b). now rewrite E.
Qed.

(** Flipping the sign bit is adding [2^31] modulo [2^32]. *)
Lemma bias_add k :
  0 <= k < UINT32_MOD -> bias k = (k + 2 ^ 31) mod 2 ^ 32.
Proof.
  unfold bias, UINT32_MOD. intros Hk.
  change 0x80000000 with (2 ^ 31).
  destruct (Z.lt_ge_cases k (2 ^ 31)) as [Hlo|Hhi].
  - rewrite Z.mod_small by lia.
    rewrite <- Z.add_nocarry_lxor; auto.
    apply Z.bits_inj'. intros n Hn. rewrite Z.land_spec, Z.bits_0.
    destruct (Z.eq_dec n 31) as [->|Hne].
    + assert (Hb : Z.testbit k 31 = false).
      { destruct (Z.eq_dec k 0) as [->|]; [apply Z.bits_0|].
        apply Z.bits_above_log2; [lia|].
        assert (Z.log2 k < 31) by (apply Z.log2_lt_pow2; lia). lia. }
      now rewrite Hb.
    + rewrite Z.pow2_bits_false by lia. apply andb_false_r.
  - assert (E : k = (k - 2 ^ 31) + 2 ^ 31) by lia.
    rewrite E at 1.
    assert (Hland : Z.land (k - 2 ^ 31) (2 ^ 31) = 0).
    { apply Z.bits_inj'. intros n Hn. rewrite Z.land_spec, Z.bits_0.
      destruct (Z.eq_dec n 31) as [->|Hne].
      - assert (Hb : Z.testbit (k - 2 ^ 31) 31 = false).
        { destruct (Z.eq_dec (k - 2 ^ 31) 0) as [->|]; [apply Z.bits_0|].
          apply Z.bits_above_log2; [lia|].
          assert (Z.log2 (k - 2 ^ 31) < 31) by (apply Z.log2_lt_pow2; lia).
          lia. }
        now rewrite Hb.
      - rewrite Z.pow2_bits_false by lia. apply andb_false_r. }
    rewrite (Z.add_nocarry_lxor _ _ Hland).
    rewrite Z.lxor_assoc, Z.lxor_nilpotent, Z.lxor_0_r.
    apply (Z.mod_unique_pos _ _ 1); lia.
Qed.

(** The order of the signed keys is the order of the flipped ones. *)
Lemma bias_to_int32 k :
  0 <= k < UINT32_MOD -> to_int32 k = bias k - 2 ^ 31.
Proof.
  intros Hk. rewrite bias_add by assumption.
  unfold to_int32, UINT32_MOD in *. rewrite (Z.mod_small k) by lia.
  destruct (Z.ltb_spec k (2 ^ 31)).
  - rewrite Z.mod_small by lia. lia.
  - assert (E : (k + 2 ^ 31) mod 2 ^ 32 = k - 2 ^ 31).
    { symmetry. apply (Z.mod_unique_pos _ _ 1); lia. }
    rewrite E. lia.
Qed.

Lemma bias_geb a b :
  0 <= a < UINT32_MOD -> 0 <= b < UINT32_MOD ->
  (to_int32 a >=? to_int32 b) = (bias a >=? bias b).
Proof.
  intros Ha Hb. rewrite !bias_to_int32 by assumption.
  rewrite !Z.geb_leb.
  destruct (Z.leb_spec (bias b - 2 ^ 31) (bias a - 2 ^ 31));
    destruct (Z.leb_spec (bias b) (bias a)); auto; lia.
Qed.

(** The side taken with the [int] of [eb32i_insert] is the side taken with
    the flipped key. *)
Lemma bias_side {U : UndefShift} k bit :
  0 <= k < UINT32_MOD -> 0 <= bit < 32 ->
  Z.land (shr32 (to_int32 (to_uint32 (k + 0x80000000))) bit)
         EB_NODE_BRANCH_MASK =
  Z.land (shr32 (bias k) bit) EB_NODE_BRANCH_MASK.
Proof.
  intros Hk Hb. rewrite !shr32_in_range, !side_bit by lia. f_equal.
  unfold to_uint32. change 0x80000000 with (2 ^ 31).
  change UINT32_MOD with (2 ^ 32). rewrite <- bias_add by assumption.
  pose proof (bias_range k Hk) as Hr. unfold UINT32_MOD in Hr.
  unfold to_int32, UINT32_MOD. rewrite Z.mod_small by lia.
  destruct (Z.ltb_spec (bias k) (2 ^ 31)); auto.
  rewrite <- (Z.mod_pow2_bits_low (bias k - 2 ^ 32) 32 bit) by lia.
  rewrite <- (Z.mod_pow2_bits_low (bias k) 32 bit) by lia.
  f_equal. rewrite Zminus_mod, Z.mod_same, Z.sub_0_r, Z.mod_mod by lia.
  reflexivity.
Qed.

(** ** The two stores *)

(** [mb] is [m] with the keys, all 32-bit values, flipped. *)
Definition biased (m mb : mem) : Prop :=
  forall a,
    get_node_p m a = get_node_p mb a /\
    get_leaf_p m a = get_leaf_p mb a /\
    get_bit m a = get_bit mb a /\
    (forall i, get_b m a i = get_b mb a i) /\
    get_key mb a = bias (get_key m a) /\
    0 <= get_key m a < UINT32_MOD.

(** The store with the keys flipped. *)
Definition flip_keys (m : mem) : mem :=
  fun a => mk_node (branches (m a)) (node_p (m a)) (leaf_p (m a)) (bit (m a))
                   (bias (key (m a))).

Lemma biased_flip_keys m : keys_ok (get_key m) -> biased m (flip_keys m).
Proof. intros K a. repeat split; apply K. Qed.

Section Biased.

Variables m mb : mem.
Hypothesis H : biased m mb.

Lemma biased_node_p a a' : a = a' -> get_node_p m a = get_node_p mb a'.
Proof. intros <-. apply H. Qed.

Lemma biased_leaf_p a a' : a = a' -> get_leaf_p m a = get_leaf_p mb a'.
Proof. intros <-. apply H. Qed.

Lemma biased_bit a a' : a = a' -> get_bit m a = get_bit mb a'.
Proof. intros <-. apply H. Qed.

Lemma biased_b a a' i i' : a = a' -> i = i' -> get_b m a i = get_b mb a' i'.
Proof. intros <- <-. apply H. Qed.

Lemma biased_key a : get_key mb a = bias (get_key m a).
Proof. apply H. Qed.

Lemma biased_key_range a : 0 <= get_key m a < UINT32_MOD.
Proof. apply H. Qed.

Lemma biased_keys_ok : keys_ok (get_key mb).
Proof. intros a. rewrite biased_key. apply bias_range, biased_key_range. Qed.

Lemma biased_lxor a b :
  Z.lxor (get_key m a) (get_key m b) = Z.lxor (get_key mb a) (get_key mb b).
Proof. now rewrite !biased_key, bias_lxor. Qed.

Lemma biased_key_eqb a b :
  (get_key m a =? get_key m b) = (get_key mb a =? get_key mb b).
Proof. now rewrite !biased_key, bias_eqb. Qed.

Lemma biased_key_geb a b :
  (to_int32 (get_key m a) >=? to_int32 (get_key m b)) =
  (get_key mb a >=? get_key mb b).
Proof. rewrite !biased_key. apply bias_geb; apply biased_key_range. Qed.

Lemma biased_put_b a a' i i' v v' :
  a = a' -> i = i' -> v = v' -> biased (put_b m a i v) (put_b mb a' i' v').
Proof.
  intros <- <- <- x. destruct (H x) as (H1 & H2 & H3 & H4 & H5 & H6 & H7).
  autorewrite with mem. repeat split; auto.
  intros j. autorewrite with mem. now rewrite H4.
Qed.

Lemma biased_put_node_p a a' v v' :
  a = a' -> v = v' -> biased (put_node_p m a v) (put_node_p mb a' v').
Proof.
  intros <- <- x. destruct (H x) as (H1 & H2 & H3 & H4 & H5 & H6 & H7).
  autorewrite with mem. rewrite H1. repeat split; auto.
  intros j. now autorewrite with mem.
Qed.

Lemma biased_put_leaf_p a a' v v' :
  a = a' -> v = v' -> biased (put_leaf_p m a v) (put_leaf_p mb a' v').
Proof.
  intros <- <- x. destruct (H x) as (H1 & H2 & H3 & H4 & H5 & H6 & H7).
  autorewrite with mem. rewrite H2. repeat split; auto.
  intros j. now autorewrite with mem.
Qed.

Lemma biased_put_bit a a' v v' :
  a = a' -> v = v' -> biased (put_bit m a v) (put_bit mb a' v').
Proof.
  intros <- <- x. destruct (H x) as (H1 & H2 & H3 & H4 & H5 & H6 & H7).
  autorewrite with mem. rewrite H3. repeat split; auto.
  intros j. now autorewrite with mem.
Qed.

Lemma biased_put_up a a' f v v' :
  a = a' -> v = v' -> biased (put_up m a f v) (put_up mb a' f v').
Proof.
  destruct f; simpl; [apply biased_put_leaf_p|apply biased_put_node_p].
Qed.

Lemma biased_put_branches a a' f g :
  a = a' -> (forall i, f i = g i) ->
  biased (put_branches m a f) (put_branches mb a' g).
Proof.
  intros <- E x. destruct (H x) as (H1 & H2 & H3 & H4 & H5 & H6 & H7).
  autorewrite with mem. repeat split; auto.
  intros j. autorewrite with mem. now rewrite H4, E.
Qed.

End Biased.

(** Two stores in that relation, field by field, down the terms. *)
Ltac sim :=
  lazymatch goal with
  | H : biased ?m ?mb |- biased ?m ?mb => exact H
  | |- biased (put_b _ _ _ _) (put_b _ _ _ _) =>
      apply biased_put_b; [sim|sim|sim|sim]
  | |- biased (put_node_p _ _ _) (put_node_p _ _ _) =>
      apply biased_put_node_p; [sim|sim|sim]
  | |- biased (put_leaf_p _ _ _) (put_leaf_p _ _ _) =>
      apply biased_put_leaf_p; [sim|sim|sim]
  | |- biased (put_bit _ _ _) (put_bit _ _ _) =>
      apply biased_put_bit; [sim|sim|sim]
  | |- biased (put_up _ _ _ _) (put_up _ _ _ _) =>
      apply biased_put_up; [sim|sim|sim]
  | |- biased (put_branches _ _ _) (put_branches _ _ _) =>
      apply biased_put_branches; [sim|sim|intros ?; sim]
  | |- biased (if ?c then _ else _) (if ?cb then _ else _) =>
      replace cb with c by sim; destruct c; sim
  | |- biased (let x := ?a in @?f x) (let y := ?b in @?g y) =>
      lazymatch type of a with
      | mem =>
          let Hn := fresh "Hm" in
          assert (Hn : biased a b) by sim;
          change (biased (f a) (g b));
          revert Hn; generalize b; generalize a;
          intros ? ? Hn; cbv beta; sim
      | Z =>
          let E := fresh "E" in
          assert (E : b = a) by (symmetry; sim);
          change (biased (f a) (g b));
          rewrite E; clear E; generalize a; intros ?; cbv beta; sim
      end
  | |- ?x = ?x => reflexivity
  | |- Z.lxor (get_key _ _) (get_key _ _) = Z.lxor (get_key _ _) (get_key _ _) =>
      apply biased_lxor; sim
  | |- (get_key _ _ =? get_key _ _) = (get_key _ _ =? get_key _ _) =>
      apply biased_key_eqb; sim
  | |- (to_int32 (get_key _ _) >=? to_int32 (get_key _ _)) = (_ >=? _) =>
      apply biased_key_geb; sim
  | |- flsnz _ = flsnz _ => f_equal; sim
  | |- shr32 _ _ = shr32 _ _ => f_equal; sim
  | |- (_ >=? _) = (_ >=? _) => f_equal; sim
  | |- (_ || _) = (_ || _) => f_equal; sim
  | |- get_node_p _ _ = get_node_p _ _ => apply biased_node_p; [sim|sim]
  | |- get_leaf_p _ _ = get_leaf_p _ _ => apply biased_leaf_p; [sim|sim]
  | |- get_bit _ _ = get_bit _ _ => apply biased_bit; [sim|sim]
  | |- get_b _ _ _ = get_b _ _ _ => apply biased_b; [sim|sim|sim]
  | |- branches (?M ?a) ?i = branches (?Mb ?a') ?i' =>
      change (get_b M a i = get_b Mb a' i'); sim
  | |- eb_untag _ _ = eb_untag _ _ => f_equal; sim
  | |- eb_dotag _ _ = eb_dotag _ _ => f_equal; sim
  | |- eb_gettag _ = eb_gettag _ => f_equal; sim
  | |- eb_clrtag _ = eb_clrtag _ => f_equal; sim
  | |- eb_root_to_node _ = eb_root_to_node _ => f_equal; sim
  | |- lnot_side _ = lnot_side _ => f_equal; sim
  | |- (_ - _) = (_ - _) => f_equal; sim
  | |- (_ + _) = (_ + _) => f_equal; sim
  | |- (_ =? _) = (_ =? _) => f_equal; sim
  | |- (_ <? _) = (_ <? _) => f_equal; sim
  | |- (_ >? _) = (_ >? _) => f_equal; sim
  | |- negb _ = negb _ => f_equal; sim
  | |- (if ?c then _ else _) = (if ?c' then _ else _) =>
      replace c with c' by (symmetry; sim); destruct c'; sim
  end.

(** The results agree: the stores are in the relation and the cells
    returned are the same. *)
Definition sim_result (o ob : option (mem * Z)) : Prop :=
  match o, ob with
  | Some (m', r), Some (mb', rb) => biased m' mb' /\ r = rb
  | None, None => True
  | _, _ => False
  end.

(** One step down two terms that run alike: a test, made the same test on
    both sides, or a binding, made the same variable, or a pair of stores
    in the relation. *)
Ltac sim_step :=
  lazymatch goal with
  | |- ?R (if ?c then _ else _) (if ?cb then _ else _) =>
      replace cb with c by sim; destruct c
  | |- ?R (let x := ?a in @?f x) (let y := ?b in @?g y) =>
      lazymatch type of a with
      | mem =>
          let Hn := fresh "Hm" in
          assert (Hn : biased a b) by sim;
          change (R (f a) (g b));
          revert Hn; generalize b; generalize a;
          intros ? ? Hn; cbv beta
      | Z =>
          let E := fresh "E" in
          assert (E : b = a) by (symmetry; sim);
          change (R (f a) (g b));
          rewrite E; clear E; generalize a; intros ?; cbv beta
      | _ => change (R (f a) (g b)); cbv beta
      end
  | |- sim_result (Some (_, _)) (Some (_, _)) => split; [sim|reflexivity]
  | |- sim_result None None => exact I
  | |- biased _ _ => sim
  end.

Section Simulation.

Context {U : UndefShift}.

Lemma eb_walk_down_sim m mb : biased m mb -> forall fuel start side,
  eb_walk_down fuel m start side = eb_walk_down fuel mb start side.
Proof.
  intros H. induction fuel as [|f IH]; intros start side; simpl; auto.
  destruct (_ =? EB_NODE); auto.
  rewrite IH. f_equal. sim.
Qed.

Lemma eb_next_from_sim m mb : biased m mb -> forall fuel t,
  eb_next_from fuel m t = eb_next_from fuel mb t.
Proof.
  intros H. induction fuel as [|f IH]; intros t; simpl; auto.
  destruct (negb _).
  - rewrite IH. f_equal. sim.
  - sim_step; auto. rewrite (eb_walk_down_sim m mb H). f_equal. sim.
Qed.

Lemma eb_prev_from_sim m mb : biased m mb -> forall fuel t,
  eb_prev_from fuel m t = eb_prev_from fuel mb t.
Proof.
  intros H. induction fuel as [|f IH]; intros t; simpl; auto.
  destruct (_ =? EB_LEFT).
  - sim_step; auto. rewrite IH. f_equal. sim.
  - rewrite (eb_walk_down_sim m mb H). f_equal. sim.
Qed.

Lemma eb_walk_next_sim m mb : biased m mb -> forall fuel c,
  eb_walk_next fuel m c = eb_walk_next fuel mb c.
Proof.
  intros H. induction fuel as [|f IH]; intros c; simpl; auto.
  destruct (c =? NULL); auto. unfold eb_next.
  rewrite (eb_next_from_sim m mb H).
  replace (get_leaf_p m c) with (get_leaf_p mb c) by (symmetry; sim).
  destruct (eb_next_from f mb (get_leaf_p mb c)); simpl; auto.
  now rewrite IH.
Qed.

Lemma eb_forward_sim m mb root fuel :
  biased m mb -> eb_forward fuel m root = eb_forward fuel mb root.
Proof.
  intros H. unfold eb_forward, eb_first.
  rewrite (eb_walk_down_sim m mb H).
  replace (get_b m root 0) with (get_b mb root 0) by (symmetry; sim).
  destruct (eb_walk_down fuel mb (get_b mb root 0) EB_LEFT); simpl; auto.
  now apply eb_walk_next_sim.
Qed.

Lemma eb_delete_sim m mb c :
  biased m mb -> biased (eb_delete m c) (eb_delete mb c).
Proof.
  intros H. cbv beta delta [eb_delete eb_delete_fix_child].
  repeat sim_step.
Qed.

Lemma eb_insert_dup_walk_sim m mb : biased m mb -> forall fuel h s,
  eb_insert_dup_walk fuel m h s = eb_insert_dup_walk fuel mb h s.
Proof.
  intros H. induction fuel as [|f IH]; intros h s; simpl; auto.
  sim_step; auto. rewrite IH. f_equal; sim.
Qed.

Lemma eb_insert_dup_sim m mb fuel sub new :
  biased m mb ->
  sim_result (eb_insert_dup fuel m sub new) (eb_insert_dup fuel mb sub new).
Proof.
  intros H. cbv beta delta [eb_insert_dup].
  do 3 sim_step. rewrite (eb_insert_dup_walk_sim m mb H).
  destruct (eb_insert_dup_walk fuel mb sub sub) as [hs|]; simpl obind;
    [|exact I].
  repeat sim_step.
Qed.

Lemma eb32i_insert_link_sim m mb fuel rr n p s troot old up :
  biased m mb ->
  sim_result (eb32i_insert_link fuel m rr n p s troot old up)
             (eb32_insert_link fuel mb rr n p s troot old up).
Proof.
  intros H. cbv beta delta [eb32i_insert_link eb32_insert_link].
  do 5 sim_step.
  sim_step.
  - sim_step. destruct (negb (eb_gettag rr =? 0)); [sim_step|].
    destruct (negb (eb_gettag troot =? EB_LEAF)).
    + now apply eb_insert_dup_sim.
    + repeat sim_step.
  - repeat sim_step.
Qed.

(** The descent: below a tree of the flipped store whose bits are those of
    32-bit keys, the side taken is the same. *)
Lemma eb32i_insert_from_sim m mb rr n : biased m mb -> forall t fuel p s,
  inner mb t -> acells t -> radix (get_key mb) t ->
  sim_result
    (eb32i_insert_from fuel m rr n
       (to_int32 (to_uint32 (get_key m n + 0x80000000))) p s (ttag t))
    (eb32_insert_from fuel mb rr n (get_key mb n) p s (ttag t)).
Proof.
  intros H. induction t as [c|c k l IHl r IHr]; intros fuel p s Hi Ha Hr;
    (destruct fuel as [|fuel]; [exact I|]).
  - simpl eb32i_insert_from. simpl eb32_insert_from.
    rewrite (gettag_ttag (Leaf c)) by assumption.
    change (EB_LEAF =? EB_LEAF) with true. cbv iota.
    apply eb32i_insert_link_sim. sim.
  - pose proof (radix_bit_lt _ _ Hr) as Hk32. simpl in Hk32.
    simpl in Hi. destruct Hi as (Hk & Hbl & Hbr & Hul & Hur & Hil & Hir).
    simpl in Ha. destruct Ha as (Hc & Hal & Har).
    simpl eb32i_insert_from. simpl eb32_insert_from.
    rewrite (gettag_ttag (Node c k l r)) by (simpl; auto).
    change (EB_NODE =? EB_LEAF) with false. cbv iota.
    rewrite untag_ttag_node.
    replace (get_bit m c) with k by (rewrite <- Hk; symmetry; sim).
    rewrite Hk.
    replace (Z.lxor (get_key m n) (get_key m c))
      with (Z.lxor (get_key mb n) (get_key mb c)) by (symmetry; sim).
    destruct ((k <? 0)
              || (shr32 (Z.lxor (get_key mb n) (get_key mb c)) k
                  >=? EB_NODE_BRANCHES)) eqn:Estop.
    + apply eb32i_insert_link_sim. sim.
    + assert (Hk0 : 0 <= k < 32).
      { apply orb_false_elim in Estop. destruct Estop as [E _].
        apply Z.ltb_ge in E. lia. }
      rewrite (biased_key m mb H n).
      rewrite (bias_side (get_key m n) k (biased_key_range m mb H n) Hk0).
      replace (get_b m c (Z.land (shr32 (bias (get_key m n)) k)
                                 EB_NODE_BRANCH_MASK))
        with (get_b mb c (Z.land (shr32 (bias (get_key m n)) k)
                                 EB_NODE_BRANCH_MASK))
        by (symmetry; sim).
      rewrite <- (biased_key m mb H n).
      simpl in Hr.
      destruct Hr as [(Hneg & _)|(_ & Rl & Rr & _)]; [lia|].
      destruct (land_mask_cases (shr32 (get_key mb n) k)) as [Es|Es];
        rewrite Es.
      * change 0 with EB_LEFT. rewrite Hbl. now apply IHl.
      * change 1 with EB_RGHT. rewrite Hbr. now apply IHr.
Qed.

Lemma eb32i_lookup_loop_sim m mb x : biased m mb -> forall fuel troot,
  eb32i_lookup_loop fuel m troot x =
  eb32_lookup_loop fuel mb troot (bias (to_uint32 x)).
Proof.
  intros H. induction fuel as [|f IH]; intros troot; simpl; auto.
  destruct (_ =? EB_LEAF).
  - rewrite (biased_key m mb H), bias_eqb. reflexivity.
  - rewrite (biased_key m mb H), bias_lxor.
    replace (get_bit mb (eb_untag troot EB_NODE))
      with (get_bit m (eb_untag troot EB_NODE)) by sim.
    destruct (_ =? 0).
    + destruct (_ <? 0); auto.
      rewrite (eb_walk_down_sim m mb H). f_equal. sim.
    + destruct (_ >=? EB_NODE_BRANCHES); auto.
      rewrite IH. f_equal. unfold bias. sim.
Qed.

Lemma eb32i_lookup_sim m mb root x fuel :
  biased m mb ->
  eb32i_lookup fuel m root x = eb32_lookup fuel mb root (bias (to_uint32 x)).
Proof.
  intros H. unfold eb32i_lookup, eb32_lookup.
  replace (get_b mb root EB_LEFT) with (get_b m root EB_LEFT) by sim.
  destruct (_ =? NULL); auto. now apply eb32i_lookup_loop_sim.
Qed.

End Simulation.

(** * Trees of signed keys *)

Section SignedRuns.

Context {U : UndefShift}.

(** The stores reached with [eb32i_insert] in place of [eb32_insert]. *)
Inductive runi (root : Z) : mem -> list Z -> Prop :=
| runi_init m : initial m root -> runi root m []
| runi_write m h m' :
    runi root m h -> caller_write root m m' -> runi root m' h
| runi_insert m h n m' ret :
    runi root m h -> cell n -> n <> root -> get_leaf_p m n = NULL ->
    (fun fuel => eb32i_insert fuel m root n) ⇓ (m', ret) ->
    runi root m' (if ret =? n then h ++ [n] else h)
| runi_delete m h c :
    runi root m h -> runi root (eb_delete m c) (remove Z.eq_dec c h).

Lemma eb32i_insert_sim m mb root st n fuel :
  biased m mb -> inv mb root st ->
  sim_result (eb32i_insert fuel m root n) (eb32_insert fuel mb root n).
Proof.
  intros H I. unfold eb32i_insert, eb32_insert. cbv zeta.
  replace (get_b mb root EB_LEFT) with (get_b m root EB_LEFT) by sim.
  replace (get_b mb root EB_RGHT) with (get_b m root EB_RGHT) by sim.
  destruct (Z.eqb_spec (get_b m root EB_LEFT) NULL) as [E|E].
  - split; [sim|reflexivity].
  - pose proof (inv_tree _ _ _ I) as S.
    assert (Eb : get_b m root EB_LEFT = get_b mb root EB_LEFT) by sim.
    destruct st as [t|]; [|congruence].
    rewrite Eb, (sh_b _ _ _ S).
    apply eb32i_insert_from_sim; auto.
    + apply (sh_repr _ _ _ S).
    + apply (sh_cells _ _ _ S).
    + apply (sh_radix _ _ _ S).
Qed.

(** On a store that holds a tree, [eb32_insert] returns or never does. *)
Lemma eb32_insert_decide m root st n :
  inv m root st -> cell n -> n <> root -> get_leaf_p m n = NULL ->
  (exists m' ret, (fun fuel => eb32_insert fuel m root n) ⇓ (m', ret)) \/
  gives_none (fun fuel => eb32_insert fuel m root n).
Proof.
  intros I Hn Hnr Hl.
  destruct (ins_top (get_key m) (unique_mode m root) n st)
    as [[st' ret']|] eqn:E.
  - left. destruct (eb32_insert_inv m root st n st' ret' I Hn Hnr Hl E)
      as (m' & T & _). eauto.
  - right. destruct st as [t|]; simpl in E; [|discriminate].
    destruct (ins (get_key m) (unique_mode m root) n t) as [[t' r']|] eqn:Ei;
      [discriminate|].
    pose proof (inv_tree _ _ _ I) as S. simpl in S.
    assert (Hnl : ~ In n (leaves t)).
    { intros Hin. apply (inv_linked _ _ _ I n) in Hin. contradiction. }
    assert (Hf : fresh n t).
    { split; auto. intros Hin. apply Hnl.
      now apply (over_nodes_leaves t (sh_over _ _ _ S)). }
    eapply gives_none_ext;
      [|exact (eb32_insert_from_none m n (get_b m root EB_RGHT) t root EB_LEFT
                 (proj2 (sh_repr _ _ _ S)) (sh_b _ _ _ S) (sh_cells _ _ _ S)
                 Hf Ei)].
    intros fuel. cbv beta. rewrite eb32_insert_nonempty;
      [now rewrite (sh_b _ _ _ S)|].
    rewrite (sh_b _ _ _ S). apply ttag_nonnull. apply (sh_cells _ _ _ S).
Qed.

(** A call of [eb32i_insert] that returns is a call of [eb32_insert] on the
    store with the flipped keys. *)
Lemma eb32i_insert_returns m mb root st n m' ret :
  biased m mb -> inv mb root st ->
  cell n -> n <> root -> get_leaf_p m n = NULL ->
  (fun fuel => eb32i_insert fuel m root n) ⇓ (m', ret) ->
  exists mb',
    (fun fuel => eb32_insert fuel mb root n) ⇓ (mb', ret) /\ biased m' mb'.
Proof.
  intros H I Hn Hnr Hl [n1 T].
  assert (Hlb : get_leaf_p mb n = NULL) by (rewrite <- Hl; symmetry; sim).
  destruct (eb32_insert_decide mb root st n I Hn Hnr Hlb)
    as [(mb' & r & [n2 T2])|[n2 T2]].
  - pose proof (eb32i_insert_sim m mb root st n (Nat.max n1 n2) H I) as S.
    rewrite T, T2 in S by lia. destruct S as [Hb ->].
    exists mb'. split; auto. exists n2. exact T2.
  - pose proof (eb32i_insert_sim m mb root st n (Nat.max n1 n2) H I) as S.
    rewrite T, T2 in S by lia. destruct S.
Qed.

(** Every store reached with signed keys is, keys flipped, a store reached
    with unsigned keys, and the same cells are linked in the same order of
    insertion. *)
Theorem runi_run root m h :
  runi root m h -> exists mb, biased m mb /\ run root mb h.
Proof.
  induction 1 as [m Hi|m h m' R IH W|m h n m' ret R IH Hn Hnr Hl T|m h c R IH].
  - destruct Hi as (Hr & Hl & Hrt & Hlp & Hk).
    exists (flip_keys m). split; [now apply biased_flip_keys|].
    apply run_init. split; auto. split; auto. split; auto. split; auto.
    intros a. change (get_key (flip_keys m) a) with (bias (get_key m a)).
    apply bias_range, Hk.
  - destruct IH as (mb & Hb & Rb).
    destruct W as (c & Hcr & Hl & Hl' & Hk' & Hsame).
    exists (upd mb c (flip_keys m' c)). split.
    + intros a. unfold get_node_p, get_leaf_p, get_bit, get_b, get_key, upd.
      destruct (Z.eqb_spec a c) as [->|N].
      * repeat split; apply Hk'.
      * rewrite (Hsame a N). apply Hb.
    + apply run_write with mb; auto. exists c. split; auto.
      split; [rewrite <- Hl; symmetry; sim|].
      unfold get_leaf_p, get_key, upd. rewrite Z.eqb_refl.
      split; [exact Hl'|]. split; [apply bias_range, Hk'|].
      intros a N. destruct (Z.eqb_spec a c); [contradiction|reflexivity].
  - destruct IH as (mb & Hb & Rb).
    destruct (run_inv root mb h Rb) as (st & I & _).
    destruct (eb32i_insert_returns m mb root st n m' ret Hb I Hn Hnr Hl T)
      as (mb' & Tb & Hb').
    exists mb'. split; auto.
    apply (run_insert root mb h n mb' ret); auto.
    rewrite <- Hl. symmetry. sim.
  - destruct IH as (mb & Hb & Rb). exists (eb_delete mb c).
    split; [now apply eb_delete_sim|now apply run_delete].
Qed.

End SignedRuns.

(** * Runs of a program *)

(** A cell is in a tree when its [leaf_p] is not null: the test [eb_delete]
    makes. *)
Definition is_linked (m : mem) (c : Z) : Prop := get_leaf_p m c <> NULL.

Lemma caller_put_key root m c k :
  c <> root -> get_leaf_p m c = NULL -> 0 <= k < UINT32_MOD ->
  caller_write root m (put_key m c k).
Proof.
  intros Hc Hl Hk. exists c. split; auto. split; auto.
  split; [now msimpl|]. split; [now msimpl|].
  intros a Ha. unfold put_key, upd.
  destruct (Z.eqb_spec a c); [contradiction|reflexivity].
Qed.

(** The caller sets the key of its cell and inserts it. *)
Lemma run_insert_key {U : UndefShift} root m h c k m' ret :
  run root m h -> cell c -> c <> root -> get_leaf_p m c = NULL ->
  0 <= k < UINT32_MOD ->
  (fun fuel => eb32_insert fuel (put_key m c k) root c) ⇓ (m', ret) ->
  run root m' (if ret =? c then h ++ [c] else h).
Proof.
  intros R Hc Hcr Hl Hk T.
  apply (run_insert root (put_key m c k) h c m' ret); auto.
  - apply run_write with m; auto. now apply caller_put_key.
  - now msimpl.
Qed.

Lemma run_insert_new {U : UndefShift} root m h c k m' :
  run root m h -> cell c -> c <> root -> get_leaf_p m c = NULL ->
  0 <= k < UINT32_MOD ->
  (fun fuel => eb32_insert fuel (put_key m c k) root c) ⇓ (m', c) ->
  run root m' (h ++ [c]).
Proof.
  intros R Hc Hcr Hl Hk T.
  pose proof (run_insert_key root m h c k m' c R Hc Hcr Hl Hk T) as H.
  now rewrite Z.eqb_refl in H.
Qed.

(** ** A small program *)

(** What an undefined shift gives in the examples. *)
Definition shr_zero : UndefShift := fun _ _ => 0.

Definition ex_root : Z := 2.

Definition ex_empty : mem := fun _ => mk_node (fun _ => 0) 0 0 0 0.

(** Sets the key of [c] to [k] and inserts it. *)
Definition ex_insert (m : mem) (c k : Z) : mem :=
  match @eb32_insert shr_zero 8 (put_key m c k) ex_root c with
  | Some (m', _) => m'
  | None => m
  end.

Definition ex1 : mem := ex_insert ex_empty 16 8.
Definition ex2 : mem := ex_insert ex1 32 12.
Definition ex3 : mem := ex_insert ex2 48 10.
Definition ex4 : mem := eb_delete ex3 16.

Lemma ex_initial : initial ex_empty ex_root.
Proof.
  split; [split; [reflexivity|discriminate]|].
  split; [reflexivity|]. split; [left; reflexivity|].
  split; [reflexivity|]. intros c. change (0 <= 0 < 2 ^ 32). lia.
Qed.

Ltac ex_cell := split; [reflexivity|discriminate].

Ltac ex_returns :=
  exists 4%nat; intros fuel Hfuel;
  do 4 (destruct fuel as [|fuel]; [exfalso; lia|]);
  reflexivity.

Lemma ex1_run : @run shr_zero ex_root ex1 [16].
Proof.
  apply (@run_insert_new shr_zero ex_root ex_empty [] 16 8).
  - apply run_init. apply ex_initial.
  - ex_cell.
  - discriminate.
  - reflexivity.
  - unfold UINT32_MOD. lia.
  - ex_returns.
Qed.

Lemma ex2_run : @run shr_zero ex_root ex2 [16; 32].
Proof.
  apply (@run_insert_new shr_zero ex_root ex1 [16] 32 12).
  - apply ex1_run.
  - ex_cell.
  - discriminate.
  - reflexivity.
  - unfold UINT32_MOD. lia.
  - ex_returns.
Qed.

Lemma ex3_run : @run shr_zero ex_root ex3 [16; 32; 48].
Proof.
  apply (@run_insert_new shr_zero ex_root ex2 [16; 32] 48 10).
  - apply ex2_run.
  - ex_cell.
  - discriminate.
  - reflexivity.
  - unfold UINT32_MOD. lia.
  - ex_returns.
Qed.

Lemma ex4_run : @run shr_zero ex_root ex4 [32; 48].
Proof. apply (run_delete ex_root ex3 [16; 32; 48] 16). apply ex3_run. Qed.

(** * The properties of the specification *)

Lemma run_state {U : UndefShift} root m h :
  run root m h ->
  exists st, inv m root st /\ ghost m st h /\
             forall c, In c (cells_of st) <-> is_linked m c.
Proof.
  intros R. destruct (run_inv root m h R) as (st & I & G).
  exists st. split; auto. split; auto. intros c.
  apply (cells_linked m root st I).
Qed.

(** C2. Nearest keys: in every store that is reached, [eb32_lookup_le]
    returns a linked cell with the largest key that is at most [x], and
    null when every linked key is above [x]; [eb32_lookup_ge] returns a
    linked cell with the smallest key that is at least [x], and null when
    every linked key is below [x]. *)
Theorem eb32_lookup_le_ge_correct {U : UndefShift} root m h x :
  run root m h -> 0 <= x < UINT32_MOD ->
  exists rl rg,
    (fun fuel => eb32_lookup_le fuel m root x) ⇓ rl /\
    (fun fuel => eb32_lookup_ge fuel m root x) ⇓ rg /\
    ((exists c, is_linked m c /\ get_key m c <= x) ->
     is_linked m rl /\ get_key m rl <= x /\
     forall c, is_linked m c -> get_key m c <= x ->
               get_key m c <= get_key m rl) /\
    ((forall c, is_linked m c -> x < get_key m c) -> rl = NULL) /\
    ((exists c, is_linked m c /\ x <= get_key m c) ->
     is_linked m rg /\ x <= get_key m rg /\
     forall c, is_linked m c -> x <= get_key m c ->
               get_key m rg <= get_key m c) /\
    ((forall c, is_linked m c -> get_key m c < x) -> rg = NULL).
Proof.
  intros R Hx. destruct (run_state root m h R) as (st & I & _ & L).
  pose proof (cells_sorted m root st I) as S.
  exists (last_le m x (cells_of st)), (first_ge m x (cells_of st)).
  split; [now apply eb32_lookup_le_spec|].
  split; [now apply eb32_lookup_ge_spec|].
  split; [|split; [|split]].
  - intros (c & Hc & E). apply L in Hc.
    destruct (last_le_sorted m x _ S c Hc E) as (P1 & P2 & _).
    split; [now apply L|]. split; auto.
    intros c' Hc' E'. apply L in Hc'.
    now destruct (last_le_sorted m x _ S c' Hc' E') as (_ & _ & P3).
  - intros H. apply last_le_none. intros c Hc. apply H. now apply L.
  - intros (c & Hc & E). apply L in Hc.
    destruct (first_ge_sorted m x _ S c Hc E) as (P1 & P2 & _).
    split; [now apply L|]. split; auto.
    intros c' Hc' E'. apply L in Hc'.
    now destruct (first_ge_sorted m x _ S c' Hc' E') as (_ & _ & P3).
  - intros H. apply first_ge_none. intros c Hc. apply H. now apply L.
Qed.

Lemma eb32_lookup_le_ge_correct_witness :
  @run shr_zero ex_root ex3 [16; 32; 48] /\ 0 <= 11 < UINT32_MOD /\
  exists rl rg,
    (fun fuel => @eb32_lookup_le shr_zero fuel ex3 ex_root 11) ⇓ rl /\
    (fun fuel => @eb32_lookup_ge shr_zero fuel ex3 ex_root 11) ⇓ rg /\
    ((exists c, is_linked ex3 c /\ get_key ex3 c <= 11) ->
     is_linked ex3 rl /\ get_key ex3 rl <= 11 /\
     forall c, is_linked ex3 c -> get_key ex3 c <= 11 ->
               get_key ex3 c <= get_key ex3 rl) /\
    ((forall c, is_linked ex3 c -> 11 < get_key ex3 c) -> rl = NULL) /\
    ((exists c, is_linked ex3 c /\ 11 <= get_key ex3 c) ->
     is_linked ex3 rg /\ 11 <= get_key ex3 rg /\
     forall c, is_linked ex3 c -> 11 <= get_key ex3 c ->
               get_key ex3 rg <= get_key ex3 c) /\
    ((forall c, is_linked ex3 c -> get_key ex3 c < 11) -> rg = NULL).
Proof.
  split; [exact ex3_run|]. split; [unfold UINT32_MOD; lia|].
  apply (@eb32_lookup_le_ge_correct shr_zero ex_root ex3 [16; 32; 48] 11
           ex3_run).
  unfold UINT32_MOD. lia.
Defined.

(** C4. Duplicates: in every store that is reached, for every key [k], the
    walk by [eb_next] visits the linked cells of key [k] in the order of
    their insertion, and the walk by [eb_prev] visits them in the reverse
    order. *)
Theorem duplicates_in_insertion_order {U : UndefShift} root m h k :
  run root m h ->
  exists Lf Lb,
    (fun fuel => eb_forward fuel m root) ⇓ Lf /\
    (fun fuel => eb_backward fuel m root) ⇓ Lb /\
    filter (fun c => get_key m c =? k) Lf =
      filter (fun c => get_key m c =? k) h /\
    filter (fun c => get_key m c =? k) Lb =
      rev (filter (fun c => get_key m c =? k) h).
Proof.
  intros R. destruct (run_state root m h R) as (st & I & G & _).
  exists (cells_of st), (rev (cells_of st)).
  split; [now apply eb_forward_spec|].
  split; [now apply eb_backward_spec|].
  split; [apply (gh_order _ _ _ G)|].
  rewrite filter_rev. f_equal. apply (gh_order _ _ _ G).
Qed.

(** A tree with three cells of key 7, inserted between two others. *)
Definition dup1 : mem := ex_insert ex_empty 16 7.
Definition dup2 : mem := ex_insert dup1 32 5.
Definition dup3 : mem := ex_insert dup2 48 7.
Definition dup4 : mem := ex_insert dup3 64 9.
Definition dup5 : mem := ex_insert dup4 80 7.

Lemma dup5_run : @run shr_zero ex_root dup5 [16; 32; 48; 64; 80].
Proof.
  apply (@run_insert_new shr_zero ex_root dup4 [16; 32; 48; 64] 80 7);
    [|ex_cell|discriminate|reflexivity|unfold UINT32_MOD; lia|ex_returns].
  apply (@run_insert_new shr_zero ex_root dup3 [16; 32; 48] 64 9);
    [|ex_cell|discriminate|reflexivity|unfold UINT32_MOD; lia|ex_returns].
  apply (@run_insert_new shr_zero ex_root dup2 [16; 32] 48 7);
    [|ex_cell|discriminate|reflexivity|unfold UINT32_MOD; lia|ex_returns].
  apply (@run_insert_new shr_zero ex_root dup1 [16] 32 5);
    [|ex_cell|discriminate|reflexivity|unfold UINT32_MOD; lia|ex_returns].
  apply (@run_insert_new shr_zero ex_root ex_empty [] 16 7);
    [|ex_cell|discriminate|reflexivity|unfold UINT32_MOD; lia|ex_returns].
  apply run_init. apply ex_initial.
Qed.

Lemma duplicates_in_insertion_order_witness :
  @run shr_zero ex_root dup5 [16; 32; 48; 64; 80] /\
  exists Lf Lb,
    (fun fuel => eb_forward fuel dup5 ex_root) ⇓ Lf /\
    (fun fuel => eb_backward fuel dup5 ex_root) ⇓ Lb /\
    filter (fun c => get_key dup5 c =? 7) Lf = [16; 48; 80] /\
    filter (fun c => get_key dup5 c =? 7) Lb = [80; 48; 16].
Proof.
  split; [exact dup5_run|].
  apply (@duplicates_in_insertion_order shr_zero ex_root dup5
           [16; 32; 48; 64; 80] 7 dup5_run).
Defined.

Example dup5_forward :
  eb_forward 8 dup5 ex_root = Some [32; 16; 48; 80; 64].
Proof. reflexivity. Qed.

Example dup5_backward :
  eb_backward 8 dup5 ex_root = Some [64; 80; 48; 16; 32].
Proof. reflexivity. Qed.

Example ex3_lookup :
  @eb32_lookup shr_zero 8 ex3 ex_root 10 = Some 48 /\
  @eb32_lookup shr_zero 8 ex3 ex_root 11 = Some NULL /\
  @eb32_lookup_le shr_zero 8 ex3 ex_root 11 = Some 48 /\
  @eb32_lookup_ge shr_zero 8 ex3 ex_root 11 = Some 32.
Proof. repeat split. Qed.

(** C5. Unique keys: in a tree that takes no key twice, the insertion of a
    cell whose key is already linked returns the linked cell with that key;
    the new cell stays unlinked, its [leaf_p] null, and nothing of the tree
    is written: only the [node_p] and the [bit] of the new cell are. *)
Theorem unique_insert_existing_key {U : UndefShift} root m h n :
  run root m h -> unique_mode m root = true ->
  cell n -> n <> root -> get_leaf_p m n = NULL ->
  (exists c, is_linked m c /\ get_key m c = get_key m n) ->
  exists m' old,
    (fun fuel => eb32_insert fuel m root n) ⇓ (m', old) /\
    is_linked m old /\ get_key m old = get_key m n /\ old <> n /\
    get_leaf_p m' n = NULL /\
    untouched m m' n /\
    run root m' h.
Proof.
  intros R Hu Hn Hnr Hl (c & Hc & Ek).
  destruct (run_state root m h R) as (st & I & _ & L).
  pose proof (proj2 (L c) Hc) as Hin.
  destruct st as [t|]; [|destruct Hin]. simpl in Hin.
  pose proof (inv_tree _ _ _ I) as S. simpl in S.
  pose proof (ins_found (get_key m) n t c (inv_keys _ _ _ I)
                (sh_radix _ _ _ S) (sh_over _ _ _ S) (sh_uniq _ _ _ S Hu)
                Hin Ek) as Hins.
  assert (Htop : ins_top (get_key m) (unique_mode m root) n (Some t) =
                 Some (Some t, c)) by (simpl; now rewrite Hu, Hins).
  destruct (eb32_insert_inv m root (Some t) n (Some t) c I Hn Hnr Hl Htop)
    as (m' & T & I' & K & Hun).
  assert (Hcn : c <> n) by (intros ->; contradiction).
  specialize (Hun Hcn).
  exists m', c. split; auto. split; auto. split; auto. split; auto.
  split; [|split; auto].
  - destruct (Hun n) as (E & _). now rewrite E.
  - pose proof (run_insert root m h n m' c R Hn Hnr Hl T) as R'.
    destruct (Z.eqb_spec c n); [contradiction|exact R'].
Qed.

(** A tree of unique keys with one cell of key 8, and another cell of
    key 8. *)
Definition uq_empty : mem :=
  fun a => if a =? ex_root
           then mk_node (fun i => if i =? EB_RGHT then EB_UNIQUE else 0) 0 0 0 0
           else mk_node (fun _ => 0) 0 0 0 0.
Definition uq1 : mem := ex_insert uq_empty 16 8.
Definition uq2 : mem := put_key uq1 32 8.

Lemma uq2_run : @run shr_zero ex_root uq2 [16].
Proof.
  apply run_write with uq1.
  - apply (@run_insert_new shr_zero ex_root uq_empty [] 16 8);
      [|ex_cell|discriminate|reflexivity|unfold UINT32_MOD; lia|ex_returns].
    apply run_init. split; [ex_cell|]. split; [reflexivity|].
    split; [right; reflexivity|]. split.
    + intros c. unfold get_leaf_p, uq_empty. now destruct (c =? ex_root).
    + intros c. unfold get_key, uq_empty.
      destruct (c =? ex_root); change (0 <= 0 < 2 ^ 32); lia.
  - apply caller_put_key; [discriminate|reflexivity|unfold UINT32_MOD; lia].
Qed.

Lemma unique_insert_existing_key_witness :
  exists m' old,
    (fun fuel => @eb32_insert shr_zero fuel uq2 ex_root 32) ⇓ (m', old) /\
    is_linked uq2 old /\ get_key uq2 old = get_key uq2 32 /\ old <> 32 /\
    get_leaf_p m' 32 = NULL /\
    untouched uq2 m' 32 /\
    @run shr_zero ex_root m' [16].
Proof.
  apply (@unique_insert_existing_key shr_zero ex_root uq2 [16] 32 uq2_run).
  - reflexivity.
  - split; [reflexivity|discriminate].
  - discriminate.
  - reflexivity.
  - exists 16. split; [discriminate|reflexivity].
Defined.

Example uq2_insert :
  option_map snd (@eb32_insert shr_zero 8 uq2 ex_root 32) = Some 16.
Proof. reflexivity. Qed.

(** C7. Deleting a cell that is not linked: [eb_delete] of a cell whose
    [leaf_p] is null leaves the store as it is, its own fields and every
    tree. *)
Theorem eb_delete_not_linked m c :
  get_leaf_p m c = NULL -> eb_delete m c = m.
Proof. apply eb_delete_unlinked. Qed.

Lemma eb_delete_not_linked_witness :
  get_leaf_p ex3 64 = NULL /\ eb_delete ex3 64 = ex3.
Proof.
  split; [reflexivity|]. apply (eb_delete_not_linked ex3 64). reflexivity.
Defined.

(** ** Insert all, delete all *)

(** The caller sets the key of each cell of [cs] and inserts it, then
    deletes the cells of [ds]. *)
Fixpoint insert_all {U : UndefShift} (fuel : nat) (m : mem) (root : Z)
    (cs : list (Z * Z)) : option mem :=
  match cs with
  | [] => Some m
  | (c, k) :: rest =>
      r <- eb32_insert fuel (put_key m c k) root c ;;
      insert_all fuel (fst r) root rest
  end.

Definition delete_all (m : mem) (ds : list Z) : mem :=
  fold_left eb_delete ds m.

Definition remove_all (h ds : list Z) : list Z :=
  fold_left (fun h c => remove Z.eq_dec c h) ds h.

Lemma remove_all_In x ds : forall h,
  In x (remove_all h ds) <-> In x h /\ ~ In x ds.
Proof.
  induction ds as [|d ds IH]; intros h; simpl; [tauto|].
  unfold remove_all in *. simpl. rewrite IH, in_remove_iff.
  split; [intros ((H1 & H2) & H3)|intros (H1 & H2)]; intuition congruence.
Qed.

Lemma delete_all_run {U : UndefShift} root ds : forall m h,
  run root m h -> run root (delete_all m ds) (remove_all h ds).
Proof.
  induction ds as [|d ds IH]; intros m h R; simpl; auto.
  apply IH. now apply run_delete.
Qed.

Lemma unlinked_null m c : ~ is_linked m c -> get_leaf_p m c = NULL.
Proof.
  unfold is_linked. intros H.
  destruct (Z.eq_dec (get_leaf_p m c) NULL); tauto.
Qed.

Lemma insert_all_run {U : UndefShift} root : forall cs m h,
  run root m h ->
  NoDup (map fst cs) -> NoDup (map snd cs) ->
  (forall c k, In (c, k) cs -> cell c /\ c <> root /\ 0 <= k < UINT32_MOD) ->
  (forall c, In c (map fst cs) -> ~ In c h) ->
  (forall y k, In y h -> In k (map snd cs) -> get_key m y <> k) ->
  exists m1,
    (fun fuel => insert_all fuel m root cs) ⇓ m1 /\
    run root m1 (h ++ map fst cs).
Proof.
  induction cs as [|[c k] rest IH]; intros m h R Nc Nk Hcs Hfresh Hkeys.
  - exists m. simpl. rewrite app_nil_r. split; auto. apply terminates_const.
  - simpl in Nc, Nk. apply NoDup_cons_iff in Nc, Nk.
    destruct Nc as [Nc1 Nc2]. destruct Nk as [Nk1 Nk2].
    destruct (Hcs c k (or_introl eq_refl)) as (Hc & Hcr & Hk).
    destruct (run_state root m h R) as (st & I & G & L).
    assert (Hch : ~ In c h) by (apply Hfresh; simpl; auto).
    assert (Hl : get_leaf_p m c = NULL).
    { apply unlinked_null. intros H. apply L in H.
      apply (gh_linked _ _ _ G) in H. contradiction. }
    set (mk := put_key m c k).
    assert (Rk : run root mk h).
    { apply run_write with m; auto. now apply caller_put_key. }
    assert (Hlk : get_leaf_p mk c = NULL) by (unfold mk; now msimpl).
    assert (Ekc : get_key mk c = k) by (unfold mk; now msimpl).
    assert (Eky : forall y, y <> c -> get_key mk y = get_key m y).
    { intros y Hy. unfold mk. msimpl.
      destruct (Z.eqb_spec y c); [contradiction|reflexivity]. }
    destruct (run_state root mk h Rk) as (stk & Ik & Gk & Lk).
    assert (Hnew : forall y, In y (cells_of stk) -> get_key mk y <> get_key mk c).
    { intros y Hy. apply (gh_linked _ _ _ Gk) in Hy. rewrite Ekc.
      rewrite Eky by congruence. apply Hkeys; simpl; auto. }
    assert (Htop : exists st',
      ins_top (get_key mk) (unique_mode mk root) c stk = Some (st', c)).
    { destruct stk as [t|]; simpl; [|eauto].
      pose proof (inv_tree _ _ _ Ik) as S. simpl in S.
      destruct (ins_new (get_key mk) (unique_mode mk root) c t
                  (sh_over _ _ _ S) Hnew) as [t' ->]. eauto. }
    destruct Htop as [st' Htop].
    destruct (eb32_insert_inv mk root stk c st' c Ik Hc Hcr Hlk Htop)
      as (m' & T & I' & [Kk _] & _).
    pose proof (run_insert root mk h c m' c Rk Hc Hcr Hlk T) as R'.
    rewrite Z.eqb_refl in R'.
    destruct (IH m' (h ++ [c]) R' Nc2 Nk2) as (m1 & T1 & R1).
    + intros c' k' Hin. apply Hcs. now right.
    + intros c' Hc' Hin. apply in_app_or in Hin.
      destruct Hin as [Hin|[<-|[]]]; [|contradiction].
      revert Hin. apply Hfresh. now right.
    + intros y k' Hy Hk'. rewrite Kk. apply in_app_or in Hy.
      destruct Hy as [Hy|[<-|[]]].
      * rewrite Eky by congruence. apply Hkeys; simpl; auto.
      * rewrite Ekc. congruence.
    + exists m1. split.
      * apply (terminates_bind
                 (fun fuel => eb32_insert fuel mk root c)
                 (fun fuel r => insert_all fuel (fst r) root rest)
                 (m', c)); auto.
      * simpl map. now rewrite <- app_assoc in R1.
Qed.

(** C6. Round trip: cells with distinct keys, inserted in any order into an
    empty tree, are all linked; once all are deleted, in any order, the
    tree is empty: [eb_first] and [eb_last] return null. *)
Theorem insert_all_delete_all {U : UndefShift} root m0 cs ds :
  initial m0 root ->
  NoDup (map fst cs) -> NoDup (map snd cs) ->
  (forall c k, In (c, k) cs -> cell c /\ c <> root /\ 0 <= k < UINT32_MOD) ->
  Permutation ds (map fst cs) ->
  exists m1,
    (fun fuel => insert_all fuel m0 root cs) ⇓ m1 /\
    (forall c, is_linked m1 c <-> In c (map fst cs)) /\
    (fun fuel => eb_first fuel (delete_all m1 ds) root) ⇓ NULL /\
    (fun fuel => eb_last fuel (delete_all m1 ds) root) ⇓ NULL.
Proof.
  intros Hi Nc Nk Hcs P.
  destruct (insert_all_run root cs m0 [] (run_init root m0 Hi) Nc Nk Hcs)
    as (m1 & T & R); [intros ? ? []|intros ? ? []|].
  simpl in R. exists m1. split; auto. split.
  - destruct (run_state root m1 _ R) as (st & I & G & L).
    intros c. rewrite <- L. symmetry. apply (gh_linked _ _ _ G).
  - pose proof (delete_all_run root ds m1 _ R) as R2.
    destruct (run_state root _ _ R2) as (st & I & G & L).
    assert (E : cells_of st = []).
    { destruct (cells_of st) as [|x l] eqn:E; auto. exfalso.
      assert (Hx : In x (remove_all (map fst cs) ds)).
      { apply (gh_linked _ _ _ G). rewrite E. now left. }
      apply remove_all_In in Hx. destruct Hx as [H1 H2]. apply H2.
      apply (Permutation_in x (Permutation_sym P)). exact H1. }
    pose proof (eb_first_spec _ root st I) as F.
    pose proof (eb_last_spec _ root st I) as La.
    rewrite E in F, La. auto.
Qed.

Lemma insert_all_delete_all_witness :
  exists m1,
    (fun fuel => @insert_all shr_zero fuel ex_empty ex_root
                   [(16, 8); (32, 12); (48, 10)]) ⇓ m1 /\
    (forall c, is_linked m1 c <-> In c [16; 32; 48]) /\
    (fun fuel => eb_first fuel (delete_all m1 [32; 48; 16]) ex_root) ⇓ NULL /\
    (fun fuel => eb_last fuel (delete_all m1 [32; 48; 16]) ex_root) ⇓ NULL.
Proof.
  apply (@insert_all_delete_all shr_zero ex_root ex_empty
           [(16, 8); (32, 12); (48, 10)] [32; 48; 16]).
  - exact ex_initial.
  - repeat constructor; simpl; intuition discriminate.
  - repeat constructor; simpl; intuition discriminate.
  - intros c k H. simpl in H. unfold UINT32_MOD.
    destruct H as [H|[H|[H|[]]]]; injection H as <- <-;
      (split; [split; [reflexivity|discriminate]|split; [discriminate|lia]]).
  - apply perm_trans with [32; 16; 48].
    + apply perm_skip. apply perm_swap.
    + apply perm_swap.
Defined.

Example insert_all_delete_all_run :
  option_map (fun m1 => eb_first 8 (delete_all m1 [32; 48; 16]) ex_root)
    (@insert_all shr_zero 8 ex_empty ex_root [(16, 8); (32, 12); (48, 10)])
  = Some (Some NULL).
Proof. reflexivity. Qed.

(** ** The cell without a node part *)

Lemma leaves_one_more t : length (leaves t) = S (length (nodes t)).
Proof.
  induction t as [c|c k l IHl r IHr]; simpl; auto.
  rewrite !length_app, IHl, IHr. lia.
Qed.

(** Of [S n] distinct elements, all but one are among [n] given ones. *)
Lemma one_more (L N : list Z) :
  NoDup L -> NoDup N -> incl N L -> length L = S (length N) ->
  exists c, In c L /\ ~ In c N /\
            forall c', In c' L -> ~ In c' N -> c' = c.
Proof.
  intros HL HN Hi Hlen.
  assert (Hex : exists c, In c L /\ ~ In c N).
  { destruct (filter (fun c => negb (inb c N)) L) as [|c D] eqn:E.
    - exfalso. assert (Hinc : incl L N).
      { intros c Hc. destruct (inb c N) eqn:Ec; [now apply inb_In|].
        assert (Hin : In c (filter (fun c => negb (inb c N)) L)).
        { apply filter_In. split; auto. now rewrite Ec. }
        rewrite E in Hin. destruct Hin. }
      pose proof (NoDup_incl_length HL Hinc). lia.
    - assert (Hin : In c (filter (fun c => negb (inb c N)) L))
        by (rewrite E; now left).
      apply filter_In in Hin. destruct Hin as [Hc Hn]. exists c. split; auto.
      intros H. apply inb_In in H. rewrite H in Hn. discriminate. }
  destruct Hex as (c & Hc & Hn). exists c. split; auto. split; auto.
  intros c' Hc' Hn'. destruct (Z.eq_dec c' c) as [|Hne]; auto. exfalso.
  assert (Hinc : incl N (remove Z.eq_dec c (remove Z.eq_dec c' L))).
  { intros x Hx. apply in_remove_iff. split; [|congruence].
    apply in_remove_iff. split; [auto|congruence]. }
  pose proof (NoDup_incl_length HN Hinc) as H1.
  assert (H2 : In c (remove Z.eq_dec c' L))
    by (apply in_remove_iff; split; auto).
  pose proof (remove_length_lt Z.eq_dec _ _ H2) as H3.
  pose proof (remove_length_lt Z.eq_dec _ _ Hc') as H4. lia.
Qed.

(** C8, as stated: a linked cell has a null [node_p] exactly when it is the
    leaf right below the root, the only cell of the tree. *)
Definition node_p_null_iff_root_leaf : Prop :=
  forall (U : UndefShift) root m h c,
    run root m h -> is_linked m c ->
    (get_node_p m c = NULL <-> get_b m root EB_LEFT = eb_dotag c EB_LEAF).

(** C8, refuted: once a second cell is inserted the first one still has
    a null [node_p], with two cells in the tree; and after insertions of
    the keys 8, 12 and 10 and the deletion of the first cell, the cell with
    the null [node_p] is the one inserted last. *)
Lemma node_p_null_counterexample :
  ~ node_p_null_iff_root_leaf /\
  (@run shr_zero ex_root ex4 [32; 48] /\
   is_linked ex4 48 /\ get_node_p ex4 48 = NULL /\
   get_b ex4 ex_root EB_LEFT <> eb_dotag 48 EB_LEAF).
Proof.
  split.
  - intros H.
    assert (L : is_linked ex2 16)
      by (unfold is_linked; vm_compute; discriminate).
    destruct (H shr_zero ex_root ex2 [16; 32] 16 ex2_run L) as [H1 _].
    assert (E : get_node_p ex2 16 = NULL) by (vm_compute; reflexivity).
    specialize (H1 E). vm_compute in H1. discriminate H1.
  - split; [exact ex4_run|].
    split; [unfold is_linked; vm_compute; discriminate|].
    split; [vm_compute; reflexivity|vm_compute; discriminate].
Qed.

(** C8, amended: the only cell of a tree, right below the root, has a null
    [node_p]; and in every tree that is not empty exactly one linked cell
    has a null [node_p], the one whose node part is not in use. *)
Theorem node_p_null_unique {U : UndefShift} root m h :
  run root m h ->
  (forall c, is_linked m c ->
     get_b m root EB_LEFT = eb_dotag c EB_LEAF -> get_node_p m c = NULL) /\
  ((exists c, is_linked m c) ->
   exists c, is_linked m c /\ get_node_p m c = NULL /\
             forall c', is_linked m c' -> get_node_p m c' = NULL -> c' = c).
Proof.
  intros R. destruct (run_state root m h R) as (st & I & _ & L).
  assert (Hst : (exists c, is_linked m c) ->
                exists t, st = Some t /\ shape m root t).
  { intros (c & Hc). apply L in Hc. destruct st as [t|]; [|destruct Hc].
    exists t. split; auto. apply (inv_tree _ _ _ I). }
  split.
  - intros c Hc Hb. destruct (Hst (ex_intro _ c Hc)) as (t & -> & S).
    apply L in Hc. simpl in Hc.
    apply (sh_nodeless _ _ _ S c Hc).
    rewrite (sh_b _ _ _ S) in Hb. destruct t as [x|x k l r].
    + simpl. tauto.
    + exfalso. pose proof (acells_leaves _ c (sh_cells _ _ _ S) Hc) as [Ac _].
      pose proof (sh_cells _ _ _ S) as Ax. simpl in Ax.
      destruct Ax as ([Ax _] & _).
      unfold ttag, eb_dotag, EB_NODE, EB_LEAF, aligned in *. simpl in Hb.
      Z.div_mod_to_equations. lia.
  - intros Hex. destruct (Hst Hex) as (t & -> & S). simpl in L.
    destruct (one_more (leaves t) (nodes t))
      as (c & Hc & Hn & Huniq).
    + apply (sh_distinct _ _ _ S).
    + apply (sh_distinct _ _ _ S).
    + apply over_nodes_leaves. apply (sh_over _ _ _ S).
    + apply leaves_one_more.
    + exists c. split; [now apply L|]. split.
      * now apply (sh_nodeless _ _ _ S).
      * intros c' Hc' Hnull. apply L in Hc'. apply Huniq; auto.
        intros Hin. revert Hnull.
        apply (node_p_nonnull m t root EB_LEFT (sh_repr _ _ _ S)
                 (sh_cells _ _ _ S) (inv_root _ _ _ I)); auto.
        unfold EB_LEFT. lia.
Qed.

Lemma node_p_null_unique_witness :
  @run shr_zero ex_root ex4 [32; 48] /\
  (forall c, is_linked ex4 c ->
     get_b ex4 ex_root EB_LEFT = eb_dotag c EB_LEAF ->
     get_node_p ex4 c = NULL) /\
  ((exists c, is_linked ex4 c) ->
   exists c, is_linked ex4 c /\ get_node_p ex4 c = NULL /\
             forall c', is_linked ex4 c' -> get_node_p ex4 c' = NULL ->
                        c' = c).
Proof.
  split; [exact ex4_run|].
  apply (@node_p_null_unique shr_zero ex_root ex4 [32; 48] ex4_run).
Defined.

(** ** The 128-bit comparisons and the side selection *)

(** C9. The comparisons of [eb128_cmp_264] and [eb128i_cmp_264]: with [a]
    and [b] the 128-bit values of the halves, unsigned for the first and
    signed for the second, both return 1 when [a >= b], so also when
    [a = b], and -1 when [a < b]; they never return 0. *)
Theorem eb128_cmp_264_two_valued alo ahi blo bhi sahi sbhi :
  0 <= alo < UINT64_MOD -> 0 <= blo < UINT64_MOD ->
  0 <= ahi < UINT64_MOD -> 0 <= bhi < UINT64_MOD ->
  - 2 ^ 63 <= sahi < 2 ^ 63 -> - 2 ^ 63 <= sbhi < 2 ^ 63 ->
  (ahi * 2 ^ 64 + alo >= bhi * 2 ^ 64 + blo ->
   eb128_cmp_264 alo ahi blo bhi = 1) /\
  (ahi * 2 ^ 64 + alo < bhi * 2 ^ 64 + blo ->
   eb128_cmp_264 alo ahi blo bhi = -1) /\
  (sahi * 2 ^ 64 + alo >= sbhi * 2 ^ 64 + blo ->
   eb128i_cmp_264 alo sahi blo sbhi = 1) /\
  (sahi * 2 ^ 64 + alo < sbhi * 2 ^ 64 + blo ->
   eb128i_cmp_264 alo sahi blo sbhi = -1) /\
  eb128_cmp_264 alo ahi blo bhi <> 0 /\
  eb128i_cmp_264 alo sahi blo sbhi <> 0.
Proof.
  intros Hal Hbl Hah Hbh Hsa Hsb.
  unfold eb128_cmp_264, eb128i_cmp_264. cbv zeta.
  rewrite !cmp_result, !eb128_compose_264_value, !eb128i_compose_value
    by assumption.
  repeat split.
  - intros H. destruct (Z.geb_spec (ahi * 2 ^ 64 + alo) (bhi * 2 ^ 64 + blo));
      [reflexivity|lia].
  - intros H. destruct (Z.geb_spec (ahi * 2 ^ 64 + alo) (bhi * 2 ^ 64 + blo));
      [lia|reflexivity].
  - intros H. destruct (Z.geb_spec (sahi * 2 ^ 64 + alo) (sbhi * 2 ^ 64 + blo));
      [reflexivity|lia].
  - intros H. destruct (Z.geb_spec (sahi * 2 ^ 64 + alo) (sbhi * 2 ^ 64 + blo));
      [lia|reflexivity].
  - destruct (_ >=? _); discriminate.
  - destruct (_ >=? _); discriminate.
Qed.

Lemma eb128_cmp_264_two_valued_witness :
  eb128_cmp_264 5 7 5 7 = 1 /\ eb128i_cmp_264 5 (-7) 5 (-7) = 1 /\
  eb128_cmp_264 5 7 6 7 = -1 /\ eb128i_cmp_264 0 (-1) 0 0 = -1.
Proof.
  assert (R64 : forall x, 0 <= x < 8 -> 0 <= x < UINT64_MOD)
    by (unfold UINT64_MOD; lia).
  assert (S64 : forall x, -8 < x < 8 -> - 2 ^ 63 <= x < 2 ^ 63) by lia.
  split; [|split; [|split]].
  - apply (eb128_cmp_264_two_valued 5 7 5 7 (-7) (-7)); auto; try lia;
      apply R64; lia.
  - apply (eb128_cmp_264_two_valued 5 7 5 7 (-7) (-7)); auto; try lia;
      apply R64; lia.
  - apply (eb128_cmp_264_two_valued 5 7 6 7 (-1) 0); auto; try lia;
      apply R64; lia.
  - apply (eb128_cmp_264_two_valued 0 7 0 7 (-1) 0); auto; try lia;
      apply R64; lia.
Defined.

(** C10. The side selection of [eb128_insert] and [eb128i_insert] with a
    [long] of 64 bits: below a node of bit [k] in [64, 127] it shifts a
    64-bit operand by [k], twice, so by an amount that is not less than its
    width, and the side it selects has no defined value; below a node of
    bit [k] in [0, 63] every amount is in range and the side is bit [k] of
    the key. *)
Theorem eb128_insert_side_shift_amounts newkey k :
  0 <= newkey < UINT128_MOD ->
  (64 <= k <= 127 ->
   eb128_insert_side_shifts k = [(64, k); (128, 64); (64, k)] /\
   eb128_insert_side newkey k = None) /\
  (0 <= k <= 63 ->
   eb128_insert_side_shifts k = [(64, k)] /\
   eb128_insert_side newkey k = Some (Z.b2z (Z.testbit newkey k))).
Proof.
  intros Hkey. split; intros Hk.
  - unfold eb128_insert_side_shifts, eb128_insert_side.
    destruct (Z.geb_spec k 0x40) as [_|H]; [|change 0x40 with 64 in H; lia].
    split.
    + do 2 f_equal. change 0x3FF with (Z.ones 10).
      rewrite Z.land_ones by lia. rewrite Z.mod_small; [reflexivity|].
      change (2 ^ 10) with 1024. lia.
    + now rewrite shr_checked_none by lia.
  - unfold eb128_insert_side_shifts, eb128_insert_side.
    destruct (Z.geb_spec k 0x40) as [H|_]; [change 0x40 with 64 in H; lia|].
    split; [reflexivity|].
    rewrite shr_checked_some by lia. simpl obind.
    rewrite side_bit by lia. do 2 f_equal.
    unfold to_uint64, UINT64_MOD. apply Z.mod_pow2_bits_low. lia.
Qed.

Lemma eb128_insert_side_shift_amounts_witness :
  eb128_insert_side_shifts 64 = [(64, 64); (128, 64); (64, 64)] /\
  eb128_insert_side (2 ^ 64) 64 = None.
Proof.
  apply (eb128_insert_side_shift_amounts (2 ^ 64) 64).
  - unfold UINT128_MOD. lia.
  - lia.
Defined.

(** * More on the functions of ebtree.c and eb32tree.c *)

(** ** Lists in key order *)

Lemma sorted_hd_le (kf : Z -> Z) L d :
  StronglySorted (key_le kf) L -> forall c, In c L -> kf (hd d L) <= kf c.
Proof.
  intros S c Hc. destruct L as [|a L]; [destruct Hc|]. simpl.
  inversion S as [|? ? _ F]; subst. destruct Hc as [<-|Hc]; [lia|].
  rewrite Forall_forall in F. now apply F.
Qed.

Lemma sorted_last_ge (kf : Z -> Z) L d :
  StronglySorted (key_le kf) L -> forall c, In c L -> kf c <= kf (last L d).
Proof.
  induction 1 as [|a L S IH F]; intros c Hc; [destruct Hc|].
  rewrite Forall_forall in F. destruct L as [|b L].
  - destruct Hc as [<-|[]]. simpl. lia.
  - change (last (a :: b :: L) d) with (last (b :: L) d).
    destruct Hc as [<-|Hc]; [|now apply IH].
    transitivity (kf b); [apply F; now left|apply IH; now left].
Qed.

Lemma sorted_split (kf : Z -> Z) l1 c l2 :
  StronglySorted (key_le kf) (l1 ++ c :: l2) ->
  (forall y, In y l1 -> kf y <= kf c) /\ (forall y, In y l2 -> kf c <= kf y).
Proof.
  induction l1 as [|a l1 IH]; simpl; intros S.
  - inversion S as [|? ? _ F]; subst. rewrite Forall_forall in F.
    split; [intros y []|exact F].
  - inversion S as [|? ? S' F]; subst. rewrite Forall_forall in F.
    destruct (IH S') as [H1 H2]. split; auto.
    intros y [<-|Hy]; auto. apply F. apply in_or_app. right. now left.
Qed.

Lemma hd_In {A : Type} (d : A) L : L <> [] -> In (hd d L) L.
Proof. destruct L; [congruence|]. intros _. now left. Qed.

Lemma last_In {A : Type} (d : A) L : L <> [] -> In (last L d) L.
Proof.
  intros H. destruct (exists_last H) as (l & a & ->).
  rewrite last_last. apply in_or_app. right. now left.
Qed.

(** ** The state behind a store that is reached *)

Lemma eb_next_top {U : UndefShift} m root st l1 c l2 :
  inv m root st -> cells_of st = l1 ++ c :: l2 ->
  (fun fuel => eb_next fuel m c) ⇓ hd NULL l2.
Proof.
  intros I E. pose proof (inv_tree _ _ _ I) as S.
  destruct st as [t|]; simpl in *; [|destruct l1; discriminate].
  apply (eb_next_spec m t root EB_LEFT NULL (sh_repr _ _ _ S)
           (sh_cells _ _ _ S)
           (next_from_root m root (inv_root _ _ _ I) (inv_right _ _ _ I))
           l1 c l2 E).
Qed.

Lemma eb_prev_top {U : UndefShift} m root st l1 c l2 :
  inv m root st -> cells_of st = l1 ++ c :: l2 ->
  (fun fuel => eb_prev fuel m c) ⇓ last l1 NULL.
Proof.
  intros I E. pose proof (inv_tree _ _ _ I) as S.
  destruct st as [t|]; simpl in *; [|destruct l1; discriminate].
  apply (eb_prev_spec m t root EB_LEFT NULL (sh_repr _ _ _ S)
           (sh_cells _ _ _ S)
           (prev_from_root m root (inv_root _ _ _ I) (inv_right _ _ _ I))
           l1 c l2 E).
Qed.

Lemma cells_cell {U : UndefShift} m root st c : inv m root st -> In c (cells_of st) -> cell c.
Proof.
  intros I Hc. pose proof (inv_tree _ _ _ I) as S.
  destruct st as [t|]; [|destruct Hc].
  apply (acells_leaves t c (sh_cells _ _ _ S) Hc).
Qed.

(** X1. [eb_is_empty] tells that no cell is linked. *)
Theorem eb_is_empty_iff {U : UndefShift} root m h :
  run root m h ->
  (eb_is_empty m root = true <-> forall c, ~ is_linked m c) /\
  (eb_is_empty m root = true <-> h = []).
Proof.
  intros R. destruct (run_state root m h R) as (st & I & G & L).
  pose proof (inv_tree _ _ _ I) as S. unfold eb_is_empty.
  assert (E : (get_b m root EB_LEFT =? NULL) = true <-> cells_of st = []).
  { destruct st as [t|]; simpl in *.
    - rewrite (sh_b _ _ _ S). split.
      + intros H. apply Z.eqb_eq in H. exfalso. revert H.
        apply ttag_nonnull, (sh_cells _ _ _ S).
      + intros H. destruct (leaves_first t) as [l El]. congruence.
    - rewrite S. split; auto. }
  split; rewrite E.
  - split.
    + intros H c Hc. apply L in Hc. rewrite H in Hc. exact Hc.
    + intros H. destruct (cells_of st) as [|x l] eqn:Ex; auto.
      exfalso. apply (H x). apply L. now left.
  - split.
    + intros H. destruct h as [|x h]; auto. exfalso.
      assert (Hx : In x (cells_of st)) by (apply (gh_linked _ _ _ G); now left).
      rewrite H in Hx. exact Hx.
    + intros ->. destruct (cells_of st) as [|x l] eqn:Ex; auto.
      exfalso. apply (proj2 (gh_linked _ _ _ G x)). rewrite Ex. now left.
Qed.

(** X2. [eb_first] returns a linked cell with the smallest key and
    [eb_last] one with the largest key; both return null when the tree is
    empty, and only then. *)
Theorem eb_first_last_extreme {U : UndefShift} root m h :
  run root m h ->
  exists f l,
    (fun fuel => eb_first fuel m root) ⇓ f /\
    (fun fuel => eb_last fuel m root) ⇓ l /\
    ((forall c, ~ is_linked m c) -> f = NULL /\ l = NULL) /\
    ((exists c, is_linked m c) ->
     is_linked m f /\ is_linked m l /\
     forall c, is_linked m c -> get_key m f <= get_key m c <= get_key m l).
Proof.
  intros R. destruct (run_state root m h R) as (st & I & G & L).
  exists (hd NULL (cells_of st)), (last (cells_of st) NULL).
  split; [now apply eb_first_spec|]. split; [now apply eb_last_spec|].
  pose proof (cells_sorted m root st I) as S. split.
  - intros H. destruct (cells_of st) as [|x l] eqn:Ex; auto.
    exfalso. apply (H x). apply L. now left.
  - intros (c & Hc). apply L in Hc.
    assert (Hne : cells_of st <> []) by (intros E; rewrite E in Hc; exact Hc).
    split; [apply L; now apply hd_In|].
    split; [apply L; now apply last_In|].
    intros c' Hc'. apply L in Hc'. split.
    + now apply sorted_hd_le.
    + now apply sorted_last_ge.
Qed.

Lemma eb_first_last_extreme_witness :
  @run shr_zero ex_root ex3 [16; 32; 48] /\
  exists f l,
    (fun fuel => eb_first fuel ex3 ex_root) ⇓ f /\
    (fun fuel => eb_last fuel ex3 ex_root) ⇓ l /\
    ((forall c, ~ is_linked ex3 c) -> f = NULL /\ l = NULL) /\
    ((exists c, is_linked ex3 c) ->
     is_linked ex3 f /\ is_linked ex3 l /\
     forall c, is_linked ex3 c ->
               get_key ex3 f <= get_key ex3 c <= get_key ex3 l).
Proof.
  split; [exact ex3_run|].
  apply (@eb_first_last_extreme shr_zero ex_root ex3 [16; 32; 48] ex3_run).
Defined.

Lemma eb_is_empty_iff_witness :
  @run shr_zero ex_root ex3 [16; 32; 48] /\
  (eb_is_empty ex3 ex_root = true <-> forall c, ~ is_linked ex3 c) /\
  (eb_is_empty ex3 ex_root = true <-> [16; 32; 48] = []).
Proof.
  split; [exact ex3_run|].
  apply (@eb_is_empty_iff shr_zero ex_root ex3 [16; 32; 48] ex3_run).
Defined.

(** X3. [eb_next] of a linked cell returns the cell that the walk from
    [eb_first] visits right after it, null after the last one; [eb_prev]
    returns the cell visited right before it, null before the first one. *)
Theorem eb_next_prev_neighbours {U : UndefShift} root m h c :
  run root m h -> is_linked m c ->
  exists l1 l2,
    (fun fuel => eb_forward fuel m root) ⇓ (l1 ++ c :: l2) /\
    (fun fuel => eb_next fuel m c) ⇓ hd NULL l2 /\
    (fun fuel => eb_prev fuel m c) ⇓ last l1 NULL.
Proof.
  intros R Hc. destruct (run_state root m h R) as (st & I & G & L).
  apply L in Hc. destruct (in_split _ _ Hc) as (l1 & l2 & E).
  exists l1, l2. rewrite <- E. split; [now apply eb_forward_spec|].
  split; [eapply eb_next_top; eauto|eapply eb_prev_top; eauto].
Qed.

Lemma eb_next_prev_neighbours_witness :
  exists l1 l2,
    (fun fuel => eb_forward fuel ex3 ex_root) ⇓ (l1 ++ 48 :: l2) /\
    (fun fuel => eb_next fuel ex3 48) ⇓ hd NULL l2 /\
    (fun fuel => eb_prev fuel ex3 48) ⇓ last l1 NULL.
Proof.
  apply (@eb_next_prev_neighbours shr_zero ex_root ex3 [16; 32; 48] 48 ex3_run).
  discriminate.
Defined.

(** X4. [eb_next] and [eb_prev] undo each other: when [eb_next] of a linked
    cell returns a cell, that cell is linked, its key is not smaller, and
    [eb_prev] of it returns the first cell; and the same with the two
    functions exchanged. *)
Theorem eb_next_prev_inverse {U : UndefShift} root m h c :
  run root m h -> is_linked m c ->
  exists nx pv,
    (fun fuel => eb_next fuel m c) ⇓ nx /\
    (fun fuel => eb_prev fuel m c) ⇓ pv /\
    (nx <> NULL ->
     is_linked m nx /\ get_key m c <= get_key m nx /\
     (fun fuel => eb_prev fuel m nx) ⇓ c) /\
    (pv <> NULL ->
     is_linked m pv /\ get_key m pv <= get_key m c /\
     (fun fuel => eb_next fuel m pv) ⇓ c).
Proof.
  intros R Hc. destruct (run_state root m h R) as (st & I & G & L).
  apply L in Hc. destruct (in_split _ _ Hc) as (l1 & l2 & E).
  pose proof (cells_sorted m root st I) as S. rewrite E in S.
  destruct (sorted_split _ _ _ _ S) as [S1 S2].
  exists (hd NULL l2), (last l1 NULL).
  split; [eapply eb_next_top; eauto|].
  split; [eapply eb_prev_top; eauto|]. split.
  - intros Hn. destruct l2 as [|x l2]; [now elim Hn|]. simpl in *.
    split; [apply L; rewrite E; apply in_or_app; right; right; now left|].
    split; [apply S2; now left|].
    assert (E' : cells_of st = (l1 ++ [c]) ++ x :: l2)
      by (now rewrite <- app_assoc).
    pose proof (eb_prev_top m root st _ _ _ I E') as P.
    now rewrite last_last in P.
  - intros Hp. destruct (exists_last (l := l1)) as (l1' & x & ->).
    { intros ->. now elim Hp. }
    rewrite last_last in *.
    split; [apply L; rewrite E; apply in_or_app; left; apply in_or_app;
            right; now left|].
    split; [apply S1; apply in_or_app; right; now left|].
    assert (E' : cells_of st = l1' ++ x :: c :: l2)
      by (now rewrite E, <- app_assoc).
    apply (eb_next_top m root st _ _ _ I E').
Qed.

Lemma eb_next_prev_inverse_witness :
  exists nx pv,
    (fun fuel => eb_next fuel ex3 48) ⇓ nx /\
    (fun fuel => eb_prev fuel ex3 48) ⇓ pv /\
    (nx <> NULL ->
     is_linked ex3 nx /\ get_key ex3 48 <= get_key ex3 nx /\
     (fun fuel => eb_prev fuel ex3 nx) ⇓ 48) /\
    (pv <> NULL ->
     is_linked ex3 pv /\ get_key ex3 pv <= get_key ex3 48 /\
     (fun fuel => eb_next fuel ex3 pv) ⇓ 48).
Proof.
  apply (@eb_next_prev_inverse shr_zero ex_root ex3 [16; 32; 48] 48 ex3_run).
  discriminate.
Defined.


(** ** What an insertion and a deletion change *)

Lemma ins_top_cells {U : UndefShift} m root st n st' ret :
  inv m root st -> ~ In n (cells_of st) ->
  ins_top (get_key m) (unique_mode m root) n st = Some (st', ret) ->
  (ret = n /\
   exists l1 l2, cells_of st = l1 ++ l2 /\ cells_of st' = l1 ++ n :: l2 /\
                 forall y, In y l2 -> get_key m y <> get_key m n) \/
  (unique_mode m root = true /\ st' = st /\ In ret (cells_of st) /\
   get_key m ret = get_key m n).
Proof.
  intros I Hn Hins. destruct st as [t|]; simpl in Hins.
  - destruct (ins (get_key m) (unique_mode m root) n t) as [[t' r']|] eqn:Ei;
      [|discriminate].
    injection Hins as <- <-.
    pose proof (inv_tree _ _ _ I) as S. simpl in S, Hn.
    pose proof (ins_landed (get_key m) (unique_mode m root)
                  (inv_keys _ _ _ I) n t t' r' (sh_radix _ _ _ S)
                  (sh_over _ _ _ S) Ei) as La.
    pose proof (ins_inserted (get_key m) (unique_mode m root) n t t' r' Ei)
      as In'.
    destruct La as [(-> & l1 & l2 & E1 & E2 & P)|(-> & Hin)].
    + left. split; auto. exists l1, l2. auto.
    + right. destruct In' as [(-> & _)|(Hu & _ & Hk & _)];
        [contradiction|]. auto.
  - injection Hins as <- <-. left. split; auto. exists [], []. simpl.
    repeat split; auto; intros y [].
Qed.

(** X5. An insertion that links. When the tree takes equal keys, or when
    no linked cell has the key of the new cell, a call of [eb32_insert]
    that returns, returns the new cell and links it: the walk from
    [eb_first] then visits it after the cells whose key is not above its
    key and before all those of a greater key, the other cells being
    visited as before.  No key is written, nor the right branch of the
    root. *)
Theorem eb32_insert_links {U : UndefShift} root m h n m' ret :
  run root m h -> cell n -> n <> root -> get_leaf_p m n = NULL ->
  (fun fuel => eb32_insert fuel m root n) ⇓ (m', ret) ->
  (unique_mode m root = false \/
   forall c, is_linked m c -> get_key m c <> get_key m n) ->
  ret = n /\
  (forall c, get_key m' c = get_key m c) /\
  get_b m' root EB_RGHT = get_b m root EB_RGHT /\
  (forall c, is_linked m' c <-> is_linked m c \/ c = n) /\
  exists l1 l2,
    (fun fuel => eb_forward fuel m root) ⇓ (l1 ++ l2) /\
    (fun fuel => eb_forward fuel m' root) ⇓ (l1 ++ n :: l2) /\
    (forall y, In y l1 -> get_key m y <= get_key m n) /\
    (forall y, In y l2 -> get_key m n < get_key m y).
Proof.
  intros R Hn Hnr Hl T Hmode.
  destruct (run_state root m h R) as (st & I & G & L).
  destruct (eb32_insert_returns m root st n m' ret I Hn Hnr Hl T)
    as (st' & Hins & I' & [Kk Kr] & _).
  assert (Hnl : ~ In n (cells_of st)) by (intros H; apply L in H; auto).
  destruct (ins_top_cells m root st n st' ret I Hnl Hins)
    as [(-> & l1 & l2 & E1 & E2 & P)|(Hu & _ & Hin & Hk)].
  - split; auto. split; auto. split; auto.
    assert (L' : forall c, In c (cells_of st') <-> is_linked m' c)
      by apply (cells_linked m' root st' I').
    split.
    + intros c. rewrite <- L', <- L, E1, E2, !in_app_iff. simpl.
      intuition.
    + exists l1, l2. rewrite <- E1, <- E2.
      split; [now apply eb_forward_spec|].
      split; [now apply eb_forward_spec|].
      pose proof (cells_sorted m' root st' I') as S. rewrite E2 in S.
      destruct (sorted_split _ _ _ _ S) as [S1 S2]. split.
      * intros y Hy. specialize (S1 y Hy). now rewrite !Kk in S1.
      * intros y Hy. specialize (S2 y Hy). rewrite !Kk in S2.
        specialize (P y Hy). lia.
  - exfalso. destruct Hmode as [Hm|Hm]; [congruence|].
    apply (Hm ret); auto. now apply L.
Qed.

Lemma eb32_insert_links_witness :
  48 = 48 /\
  (forall c, get_key ex3 c = get_key (put_key ex2 48 10) c) /\
  get_b ex3 ex_root EB_RGHT = get_b (put_key ex2 48 10) ex_root EB_RGHT /\
  (forall c, is_linked ex3 c <-> is_linked (put_key ex2 48 10) c \/ c = 48) /\
  exists l1 l2,
    (fun fuel => eb_forward fuel (put_key ex2 48 10) ex_root) ⇓ (l1 ++ l2) /\
    (fun fuel => eb_forward fuel ex3 ex_root) ⇓ (l1 ++ 48 :: l2) /\
    (forall y, In y l1 ->
       get_key (put_key ex2 48 10) y <= get_key (put_key ex2 48 10) 48) /\
    (forall y, In y l2 ->
       get_key (put_key ex2 48 10) 48 < get_key (put_key ex2 48 10) y).
Proof.
  apply (@eb32_insert_links shr_zero ex_root (put_key ex2 48 10) [16; 32] 48
           ex3 48).
  - apply run_write with ex2; [exact ex2_run|].
    apply caller_put_key; [discriminate|reflexivity|unfold UINT32_MOD; lia].
  - split; [reflexivity|discriminate].
  - discriminate.
  - reflexivity.
  - ex_returns.
  - left. reflexivity.
Defined.

(** X6. A deletion. [eb_delete] of a linked cell unlinks it, its [leaf_p]
    set to null, and nothing else: the other cells are linked as before
    and the walk from [eb_first] visits them in the same order.  No key is
    written, nor the right branch of the root, and the store is one that
    is reached. *)
Theorem eb_delete_unlinks {U : UndefShift} root m h c :
  run root m h -> is_linked m c ->
  get_leaf_p (eb_delete m c) c = NULL /\
  (forall x, get_key (eb_delete m c) x = get_key m x) /\
  get_b (eb_delete m c) root EB_RGHT = get_b m root EB_RGHT /\
  (forall x, is_linked (eb_delete m c) x <-> is_linked m x /\ x <> c) /\
  (exists l1 l2,
     (fun fuel => eb_forward fuel m root) ⇓ (l1 ++ c :: l2) /\
     (fun fuel => eb_forward fuel (eb_delete m c) root) ⇓ (l1 ++ l2)) /\
  run root (eb_delete m c) (remove Z.eq_dec c h).
Proof.
  intros R Hc. destruct (run_state root m h R) as (st & I & G & L).
  destruct (eb_delete_inv m root st c I) as (I' & [Kk Kr]).
  assert (L' : forall x, In x (cells_of (del_top c st)) <->
                         is_linked (eb_delete m c) x)
    by apply (cells_linked _ root _ I').
  pose proof (del_top_cells c st (inv_cells_NoDup _ _ _ I)) as E'.
  assert (Hl : forall x, is_linked (eb_delete m c) x <-> is_linked m x /\ x <> c).
  { intros x. rewrite <- L', <- L, E'. apply in_remove_iff. }
  split.
  - apply unlinked_null. intros H. apply Hl in H. tauto.
  - split; auto. split; auto. split; auto. split; [|now apply run_delete].
    apply L in Hc. destruct (in_split _ _ Hc) as (l1 & l2 & E).
    exists l1, l2. rewrite <- E. split; [now apply eb_forward_spec|].
    pose proof (inv_cells_NoDup _ _ _ I) as Nd. rewrite E in Nd.
    apply NoDup_insert in Nd. destruct Nd as [_ Nd].
    rewrite E, remove_middle in E'
      by (intros H; apply Nd, in_or_app; auto).
    rewrite <- E'. now apply eb_forward_spec.
Qed.

Lemma eb_delete_unlinks_witness :
  get_leaf_p (eb_delete ex3 16) 16 = NULL /\
  (forall x, get_key (eb_delete ex3 16) x = get_key ex3 x) /\
  get_b (eb_delete ex3 16) ex_root EB_RGHT = get_b ex3 ex_root EB_RGHT /\
  (forall x, is_linked (eb_delete ex3 16) x <-> is_linked ex3 x /\ x <> 16) /\
  (exists l1 l2,
     (fun fuel => eb_forward fuel ex3 ex_root) ⇓ (l1 ++ 16 :: l2) /\
     (fun fuel => eb_forward fuel (eb_delete ex3 16) ex_root) ⇓ (l1 ++ l2)) /\
  @run shr_zero ex_root (eb_delete ex3 16) (remove Z.eq_dec 16 [16; 32; 48]).
Proof.
  apply (@eb_delete_unlinks shr_zero ex_root ex3 [16; 32; 48] 16 ex3_run).
  discriminate.
Defined.

(** X7. Insertion undone. Deleting the cell that [eb32_insert] has just
    linked gives back the walk there was before the insertion. *)
Theorem eb32_insert_delete_restores {U : UndefShift} root m h n m' :
  run root m h -> cell n -> n <> root -> get_leaf_p m n = NULL ->
  (fun fuel => eb32_insert fuel m root n) ⇓ (m', n) ->
  exists L,
    (fun fuel => eb_forward fuel m root) ⇓ L /\
    (fun fuel => eb_forward fuel (eb_delete m' n) root) ⇓ L /\
    forall c, is_linked (eb_delete m' n) c <-> is_linked m c.
Proof.
  intros R Hn Hnr Hl T.
  destruct (run_state root m h R) as (st & I & G & L).
  destruct (eb32_insert_returns m root st n m' n I Hn Hnr Hl T)
    as (st' & Hins & I' & _ & _).
  assert (Hnl : ~ In n (cells_of st)) by (intros H; apply L in H; auto).
  destruct (ins_top_cells m root st n st' n I Hnl Hins)
    as [(_ & l1 & l2 & E1 & E2 & P)|(_ & _ & Hin & _)]; [|contradiction].
  destruct (eb_delete_inv m' root st' n I') as (I'' & _).
  pose proof (del_top_cells n st' (inv_cells_NoDup _ _ _ I')) as E'.
  rewrite E2, remove_middle in E'.
  - exists (cells_of st). split; [now apply eb_forward_spec|]. split.
    + rewrite E1, <- E'. now apply eb_forward_spec.
    + assert (L'' : forall x, In x (cells_of (del_top n st')) <->
                              is_linked (eb_delete m' n) x)
        by apply (cells_linked _ root _ I'').
      intros c. rewrite <- L, <- L'', E', E1. tauto.
  - intros H. apply Hnl. rewrite E1. apply in_or_app. auto.
  - intros H. apply Hnl. rewrite E1. apply in_or_app. auto.
Qed.

Lemma eb32_insert_delete_restores_witness :
  exists L,
    (fun fuel => eb_forward fuel (put_key ex2 48 10) ex_root) ⇓ L /\
    (fun fuel => eb_forward fuel (eb_delete ex3 48) ex_root) ⇓ L /\
    forall c, is_linked (eb_delete ex3 48) c <->
              is_linked (put_key ex2 48 10) c.
Proof.
  apply (@eb32_insert_delete_restores shr_zero ex_root (put_key ex2 48 10)
           [16; 32] 48 ex3).
  - apply run_write with ex2; [exact ex2_run|].
    apply caller_put_key; [discriminate|reflexivity|unfold UINT32_MOD; lia].
  - split; [reflexivity|discriminate].
  - discriminate.
  - reflexivity.
  - ex_returns.
Defined.

(** X8. Unique keys. In a tree that takes no key twice, two linked cells
    never have the same key. *)
Theorem unique_mode_distinct_keys {U : UndefShift} root m h c c' :
  run root m h -> unique_mode m root = true ->
  is_linked m c -> is_linked m c' -> get_key m c = get_key m c' -> c = c'.
Proof.
  intros R Hu Hc Hc' E. destruct (run_state root m h R) as (st & I & G & L).
  apply L in Hc, Hc'. destruct st as [t|]; [|destruct Hc].
  pose proof (inv_tree _ _ _ I) as S. simpl in *.
  pose proof (sh_uniq _ _ _ S Hu) as Nd.
  destruct (in_split _ _ Hc) as (l1 & l2 & El). rewrite El in Nd, Hc'.
  rewrite map_app in Nd. simpl in Nd. apply NoDup_insert in Nd.
  destruct Nd as [_ Nd]. apply in_app_or in Hc'.
  destruct Hc' as [H|[H|H]]; auto; exfalso; apply Nd; rewrite E;
    rewrite <- map_app; apply in_map; apply in_or_app; auto.
Qed.

(** A tree that takes no key twice, with three cells of keys 8, 12
    and 10. *)
Definition uq3 : mem := ex_insert (ex_insert uq1 32 12) 48 10.

Ltac ex_returns_vm :=
  exists 4%nat; intros fuel Hfuel;
  do 4 (destruct fuel as [|fuel]; [exfalso; lia|]);
  vm_compute; reflexivity.

Lemma uq3_run : @run shr_zero ex_root uq3 [16; 32; 48].
Proof.
  apply (@run_insert_new shr_zero ex_root (ex_insert uq1 32 12) [16; 32] 48 10);
    [|ex_cell|discriminate|vm_compute; reflexivity|unfold UINT32_MOD; lia
     |ex_returns_vm].
  apply (@run_insert_new shr_zero ex_root uq1 [16] 32 12);
    [|ex_cell|discriminate|vm_compute; reflexivity|unfold UINT32_MOD; lia
     |ex_returns_vm].
  apply (@run_insert_new shr_zero ex_root uq_empty [] 16 8);
    [|ex_cell|discriminate|reflexivity|unfold UINT32_MOD; lia|ex_returns].
  apply run_init. split; [ex_cell|]. split; [reflexivity|].
  split; [right; reflexivity|]. split.
  - intros c. unfold get_leaf_p, uq_empty. now destruct (c =? ex_root).
  - intros c. unfold get_key, uq_empty.
    destruct (c =? ex_root); change (0 <= 0 < 2 ^ 32); lia.
Qed.

Lemma unique_mode_distinct_keys_witness :
  (unique_mode uq3 ex_root = true /\
   is_linked uq3 16 /\ is_linked uq3 32 /\ is_linked uq3 48) /\
  32 = 32 /\
  get_key uq3 16 <> get_key uq3 32 /\
  get_key uq3 48 <> get_key uq3 32 /\
  get_key uq3 16 <> get_key uq3 48.
Proof.
  assert (L16 : is_linked uq3 16) by (unfold is_linked; vm_compute; discriminate).
  assert (L32 : is_linked uq3 32) by (unfold is_linked; vm_compute; discriminate).
  assert (L48 : is_linked uq3 48) by (unfold is_linked; vm_compute; discriminate).
  assert (Hu : unique_mode uq3 ex_root = true) by (vm_compute; reflexivity).
  split; [split; [exact Hu|split; [exact L16|split; [exact L32|exact L48]]]|].
  split; [|split; [|split]].
  - exact (@unique_mode_distinct_keys shr_zero ex_root uq3 [16; 32; 48] 32 32
             uq3_run Hu L32 L32 eq_refl).
  - intros E.
    pose proof (@unique_mode_distinct_keys shr_zero ex_root uq3 [16; 32; 48]
                  16 32 uq3_run Hu L16 L32 E) as H.
    discriminate H.
  - intros E.
    pose proof (@unique_mode_distinct_keys shr_zero ex_root uq3 [16; 32; 48]
                  48 32 uq3_run Hu L48 L32 E) as H.
    discriminate H.
  - intros E.
    pose proof (@unique_mode_distinct_keys shr_zero ex_root uq3 [16; 32; 48]
                  16 48 uq3_run Hu L16 L48 E) as H.
    discriminate H.
Defined.

(** ** Which of the duplicates the nearest-key lookups return *)

Lemma filter_filter_imp {A : Type} (P Q : A -> bool) L :
  (forall y, In y L -> Q y = true -> P y = true) ->
  filter Q (filter P L) = filter Q L.
Proof.
  induction L as [|a L IH]; simpl; intros H; auto.
  destruct (P a) eqn:Pa; simpl.
  - destruct (Q a); rewrite IH; auto.
  - destruct (Q a) eqn:Qa.
    + rewrite (H a) in Pa; auto. discriminate.
    + apply IH. auto.
Qed.

Lemma last_filter_last {A : Type} (Q : A -> bool) F d :
  F <> [] -> Q (last F d) = true -> last (filter Q F) d = last F d.
Proof.
  intros Hne Hq. destruct (exists_last Hne) as (F' & r & ->).
  rewrite last_last in *. rewrite filter_app. simpl. rewrite Hq.
  apply last_last.
Qed.

Lemma hd_filter_hd {A : Type} (Q : A -> bool) F d :
  F <> [] -> Q (hd d F) = true -> hd d (filter Q F) = hd d F.
Proof.
  destruct F as [|r F]; [congruence|]. simpl. intros _ ->. reflexivity.
Qed.

(** X9. Among duplicates, [eb32_lookup_le] returns the last cell of the
    walk from [eb_first] whose key is at most [x], so the cell inserted
    last among those that have its key; [eb32_lookup_ge] returns the first
    cell of the walk whose key is at least [x], so the cell inserted first
    among those that have its key. *)
Theorem eb32_lookup_le_ge_occurrence {U : UndefShift} root m h x :
  run root m h -> 0 <= x < UINT32_MOD ->
  exists L rl rg,
    (fun fuel => eb_forward fuel m root) ⇓ L /\
    (fun fuel => eb32_lookup_le fuel m root x) ⇓ rl /\
    (fun fuel => eb32_lookup_ge fuel m root x) ⇓ rg /\
    rl = last (filter (fun c => get_key m c <=? x) L) NULL /\
    rg = hd NULL (filter (fun c => get_key m c >=? x) L) /\
    (rl <> NULL ->
     rl = last (filter (fun c => get_key m c =? get_key m rl) h) NULL) /\
    (rg <> NULL ->
     rg = hd NULL (filter (fun c => get_key m c =? get_key m rg) h)).
Proof.
  intros R Hx. destruct (run_state root m h R) as (st & I & G & L).
  exists (cells_of st), (last_le m x (cells_of st)),
         (first_ge m x (cells_of st)).
  split; [now apply eb_forward_spec|].
  split; [now apply eb32_lookup_le_spec|].
  split; [now apply eb32_lookup_ge_spec|].
  split; [reflexivity|]. split; [reflexivity|].
  unfold last_le, first_ge. split.
  - set (F := filter (fun c => get_key m c <=? x) (cells_of st)).
    intros Hn. assert (Hne : F <> []) by (intros E; rewrite E in Hn; auto).
    pose proof (last_In NULL F Hne) as Hin. apply filter_In in Hin.
    destruct Hin as [_ Hle]. apply Z.leb_le in Hle.
    rewrite <- (gh_order _ _ _ G).
    rewrite <- (filter_filter_imp (fun c => get_key m c <=? x)).
    + symmetry. fold F. apply last_filter_last; auto. apply Z.eqb_refl.
    + intros y _ Hy. apply Z.eqb_eq in Hy. apply Z.leb_le. fold F in Hy. lia.
  - set (F := filter (fun c => get_key m c >=? x) (cells_of st)).
    intros Hn. assert (Hne : F <> []) by (intros E; rewrite E in Hn; auto).
    pose proof (hd_In NULL F Hne) as Hin. apply filter_In in Hin.
    destruct Hin as [_ Hge]. apply Z.geb_le in Hge.
    rewrite <- (gh_order _ _ _ G).
    rewrite <- (filter_filter_imp (fun c => get_key m c >=? x)).
    + symmetry. fold F. apply hd_filter_hd; auto. apply Z.eqb_refl.
    + intros y _ Hy. apply Z.eqb_eq in Hy. apply Z.geb_le. fold F in Hy. lia.
Qed.

Lemma eb32_lookup_le_ge_occurrence_witness :
  exists L rl rg,
    (fun fuel => eb_forward fuel dup5 ex_root) ⇓ L /\
    (fun fuel => @eb32_lookup_le shr_zero fuel dup5 ex_root 8) ⇓ rl /\
    (fun fuel => @eb32_lookup_ge shr_zero fuel dup5 ex_root 6) ⇓ rg /\
    rl = last (filter (fun c => get_key dup5 c <=? 8) L) NULL /\
    rg = hd NULL (filter (fun c => get_key dup5 c >=? 6) L).
Proof.
  destruct (@eb32_lookup_le_ge_occurrence shr_zero ex_root dup5
              [16; 32; 48; 64; 80] 8 dup5_run)
    as (L & rl & _ & F & Tl & _ & El & _); [unfold UINT32_MOD; lia|].
  destruct (@eb32_lookup_le_ge_occurrence shr_zero ex_root dup5
              [16; 32; 48; 64; 80] 6 dup5_run)
    as (L' & _ & rg & F' & _ & Tg & _ & Eg & _); [unfold UINT32_MOD; lia|].
  pose proof (terminates_det _ _ _ F F') as <-.
  exists L, rl, rg. auto.
Defined.

Example dup5_lookup_le_ge :
  @eb32_lookup_le shr_zero 8 dup5 ex_root 8 = Some 80 /\
  @eb32_lookup_ge shr_zero 8 dup5 ex_root 6 = Some 16 /\
  @eb32_lookup shr_zero 8 dup5 ex_root 7 = Some 16.
Proof. repeat split. Qed.

(** ** The links of the tree *)

Lemma links_back m : forall t p s,
  repr m p s t -> get_b m p s = ttag t -> acells t ->
  cell p -> 0 <= s <= 1 ->
  (forall c, In c (leaves t) ->
     exists p' s', cell p' /\ 0 <= s' <= 1 /\
       get_leaf_p m c = eb_dotag p' s' /\
       get_b m p' s' = eb_dotag c EB_LEAF) /\
  (forall c, In c (nodes t) ->
     exists p' s', cell p' /\ 0 <= s' <= 1 /\
       get_node_p m c = eb_dotag p' s' /\
       get_b m p' s' = eb_dotag c EB_NODE).
Proof.
  induction t as [x|x k l IHl r IHr]; intros p s [Hu Hi] Hb Ha Hp Hs.
  - simpl in *. split; [|intros c []].
    intros c [<-|[]]. exists p, s. auto.
  - simpl in Hu, Hi, Ha.
    destruct Hi as (Hk & Hbl & Hbr & Hul & Hur & Hil & Hir).
    destruct Ha as (Hx & Hal & Har).
    destruct (IHl x EB_LEFT) as [L1 N1]; auto;
      [split; auto|unfold EB_LEFT; lia|].
    destruct (IHr x EB_RGHT) as [L2 N2]; auto;
      [split; auto|unfold EB_RGHT; lia|].
    split.
    + intros c Hc. simpl in Hc. apply in_app_or in Hc. destruct Hc; auto.
    + intros c [<-|Hc].
      * exists p, s. auto.
      * apply in_app_or in Hc. destruct Hc; auto.
Qed.

(** X10. The links point back. In every store that is reached, the
    [leaf_p] of a linked cell names a branch that holds this cell, tagged
    as a leaf; and when its [node_p] is not null it names a branch that
    holds this cell, tagged as a node. *)
Theorem links_point_back {U : UndefShift} root m h c :
  run root m h -> is_linked m c ->
  let lp := get_leaf_p m c in
  let np := get_node_p m c in
  get_b m (eb_untag lp (eb_gettag lp)) (eb_gettag lp) = eb_dotag c EB_LEAF /\
  (np <> NULL ->
   get_b m (eb_untag np (eb_gettag np)) (eb_gettag np) = eb_dotag c EB_NODE).
Proof.
  intros R Hc lp np. destruct (run_state root m h R) as (st & I & G & L).
  apply L in Hc. destruct st as [t|]; [|destruct Hc].
  pose proof (inv_tree _ _ _ I) as S. simpl in *.
  destruct (links_back m t root EB_LEFT (sh_repr _ _ _ S) (sh_b _ _ _ S)
              (sh_cells _ _ _ S) (inv_root _ _ _ I)) as [Hl Hn];
    [unfold EB_LEFT; lia|].
  split.
  - destruct (Hl c Hc) as (p' & s' & [Hp Hp0] & Hs & E1 & E2).
    unfold lp. rewrite E1, gettag_dotag, untag_dotag by auto. exact E2.
  - intros Hnp. destruct (in_dec Z.eq_dec c (nodes t)) as [Hin|Hout].
    + destruct (Hn c Hin) as (p' & s' & [Hp Hp0] & Hs & E1 & E2).
      unfold np. rewrite E1, gettag_dotag, untag_dotag by auto. exact E2.
    + exfalso. apply Hnp. now apply (sh_nodeless _ _ _ S).
Qed.

Lemma links_point_back_witness :
  let lp := get_leaf_p ex3 48 in
  let np := get_node_p ex3 48 in
  get_b ex3 (eb_untag lp (eb_gettag lp)) (eb_gettag lp) = eb_dotag 48 EB_LEAF /\
  (np <> NULL ->
   get_b ex3 (eb_untag np (eb_gettag np)) (eb_gettag np) = eb_dotag 48 EB_NODE).
Proof.
  apply (@links_point_back shr_zero ex_root ex3 [16; 32; 48] 48 ex3_run).
  discriminate.
Defined.

(** * The signed functions of eb32tree.c *)

Lemma to_int32_to_uint32 x :
  - 2 ^ 31 <= x < 2 ^ 31 -> to_int32 (to_uint32 x) = x.
Proof.
  intros Hx. unfold to_int32, to_uint32, UINT32_MOD.
  rewrite Z.mod_mod by lia.
  destruct (Z.lt_ge_cases x 0).
  - assert (E : x mod 2 ^ 32 = x + 2 ^ 32).
    { symmetry. apply (Z.mod_unique_pos _ _ (-1)); lia. }
    rewrite E. destruct (Z.ltb_spec (x + 2 ^ 32) (2 ^ 31)); lia.
  - rewrite Z.mod_small by lia. destruct (Z.ltb_spec x (2 ^ 31)); lia.
Qed.

Lemma to_uint32_range x : 0 <= to_uint32 x < UINT32_MOD.
Proof. apply Z.mod_pos_bound. reflexivity. Qed.

Lemma to_int32_inj a b :
  0 <= a < UINT32_MOD -> 0 <= b < UINT32_MOD ->
  to_int32 a = to_int32 b -> a = b.
Proof. intros Ha Hb. rewrite !bias_to_int32 by assumption. intros E.
  rewrite <- (bias_bias a), <- (bias_bias b). f_equal. lia.
Qed.

Lemma biased_linked m mb c : biased m mb -> is_linked m c <-> is_linked mb c.
Proof.
  intros H. unfold is_linked.
  replace (get_leaf_p mb c) with (get_leaf_p m c) by sim. tauto.
Qed.

Lemma sorted_map_mono (kf g : Z -> Z) L :
  (forall a b, kf a <= kf b -> g a <= g b) ->
  StronglySorted (key_le kf) L -> StronglySorted Z.le (map g L).
Proof.
  intros Hm. induction 1 as [|x l S IH F]; simpl; constructor; auto.
  apply Forall_forall. intros b Hb. apply in_map_iff in Hb.
  destruct Hb as (c & <- & Hc). rewrite Forall_forall in F.
  apply Hm. now apply F.
Qed.

Lemma eb32i_forward_order {U : UndefShift} root m h :
  runi root m h ->
  exists L,
    (fun fuel => eb_forward fuel m root) ⇓ L /\
    NoDup L /\
    (forall c, In c L <-> is_linked m c) /\
    StronglySorted Z.le (map (fun c => to_int32 (get_key m c)) L) /\
    forall k, filter (fun c => get_key m c =? k) L =
              filter (fun c => get_key m c =? k) h.
Proof.
  intros R. destruct (runi_run root m h R) as (mb & Hb & Rb).
  destruct (run_state root mb h Rb) as (st & I & G & L).
  exists (cells_of st). split.
  - eapply terminates_ext; [|apply (eb_forward_spec mb root st I)].
    intros fuel. symmetry. now apply eb_forward_sim.
  - split; [now apply (inv_cells_NoDup mb root)|]. split.
    + intros c. rewrite L. symmetry. now apply biased_linked.
    + split.
      * apply (sorted_map_mono (get_key mb));
          [|now apply (cells_sorted mb root)].
        intros a b. rewrite !(biased_key m mb Hb).
        rewrite !bias_to_int32 by apply (biased_key_range m mb Hb). lia.
      * intros k.
        assert (E : forall l, filter (fun c => get_key m c =? k) l =
                              filter (fun c => get_key mb c =? bias k) l).
        { intros l. apply filter_ext. intros c.
          now rewrite (biased_key m mb Hb), bias_eqb. }
        rewrite !E. apply (gh_order _ _ _ G).
Qed.

(** X11. Signed keys in order. In every store reached with [eb32i_insert]
    and [eb_delete], the walk from [eb_first] by [eb_next] visits every
    linked cell once, with keys that never decrease when read as
    [int32_t], and cells of equal key in the order of their insertion. *)
Theorem eb32i_forward_signed_order {U : UndefShift} root m h :
  runi root m h ->
  exists L,
    (fun fuel => eb_forward fuel m root) ⇓ L /\
    NoDup L /\
    (forall c, In c L <-> is_linked m c) /\
    StronglySorted Z.le (map (fun c => to_int32 (get_key m c)) L) /\
    forall k, filter (fun c => get_key m c =? k) L =
              filter (fun c => get_key m c =? k) h.
Proof. apply eb32i_forward_order. Qed.

Lemma eb32i_lookup_found {U : UndefShift} root m h x :
  runi root m h -> - 2 ^ 31 <= x < 2 ^ 31 ->
  exists r,
    (fun fuel => eb32i_lookup fuel m root x) ⇓ r /\
    ((exists c, is_linked m c /\ to_int32 (get_key m c) = x) ->
     is_linked m r /\ to_int32 (get_key m r) = x) /\
    ((forall c, is_linked m c -> to_int32 (get_key m c) <> x) -> r = NULL).
Proof.
  intros R Hx. destruct (runi_run root m h R) as (mb & Hb & Rb).
  destruct (run_state root mb h Rb) as (st & I & G & L).
  pose proof (to_uint32_range x) as Hu.
  destruct (eb32_lookup_spec mb root st I (bias (to_uint32 x))
              (bias_range _ Hu)) as (r & T & F1 & F2).
  assert (Ek : forall c, get_key mb c = bias (to_uint32 x) <->
                         to_int32 (get_key m c) = x).
  { intros c. rewrite (biased_key m mb Hb). split.
    - intros E. assert (E' : get_key m c = to_uint32 x).
      { rewrite <- (bias_bias (get_key m c)), E. apply bias_bias. }
      rewrite E'. now apply to_int32_to_uint32.
    - intros E. f_equal.
      apply to_int32_inj; [apply (biased_key_range m mb Hb)|exact Hu|].
      now rewrite to_int32_to_uint32. }
  exists r. split.
  - eapply terminates_ext; [|exact T]. intros fuel. symmetry.
    now apply eb32i_lookup_sim.
  - split.
    + intros (c & Hc & E). destruct F1 as [F1 F1'].
      * exists c. split; [apply L; now apply (biased_linked m mb)|].
        now apply Ek.
      * split; [apply (biased_linked m mb c Hb) || idtac|].
        -- apply (biased_linked m mb r Hb). now apply L.
        -- now apply Ek.
    + intros H. apply F2. intros c Hc E. apply (H c).
      * apply (biased_linked m mb c Hb). now apply L.
      * now apply Ek.
Qed.

(** X12. Signed lookup. In every store reached with [eb32i_insert] and
    [eb_delete], [eb32i_lookup] of an [int32_t] value [x] returns a linked
    cell whose key, read as [int32_t], is [x] when there is one, and null
    when there is none. *)
Theorem eb32i_lookup_correct {U : UndefShift} root m h x :
  runi root m h -> - 2 ^ 31 <= x < 2 ^ 31 ->
  exists r,
    (fun fuel => eb32i_lookup fuel m root x) ⇓ r /\
    ((exists c, is_linked m c /\ to_int32 (get_key m c) = x) ->
     is_linked m r /\ to_int32 (get_key m r) = x) /\
    ((forall c, is_linked m c -> to_int32 (get_key m c) <> x) -> r = NULL).
Proof. apply eb32i_lookup_found. Qed.

(** ** A small program with signed keys: -5, 3, -1 and -5 again. *)

Definition exi_insert (m : mem) (c k : Z) : mem :=
  match @eb32i_insert shr_zero 8 (put_key m c (to_uint32 k)) ex_root c with
  | Some (m', _) => m'
  | None => m
  end.

Definition exi1 : mem := exi_insert ex_empty 16 (-5).
Definition exi2 : mem := exi_insert exi1 32 3.
Definition exi3 : mem := exi_insert exi2 48 (-1).
Definition exi4 : mem := exi_insert exi3 64 (-5).

Lemma runi_insert_new {U : UndefShift} root m h c k m' :
  runi root m h -> cell c -> c <> root -> get_leaf_p m c = NULL ->
  0 <= k < UINT32_MOD ->
  (fun fuel => eb32i_insert fuel (put_key m c k) root c) ⇓ (m', c) ->
  runi root m' (h ++ [c]).
Proof.
  intros R Hc Hcr Hl Hk T.
  assert (H : runi root m' (if c =? c then h ++ [c] else h)).
  { apply (runi_insert root (put_key m c k) h c m' c); auto.
    - apply runi_write with m; auto. now apply caller_put_key.
    - now msimpl. }
  now rewrite Z.eqb_refl in H.
Qed.

Lemma exi4_run : @runi shr_zero ex_root exi4 [16; 32; 48; 64].
Proof.
  apply (@runi_insert_new shr_zero ex_root exi3 [16; 32; 48] 64
           (to_uint32 (-5)));
    [|ex_cell|discriminate|reflexivity|apply to_uint32_range|ex_returns].
  apply (@runi_insert_new shr_zero ex_root exi2 [16; 32] 48 (to_uint32 (-1)));
    [|ex_cell|discriminate|reflexivity|apply to_uint32_range|ex_returns].
  apply (@runi_insert_new shr_zero ex_root exi1 [16] 32 (to_uint32 3));
    [|ex_cell|discriminate|reflexivity|apply to_uint32_range|ex_returns].
  apply (@runi_insert_new shr_zero ex_root ex_empty [] 16 (to_uint32 (-5)));
    [|ex_cell|discriminate|reflexivity|apply to_uint32_range|ex_returns].
  apply runi_init. apply ex_initial.
Qed.

Example exi4_forward :
  eb_forward 8 exi4 ex_root = Some [16; 64; 48; 32] /\
  map (fun c => to_int32 (get_key exi4 c)) [16; 64; 48; 32] = [-5; -5; -1; 3] /\
  @eb32i_lookup shr_zero 8 exi4 ex_root (-1) = Some 48 /\
  @eb32i_lookup shr_zero 8 exi4 ex_root 2 = Some NULL.
Proof. repeat split. Qed.

Lemma eb32i_forward_signed_order_witness :
  exists L,
    (fun fuel => eb_forward fuel exi4 ex_root) ⇓ L /\
    NoDup L /\
    (forall c, In c L <-> is_linked exi4 c) /\
    StronglySorted Z.le (map (fun c => to_int32 (get_key exi4 c)) L) /\
    forall k, filter (fun c => get_key exi4 c =? k) L =
              filter (fun c => get_key exi4 c =? k) [16; 32; 48; 64].
Proof.
  apply (@eb32i_forward_signed_order shr_zero ex_root exi4 [16; 32; 48; 64]
           exi4_run).
Defined.

Lemma eb32i_lookup_correct_witness :
  exists r,
    (fun fuel => @eb32i_lookup shr_zero fuel exi4 ex_root (-1)) ⇓ r /\
    ((exists c, is_linked exi4 c /\ to_int32 (get_key exi4 c) = -1) ->
     is_linked exi4 r /\ to_int32 (get_key exi4 r) = -1) /\
    ((forall c, is_linked exi4 c -> to_int32 (get_key exi4 c) <> -1) ->
     r = NULL).
Proof.
  apply (@eb32i_lookup_correct shr_zero ex_root exi4 [16; 32; 48; 64] (-1)
           exi4_run).
  lia.
Defined.

(** * The helpers of eb128tree.c on keys given as two halves *)

(** ** Values *)

Lemma to_uint64_signed hi :
  - 2 ^ 63 <= hi < 2 ^ 63 ->
  to_uint64 hi = if hi <? 0 then hi + 2 ^ 64 else hi.
Proof.
  intros H. unfold to_uint64, UINT64_MOD. destruct (Z.ltb_spec hi 0).
  - symmetry. apply (Z.mod_unique_pos _ _ (-1)); lia.
  - apply Z.mod_small. lia.
Qed.

Lemma to_uint64_range x : 0 <= to_uint64 x < UINT64_MOD.
Proof. apply Z.mod_pos_bound. reflexivity. Qed.

Lemma to_int64_to_uint64 hi :
  - 2 ^ 63 <= hi < 2 ^ 63 -> to_int64 (to_uint64 hi) = hi.
Proof.
  intros H. rewrite to_uint64_signed by assumption.
  unfold to_int64, UINT64_MOD. destruct (Z.ltb_spec hi 0).
  - rewrite Z.mod_small by lia.
    destruct (Z.ltb_spec (hi + 2 ^ 64) (2 ^ 63)); lia.
  - rewrite Z.mod_small by lia. destruct (Z.ltb_spec hi (2 ^ 63)); lia.
Qed.

Lemma eb128i_compose_264_value lo hi :
  0 <= lo < UINT64_MOD -> - 2 ^ 63 <= hi < 2 ^ 63 ->
  eb128i_compose_264 lo hi = hi * 2 ^ 64 + lo /\
  to_uint128 (eb128i_compose_264 lo hi) = to_uint64 hi * 2 ^ 64 + lo.
Proof.
  intros Hlo Hhi. unfold eb128i_compose_264.
  assert (E : Z.lor (to_uint128 (Z.shiftl (to_uint128 hi) 0x40)) lo =
              eb128_compose_264 lo (to_uint64 hi)).
  { unfold eb128_compose_264. f_equal. unfold to_uint128, to_uint64.
    change 0x40 with 64. rewrite !Z.shiftl_mul_pow2 by lia.
    unfold UINT128_MOD, UINT64_MOD.
    rewrite !Z.mul_mod_idemp_l by lia.
    change (2 ^ 128) with (2 ^ 64 * 2 ^ 64).
    rewrite !Z.mul_mod_distr_r by lia.
    rewrite Z.mod_mod by lia. reflexivity. }
  rewrite E. split.
  - now apply eb128i_compose_value.
  - pose proof (to_uint64_range hi) as Hu.
    rewrite eb128_compose_264_value by assumption.
    unfold to_int128, to_uint128, UINT128_MOD, UINT64_MOD in *.
    rewrite (Z.mod_small (to_uint64 hi * 2 ^ 64 + lo)) by lia.
    destruct (Z.ltb_spec (to_uint64 hi * 2 ^ 64 + lo) (2 ^ 127)).
    + apply Z.mod_small. lia.
    + symmetry. apply (Z.mod_unique_pos _ _ (-1)); lia.
Qed.

Lemma shiftr_high lo hi :
  0 <= lo < 2 ^ 64 -> Z.shiftr (hi * 2 ^ 64 + lo) 64 = hi.
Proof.
  intros H. rewrite Z.shiftr_div_pow2 by lia.
  symmetry. apply (Z.div_unique_pos _ _ hi lo); lia.
Qed.

Lemma low_half lo hi :
  0 <= lo < 2 ^ 64 -> (hi * 2 ^ 64 + lo) mod 2 ^ 64 = lo.
Proof.
  intros H. symmetry. apply (Z.mod_unique_pos _ _ hi); lia.
Qed.

(** X13. The unsigned comparisons of two 128-bit values given as halves
    decide the order of the values [hi * 2^64 + lo]; and the two values
    are equal exactly when the halves are. *)
Theorem eb128_comparisons_264 alo ahi blo bhi :
  0 <= alo < UINT64_MOD -> 0 <= ahi < UINT64_MOD ->
  0 <= blo < UINT64_MOD -> 0 <= bhi < UINT64_MOD ->
  let a := ahi * 2 ^ 64 + alo in
  let b := bhi * 2 ^ 64 + blo in
  eb128_less_264 alo ahi blo bhi = (a <? b) /\
  eb128_less_or_equal_264 alo ahi blo bhi = (a <=? b) /\
  eb128_equal_264 alo ahi blo bhi = (a =? b) /\
  eb128_greater_or_equal_264 alo ahi blo bhi = (a >=? b) /\
  eb128_greater_264 alo ahi blo bhi = (a >? b) /\
  (eb128_equal_264 alo ahi blo bhi = true <-> alo = blo /\ ahi = bhi).
Proof.
  intros Hal Hah Hbl Hbh a b.
  unfold eb128_less_264, eb128_less_or_equal_264, eb128_equal_264,
    eb128_greater_or_equal_264, eb128_greater_264.
  rewrite !eb128_compose_264_value by assumption. fold a b.
  do 5 (split; [reflexivity|]). split.
  - intros E. apply Z.eqb_eq in E. unfold a, b, UINT64_MOD in *. lia.
  - intros [-> ->]. apply Z.eqb_refl.
Qed.

Lemma eb128_comparisons_264_witness :
  eb128_less_264 5 1 3 2 = true /\ eb128_greater_264 5 1 3 2 = false.
Proof.
  assert (R : forall x, 0 <= x < 8 -> 0 <= x < UINT64_MOD)
    by (unfold UINT64_MOD; lia).
  destruct (eb128_comparisons_264 5 1 3 2) as (H1 & _ & _ & _ & H5 & _);
    try (apply R; lia).
  split; [exact H1|exact H5].
Defined.

(** X14. The comparisons of the signed front-end compare without the
    sign: when the high halves have the same sign they decide the order of
    the signed values [hi * 2^64 + lo], and when the signs differ it is
    the negative value that counts as the greater one.  Equality is
    decided as it should. *)
Theorem eb128i_comparisons_264 alo ahi blo bhi :
  0 <= alo < UINT64_MOD -> - 2 ^ 63 <= ahi < 2 ^ 63 ->
  0 <= blo < UINT64_MOD -> - 2 ^ 63 <= bhi < 2 ^ 63 ->
  let a := ahi * 2 ^ 64 + alo in
  let b := bhi * 2 ^ 64 + blo in
  ((ahi <? 0) = (bhi <? 0) ->
   eb128i_less_264 alo ahi blo bhi = (a <? b) /\
   eb128i_less_or_equal_264 alo ahi blo bhi = (a <=? b) /\
   eb128i_greater_or_equal_264 alo ahi blo bhi = (a >=? b) /\
   eb128i_greater_264 alo ahi blo bhi = (a >? b)) /\
  (ahi < 0 <= bhi ->
   a < b /\
   eb128i_less_264 alo ahi blo bhi = false /\
   eb128i_less_or_equal_264 alo ahi blo bhi = false /\
   eb128i_greater_or_equal_264 alo ahi blo bhi = true /\
   eb128i_greater_264 alo ahi blo bhi = true) /\
  eb128i_equal_264 alo ahi blo bhi = (a =? b).
Proof.
  intros Hal Hah Hbl Hbh a b.
  unfold eb128i_less_264, eb128i_less_or_equal_264, eb128i_equal_264,
    eb128i_greater_or_equal_264, eb128i_greater_264.
  rewrite !eb128_compose_264_value
    by (auto; apply to_uint64_range).
  rewrite !to_uint64_signed by assumption.
  unfold a, b, UINT64_MOD in *.
  rewrite !Z.geb_leb, !Z.gtb_ltb.
  split; [|split].
  - intros Hs.
    destruct (Z.ltb_spec ahi 0); destruct (Z.ltb_spec bhi 0);
      try discriminate;
      repeat split;
      repeat match goal with
             | |- context [?x <? ?y] => destruct (Z.ltb_spec x y)
             | |- context [?x <=? ?y] => destruct (Z.leb_spec x y)
             end; try reflexivity; lia.
  - intros [H1 H2].
    destruct (Z.ltb_spec ahi 0); [|lia]. destruct (Z.ltb_spec bhi 0); [lia|].
    repeat split; try lia;
      repeat match goal with
             | |- context [?x <? ?y] => destruct (Z.ltb_spec x y)
             | |- context [?x <=? ?y] => destruct (Z.leb_spec x y)
             end; try reflexivity; lia.
  - destruct (Z.ltb_spec ahi 0); destruct (Z.ltb_spec bhi 0);
      repeat match goal with
             | |- context [?x =? ?y] => destruct (Z.eqb_spec x y)
             end; try reflexivity; lia.
Qed.

Lemma eb128i_comparisons_264_witness :
  (-1) * 2 ^ 64 + 0 < 0 * 2 ^ 64 + 0 /\
  eb128i_less_264 0 (-1) 0 0 = false /\
  eb128i_less_or_equal_264 0 (-1) 0 0 = false /\
  eb128i_greater_or_equal_264 0 (-1) 0 0 = true /\
  eb128i_greater_264 0 (-1) 0 0 = true.
Proof.
  apply (eb128i_comparisons_264 0 (-1) 0 0);
    try (unfold UINT64_MOD; lia); lia.
Defined.

(** X15. Keys set and read back. [eb128_node_getkey_264] returns the two
    halves that [eb128_node_setkey_264] was given, and the signed pair of
    functions does the same with a signed high half; the keys of the other
    nodes are left alone, and the node is returned. *)
Theorem eb128_setkey_getkey_264 ks node lo hi shi :
  0 <= lo < UINT64_MOD -> 0 <= hi < UINT64_MOD ->
  - 2 ^ 63 <= shi < 2 ^ 63 ->
  let (ks1, r1) := eb128_node_setkey_264 ks node lo hi in
  let (ks2, r2) := eb128i_node_setkey_264 ks node lo shi in
  r1 = node /\ r2 = node /\
  eb128_node_getkey_264 ks1 node = (lo, hi) /\
  eb128i_node_getkey_264 ks2 node = (lo, shi) /\
  ks1 node = hi * 2 ^ 64 + lo /\
  to_int128 (ks2 node) = shi * 2 ^ 64 + lo /\
  (forall a, a <> node -> ks1 a = ks a /\ ks2 a = ks a).
Proof.
  intros Hlo Hhi Hshi. simpl.
  unfold eb128_node_getkey_264, eb128i_node_getkey_264.
  rewrite !Z.eqb_refl.
  destruct (eb128i_compose_264_value lo shi Hlo Hshi) as [V1 V2].
  rewrite V2, eb128_compose_264_value by assumption.
  pose proof (to_uint64_range shi) as Hu. unfold UINT64_MOD in *.
  change 0x40 with 64. rewrite !shiftr_high by assumption.
  unfold to_uint64 at 1 3. unfold UINT64_MOD.
  rewrite !low_half by assumption.
  split; auto. split; auto.
  split; [f_equal; apply Z.mod_small; assumption|].
  split; [f_equal; now apply to_int64_to_uint64|].
  split; auto. split.
  - rewrite <- V2. unfold to_int128, to_uint128.
    rewrite Z.mod_mod by (unfold UINT128_MOD; lia). rewrite V1.
    unfold UINT128_MOD. change (Z.pow_pos 2 64) with (2 ^ 64).
    destruct (Z.ltb_spec shi 0).
    + rewrite <- (Z.mod_unique_pos (shi * 2 ^ 64 + lo) (2 ^ 128) (-1)
                   (shi * 2 ^ 64 + lo + 2 ^ 128)) by lia.
      destruct (Z.ltb_spec (shi * 2 ^ 64 + lo + 2 ^ 128) (2 ^ 127)); lia.
    + rewrite Z.mod_small by lia.
      destruct (Z.ltb_spec (shi * 2 ^ 64 + lo) (2 ^ 127)); lia.
  - intros a Ha. destruct (Z.eqb_spec a node); [contradiction|auto].
Qed.

Lemma eb128_setkey_getkey_264_witness :
  eb128_node_getkey_264 (fst (eb128_node_setkey_264 (fun _ => 0) 16 7 9)) 16
    = (7, 9) /\
  eb128i_node_getkey_264 (fst (eb128i_node_setkey_264 (fun _ => 0) 16 7 (-9))) 16
    = (7, -9).
Proof.
  assert (R : forall x, 0 <= x < 16 -> 0 <= x < UINT64_MOD)
    by (unfold UINT64_MOD; lia).
  pose proof (eb128_setkey_getkey_264 (fun _ => 0) 16 7 9 (-9)
                (R 7 ltac:(lia)) (R 9 ltac:(lia)) ltac:(lia)) as H.
  simpl in H. destruct H as (_ & _ & H1 & H2 & _). split; assumption.
Defined.

(** * The walks that skip duplicates *)

Lemma next_unique_from_left_stop m c t :
  cell c -> 0 <= get_bit m c ->
  get_b m c EB_RGHT = ttag t -> inner m t -> acells t ->
  (fun fuel => eb_next_unique_from fuel m (eb_dotag c EB_LEFT)) ⇓ first_leaf t.
Proof.
  intros [Hc Hc0] Hk Hb Hi Ha.
  eapply terminates_step; [|apply walk_down_left; eassumption].
  intros fuel. simpl eb_next_unique_from.
  rewrite gettag_dotag by (auto; unfold EB_LEFT; lia).
  rewrite Z.eqb_refl, untag_dotag, Hb. unfold eb_root_to_node.
  destruct (Z.eqb_spec (eb_clrtag (ttag t)) NULL) as [E|E];
    [now apply clrtag_ttag in E|].
  destruct (Z.geb_spec (get_bit m c) 0); [reflexivity|lia].
Qed.

Lemma next_unique_from_left_dup m c t v nx :
  cell c -> get_bit m c < 0 ->
  get_b m c EB_RGHT = ttag t -> acells t -> get_node_p m c = v ->
  (fun fuel => eb_next_unique_from fuel m v) ⇓ nx ->
  (fun fuel => eb_next_unique_from fuel m (eb_dotag c EB_LEFT)) ⇓ nx.
Proof.
  intros [Hc Hc0] Hk Hb Ha Hv H.
  eapply terminates_step; [|exact H].
  intros fuel. simpl eb_next_unique_from.
  rewrite gettag_dotag by (auto; unfold EB_LEFT; lia).
  rewrite Z.eqb_refl, untag_dotag, Hb. unfold eb_root_to_node.
  destruct (Z.eqb_spec (eb_clrtag (ttag t)) NULL) as [E|E];
    [now apply clrtag_ttag in E|].
  destruct (Z.geb_spec (get_bit m c) 0); [lia|now rewrite Hv].
Qed.

Lemma next_unique_from_right m c v nx :
  cell c -> get_node_p m c = v ->
  (fun fuel => eb_next_unique_from fuel m v) ⇓ nx ->
  (fun fuel => eb_next_unique_from fuel m (eb_dotag c EB_RGHT)) ⇓ nx.
Proof.
  intros [Hc Hc0] Hv H.
  eapply terminates_step; [|exact H].
  intros fuel. simpl eb_next_unique_from.
  rewrite gettag_dotag by (auto; unfold EB_RGHT; lia).
  change (EB_RGHT =? EB_LEFT) with false. cbv iota.
  rewrite untag_dotag. unfold eb_root_to_node. now rewrite Hv.
Qed.

Lemma next_unique_from_root m root :
  cell root -> eb_clrtag (get_b m root EB_RGHT) = NULL ->
  (fun fuel => eb_next_unique_from fuel m (eb_dotag root EB_LEFT)) ⇓ NULL.
Proof.
  intros [Hr Hr0] H. apply terminates_now. intros fuel.
  simpl eb_next_unique_from.
  rewrite gettag_dotag by (auto; unfold EB_LEFT; lia).
  rewrite Z.eqb_refl, untag_dotag, H. reflexivity.
Qed.

Lemma prev_unique_from_right_stop m c t :
  cell c -> 0 <= get_bit m c ->
  get_b m c EB_LEFT = ttag t -> inner m t -> acells t ->
  (fun fuel => eb_prev_unique_from fuel m (eb_dotag c EB_RGHT)) ⇓ last_leaf t.
Proof.
  intros [Hc Hc0] Hk Hb Hi Ha.
  eapply terminates_step; [|apply walk_down_right; eassumption].
  intros fuel. simpl eb_prev_unique_from.
  rewrite gettag_dotag by (auto; unfold EB_RGHT; lia).
  change (EB_RGHT =? EB_LEFT) with false. simpl negb. cbv iota.
  rewrite untag_dotag, Hb. unfold eb_root_to_node.
  destruct (Z.geb_spec (get_bit m c) 0); [reflexivity|lia].
Qed.

Lemma prev_unique_from_right_dup m c v pv :
  cell c -> get_bit m c < 0 -> get_node_p m c = v ->
  (fun fuel => eb_prev_unique_from fuel m v) ⇓ pv ->
  (fun fuel => eb_prev_unique_from fuel m (eb_dotag c EB_RGHT)) ⇓ pv.
Proof.
  intros [Hc Hc0] Hk Hv H.
  eapply terminates_step; [|exact H].
  intros fuel. simpl eb_prev_unique_from.
  rewrite gettag_dotag by (auto; unfold EB_RGHT; lia).
  change (EB_RGHT =? EB_LEFT) with false. simpl negb. cbv iota.
  rewrite untag_dotag. unfold eb_root_to_node.
  destruct (Z.geb_spec (get_bit m c) 0); [lia|now rewrite Hv].
Qed.

Lemma prev_unique_from_left m c t v pv :
  cell c -> get_b m c EB_RGHT = ttag t -> acells t ->
  get_node_p m c = v ->
  (fun fuel => eb_prev_unique_from fuel m v) ⇓ pv ->
  (fun fuel => eb_prev_unique_from fuel m (eb_dotag c EB_LEFT)) ⇓ pv.
Proof.
  intros [Hc Hc0] Hb Ha Hv H.
  eapply terminates_step; [|exact H].
  intros fuel. simpl eb_prev_unique_from.
  rewrite gettag_dotag by (auto; unfold EB_LEFT; lia).
  rewrite Z.eqb_refl. simpl negb. cbv iota.
  rewrite untag_dotag, Hb.
  destruct (Z.eqb_spec (eb_clrtag (ttag t)) NULL) as [E|E];
    [now apply clrtag_ttag in E|].
  unfold eb_root_to_node. now rewrite Hv.
Qed.

Lemma prev_unique_from_root m root :
  cell root -> eb_clrtag (get_b m root EB_RGHT) = NULL ->
  (fun fuel => eb_prev_unique_from fuel m (eb_dotag root EB_LEFT)) ⇓ NULL.
Proof.
  intros [Hr Hr0] H. apply terminates_now. intros fuel.
  simpl eb_prev_unique_from.
  rewrite gettag_dotag by (auto; unfold EB_LEFT; lia).
  rewrite Z.eqb_refl. simpl negb. cbv iota.
  rewrite untag_dotag, H. reflexivity.
Qed.

Section Unique.

Variable m : mem.
Local Notation "'kf'" := (get_key m).

(** The cells of another key than [c]. *)
Definition other_key (c : Z) (l : list Z) : list Z :=
  filter (fun y => negb (kf y =? kf c)) l.

Lemma other_key_same c l :
  (forall y, In y l -> kf y = kf c) -> other_key c l = [].
Proof.
  intros H. apply filter_none. intros y Hy. rewrite (H y Hy).
  now rewrite Z.eqb_refl.
Qed.

Lemma other_key_all c l :
  (forall y, In y l -> kf y <> kf c) -> other_key c l = l.
Proof.
  intros H. apply filter_all. intros y Hy.
  destruct (Z.eqb_spec (kf y) (kf c)); [now apply H in Hy|reflexivity].
Qed.

Lemma other_key_app c l1 l2 :
  other_key c (l1 ++ l2) = other_key c l1 ++ other_key c l2.
Proof. apply filter_app. Qed.

Lemma bit_is_differ k l r x y :
  bit_is kf k false l -> bit_is kf k true r -> In x l -> In y r ->
  kf x <> kf y.
Proof.
  intros Hl Hr Hx Hy E. specialize (Hl x Hx). specialize (Hr y Hy).
  rewrite E in Hl. congruence.
Qed.

Lemma eb_next_unique_spec t :
  forall p s nx,
    repr m p s t -> acells t -> radix kf t ->
    (fun fuel => eb_next_unique_from fuel m (eb_dotag p s)) ⇓ nx ->
    forall l1 c l2, leaves t = l1 ++ c :: l2 ->
      (fun fuel => eb_next_unique fuel m c) ⇓ hd nx (other_key c l2).
Proof.
  induction t as [c0|c0 k l IHl r IHr];
    intros p s nx [Hu Hi] Ha Hr Hnx l1 c l2 E.
  - simpl in E. destruct l1 as [|x l1]; [|destruct l1; discriminate].
    inversion E; subst. simpl. unfold eb_next_unique. simpl in Hu.
    now rewrite Hu.
  - simpl in Hi, Ha, Hu, E, Hr.
    destruct Hi as (Hk & Hbl & Hbr & Hul & Hur & Hil & Hir).
    destruct Ha as (Hc & Hal & Har).
    assert (Hin : forall y, In y (leaves l ++ leaves r) <->
                            In y (l1 ++ c :: l2)) by (now rewrite E).
    assert (Hcin : In c (leaves l ++ leaves r))
      by (apply Hin, in_or_app; right; now left).
    destruct Hr as [(Hneg & Nl & Nr & Hs)|(Hpos & Rl & Rr & _ & Bl & Br)].
    + assert (Rl : radix kf l)
        by (apply negbits_radix; eauto using same_keys_app_l).
      assert (Rr : radix kf r)
        by (apply negbits_radix; eauto using same_keys_app_r).
      rewrite other_key_same.
      2:{ intros y Hy. apply Hs; auto. apply Hin, in_or_app. right. now right. }
      apply app_split_at in E. destruct E as [[l2' [E ->]]|[l1' [E ->]]].
      * rewrite <- (other_key_same c l2') at 1.
        2:{ intros y Hy. apply Hs; auto. apply in_or_app. left. rewrite E.
            apply in_or_app. right. now right. }
        eapply (IHl c0 EB_LEFT); eauto; [split; auto|].
        eapply next_unique_from_left_dup; eauto. lia.
      * rewrite <- (other_key_same c l2) at 1.
        2:{ intros y Hy. apply Hs; auto. apply in_or_app. right. rewrite E.
            apply in_or_app. right. now right. }
        eapply (IHr c0 EB_RGHT); eauto; [split; auto|].
        eapply next_unique_from_right; eauto.
    + apply app_split_at in E. destruct E as [[l2' [E ->]]|[l1' [E ->]]].
      * rewrite other_key_app, (other_key_all c (leaves r)).
        2:{ intros y Hy E'. symmetry in E'. revert E'.
            eapply bit_is_differ; eauto. rewrite E. apply in_or_app.
            right. now left. }
        replace (hd nx (other_key c l2' ++ leaves r))
          with (hd (first_leaf r) (other_key c l2')).
        -- eapply (IHl c0 EB_LEFT); eauto; [split; auto|].
           eapply next_unique_from_left_stop; eauto. lia.
        -- destruct (other_key c l2'); simpl; auto. symmetry.
           rewrite <- (app_nil_r (leaves r)). apply hd_leaves.
      * eapply (IHr c0 EB_RGHT); eauto; [split; auto|].
        eapply next_unique_from_right; eauto.
Qed.

Lemma eb_prev_unique_spec t :
  forall p s pv,
    repr m p s t -> acells t -> radix kf t ->
    (fun fuel => eb_prev_unique_from fuel m (eb_dotag p s)) ⇓ pv ->
    forall l1 c l2, leaves t = l1 ++ c :: l2 ->
      (fun fuel => eb_prev_unique fuel m c) ⇓ last (other_key c l1) pv.
Proof.
  induction t as [c0|c0 k l IHl r IHr];
    intros p s pv [Hu Hi] Ha Hr Hpv l1 c l2 E.
  - simpl in E. destruct l1 as [|x l1]; [|destruct l1; discriminate].
    inversion E; subst. simpl. unfold eb_prev_unique. simpl in Hu.
    now rewrite Hu.
  - simpl in Hi, Ha, Hu, E, Hr.
    destruct Hi as (Hk & Hbl & Hbr & Hul & Hur & Hil & Hir).
    destruct Ha as (Hc & Hal & Har).
    assert (Hin : forall y, In y (leaves l ++ leaves r) <->
                            In y (l1 ++ c :: l2)) by (now rewrite E).
    assert (Hcin : In c (leaves l ++ leaves r))
      by (apply Hin, in_or_app; right; now left).
    destruct Hr as [(Hneg & Nl & Nr & Hs)|(Hpos & Rl & Rr & _ & Bl & Br)].
    + assert (Rl : radix kf l)
        by (apply negbits_radix; eauto using same_keys_app_l).
      assert (Rr : radix kf r)
        by (apply negbits_radix; eauto using same_keys_app_r).
      rewrite other_key_same.
      2:{ intros y Hy. apply Hs; auto. apply Hin, in_or_app. now left. }
      apply app_split_at in E. destruct E as [[l2' [E ->]]|[l1' [E ->]]].
      * rewrite <- (other_key_same c l1) at 1.
        2:{ intros y Hy. apply Hs; auto. apply in_or_app. left. rewrite E.
            apply in_or_app. now left. }
        eapply (IHl c0 EB_LEFT); eauto; [split; auto|].
        eapply prev_unique_from_left; eauto.
      * rewrite <- (other_key_same c l1') at 1.
        2:{ intros y Hy. apply Hs; auto. apply in_or_app. right. rewrite E.
            apply in_or_app. now left. }
        eapply (IHr c0 EB_RGHT); eauto; [split; auto|].
        eapply prev_unique_from_right_dup; eauto. lia.
    + apply app_split_at in E. destruct E as [[l2' [E ->]]|[l1' [E ->]]].
      * eapply (IHl c0 EB_LEFT); eauto; [split; auto|].
        eapply prev_unique_from_left; eauto.
      * rewrite other_key_app, (other_key_all c (leaves l)).
        2:{ intros y Hy. eapply bit_is_differ; eauto. rewrite E.
            apply in_or_app. right. now left. }
        replace (last (leaves l ++ other_key c l1') pv)
          with (last (other_key c l1') (last_leaf l)).
        -- eapply (IHr c0 EB_RGHT); eauto; [split; auto|].
           eapply prev_unique_from_right_stop; eauto. lia.
        -- destruct (other_key c l1') as [|x o] using rev_ind.
           ++ rewrite app_nil_r. symmetry. apply (last_leaves pv l []).
           ++ rewrite app_assoc, !last_last. reflexivity.
Qed.

Lemma greater_key_sorted l1 c l2 :
  StronglySorted (key_le kf) (l1 ++ c :: l2) ->
  filter (fun y => kf y >? kf c) (l1 ++ c :: l2) = other_key c l2.
Proof.
  intros S. destruct (sorted_split kf l1 c l2 S) as [H1 H2].
  rewrite filter_app. rewrite (filter_none _ l1).
  2:{ intros y Hy. apply H1 in Hy. rewrite Z.gtb_ltb. apply Z.ltb_ge. lia. }
  simpl. rewrite Z.gtb_ltb, Z.ltb_irrefl. apply filter_ext_in.
  intros y Hy. apply H2 in Hy. rewrite Z.gtb_ltb.
  destruct (Z.ltb_spec (kf c) (kf y)); destruct (Z.eqb_spec (kf y) (kf c));
    simpl; auto; lia.
Qed.

Lemma smaller_key_sorted l1 c l2 :
  StronglySorted (key_le kf) (l1 ++ c :: l2) ->
  filter (fun y => kf y <? kf c) (l1 ++ c :: l2) = other_key c l1.
Proof.
  intros S. destruct (sorted_split kf l1 c l2 S) as [H1 H2].
  rewrite filter_app. simpl. rewrite Z.ltb_irrefl. rewrite (filter_none _ l2).
  2:{ intros y Hy. apply H2 in Hy. apply Z.ltb_ge. lia. }
  rewrite app_nil_r. apply filter_ext_in.
  intros y Hy. apply H1 in Hy.
  destruct (Z.ltb_spec (kf y) (kf c)); destruct (Z.eqb_spec (kf y) (kf c));
    simpl; auto; lia.
Qed.

End Unique.

(** X16. The walks that skip duplicates. For a linked cell [c],
    [eb_next_unique] returns the first cell of the walk from [eb_first]
    whose key is greater than the key of [c], which is the cell inserted
    first among those of the next key, and null when no key is greater;
    [eb_prev_unique] returns the last cell of the walk whose key is
    smaller, which is the cell inserted last among those of the previous
    key, and null when no key is smaller. *)
Theorem eb_next_prev_unique_keys {U : UndefShift} root m h c :
  run root m h -> is_linked m c ->
  exists L nx pv,
    (fun fuel => eb_forward fuel m root) ⇓ L /\
    (fun fuel => eb_next_unique fuel m c) ⇓ nx /\
    (fun fuel => eb_prev_unique fuel m c) ⇓ pv /\
    nx = hd NULL (filter (fun y => get_key m y >? get_key m c) L) /\
    pv = last (filter (fun y => get_key m y <? get_key m c) L) NULL /\
    (nx <> NULL ->
     nx = hd NULL (filter (fun y => get_key m y =? get_key m nx) h)) /\
    (pv <> NULL ->
     pv = last (filter (fun y => get_key m y =? get_key m pv) h) NULL).
Proof.
  intros R Hc. destruct (run_state root m h R) as (st & I & G & L).
  apply L in Hc. destruct (in_split _ _ Hc) as (l1 & l2 & E).
  pose proof (cells_sorted m root st I) as S. rewrite E in S.
  exists (cells_of st).
  exists (hd NULL (filter (fun y => get_key m y >? get_key m c) (cells_of st))).
  exists (last (filter (fun y => get_key m y <? get_key m c) (cells_of st)) NULL).
  split; [now apply eb_forward_spec|].
  pose proof (inv_tree _ _ _ I) as Sh.
  destruct st as [t|]; simpl in E; [|destruct l1; discriminate].
  simpl cells_of in *. rewrite E at 1 2.
  rewrite greater_key_sorted, smaller_key_sorted by assumption.
  split; [|split].
  - apply (eb_next_unique_spec m t root EB_LEFT NULL (sh_repr _ _ _ Sh)
             (sh_cells _ _ _ Sh) (sh_radix _ _ _ Sh)
             (next_unique_from_root m root (inv_root _ _ _ I)
                (inv_right _ _ _ I)) l1 c l2 E).
  - apply (eb_prev_unique_spec m t root EB_LEFT NULL (sh_repr _ _ _ Sh)
             (sh_cells _ _ _ Sh) (sh_radix _ _ _ Sh)
             (prev_unique_from_root m root (inv_root _ _ _ I)
                (inv_right _ _ _ I)) l1 c l2 E).
  - split; [reflexivity|]. split; [reflexivity|]. split.
    + set (F := filter (fun y => get_key m y >? get_key m c) (leaves t)).
      intros Hn. assert (Hne : F <> []) by (intros E'; rewrite E' in Hn; auto).
      pose proof (hd_In NULL F Hne) as Hin. apply filter_In in Hin.
      destruct Hin as [_ Hgt]. apply Z.gtb_lt in Hgt.
      rewrite <- (gh_order _ _ _ G). simpl cells_of.
      rewrite <- (filter_filter_imp (fun y => get_key m y >? get_key m c)).
      * symmetry. fold F. apply hd_filter_hd; auto. apply Z.eqb_refl.
      * intros y _ Hy. apply Z.eqb_eq in Hy. apply Z.gtb_lt. fold F in Hy. lia.
    + set (F := filter (fun y => get_key m y <? get_key m c) (leaves t)).
      intros Hn. assert (Hne : F <> []) by (intros E'; rewrite E' in Hn; auto).
      pose proof (last_In NULL F Hne) as Hin. apply filter_In in Hin.
      destruct Hin as [_ Hlt]. apply Z.ltb_lt in Hlt.
      rewrite <- (gh_order _ _ _ G). simpl cells_of.
      rewrite <- (filter_filter_imp (fun y => get_key m y <? get_key m c)).
      * symmetry. fold F. apply last_filter_last; auto. apply Z.eqb_refl.
      * intros y _ Hy. apply Z.eqb_eq in Hy. apply Z.ltb_lt. fold F in Hy. lia.
Qed.

Lemma eb_next_prev_unique_keys_witness :
  exists L nx pv,
    (fun fuel => eb_forward fuel dup5 ex_root) ⇓ L /\
    (fun fuel => eb_next_unique fuel dup5 32) ⇓ nx /\
    (fun fuel => eb_prev_unique fuel dup5 32) ⇓ pv /\
    nx = hd NULL (filter (fun y => get_key dup5 y >? get_key dup5 32) L) /\
    pv = last (filter (fun y => get_key dup5 y <? get_key dup5 32) L) NULL.
Proof.
  destruct (@eb_next_prev_unique_keys shr_zero ex_root dup5
              [16; 32; 48; 64; 80] 32 dup5_run)
    as (L & nx & pv & F & Tn & Tp & En & Ep & _);
    [unfold is_linked; vm_compute; discriminate|].
  exists L, nx, pv.
  split; [exact F|]. split; [exact Tn|]. split; [exact Tp|].
  split; [exact En|exact Ep].
Defined.

(** * Bit scans and blocks of bytes *)

(** ** Bytes *)

Lemma byte_lxor_range u v :
  0 <= u < 256 -> 0 <= v < 256 -> 0 <= Z.lxor u v < 256.
Proof.
  intros Hu Hv.
  assert (H0 : 0 <= Z.lxor u v) by (apply Z.lxor_nonneg; lia).
  split; auto.
  destruct (Z.eq_dec (Z.lxor u v) 0) as [->|Hn]; [lia|].
  change 256 with (2 ^ 8). apply Z.log2_lt_pow2; [lia|].
  pose proof (Z.log2_lxor u v ltac:(lia) ltac:(lia)) as Hl.
  assert (Z.log2 u < 8).
  { destruct (Z.eq_dec u 0) as [->|]; [simpl; lia|].
    apply Z.log2_lt_pow2; simpl; lia. }
  assert (Z.log2 v < 8).
  { destruct (Z.eq_dec v 0) as [->|]; [simpl; lia|].
    apply Z.log2_lt_pow2; simpl; lia. }
  lia.
Qed.

Lemma byte_log2 c : 0 < c < 256 -> 0 <= Z.log2 c <= 7.
Proof.
  intros H. split; [apply Z.log2_nonneg|].
  assert (Z.log2 c < 8) by (apply Z.log2_lt_pow2; simpl; lia). lia.
Qed.

Lemma byte_high_bits u p : 0 <= u < 256 -> 8 <= p -> Z.testbit u p = false.
Proof.
  intros Hu Hp. destruct (Z.eq_dec u 0) as [->|]; [apply Z.testbit_0_l|].
  apply Z.bits_above_log2; [lia|].
  assert (Z.log2 u < 8) by (apply Z.log2_lt_pow2; simpl; lia). lia.
Qed.

(** Where two bytes differ first, from the high bit down. *)
Lemma lxor_top_bit u v :
  Z.lxor u v <> 0 -> 0 <= u -> 0 <= v ->
  Z.testbit u (Z.log2 (Z.lxor u v)) <> Z.testbit v (Z.log2 (Z.lxor u v)) /\
  forall p, Z.log2 (Z.lxor u v) < p -> Z.testbit u p = Z.testbit v p.
Proof.
  intros Hn Hu Hv.
  assert (H0 : 0 < Z.lxor u v)
    by (pose proof (proj2 (Z.lxor_nonneg u v) ltac:(lia)); lia).
  split.
  - pose proof (Z.bit_log2 _ H0) as Hb. rewrite Z.lxor_spec in Hb.
    destruct (Z.testbit u _), (Z.testbit v _); simpl in Hb; congruence.
  - intros p Hp.
    pose proof (Z.bits_above_log2 (Z.lxor u v) p ltac:(lia) Hp) as Hb.
    rewrite Z.lxor_spec in Hb.
    destruct (Z.testbit u p), (Z.testbit v p); simpl in Hb; congruence.
Qed.

Lemma shiftr_zero_iff c k :
  0 <= k ->
  (Z.shiftr c k = 0 <-> forall p, k <= p -> Z.testbit c p = false).
Proof.
  intros Hk. split.
  - intros H p Hp. replace p with ((p - k) + k) by lia.
    rewrite <- Z.shiftr_spec by lia. rewrite H. apply Z.testbit_0_l.
  - intros H. apply Z.bits_inj_0. intros n.
    destruct (Z.neg_nonneg_cases n) as [Hn|Hn]; [now apply Z.testbit_neg_r|].
    rewrite Z.shiftr_spec by assumption. apply H. lia.
Qed.

Section BitBlocks.

Context {U : UndefShift}.

(** ** The bit scan of a byte *)

Definition fls8_table (x : Z) : Z :=
  let '(y, ret) :=
    if negb (Z.shiftr x 4 =? 0) then (Z.shiftr x 4, 4) else (x, 0) in
  ret + Z.land (Z.shiftr 0xFFFFAA50 (2 * y)) 3 + 1.

Lemma fls8_table_log2 :
  forallb (fun n => fls8_table (Z.of_nat n) =? Z.log2 (Z.of_nat n) + 1)
          (seq 1 255) = true.
Proof. vm_compute. reflexivity. Qed.

Lemma flsnz8_generic_table x : 0 < x < 256 -> flsnz8_generic x = fls8_table x.
Proof.
  intros Hx. unfold flsnz8_generic, fls8_table. cbv zeta.
  assert (Hs : 0 <= Z.shiftr x 4 < 16).
  { rewrite Z.shiftr_div_pow2 by lia. change (2 ^ 4) with 16.
    split; [apply Z.div_pos; lia|apply Z.div_lt_upper_bound; lia]. }
  assert (Hsh : forall y, 0 <= y < 16 ->
            shr32 0xFFFFAA50 (to_uint32 (Z.shiftl y 1)) =
            Z.shiftr 0xFFFFAA50 (2 * y)).
  { intros y Hy. rewrite Z.shiftl_mul_pow2 by lia. change (2 ^ 1) with 2.
    unfold to_uint32, UINT32_MOD. rewrite Z.mod_small by lia.
    unfold shr32. replace (y * 2) with (2 * y) by lia.
    destruct (Z.leb_spec 0 (2 * y)); [|lia].
    destruct (Z.ltb_spec (2 * y) 32); [reflexivity|lia]. }
  destruct (Z.eqb_spec (Z.shiftr x 4) 0) as [E|E]; simpl negb; cbv iota beta.
  - rewrite Hsh; [reflexivity|].
    rewrite Z.shiftr_div_pow2 in E by lia. change (2 ^ 4) with 16 in E.
    Z.div_mod_to_equations. lia.
  - rewrite Hsh by assumption. reflexivity.
Qed.

Lemma flsnz8_log2 x : 0 < x < 256 -> flsnz8 x = Z.log2 x + 1.
Proof.
  intros Hx. unfold flsnz8. rewrite flsnz8_generic_table by assumption.
  pose proof fls8_table_log2 as H. rewrite forallb_forall in H.
  specialize (H (Z.to_nat x)). rewrite Z2Nat.id in H by lia.
  apply Z.eqb_eq, H. apply in_seq. lia.
Qed.

(** ** One bit of a block *)

Lemma get_bit_testbit mb a i :
  0 <= i ->
  Bits.get_bit mb a i = Z.b2z (Z.testbit (mb (a + i / 8)) (7 - i mod 8)).
Proof.
  intros Hi. unfold Bits.get_bit. cbv zeta.
  rewrite (Z.shiftr_div_pow2 i 3) by lia. change (2 ^ 3) with 8.
  assert (E : Z.land (Z.lnot i) 7 = 7 - i mod 8).
  { change 7 with (Z.ones 3) at 1. rewrite Z.land_ones by lia.
    change (2 ^ 3) with 8. unfold Z.lnot. symmetry.
    apply (Z.mod_unique_pos _ _ (- (i / 8) - 1)).
    - pose proof (Z.mod_pos_bound i 8). lia.
    - pose proof (Z.div_mod i 8). lia. }
  rewrite E, land_1, <- Z.bit0_mod, Z.shiftr_spec by lia.
  reflexivity.
Qed.

Lemma get_bit_in_byte mb a j t :
  0 <= j -> 0 <= t < 8 ->
  Bits.get_bit mb a (8 * j + t) = Z.b2z (Z.testbit (mb (a + j)) (7 - t)).
Proof.
  intros Hj Ht. rewrite get_bit_testbit by lia.
  replace ((8 * j + t) / 8) with j by (Z.div_mod_to_equations; lia).
  replace ((8 * j + t) mod 8) with t by (Z.div_mod_to_equations; lia).
  reflexivity.
Qed.

Variable mb : bytes.
Hypothesis Hbytes : forall x, 0 <= mb x < 256.
Variables a b : Z.

Local Notation "'xor_at' j" := (Z.lxor (mb (a + j)) (mb (b + j)))
  (at level 10, j at level 9).

Lemma byte_equal_bits j i :
  0 <= j -> mb (a + j) = mb (b + j) -> 8 * j <= i < 8 * j + 8 ->
  Bits.get_bit mb a i = Bits.get_bit mb b i.
Proof.
  intros Hj E Hi. replace i with (8 * j + (i - 8 * j)) by lia.
  rewrite !get_bit_in_byte by lia. now rewrite E.
Qed.

(** The first bit on which the bytes at [j] differ. *)
Lemma byte_first_difference j :
  0 <= j -> xor_at j <> 0 ->
  let r := 8 * j + 8 - flsnz8 (xor_at j) in
  8 * j <= r < 8 * j + 8 /\
  (forall i, 8 * j <= i < r -> Bits.get_bit mb a i = Bits.get_bit mb b i) /\
  Bits.get_bit mb a r <> Bits.get_bit mb b r.
Proof.
  intros Hj Hn r.
  pose proof (Hbytes (a + j)) as Ha. pose proof (Hbytes (b + j)) as Hb.
  pose proof (byte_lxor_range _ _ Ha Hb) as Hc.
  assert (Hc' : 0 < xor_at j < 256) by lia.
  pose proof (byte_log2 _ Hc') as Hl.
  destruct (lxor_top_bit _ _ Hn (proj1 Ha) (proj1 Hb)) as [Hd He].
  assert (Er : r = 8 * j + (7 - Z.log2 (xor_at j)))
    by (unfold r; rewrite flsnz8_log2 by assumption; lia).
  split; [lia|]. split.
  - intros i Hi. replace i with (8 * j + (i - 8 * j)) by lia.
    rewrite !get_bit_in_byte by lia. f_equal. apply He. lia.
  - rewrite Er, !get_bit_in_byte by lia.
    replace (7 - (7 - Z.log2 (xor_at j))) with (Z.log2 (xor_at j)) by lia.
    intros E. apply Hd.
    destruct (Z.testbit (mb (a + j)) _), (Z.testbit (mb (b + j)) _);
      simpl in E; congruence.
Qed.

(** ** [equal_bits] *)

Lemma equal_bits_loop_spec len :
  forall (n : nat) j,
    0 <= j -> len - 8 * j <= 8 * Z.of_nat n ->
    exists r,
      (fun fuel => Bits.equal_bits_loop fuel mb (a + j) (b + j) (8 * j) len)
        ⇓ r /\
      8 * j <= r /\
      (forall i, 8 * j <= i < r ->
                 Bits.get_bit mb a i = Bits.get_bit mb b i) /\
      (r < len -> Bits.get_bit mb a r <> Bits.get_bit mb b r).
Proof.
  induction n as [|n IH]; intros j Hj Hn.
  - exists (8 * j). split; [|split; [lia|split; intros; lia]].
    apply terminates_now. intros fuel. cbn [Bits.equal_bits_loop].
    destruct (Z.ltb_spec (8 * j) len); [lia|reflexivity].
  - destruct (Z.ltb_spec (8 * j) len) as [Hlt|Hge].
    2:{ exists (8 * j). split; [|split; [lia|split; intros; lia]].
        apply terminates_now. intros fuel. cbn [Bits.equal_bits_loop].
        destruct (Z.ltb_spec (8 * j) len); [lia|reflexivity]. }
    assert (Estep : forall fuel,
      Bits.equal_bits_loop (S fuel) mb (a + j) (b + j) (8 * j) len =
      if negb (xor_at j =? 0)
      then Some (8 * j + 8 - flsnz8 (xor_at j))
      else Bits.equal_bits_loop fuel mb (a + (j + 1)) (b + (j + 1))
             (8 * (j + 1)) len).
    { intros fuel. cbn [Bits.equal_bits_loop].
      destruct (Z.ltb_spec (8 * j) len); [|lia].
      replace (b + j + 1 - 1) with (b + j) by lia.
      replace (a + j + 1 - 1) with (a + j) by lia.
      rewrite (Z.lxor_comm (mb (b + j))).
      replace (a + j + 1) with (a + (j + 1)) by lia.
      replace (b + j + 1) with (b + (j + 1)) by lia.
      replace (8 * j + 8) with (8 * (j + 1)) by lia. reflexivity. }
    destruct (Z.eqb_spec (xor_at j) 0) as [E|E].
    + destruct (IH (j + 1)) as (r & T & Hr & Heq & Hdf); [lia|lia|].
      exists r. split; [|split; [lia|split; auto]].
      * eapply terminates_step; [|exact T]. intros fuel. rewrite Estep.
        destruct (Z.eqb_spec (xor_at j) 0); [reflexivity|contradiction].
      * intros i Hi. destruct (Z.lt_ge_cases i (8 * j + 8)).
        -- apply (byte_equal_bits j); [lia| |lia].
           now apply Z.lxor_eq_0_iff.
        -- apply Heq. lia.
    + destruct (byte_first_difference j Hj E) as (Hr & Heq & Hdf).
      exists (8 * j + 8 - flsnz8 (xor_at j)).
      split; [|split; [lia|split; auto]].
      apply terminates_now. intros fuel. rewrite Estep.
      destruct (Z.eqb_spec (xor_at j) 0); [contradiction|reflexivity].
Qed.

(** ** [check_bits] *)

Lemma last_byte_spec s len :
  0 <= s -> 8 * s < len <= 8 * s + 8 ->
  (shr32 (xor_at s) (8 * s + 8 - len) = 0 <->
   forall i, 8 * s <= i < len -> Bits.get_bit mb a i = Bits.get_bit mb b i).
Proof.
  intros Hs Hl. unfold shr32.
  destruct (Z.leb_spec 0 (8 * s + 8 - len)); [|lia].
  destruct (Z.ltb_spec (8 * s + 8 - len) 32); [|lia]. simpl andb. cbv iota.
  pose proof (Hbytes (a + s)) as Ha. pose proof (Hbytes (b + s)) as Hb.
  rewrite shiftr_zero_iff by lia. split.
  - intros Hall i Hi. replace i with (8 * s + (i - 8 * s)) by lia.
    rewrite !get_bit_in_byte by lia. f_equal.
    specialize (Hall (7 - (i - 8 * s)) ltac:(lia)).
    rewrite Z.lxor_spec in Hall.
    destruct (Z.testbit (mb (a + s)) _), (Z.testbit (mb (b + s)) _);
      simpl in Hall; congruence.
  - intros Hall p Hp. rewrite Z.lxor_spec.
    destruct (Z.le_gt_cases 8 p) as [H8|H8].
    + now rewrite !byte_high_bits by assumption.
    + specialize (Hall (8 * s + (7 - p)) ltac:(lia)).
      rewrite !get_bit_in_byte in Hall by lia.
      replace (7 - (7 - p)) with p in Hall by lia.
      destruct (Z.testbit (mb (a + s)) p), (Z.testbit (mb (b + s)) p);
        simpl in *; congruence.
Qed.

Lemma check_bits_loop_spec len :
  forall (n : nat) s,
    0 <= s -> 8 * s + 8 < len -> len - (8 * s + 8) <= 8 * Z.of_nat n ->
    exists r,
      (fun fuel => Bits.check_bits_loop fuel mb a b s (xor_at s)
                     (8 * s + 8 - len)) ⇓ r /\
      (r = 0 <->
       forall i, 8 * s <= i < len ->
                 Bits.get_bit mb a i = Bits.get_bit mb b i).
Proof.
  induction n as [|n IH]; intros s Hs Hlt Hn; [lia|].
  assert (Estep : forall fuel,
    Bits.check_bits_loop (S fuel) mb a b s (xor_at s) (8 * s + 8 - len) =
    if negb (xor_at s =? 0) then Some (xor_at s)
    else if 8 * (s + 1) + 8 - len >=? 0
         then Some (shr32 (xor_at (s + 1)) (8 * (s + 1) + 8 - len))
         else Bits.check_bits_loop fuel mb a b (s + 1) (xor_at (s + 1))
                (8 * (s + 1) + 8 - len)).
  { intros fuel. cbn [Bits.check_bits_loop].
    replace (8 * s + 8 - len + 8) with (8 * (s + 1) + 8 - len) by lia.
    reflexivity. }
  destruct (Z.eqb_spec (xor_at s) 0) as [E|E].
  - assert (Hs0 : forall i, 8 * s <= i < 8 * s + 8 ->
                    Bits.get_bit mb a i = Bits.get_bit mb b i).
    { intros i Hi. apply (byte_equal_bits s); [lia| |lia].
      now apply Z.lxor_eq_0_iff. }
    destruct (Z.geb_spec (8 * (s + 1) + 8 - len) 0) as [Hb|Hb].
    + exists (shr32 (xor_at (s + 1)) (8 * (s + 1) + 8 - len)). split.
      * apply terminates_now. intros fuel. rewrite Estep.
        destruct (Z.eqb_spec (xor_at s) 0); [|contradiction]. simpl negb.
        cbv iota.
        destruct (Z.geb_spec (8 * (s + 1) + 8 - len) 0); [reflexivity|lia].
      * rewrite last_byte_spec by lia. split.
        -- intros H i Hi. destruct (Z.lt_ge_cases i (8 * s + 8)).
           ++ apply Hs0. lia.
           ++ apply H. lia.
        -- intros H i Hi. apply H. lia.
    + destruct (IH (s + 1)) as (r & T & Hr); [lia|lia|lia|].
      exists r. split.
      * eapply terminates_step; [|exact T]. intros fuel. rewrite Estep.
        destruct (Z.eqb_spec (xor_at s) 0); [|contradiction]. simpl negb.
        cbv iota.
        destruct (Z.geb_spec (8 * (s + 1) + 8 - len) 0); [lia|reflexivity].
      * rewrite Hr. split.
        -- intros H i Hi. destruct (Z.lt_ge_cases i (8 * s + 8)).
           ++ apply Hs0. lia.
           ++ apply H. lia.
        -- intros H i Hi. apply H. lia.
  - exists (xor_at s). split.
    + apply terminates_now. intros fuel. rewrite Estep.
      destruct (Z.eqb_spec (xor_at s) 0); [contradiction|reflexivity].
    + split; [contradiction|]. intros H. exfalso.
      destruct (byte_first_difference s Hs E) as (Hr & _ & Hdf).
      apply Hdf, H. lia.
Qed.

(** ** [string_equal_bits] *)

Lemma string_equal_bits_loop_spec :
  forall (k : nat) beg,
    0 <= beg ->
    (exists z, beg <= z < beg + Z.of_nat k /\
               (mb (a + z) <> mb (b + z) \/ mb (b + z) = 0)) ->
    exists r,
      (fun fuel => Bits.string_equal_bits_loop fuel mb a b beg) ⇓ r /\
      (r = -1 ->
       exists z, beg <= z /\ mb (b + z) = 0 /\
                 forall j, beg <= j <= z -> mb (a + j) = mb (b + j)) /\
      (r <> -1 ->
       8 * beg <= r /\
       (forall i, 8 * beg <= i < r ->
                  Bits.get_bit mb a i = Bits.get_bit mb b i) /\
       Bits.get_bit mb a r <> Bits.get_bit mb b r /\
       forall j, beg <= j < r / 8 ->
                 mb (a + j) = mb (b + j) /\ mb (b + j) <> 0).
Proof.
  induction k as [|k IH]; intros beg Hbeg (z & Hz & Hstop); [lia|].
  assert (Estep : forall fuel,
    Bits.string_equal_bits_loop (S fuel) mb a b beg =
    if negb (xor_at beg =? 0)
    then Some (8 * beg + 8 - flsnz8 (xor_at beg))
    else if mb (b + beg) =? 0 then Some (-1)
         else Bits.string_equal_bits_loop fuel mb a b (beg + 1)).
  { intros fuel. cbn [Bits.string_equal_bits_loop].
    rewrite Z.shiftl_mul_pow2 by lia. change (2 ^ 3) with 8.
    replace ((beg + 1) * 8) with (8 * beg + 8) by lia. reflexivity. }
  destruct (Z.eqb_spec (xor_at beg) 0) as [E|E].
  - assert (Eb : mb (a + beg) = mb (b + beg)) by now apply Z.lxor_eq_0_iff.
    destruct (Z.eqb_spec (mb (b + beg)) 0) as [Ez|Ez].
    + exists (-1). split; [|split; [|congruence]].
      * apply terminates_now. intros fuel. rewrite Estep.
        destruct (Z.eqb_spec (xor_at beg) 0); [|contradiction]. simpl negb.
        cbv iota. destruct (Z.eqb_spec (mb (b + beg)) 0);
          [reflexivity|contradiction].
      * intros _. exists beg. split; [lia|]. split; [assumption|].
        intros j Hj. now replace j with beg by lia.
    + destruct (IH (beg + 1)) as (r & T & Hm & Hd); [lia| |].
      { exists z. split; [|assumption].
        assert (z <> beg) by (intros ->; destruct Hstop; contradiction).
        lia. }
      exists r. split; [|split].
      * eapply terminates_step; [|exact T]. intros fuel. rewrite Estep.
        destruct (Z.eqb_spec (xor_at beg) 0); [|contradiction]. simpl negb.
        cbv iota. destruct (Z.eqb_spec (mb (b + beg)) 0);
          [contradiction|reflexivity].
      * intros Hr. destruct (Hm Hr) as (z' & Hz' & Hz0 & Heq).
        exists z'. split; [lia|]. split; [assumption|].
        intros j Hj. destruct (Z.eq_dec j beg) as [->|]; [assumption|].
        apply Heq. lia.
      * intros Hr. destruct (Hd Hr) as (H8 & Heq & Hdf & Hnz).
        split; [lia|]. split; [|split; [assumption|]].
        -- intros i Hi. destruct (Z.lt_ge_cases i (8 * beg + 8)).
           ++ apply (byte_equal_bits beg); [lia|assumption|lia].
           ++ apply Heq. lia.
        -- intros j Hj. destruct (Z.eq_dec j beg) as [->|]; [auto|].
           apply Hnz. lia.
  - destruct (byte_first_difference beg Hbeg E) as (Hr & Heq & Hdf).
    exists (8 * beg + 8 - flsnz8 (xor_at beg)). split; [|split].
    + apply terminates_now. intros fuel. rewrite Estep.
      destruct (Z.eqb_spec (xor_at beg) 0); [contradiction|reflexivity].
    + intros H. lia.
    + intros _. split; [lia|]. split; [assumption|]. split; [assumption|].
      intros j Hj. exfalso.
      assert ((8 * beg + 8 - flsnz8 (xor_at beg)) / 8 = beg)
        by (Z.div_mod_to_equations; lia).
      lia.
Qed.

End BitBlocks.

(** ** The scans of the wider types *)

Lemma fls64_log2 x : 0 < x < 2 ^ 64 -> fls64 x = Z.log2 x + 1.
Proof.
  intros Hx. unfold fls64, flsnz, to_uint32, UINT32_MOD. cbv zeta.
  change 0x20 with 32.
  assert (Hh : 0 <= Z.shiftr x 32 < 2 ^ 32).
  { rewrite Z.shiftr_div_pow2 by lia. split; [apply Z.div_pos; lia|].
    apply Z.div_lt_upper_bound; lia. }
  rewrite (Z.mod_small (Z.shiftr x 32)) by assumption.
  destruct (Z.eqb_spec (Z.shiftr x 32) 0) as [E|E]; simpl negb; cbv iota.
  - rewrite Z.shiftr_div_pow2 in E by lia.
    assert (x < 2 ^ 32).
    { destruct (Z.lt_ge_cases x (2 ^ 32)); auto.
      assert (1 <= x / 2 ^ 32) by (apply Z.div_le_lower_bound; lia). lia. }
    rewrite Z.mod_small by lia. reflexivity.
  - rewrite Z.log2_shiftr by lia.
    assert (2 ^ 32 <= x).
    { destruct (Z.lt_ge_cases x (2 ^ 32)); auto. exfalso. apply E.
      rewrite Z.shiftr_div_pow2 by lia. apply Z.div_small. lia. }
    assert (32 <= Z.log2 x) by (apply Z.log2_le_pow2; lia). lia.
Qed.

Lemma fls128_log2 x : 0 < x < 2 ^ 128 -> fls128 x = Z.log2 x + 1.
Proof.
  intros Hx. unfold fls128, to_uint64, UINT64_MOD. cbv zeta.
  change 0x40 with 64.
  assert (Hh : 0 <= Z.shiftr x 64 < 2 ^ 64).
  { rewrite Z.shiftr_div_pow2 by lia. split; [apply Z.div_pos; lia|].
    apply Z.div_lt_upper_bound; lia. }
  rewrite (Z.mod_small (Z.shiftr x 64)) by assumption.
  destruct (Z.eqb_spec (Z.shiftr x 64) 0) as [E|E]; simpl negb; cbv iota.
  - rewrite Z.shiftr_div_pow2 in E by lia.
    assert (x < 2 ^ 64).
    { destruct (Z.lt_ge_cases x (2 ^ 64)); auto.
      assert (1 <= x / 2 ^ 64) by (apply Z.div_le_lower_bound; lia). lia. }
    rewrite Z.mod_small by lia. apply fls64_log2. lia.
  - rewrite fls64_log2 by lia. rewrite Z.log2_shiftr by lia.
    assert (2 ^ 64 <= x).
    { destruct (Z.lt_ge_cases x (2 ^ 64)); auto. exfalso. apply E.
      rewrite Z.shiftr_div_pow2 by lia. apply Z.div_small. lia. }
    assert (64 <= Z.log2 x) by (apply Z.log2_le_pow2; lia). lia.
Qed.

(** X17. The bit scans return the position of the highest bit set,
    counted from 1: [fls128] on a non-zero value of 128 bits, [fls64] on
    one of 64 bits, and [flsnz8_generic], with its table in a constant,
    on a non-zero byte; so a value [x] lies between [2^(n-1)] and [2^n]
    for the [n] returned. *)
Theorem fls_highest_bit {U : UndefShift} x :
  0 < x < 2 ^ 128 ->
  fls128 x = Z.log2 x + 1 /\
  2 ^ (fls128 x - 1) <= x < 2 ^ fls128 x /\
  (x < 2 ^ 64 -> fls64 x = fls128 x) /\
  (x < 2 ^ 8 -> flsnz8 x = fls128 x /\ flsnz8_generic x = fls128 x).
Proof.
  intros Hx. rewrite fls128_log2 by assumption.
  split; [reflexivity|]. split; [|split].
  - replace (Z.log2 x + 1 - 1) with (Z.log2 x) by lia.
    replace (Z.log2 x + 1) with (Z.succ (Z.log2 x)) by lia.
    apply Z.log2_spec. lia.
  - intros H. apply fls64_log2. lia.
  - intros H. change (2 ^ 8) with 256 in H. split.
    + apply flsnz8_log2. lia.
    + apply (flsnz8_log2 x). lia.
Qed.

Lemma fls_highest_bit_witness :
  @flsnz8 shr_zero 0x50 = fls128 0x50 /\
  @flsnz8_generic shr_zero 0x50 = fls128 0x50.
Proof.
  apply (@fls_highest_bit shr_zero 0x50); lia.
Defined.

(** ** Blocks *)

Lemma cmp_bits_get_bit mb a b i :
  Bits.cmp_bits mb a b i = Bits.get_bit mb a i - Bits.get_bit mb b i.
Proof. reflexivity. Qed.

(** X18. [equal_bits] returns the number of the first bit on which the
    two blocks differ, bit 0 being the highest bit of the first byte and
    the search starting at the byte that holds bit [ignore]: all the bits
    from there up to the one returned are the same in both blocks (so
    [get_bit] agrees on them and [cmp_bits] is 0), and when the result is
    below [len] that bit differs.  A result of [len] or more tells that
    the blocks are equal up to [len]. *)
Theorem equal_bits_first_difference {U : UndefShift} mb a b ignore len :
  (forall x, 0 <= mb x < 256) -> 0 <= ignore ->
  exists r,
    (fun fuel => Bits.equal_bits fuel mb a b ignore len) ⇓ r /\
    8 * (ignore / 8) <= r /\
    (forall i, 8 * (ignore / 8) <= i < r ->
       Bits.get_bit mb a i = Bits.get_bit mb b i /\
       Bits.cmp_bits mb a b i = 0) /\
    (r < len ->
       Bits.get_bit mb a r <> Bits.get_bit mb b r /\
       Bits.cmp_bits mb a b r <> 0).
Proof.
  intros Hb Hi.
  assert (Hj : 0 <= ignore / 8) by (apply Z.div_pos; lia).
  destruct (equal_bits_loop_spec mb Hb a b len (Z.to_nat len) (ignore / 8) Hj)
    as (r & T & Hr & Heq & Hdf); [lia|].
  exists r. split; [|split; [assumption|split]].
  - eapply terminates_ext; [|exact T]. intros fuel. unfold Bits.equal_bits.
    cbv zeta. rewrite Z.shiftr_div_pow2, Z.shiftl_mul_pow2 by lia.
    change (2 ^ 3) with 8. now rewrite (Z.mul_comm (ignore / 8)).
  - intros i Hi'. rewrite cmp_bits_get_bit, (Heq i Hi'). split; [auto|lia].
  - intros Hl. specialize (Hdf Hl). rewrite cmp_bits_get_bit. split; [auto|lia].
Qed.

Definition ex_bytes : bytes :=
  fun x => if x =? 1 then 0x41 else if x =? 5 then 0x43 else
           if x =? 0 then 0x61 else if x =? 4 then 0x61 else 0.

Lemma ex_bytes_range x : 0 <= ex_bytes x < 256.
Proof.
  unfold ex_bytes.
  destruct (x =? 1); [lia|]. destruct (x =? 5); [lia|].
  destruct (x =? 0); [lia|]. destruct (x =? 4); lia.
Qed.

Lemma equal_bits_first_difference_witness :
  exists r,
    (fun fuel => @Bits.equal_bits shr_zero fuel ex_bytes 0 4 3 16) ⇓ r /\
    8 * (3 / 8) <= r /\
    (forall i, 8 * (3 / 8) <= i < r ->
       Bits.get_bit ex_bytes 0 i = Bits.get_bit ex_bytes 4 i /\
       Bits.cmp_bits ex_bytes 0 4 i = 0) /\
    (r < 16 ->
       Bits.get_bit ex_bytes 0 r <> Bits.get_bit ex_bytes 4 r /\
       Bits.cmp_bits ex_bytes 0 4 r <> 0).
Proof.
  apply (@equal_bits_first_difference shr_zero ex_bytes 0 4 3 16
           ex_bytes_range).
  lia.
Defined.

Example ex_bytes_equal_bits :
  @Bits.equal_bits shr_zero 4 ex_bytes 0 4 3 16 = Some 14 /\
  Bits.cmp_bits ex_bytes 0 4 14 = -1.
Proof. split; reflexivity. Qed.

(** X19. [check_bits], called with [skip] whole bytes before bit [len],
    returns 0 exactly when the two blocks have the same bits from bit
    [8 * skip] up to bit [len], that one left out. *)
Theorem check_bits_zero_iff {U : UndefShift} mb a b skip len :
  (forall x, 0 <= mb x < 256) -> 0 <= skip -> 8 * skip < len ->
  exists r,
    (fun fuel => Bits.check_bits fuel mb a b skip len) ⇓ r /\
    (r = 0 <->
     forall i, 8 * skip <= i < len ->
               Bits.get_bit mb a i = Bits.get_bit mb b i).
Proof.
  intros Hb Hs Hl.
  assert (Ebit : Z.lnot len + Z.shiftl skip 3 + 9 = 8 * skip + 8 - len).
  { rewrite Z.shiftl_mul_pow2 by lia. change (2 ^ 3) with 8.
    unfold Z.lnot. lia. }
  destruct (Z.le_gt_cases len (8 * skip + 8)) as [Hle|Hgt].
  - exists (shr32 (Z.lxor (mb (a + skip)) (mb (b + skip)))
                  (8 * skip + 8 - len)).
    split.
    + apply terminates_now. intros fuel. unfold Bits.check_bits. cbv zeta.
      rewrite Ebit.
      destruct (Z.geb_spec (8 * skip + 8 - len) 0); [reflexivity|lia].
    + apply last_byte_spec; auto; lia.
  - destruct (check_bits_loop_spec mb Hb a b len (Z.to_nat len) skip Hs Hgt)
      as (r & T & Hr); [lia|].
    exists r. split; [|exact Hr].
    eapply terminates_ext; [|exact T]. intros fuel. unfold Bits.check_bits.
    cbv zeta. rewrite Ebit.
    destruct (Z.geb_spec (8 * skip + 8 - len) 0); [lia|reflexivity].
Qed.

Lemma check_bits_zero_iff_witness :
  exists r,
    (fun fuel => @Bits.check_bits shr_zero fuel ex_bytes 0 4 0 14) ⇓ r /\
    (r = 0 <->
     forall i, 8 * 0 <= i < 14 ->
               Bits.get_bit ex_bytes 0 i = Bits.get_bit ex_bytes 4 i).
Proof.
  apply (@check_bits_zero_iff shr_zero ex_bytes 0 4 0 14 ex_bytes_range); lia.
Defined.

Example ex_bytes_check_bits :
  @Bits.check_bits shr_zero 4 ex_bytes 0 4 0 14 = Some 0 /\
  @Bits.check_bits shr_zero 4 ex_bytes 0 4 0 15 = Some 1.
Proof. split; reflexivity. Qed.

(** X20. [string_equal_bits] on two strings that end, or differ, at some
    byte from the one that holds bit [ignore] on: it returns -1 when the
    strings are the same up to a zero byte, that byte included; otherwise
    it returns the number of the first bit on which they differ, no zero
    byte coming before the byte of that bit. *)
Theorem string_equal_bits_first_difference {U : UndefShift} mb a b ignore :
  (forall x, 0 <= mb x < 256) -> 0 <= ignore ->
  (exists z, ignore / 8 <= z /\
             (mb (a + z) <> mb (b + z) \/ mb (b + z) = 0)) ->
  exists r,
    (fun fuel => Bits.string_equal_bits fuel mb a b ignore) ⇓ r /\
    (r = -1 ->
     exists z, ignore / 8 <= z /\ mb (b + z) = 0 /\
               forall j, ignore / 8 <= j <= z -> mb (a + j) = mb (b + j)) /\
    (r <> -1 ->
     8 * (ignore / 8) <= r /\
     (forall i, 8 * (ignore / 8) <= i < r ->
                Bits.get_bit mb a i = Bits.get_bit mb b i) /\
     Bits.get_bit mb a r <> Bits.get_bit mb b r /\
     forall j, ignore / 8 <= j < r / 8 ->
               mb (a + j) = mb (b + j) /\ mb (b + j) <> 0).
Proof.
  intros Hb Hi (z & Hz & Hstop).
  assert (Hj : 0 <= ignore / 8) by (apply Z.div_pos; lia).
  destruct (string_equal_bits_loop_spec mb Hb a b
              (Z.to_nat (z - ignore / 8 + 1)) (ignore / 8) Hj)
    as (r & T & Hr); [exists z; split; [lia|assumption]|].
  exists r. split; [|exact Hr].
  eapply terminates_ext; [|exact T]. intros fuel.
  unfold Bits.string_equal_bits. rewrite Z.shiftr_div_pow2 by lia.
  reflexivity.
Qed.

Lemma string_equal_bits_first_difference_witness :
  exists r,
    (fun fuel => @Bits.string_equal_bits shr_zero fuel ex_bytes 0 4 0) ⇓ r /\
    (r = -1 ->
     exists z, 0 / 8 <= z /\ ex_bytes (4 + z) = 0 /\
               forall j, 0 / 8 <= j <= z -> ex_bytes (0 + j) = ex_bytes (4 + j)) /\
    (r <> -1 ->
     8 * (0 / 8) <= r /\
     (forall i, 8 * (0 / 8) <= i < r ->
                Bits.get_bit ex_bytes 0 i = Bits.get_bit ex_bytes 4 i) /\
     Bits.get_bit ex_bytes 0 r <> Bits.get_bit ex_bytes 4 r /\
     forall j, 0 / 8 <= j < r / 8 ->
               ex_bytes (0 + j) = ex_bytes (4 + j) /\ ex_bytes (4 + j) <> 0).
Proof.
  apply (@string_equal_bits_first_difference shr_zero ex_bytes 0 4 0
           ex_bytes_range); [lia|].
  exists 1. split; [vm_compute; discriminate|]. left. vm_compute. discriminate.
Defined.

Example ex_bytes_string_equal_bits :
  @Bits.string_equal_bits shr_zero 4 ex_bytes 0 4 0 = Some 14 /\
  @Bits.string_equal_bits shr_zero 4 ex_bytes 0 0 0 = Some (-1).
Proof. split; reflexivity. Qed.

(** ** Tagged pointers *)

(** X21. A tag put on a pointer to a structure, whose address is even, is
    read back by [eb_gettag], and the pointer is given back by [eb_untag]
    with that tag and by [eb_clrtag] whatever the tag; two tagged pointers
    are equal only when pointer and tag are. *)
Theorem tag_round_trip p tag :
  aligned p -> 0 <= tag <= 1 ->
  eb_gettag (eb_dotag p tag) = tag /\
  eb_untag (eb_dotag p tag) tag = p /\
  eb_clrtag (eb_dotag p tag) = p /\
  eb_root_to_node (eb_untag (eb_dotag p tag) tag) = p /\
  forall q tag', aligned q -> 0 <= tag' <= 1 ->
    eb_dotag p tag = eb_dotag q tag' -> p = q /\ tag = tag'.
Proof.
  intros Hp Ht. split; [now apply gettag_dotag|].
  split; [apply untag_dotag|]. split; [now apply clrtag_dotag|].
  split; [unfold eb_root_to_node; apply untag_dotag|].
  intros q tag' Hq Ht' E. unfold eb_dotag, aligned in *.
  Z.div_mod_to_equations. lia.
Qed.

Lemma tag_round_trip_witness :
  eb_gettag (eb_dotag 16 EB_RGHT) = EB_RGHT /\
  eb_untag (eb_dotag 16 EB_RGHT) EB_RGHT = 16 /\
  eb_clrtag (eb_dotag 16 EB_RGHT) = 16.
Proof.
  destruct (tag_round_trip 16 EB_RGHT) as (H1 & H2 & H3 & _);
    [reflexivity|unfold EB_RGHT; lia|].
  split; [exact H1|]. split; [exact H2|exact H3].
Defined.

(** * Which of the duplicates [eb32_lookup] returns

    A lookup stops at the first node whose key is the one looked for.  What
    it returns there is the first leaf of that key, because of the cells
    that the nodes belong to: the node of a tree of duplicates belongs to
    the first leaf of its right side, and a node that splits on a bit
    belongs to the first leaf of its key. *)

Section Owners.

Context {U : UndefShift}.
Variable kf : Z -> Z.

(** [c] is the first cell of [L] with its key. *)
Definition first_key (c : Z) (L : list Z) : Prop :=
  exists rest, filter (fun y => kf y =? kf c) L = c :: rest.

Fixpoint owners (t : tree) : Prop :=
  match t with
  | Leaf _ => True
  | Node c k l r =>
      (if k <? 0 then c = first_leaf r
       else first_key c (leaves l ++ leaves r)) /\
      owners l /\ owners r
  end.

Lemma first_key_In c L : first_key c L -> In c L.
Proof.
  intros [rest E].
  assert (H : In c (filter (fun y => kf y =? kf c) L))
    by (rewrite E; now left).
  apply filter_In in H. tauto.
Qed.

Lemma first_key_hd c L : first_key c (c :: L).
Proof. unfold first_key. simpl. rewrite Z.eqb_refl. eauto. Qed.

Lemma first_key_first_leaf t : first_key (first_leaf t) (leaves t).
Proof.
  destruct (leaves_first t) as [l E]. rewrite E. apply first_key_hd.
Qed.

(** One more cell, after which no cell has its key. *)
Lemma first_key_insert c n l1 l2 :
  (forall y, In y l2 -> kf y <> kf n) ->
  first_key c (l1 ++ l2) -> first_key c (l1 ++ n :: l2).
Proof.
  intros P [rest E]. unfold first_key. rewrite filter_app in *. simpl.
  destruct (Z.eqb_spec (kf n) (kf c)) as [En|En]; [|eauto].
  rewrite (filter_none _ l2) in *.
  2:{ intros y Hy. apply Z.eqb_neq. rewrite <- En. auto. }
  2:{ intros y Hy. apply Z.eqb_neq. rewrite <- En. auto. }
  rewrite app_nil_r in E. rewrite E. simpl. eauto.
Qed.

(** One cell less. *)
Lemma first_key_remove c x l1 l2 :
  x <> c -> first_key x (l1 ++ c :: l2) -> first_key x (l1 ++ l2).
Proof.
  intros Hx [rest E]. unfold first_key. rewrite filter_app in *. simpl in E.
  destruct (kf c =? kf x); [|eauto].
  destruct (filter _ l1) as [|a f1]; simpl in *.
  - injection E as E _. congruence.
  - injection E as -> _. eauto.
Qed.

Lemma first_key_app_l c A B : first_key c A -> first_key c (A ++ B).
Proof.
  intros [rest E]. unfold first_key. rewrite filter_app, E. simpl. eauto.
Qed.

Lemma first_key_app_r c A B :
  (forall y, In y A -> kf y <> kf c) -> first_key c B -> first_key c (A ++ B).
Proof.
  intros H [rest E]. unfold first_key. rewrite filter_app, E.
  rewrite filter_none; [simpl; eauto|].
  intros y Hy. apply Z.eqb_neq. auto.
Qed.

Lemma first_key_left c A B : first_key c (A ++ B) -> In c A -> first_key c A.
Proof.
  intros [rest E] Hc. unfold first_key. rewrite filter_app in E.
  assert (H : In c (filter (fun y => kf y =? kf c) A))
    by (apply filter_In; split; auto; apply Z.eqb_refl).
  destruct (filter _ A) as [|a f1]; [destruct H|].
  simpl in E. injection E as -> _. eauto.
Qed.

Lemma first_key_right c A B :
  first_key c (A ++ B) -> ~ In c A ->
  first_key c B /\ forall y, In y A -> kf y <> kf c.
Proof.
  intros [rest E] Hc. rewrite filter_app in E.
  destruct (filter (fun y => kf y =? kf c) A) as [|a f1] eqn:Ef.
  - simpl in E. split; [exists rest; exact E|].
    intros y Hy Ey.
    assert (H : In y (filter (fun y => kf y =? kf c) A))
      by (apply filter_In; split; auto; now apply Z.eqb_eq).
    rewrite Ef in H. exact H.
  - simpl in E. injection E as -> _. exfalso. apply Hc.
    assert (H : In c (filter (fun y => kf y =? kf c) A))
      by (rewrite Ef; now left).
    apply filter_In in H. tauto.
Qed.

Lemma first_key_same c L :
  same_keys kf L -> first_key c L -> hd NULL L = c.
Proof.
  intros Hs H. pose proof (first_key_In _ _ H) as Hc. destruct H as [rest E].
  rewrite filter_all in E; [now rewrite E|].
  intros y Hy. apply Z.eqb_eq. now apply Hs.
Qed.

Lemma first_key_found c L :
  first_key c L -> hd NULL (filter (fun y => kf y =? kf c) L) = c.
Proof. intros [rest E]. now rewrite E. Qed.

(** ** Insertion *)

Lemma graft_leaf_first n t : first_leaf (graft_leaf n t) = first_leaf t.
Proof. destruct t; reflexivity. Qed.

Lemma graft_above_first sub n t :
  first_leaf (graft_above sub n t) = first_leaf t.
Proof.
  destruct t as [x|x k l r]; simpl; auto. destruct (x =? sub); reflexivity.
Qed.

Lemma graft_leaf_owners n t : owners t -> owners (graft_leaf n t).
Proof.
  induction t as [x|x k l IHl r IHr]; simpl.
  - auto.
  - intros (H & Hl & Hr). split; [|auto].
    rewrite graft_leaf_first, graft_leaf_leaves.
    destruct (k <? 0); auto. rewrite app_assoc. now apply first_key_app_l.
Qed.

Lemma graft_above_owners sub n t :
  negbits t -> owners t -> owners (graft_above sub n t).
Proof.
  induction t as [x|x k l IHl r IHr]; simpl; auto.
  intros (Hk & Nl & Nr) (H & Hl & Hr).
  destruct (Z.ltb_spec k 0); [|lia].
  destruct (x =? sub); simpl.
  - destruct (Z.ltb_spec (k - 1) 0); [|lia].
    destruct (Z.ltb_spec k 0); [|lia]. auto.
  - destruct (Z.ltb_spec k 0); [|lia].
    rewrite graft_above_first. auto.
Qed.

Lemma ins_dup_owners n t t' :
  negbits t -> owners t -> ins_dup n t = Some t' -> owners t'.
Proof.
  unfold ins_dup. destruct t as [x|x k l r]; [discriminate|].
  destruct (dup_walk (Node x k l r) x k) as [[[h hk] sub] subk].
  intros Hn Ho. destruct (hk <? -1).
  - intros H. injection H as <-.
    now apply (graft_leaf_owners n (Node x k l r)).
  - destruct (subk - 1 <? SHRT_MIN); [discriminate|].
    intros H. injection H as <-.
    now apply (graft_above_owners sub n (Node x k l r)).
Qed.

Variable uniq : bool.
Hypothesis Hkeys : keys_ok kf.

Lemma ins_here_owners t n t' ret :
  radix kf t -> over t -> owners t ->
  match t with
  | Leaf _ => True
  | Node o k _ _ =>
      k < 0 \/ (0 <= k /\ Z.shiftr (kf n) (k + 1) <> Z.shiftr (kf o) (k + 1))
  end ->
  ins_here kf uniq n t (tcell t) = Some (t', ret) ->
  owners t'.
Proof.
  intros Hr Ho Hw Hstop Hi. unfold ins_here in Hi.
  destruct (Z.eqb_spec (kf n) (kf (tcell t))) as [Ek|Ek].
  - destruct uniq.
    + now injection Hi as <- <-.
    + destruct t as [x|x k l r].
      * injection Hi as <- <-. simpl. auto.
      * destruct (ins_dup n (Node x k l r)) as [td|] eqn:Ed; [|discriminate].
        simpl in Hi. injection Hi as <- <-.
        apply (ins_dup_owners n (Node x k l r)); auto.
        simpl in Ek. destruct Hstop as [Hk|[_ Hk]]; [|now rewrite Ek in Hk].
        simpl in Hr. destruct Hr as [(_ & Nl & Nr & _)|(Hk0 & _)]; [|lia].
        simpl. auto.
  - destruct (new_node_bits kf Hkeys t n Hr Ho Ek Hstop)
      as (Hkb & _ & Hb & Hall).
    assert (Hnew : forall y, In y (leaves t) -> kf y <> kf n).
    { intros y Hy E. destruct (Hall y Hy) as [_ Hy']. rewrite E in Hy'.
      congruence. }
    rewrite flsnz_log2 in Hi.
    destruct (kf n >=? kf (tcell t)); injection Hi as <- <-; simpl;
      (destruct (Z.ltb_spec (Z.log2 (Z.lxor (kf n) (kf (tcell t)))) 0);
       [lia|]); (split; [|auto]).
    + apply first_key_app_r; [exact Hnew|apply first_key_hd].
    + apply first_key_hd.
Qed.

Lemma ins_owners n : forall t t' ret,
  radix kf t -> over t -> owners t ->
  ins kf uniq n t = Some (t', ret) -> owners t'.
Proof.
  induction t as [x|x k l IHl r IHr]; intros t' ret Hr Ho Hw H.
  - simpl in H. apply (ins_here_owners (Leaf x) n t' ret); auto.
  - pose proof (ins_landed kf uniq Hkeys n _ _ _ Hr Ho H) as Hland.
    simpl in H.
    pose proof (radix_bit_lt kf _ Hr) as Hk32. simpl in Hk32.
    destruct ((k <? 0) || _) eqn:Estop.
    + apply (ins_here_owners (Node x k l r) n t' ret); auto.
      apply (stop_cond kf Hkeys); auto.
    + assert (Hk0 : 0 <= k < 32).
      { apply orb_false_elim in Estop. destruct Estop as [E _].
        apply Z.ltb_ge in E. lia. }
      assert (Hroot : first_key x (leaves t')).
      { simpl in Hw. destruct Hw as (Hx & _).
        destruct (Z.ltb_spec k 0); [lia|].
        destruct Hland as [(_ & l1 & l2 & E1 & E2 & P)|(-> & _)]; [|exact Hx].
        rewrite E2. apply first_key_insert; auto.
        simpl in E1. now rewrite <- E1. }
      simpl in Hr, Ho, Hw.
      destruct Hr as [(Hk & _)|(_ & Rl & Rr & _)]; [lia|].
      destruct Ho as (_ & Ol & Or). destruct Hw as (_ & Wl & Wr).
      destruct (_ =? EB_LEFT).
      * destruct (ins kf uniq n l) as [[l' ret']|] eqn:E; [|discriminate].
        simpl in H. injection H as <- <-. simpl in *.
        destruct (Z.ltb_spec k 0); [lia|]. split; [exact Hroot|].
        split; auto. eapply IHl; eauto.
      * destruct (ins kf uniq n r) as [[r' ret']|] eqn:E; [|discriminate].
        simpl in H. injection H as <- <-. simpl in *.
        destruct (Z.ltb_spec k 0); [lia|]. split; [exact Hroot|].
        split; auto. eapply IHr; eauto.
Qed.

End Owners.

Lemma owners_ext {U : UndefShift} kf kf' t :
  over t -> (forall y, In y (leaves t) -> kf' y = kf y) ->
  owners kf t -> owners kf' t.
Proof.
  induction t as [x|x k l IHl r IHr]; simpl; auto.
  intros (Hx & Ol & Or) E (H & Hl & Hr).
  split; [|split].
  - destruct (k <? 0); auto. destruct H as [rest H]. exists rest.
    rewrite <- H. apply filter_ext_in. intros y Hy.
    now rewrite (E y Hy), (E x Hx).
  - apply IHl; auto. intros y Hy. apply E, in_or_app. auto.
  - apply IHr; auto. intros y Hy. apply E, in_or_app. auto.
Qed.

(** ** Deletion *)

Section OwnersDelete.

Context {U : UndefShift}.
Variable kf : Z -> Z.

Lemma unlink_first_leaf c : forall t t' q,
  unlink c t = Some (t', q) -> first_leaf t <> c ->
  first_leaf t' = first_leaf t.
Proof.
  induction t as [x|x k l IHl r IHr]; intros t' q H Hf; simpl in H;
    [discriminate|].
  simpl in Hf.
  destruct (is_leaf c l) eqn:El; [|destruct (is_leaf c r) eqn:Er].
  - apply is_leaf_true in El. subst l. simpl in Hf. congruence.
  - injection H as <- <-. reflexivity.
  - destruct (inb c (leaves l)).
    + destruct (unlink c l) as [[l' q']|] eqn:E; [|discriminate].
      simpl in H. injection H as <- <-. simpl. eapply IHl; eauto.
    + destruct (unlink c r) as [[r' q']|] eqn:E; [|discriminate].
      simpl in H. injection H as <- <-. reflexivity.
Qed.

Lemma bit_sides_differ k l r x y :
  bit_is kf k false l -> bit_is kf k true r -> In x l -> In y r ->
  kf x <> kf y.
Proof.
  intros Hl Hr Hx Hy E. specialize (Hl x Hx). specialize (Hr y Hy).
  rewrite E in Hl. congruence.
Qed.

(** The cell of the node that goes away with the leaf [c], when [c] was
    the first of its key, is the first of its key in what is left. *)
Lemma unlink_parent_first c : forall t t' q,
  radix kf t -> over t -> owners kf t -> NoDup (leaves t) ->
  unlink c t = Some (t', q) -> q <> c ->
  first_key kf c (leaves t) -> first_key kf q (leaves t').
Proof.
  induction t as [x|x k l IHl r IHr];
    intros t' q Hr Ho Hw Hnd H Hq Hc; simpl in H; [discriminate|].
  simpl in Hw. destruct Hw as (Hx & Wl & Wr).
  simpl in Ho. destruct Ho as (_ & Ol & Or).
  simpl in Hnd. apply NoDup_app_iff in Hnd.
  destruct Hnd as (Nl & Nr & Hdisj).
  simpl in Hc.
  destruct (is_leaf c l) eqn:El; [|destruct (is_leaf c r) eqn:Er].
  - apply is_leaf_true in El. subst l. injection H as <- <-.
    destruct (k <? 0).
    + subst x. apply first_key_first_leaf.
    + simpl in Hx. now apply (first_key_remove kf c x [] (leaves r)).
  - apply is_leaf_true in Er. subst r. injection H as <- <-.
    destruct (k <? 0).
    + simpl in Hx. congruence.
    + simpl in Hx. rewrite <- (app_nil_r (leaves l)).
      now apply (first_key_remove kf c x (leaves l) []).
  - assert (Rl : radix kf l /\ radix kf r).
    { simpl in Hr. destruct Hr as [(_ & Nbl & Nbr & Hs)|(_ & Rl & Rr & _)];
        [|auto].
      split; apply negbits_radix; eauto using same_keys_app_l, same_keys_app_r. }
    destruct Rl as [Rl Rr].
    destruct (inb c (leaves l)) eqn:Ein.
    + apply inb_In in Ein.
      destruct (unlink c l) as [[l' q']|] eqn:E; [|discriminate].
      simpl in H. injection H as <- Eq. subst q'. simpl.
      apply first_key_app_l. eapply IHl; eauto.
      eapply first_key_left; eauto.
    + apply inb_not_In in Ein.
      destruct (unlink c r) as [[r' q']|] eqn:E; [|discriminate].
      simpl in H. injection H as <- Eq. subst q'. simpl.
      destruct (first_key_right kf _ _ _ Hc Ein) as [Hcr Hno].
      assert (Hq' : first_key kf q (leaves r')) by (eapply IHr; eauto).
      apply first_key_app_r; auto.
      pose proof (unlink_incl _ _ _ _ E _ (first_key_In kf _ _ Hq')) as Hqr.
      simpl in Hr. destruct Hr as [(_ & _ & _ & Hs)|(_ & _ & _ & _ & Bl & Br)].
      * intros y Hy. exfalso. apply (Hno y Hy).
        apply Hs; apply in_or_app; auto. right.
        now apply (first_key_In kf).
      * intros y Hy. eapply bit_sides_differ; eauto.
Qed.

Lemma unlink_owners c : forall t t' q,
  radix kf t -> over t -> distinct t -> owners kf t ->
  unlink c t = Some (t', q) -> owners kf (rename c q t').
Proof.
  induction t as [x|x k l IHl r IHr]; intros t' q Hr Ho Hd Hw H;
    simpl in H; [discriminate|].
  pose proof Hd as [Hnd _]. simpl in Hnd.
  pose proof Hnd as Hnd'. apply NoDup_app_iff in Hnd'.
  destruct Hnd' as (Nl & Nr & Hdisj).
  apply distinct_node in Hd.
  destruct Hd as (Dl & Dr & _ & _ & Hxl & Hxr).
  simpl in Hw. destruct Hw as (Hx & Wl & Wr).
  pose proof Ho as Ho'. simpl in Ho'. destruct Ho' as (Hxin & Ol & Or).
  pose proof (over_nodes_leaves l Ol) as Il.
  pose proof (over_nodes_leaves r Or) as Ir.
  assert (Rl : radix kf l /\ radix kf r).
  { simpl in Hr. destruct Hr as [(_ & Nbl & Nbr & Hs)|(_ & Rl & Rr & _)];
      [|auto].
    split; apply negbits_radix; eauto using same_keys_app_l, same_keys_app_r. }
  destruct Rl as [Rl Rr].
  destruct (is_leaf c l) eqn:El; [|destruct (is_leaf c r) eqn:Er].
  - apply is_leaf_true in El. subst l. injection H as <- <-.
    rewrite rename_id; auto. intros Hc. apply Ir in Hc.
    apply (Hdisj c); simpl; auto.
  - apply is_leaf_true in Er. subst r. injection H as <- <-.
    rewrite rename_id; auto. intros Hc. apply Il in Hc.
    apply (Hdisj c); simpl; auto.
  - destruct (inb c (leaves l)) eqn:Ein.
    + apply inb_In in Ein.
      destruct (unlink c l) as [[l' q']|] eqn:E; [|discriminate].
      simpl in H. injection H as <- Eq. subst q'. simpl.
      assert (Hcr : ~ In c (nodes r)).
      { intros Hc. apply Ir in Hc. apply (Hdisj c); auto. }
      rewrite (rename_id c q r Hcr), !rename_leaves.
      split; [|split; [eapply IHl; eauto|exact Wr]].
      destruct (unlink_spot _ _ _ _ E) as ((l1 & l2 & E1 & E2) & Pn & _).
      destruct (Z.eqb_spec x c) as [->|Hxc].
      * destruct (Z.ltb_spec k 0).
        -- exfalso. apply (Hdisj c); auto. rewrite Hx. apply first_leaf_In.
        -- apply first_key_app_l.
           apply (unlink_parent_first c l l' q); auto.
           ++ intros ->. apply Hxl. apply (Permutation_in _ (Permutation_sym Pn)).
              now left.
           ++ eapply first_key_left; eauto.
      * destruct (Z.ltb_spec k 0); [exact Hx|].
        rewrite E2, <- app_assoc. apply (first_key_remove kf c); auto.
        rewrite E1, <- app_assoc in Hx. exact Hx.
    + apply inb_not_In in Ein.
      destruct (unlink c r) as [[r' q']|] eqn:E; [|discriminate].
      simpl in H. injection H as <- Eq. subst q'. simpl.
      destruct (unlink_spot _ _ _ _ E) as ((l1 & l2 & E1 & E2) & Pn & _).
      assert (Hcinr : In c (leaves r))
        by (rewrite E1; apply in_or_app; right; now left).
      assert (Hcl : ~ In c (nodes l)).
      { intros Hc. apply Il in Hc. contradiction. }
      rewrite (rename_id c q l Hcl), !rename_leaves.
      split; [|split; [exact Wl|eapply IHr; eauto]].
      assert (first_leaf_rename : first_leaf (rename c q r') = first_leaf r').
      { clear. induction r'; simpl; auto. }
      rewrite first_leaf_rename.
      assert (Hqc : x = c -> q <> c).
      { intros -> ->. apply Hxr.
        apply (Permutation_in _ (Permutation_sym Pn)). now left. }
      destruct (Z.eqb_spec x c) as [Exc|Hxc].
      * subst x. specialize (Hqc eq_refl).
        destruct (Z.ltb_spec k 0).
        -- simpl in Hr. destruct Hr as [(_ & _ & _ & Hs)|(Hk0 & _)]; [|lia].
           assert (Hq' : first_key kf q (leaves r')).
           { apply (unlink_parent_first c r r' q); auto.
             rewrite Hx. apply first_key_first_leaf. }
           apply first_key_same in Hq'.
           ++ rewrite <- Hq'.
              rewrite <- (app_nil_r (leaves r')). apply hd_leaves.
           ++ intros a b Ha Hb. apply Hs; apply in_or_app; right;
                eapply unlink_incl; eauto.
        -- destruct (first_key_right kf _ _ _ Hx Ein) as [Hcr Hno].
           assert (Hq' : first_key kf q (leaves r'))
             by (apply (unlink_parent_first c r r' q); auto).
           apply first_key_app_r; auto.
           pose proof (unlink_incl _ _ _ _ E _ (first_key_In kf _ _ Hq')) as Hqr.
           simpl in Hr.
           destruct Hr as [(Hk0 & _)|(_ & _ & _ & _ & Bl & Br)]; [lia|].
           intros y Hy. eapply bit_sides_differ; eauto.
      * destruct (Z.ltb_spec k 0).
        -- rewrite Hx. symmetry. eapply unlink_first_leaf; eauto. congruence.
        -- rewrite E2, app_assoc. apply (first_key_remove kf c); auto.
           rewrite E1, app_assoc in Hx. exact Hx.
Qed.

End OwnersDelete.

(** ** The lookup *)

Section LookupFirst.

Context {U : UndefShift}.
Variable m : mem.
Variable x : Z.
Hypothesis Hx : 0 <= x < UINT32_MOD.
Hypothesis Hkeys : keys_ok (get_key m).

Local Notation "'kf'" := (get_key m).
Local Notation "'hits' L" := (filter (fun c => kf c =? x) L)
  (at level 10, L at level 9).

Lemma hits_none L : (forall c, In c L -> kf c <> x) -> hits L = [].
Proof. intros H. apply filter_none. intros c Hc. apply Z.eqb_neq. auto. Qed.

Lemma eb32_lookup_loop_first : forall t,
  inner m t -> acells t -> radix kf t -> over t -> owners kf t ->
  (fun fuel => eb32_lookup_loop fuel m (ttag t) x) ⇓ hd NULL (hits (leaves t)).
Proof.
  induction t as [c|c k l IHl r IHr]; intros Hi Ha Hr Ho Hw.
  - apply terminates_now. intros fuel. rewrite lookup_step_leaf by exact Ha.
    simpl. now destruct (kf c =? x).
  - pose proof Hi as Hi'. simpl in Hi'.
    destruct Hi' as (Hk & Hbl & Hbr & Hul & Hur & Hil & Hir).
    pose proof Ha as Ha'. simpl in Ha'. destruct Ha' as (Hc & Hal & Har).
    pose proof Ho as Ho'. simpl in Ho'. destruct Ho' as (Hcin & Hol & Hor).
    pose proof Hw as Hw'. simpl in Hw'. destruct Hw' as (Hown & Hwl & Hwr).
    simpl leaves.
    destruct (Z.eqb_spec (Z.lxor (kf c) x) 0) as [Ey|Ey].
    + apply (proj1 (Z.lxor_eq_0_iff _ _)) in Ey.
      destruct (Z.ltb_spec k 0) as [Hk0|Hk0].
      * simpl in Hr. destruct Hr as [(_ & Nl & Nr & Sk)|(Hk1 & _)]; [|lia].
        rewrite filter_all.
        2:{ intros c' Hc'. apply Z.eqb_eq. rewrite <- Ey. now apply Sk. }
        rewrite hd_leaves.
        eapply terminates_step; [|apply (walk_down_left m l Hil Hal)].
        intros fuel. rewrite lookup_step_node by assumption.
        destruct (Z.eqb_spec (Z.lxor (kf c) x) 0) as [_|N];
          [|exfalso; apply N; apply (proj2 (Z.lxor_eq_0_iff _ _)); exact Ey].
        destruct (Z.ltb_spec k 0); [reflexivity|lia].
      * pose proof (first_key_found kf c _ Hown) as Eh. rewrite Ey in Eh.
        rewrite Eh. apply terminates_now. intros fuel.
        rewrite lookup_step_node by assumption.
        destruct (Z.eqb_spec (Z.lxor (kf c) x) 0) as [_|N];
          [|exfalso; apply N; apply (proj2 (Z.lxor_eq_0_iff _ _)); exact Ey].
        destruct (Z.ltb_spec k 0); [lia|reflexivity].
    + assert (Ecx : kf c <> x)
        by (intros E; apply Ey; apply (proj2 (Z.lxor_eq_0_iff _ _)); exact E).
      assert (Estep : forall fuel,
        eb32_lookup_loop (S fuel) m (ttag (Node c k l r)) x =
        if shr32 (Z.lxor (kf c) x) k >=? EB_NODE_BRANCHES then Some NULL
        else eb32_lookup_loop fuel m
               (get_b m c (Z.land (shr32 x k) EB_NODE_BRANCH_MASK)) x).
      { intros fuel. rewrite lookup_step_node by assumption.
        destruct (Z.eqb_spec (Z.lxor (kf c) x) 0); [contradiction|reflexivity]. }
      simpl in Hr.
      destruct Hr as [(Hk0 & Nl & Nr & Sk)|(Hk0 & Rl & Rr & Sa & Bl & Br)].
      * assert (Hno : forall c', In c' (leaves l ++ leaves r) -> kf c' <> x).
        { intros c' Hc'. rewrite (Sk c' c Hc' Hcin). exact Ecx. }
        rewrite (hits_none _ Hno). simpl hd.
        destruct (shr32 (Z.lxor (kf c) x) k >=? EB_NODE_BRANCHES) eqn:E.
        { apply terminates_now. intros fuel.
          rewrite Estep; try rewrite E; reflexivity. }
        destruct (land_mask_cases (shr32 x k)) as [Es|Es].
        { assert (T : (fun fuel => eb32_lookup_loop fuel m (ttag l) x)
                        ⇓ hd NULL (hits (leaves l))).
          { apply IHl; auto. apply negbits_radix; auto.
            eapply same_keys_app_l; eauto. }
          rewrite hits_none in T
            by (intros c' Hc'; apply Hno, in_or_app; auto).
          eapply terminates_step; [|exact T]. intros fuel.
          rewrite Estep; try rewrite E; rewrite Es. change 0 with EB_LEFT.
          now rewrite Hbl. }
        { assert (T : (fun fuel => eb32_lookup_loop fuel m (ttag r) x)
                        ⇓ hd NULL (hits (leaves r))).
          { apply IHr; auto. apply negbits_radix; auto.
            eapply same_keys_app_r; eauto. }
          rewrite hits_none in T
            by (intros c' Hc'; apply Hno, in_or_app; auto).
          eapply terminates_step; [|exact T]. intros fuel.
          rewrite Estep; try rewrite E; rewrite Es. change 1 with EB_RGHT.
          now rewrite Hbr. }
      * pose proof (Hkeys c) as Kc. unfold UINT32_MOD in *.
        destruct (shr32 (Z.lxor (kf c) x) k >=? EB_NODE_BRANCHES) eqn:E.
        { rewrite hits_none.
          - apply terminates_now. intros fuel.
            rewrite Estep; try rewrite E; reflexivity.
          - intros c' Hc' E'.
            rewrite shr32_in_range in E by assumption.
            apply diverge_above in E; [|lia|lia|lia].
            apply E. rewrite <- E'. now apply Sa. }
        rewrite shr32_in_range in E by assumption.
        assert (Eside : Z.land (shr32 x k) EB_NODE_BRANCH_MASK =
                        Z.b2z (Z.testbit x k)).
        { rewrite shr32_in_range by assumption. apply side_bit. lia. }
        rewrite filter_app.
        destruct (Z.testbit x k) eqn:B; simpl in Eside.
        { rewrite (hits_none (leaves l)).
          2:{ intros c' Hc' E'. apply Bl in Hc'. rewrite E' in Hc'.
              congruence. }
          simpl app.
          eapply terminates_step; [|exact (IHr Hir Har Rr Hor Hwr)].
          intros fuel. rewrite Estep; try rewrite E; rewrite Eside.
          change 1 with EB_RGHT. now rewrite Hbr. }
        { rewrite (hits_none (leaves r)).
          2:{ intros c' Hc' E'. apply Br in Hc'. rewrite E' in Hc'.
              congruence. }
          rewrite app_nil_r.
          eapply terminates_step; [|exact (IHl Hil Hal Rl Hol Hwl)].
          intros fuel. rewrite Estep; try rewrite E; rewrite Eside.
          change 0 with EB_LEFT. now rewrite Hbl. }
Qed.

End LookupFirst.

(** ** The tree behind a store *)

Lemma inner_unique m : forall t1 t2,
  inner m t1 -> inner m t2 -> acells t1 -> acells t2 ->
  ttag t1 = ttag t2 -> t1 = t2.
Proof.
  induction t1 as [c1|c1 k1 l1 IHl r1 IHr]; intros [c2|c2 k2 l2 r2] I1 I2 A1 A2 E;
    unfold ttag, eb_dotag, EB_LEAF, EB_NODE in E; simpl in A1, A2.
  - f_equal. lia.
  - exfalso. destruct A1 as [H1 _]. destruct A2 as ([H2 _] & _).
    unfold aligned in *. Z.div_mod_to_equations. lia.
  - exfalso. destruct A2 as [H2 _]. destruct A1 as ([H1 _] & _).
    unfold aligned in *. Z.div_mod_to_equations. lia.
  - assert (c1 = c2) by lia. subst c2. simpl in I1, I2.
    destruct I1 as (Hk1 & Hl1 & Hr1 & _ & _ & Il1 & Ir1).
    destruct I2 as (Hk2 & Hl2 & Hr2 & _ & _ & Il2 & Ir2).
    destruct A1 as (_ & Al1 & Ar1). destruct A2 as (_ & Al2 & Ar2).
    f_equal; [congruence| |].
    + apply IHl; auto. congruence.
    + apply IHr; auto. congruence.
Qed.

Lemma inv_unique {U : UndefShift} m root st1 st2 :
  inv m root st1 -> inv m root st2 -> st1 = st2.
Proof.
  intros I1 I2. pose proof (inv_tree _ _ _ I1) as S1.
  pose proof (inv_tree _ _ _ I2) as S2.
  destruct st1 as [t1|], st2 as [t2|]; auto.
  - f_equal. apply (inner_unique m).
    + apply (sh_repr _ _ _ S1).
    + apply (sh_repr _ _ _ S2).
    + apply (sh_cells _ _ _ S1).
    + apply (sh_cells _ _ _ S2).
    + rewrite <- (sh_b _ _ _ S1). apply (sh_b _ _ _ S2).
  - exfalso. rewrite (sh_b _ _ _ S1) in S2. revert S2.
    apply ttag_nonnull, (sh_cells _ _ _ S1).
  - exfalso. rewrite (sh_b _ _ _ S2) in S1. revert S1.
    apply ttag_nonnull, (sh_cells _ _ _ S2).
Qed.

Definition owners_of {U : UndefShift} (kf : Z -> Z) (st : option tree)
  : Prop :=
  match st with
  | None => True
  | Some t => owners kf t
  end.

Lemma run_owners {U : UndefShift} root m h :
  run root m h -> exists st, inv m root st /\ owners_of (get_key m) st.
Proof.
  induction 1 as [m Hi|m h m' R IH W|m h n m' ret R IH Hn Hnr Hl T|m h c R IH].
  - exists None. split; [now apply inv_initial|exact I].
  - destruct IH as (st & I & Hw). exists st.
    split; [eapply inv_write; eauto|].
    destruct W as (c & Hcr & Hl & Hl' & Hk' & Hsame).
    destruct st as [t|]; [|exact Logic.I]. simpl in *.
    pose proof (inv_tree _ _ _ I) as S. simpl in S.
    apply (owners_ext (get_key m)); auto; [apply (sh_over _ _ _ S)|].
    intros y Hy. unfold get_key. rewrite Hsame; auto.
    intros ->. apply (proj2 (inv_linked _ _ _ I c)) in Hy. auto.
  - destruct IH as (st & I & Hw).
    destruct (eb32_insert_returns m root st n m' ret I Hn Hnr Hl T)
      as (st' & Hins & I' & [Kk _] & _).
    exists st'. split; auto.
    destruct st as [t|]; simpl in Hins.
    + destruct (ins (get_key m) (unique_mode m root) n t) as [[t' r']|] eqn:Ei;
        [|discriminate].
      injection Hins as <- <-.
      pose proof (inv_tree _ _ _ I) as S. simpl in S.
      pose proof (inv_tree _ _ _ I') as S'. simpl in S'.
      simpl. apply (owners_ext (get_key m)); [apply (sh_over _ _ _ S')|auto|].
      apply (ins_owners (get_key m) (unique_mode m root) (inv_keys _ _ _ I)
               n t t' r' (sh_radix _ _ _ S) (sh_over _ _ _ S) Hw Ei).
    + injection Hins as <- <-. exact Logic.I.
  - destruct IH as (st & I & Hw).
    destruct (eb_delete_inv m root st c I) as (I' & [Kk _]).
    exists (del_top c st). split; auto.
    destruct st as [t|]; [|exact Logic.I]. simpl in Hw.
    pose proof (inv_tree _ _ _ I) as S. simpl in S.
    pose proof (inv_tree _ _ _ I') as S'. unfold del_top in *.
    destruct (inb c (leaves t)); [|].
    2:{ simpl. apply (owners_ext (get_key m)); [apply (sh_over _ _ _ S)|auto|auto]. }
    destruct (unlink c t) as [[t' q]|] eqn:Eu; [|exact Logic.I].
    simpl. apply (owners_ext (get_key m)); [apply (sh_over _ _ _ S')|auto|].
    apply (unlink_owners (get_key m) c t t' q (sh_radix _ _ _ S)
             (sh_over _ _ _ S) (sh_distinct _ _ _ S) Hw Eu).
Qed.

Lemma eb32_lookup_first {U : UndefShift} root m h x :
  run root m h -> 0 <= x < UINT32_MOD ->
  (fun fuel => eb32_lookup fuel m root x)
    ⇓ hd NULL (filter (fun c => get_key m c =? x) h).
Proof.
  intros R Hx. destruct (run_state root m h R) as (st & I & G & L).
  destruct (run_owners root m h R) as (st' & I' & Hw).
  rewrite (inv_unique m root st' st I' I) in Hw. clear st' I'.
  rewrite <- (gh_order _ _ _ G).
  pose proof (inv_tree _ _ _ I) as S. destruct st as [t|]; simpl in *.
  - eapply terminates_ext;
      [|apply (eb32_lookup_loop_first m x Hx (inv_keys _ _ _ I) t
                 (proj2 (sh_repr _ _ _ S)) (sh_cells _ _ _ S)
                 (sh_radix _ _ _ S) (sh_over _ _ _ S) Hw)].
    intros fuel. unfold eb32_lookup. rewrite (sh_b _ _ _ S).
    destruct (Z.eqb_spec (ttag t) NULL) as [E|_]; auto.
    exfalso. revert E. apply ttag_nonnull. apply (sh_cells _ _ _ S).
  - exists 0%nat. intros fuel _. unfold eb32_lookup. now rewrite S.
Qed.

(** X22. Which duplicate a lookup returns. In every store that is
    reached, [eb32_lookup] of [x] returns the cell that was inserted first
    among the linked cells whose key is [x], and null when there is
    none. *)
Theorem eb32_lookup_first_inserted {U : UndefShift} root m h x :
  run root m h -> 0 <= x < UINT32_MOD ->
  (fun fuel => eb32_lookup fuel m root x)
    ⇓ hd NULL (filter (fun c => get_key m c =? x) h).
Proof. apply eb32_lookup_first. Qed.

Lemma eb32_lookup_first_inserted_witness :
  (fun fuel => @eb32_lookup shr_zero fuel dup5 ex_root 7)
    ⇓ hd NULL (filter (fun c => get_key dup5 c =? 7) [16; 32; 48; 64; 80]).
Proof.
  apply (@eb32_lookup_first_inserted shr_zero ex_root dup5
           [16; 32; 48; 64; 80] 7 dup5_run).
  unfold UINT32_MOD. lia.
Defined.

(** ** The same with signed keys *)

Lemma biased_key_match m mb x c :
  biased m mb -> - 2 ^ 31 <= x < 2 ^ 31 ->
  (get_key mb c =? bias (to_uint32 x)) = (to_int32 (get_key m c) =? x).
Proof.
  intros Hb Hx. pose proof (to_uint32_range x) as Hu.
  rewrite (biased_key m mb Hb).
  destruct (Z.eqb_spec (to_int32 (get_key m c)) x) as [E|E].
  - apply Z.eqb_eq. f_equal.
    apply to_int32_inj; [apply (biased_key_range m mb Hb)|exact Hu|].
    now rewrite to_int32_to_uint32.
  - apply Z.eqb_neq. intros E'. apply E.
    assert (E2 : get_key m c = to_uint32 x).
    { rewrite <- (bias_bias (get_key m c)), E'. apply bias_bias. }
    rewrite E2. now apply to_int32_to_uint32.
Qed.

(** X23. With signed keys too: in every store reached with
    [eb32i_insert] and [eb_delete], [eb32i_lookup] of an [int32_t] value
    [x] returns the cell that was inserted first among the linked cells
    whose key, read as [int32_t], is [x], and null when there is none. *)
Theorem eb32i_lookup_first_inserted {U : UndefShift} root m h x :
  runi root m h -> - 2 ^ 31 <= x < 2 ^ 31 ->
  (fun fuel => eb32i_lookup fuel m root x)
    ⇓ hd NULL (filter (fun c => to_int32 (get_key m c) =? x) h).
Proof.
  intros R Hx. destruct (runi_run root m h R) as (mb & Hb & Rb).
  pose proof (to_uint32_range x) as Hu.
  rewrite <- (filter_ext _ _ (fun c => biased_key_match m mb x c Hb Hx)).
  eapply terminates_ext;
    [|apply (eb32_lookup_first root mb h (bias (to_uint32 x)) Rb
               (bias_range _ Hu))].
  intros fuel. symmetry. now apply eb32i_lookup_sim.
Qed.

Lemma eb32i_lookup_first_inserted_witness :
  (fun fuel => @eb32i_lookup shr_zero fuel exi4 ex_root (-5))
    ⇓ hd NULL (filter (fun c => to_int32 (get_key exi4 c) =? -5)
                      [16; 32; 48; 64]).
Proof.
  apply (@eb32i_lookup_first_inserted shr_zero ex_root exi4
           [16; 32; 48; 64] (-5) exi4_run).
  lia.
Defined.

Example exi4_lookup :
  @eb32i_lookup shr_zero 8 exi4 ex_root (-5) = Some 16 /\
  @eb32i_lookup shr_zero 8 exi4 ex_root 3 = Some 32 /\
  @eb32i_lookup shr_zero 8 exi4 ex_root 5 = Some NULL.
Proof. repeat split. Qed.

(** ** The walk backward, and a lookup after an insertion *)

(** X24. The walk from [eb_last] by [eb_prev] visits the linked cells
    in the reverse of the order in which the walk from [eb_first] by
    [eb_next] visits them. *)
Theorem eb_backward_reverse {U : UndefShift} root m h :
  run root m h ->
  exists L,
    (fun fuel => eb_forward fuel m root) ⇓ L /\
    (fun fuel => eb_backward fuel m root) ⇓ rev L.
Proof.
  intros R. destruct (run_state root m h R) as (st & I & G & L).
  exists (cells_of st). split.
  - now apply eb_forward_spec.
  - now apply eb_backward_spec.
Qed.

Lemma eb_backward_reverse_witness :
  exists L,
    (fun fuel => eb_forward fuel dup5 ex_root) ⇓ L /\
    (fun fuel => eb_backward fuel dup5 ex_root) ⇓ rev L.
Proof.
  apply (@eb_backward_reverse shr_zero ex_root dup5 [16; 32; 48; 64; 80]
           dup5_run).
Defined.

Example dup5_walks :
  eb_forward 8 dup5 ex_root = Some [32; 16; 48; 80; 64] /\
  eb_backward 8 dup5 ex_root = Some [64; 80; 48; 16; 32].
Proof. split; reflexivity. Qed.

(** X25. A lookup after an insertion. After a call of [eb32_insert] that
    returns, [eb32_lookup] of the key of the new cell never returns null:
    it returns the cell inserted first among those that had this key
    before the call, and the new cell when there was none; that cell is
    linked and has the key. *)
Theorem eb32_insert_then_lookup {U : UndefShift} root m h n m' ret :
  run root m h -> cell n -> n <> root -> get_leaf_p m n = NULL ->
  (fun fuel => eb32_insert fuel m root n) ⇓ (m', ret) ->
  exists r,
    (fun fuel => eb32_lookup fuel m' root (get_key m n)) ⇓ r /\
    r = hd n (filter (fun c => get_key m c =? get_key m n) h) /\
    is_linked m' r /\ get_key m' r = get_key m n /\
    (r = n <-> forall c, is_linked m c -> get_key m c <> get_key m n).
Proof.
  intros R Hn Hnr Hl T.
  pose proof (run_insert root m h n m' ret R Hn Hnr Hl T) as R'.
  destruct (run_state root m h R) as (st & I & G & L).
  destruct (eb32_insert_returns m root st n m' ret I Hn Hnr Hl T)
    as (st' & Hins & I' & [Kk _] & _).
  assert (Hnl : ~ In n (cells_of st)) by (intros H; apply L in H; auto).
  assert (Hnh : ~ In n h) by (intros H; apply Hnl; now apply (gh_linked _ _ _ G)).
  destruct (run_state root m' _ R') as (st2 & I2 & G2 & L2).
  pose proof (eb32_lookup_first root m' _ (get_key m n) R' (inv_keys _ _ _ I n))
    as Tl.
  set (F := filter (fun c => get_key m c =? get_key m n) h).
  assert (EF : filter (fun c => get_key m' c =? get_key m n) h = F).
  { apply filter_ext. intros c. now rewrite Kk. }
  assert (Er : hd NULL (filter (fun c => get_key m' c =? get_key m n)
                          (if ret =? n then h ++ [n] else h)) = hd n F).
  { destruct (Z.eqb_spec ret n) as [->|Hne].
    - rewrite filter_app, EF. simpl. rewrite Kk, Z.eqb_refl.
      destruct F; reflexivity.
    - rewrite EF.
      destruct (ins_top_cells m root st n st' ret I Hnl Hins)
        as [(-> & _)|(_ & _ & Hin & Hk)]; [contradiction|].
      assert (Hf : In ret F).
      { apply filter_In. split; [now apply (gh_linked _ _ _ G)|].
        now apply Z.eqb_eq. }
      destruct F; [destruct Hf|reflexivity]. }
  rewrite Er in Tl. exists (hd n F). split; [exact Tl|].
  split; [reflexivity|].
  assert (Hcases : (F = [] /\ hd n F = n) \/
                   (In (hd n F) F /\ hd n F <> n)).
  { destruct F as [|a F'] eqn:EF'; [left; auto|right]. simpl.
    split; [now left|]. intros ->.
    assert (Ha : In n F) by (rewrite EF'; now left).
    apply filter_In in Ha. tauto. }
  assert (Hret : F = [] -> ret = n).
  { intros E0.
    destruct (ins_top_cells m root st n st' ret I Hnl Hins)
      as [(-> & _)|(_ & _ & Hin & Hk)]; auto.
    exfalso. assert (Hf : In ret F).
    { apply filter_In. split; [now apply (gh_linked _ _ _ G)|].
      now apply Z.eqb_eq. }
    rewrite E0 in Hf. exact Hf. }
  destruct Hcases as [[E0 En]|[Hin Hne]].
  - rewrite En. split; [|split; [apply Kk|]].
    + apply L2. apply (gh_linked _ _ _ G2).
      rewrite (Hret E0), Z.eqb_refl. apply in_or_app. right. now left.
    + split; auto. intros _ c Hc E.
      assert (Hf : In c F).
      { apply filter_In. split.
        - apply (gh_linked _ _ _ G). now apply L.
        - now apply Z.eqb_eq. }
      rewrite E0 in Hf. exact Hf.
  - apply filter_In in Hin. destruct Hin as [Hin Hk]. apply Z.eqb_eq in Hk.
    split; [|split; [now rewrite Kk|]].
    + apply L2. apply (gh_linked _ _ _ G2).
      destruct (ret =? n); [apply in_or_app; left|]; exact Hin.
    + split; [contradiction|]. intros H. exfalso.
      apply (H (hd n F)); auto. apply L. now apply (gh_linked _ _ _ G).
Qed.

Lemma eb32_insert_then_lookup_witness :
  exists r,
    (fun fuel => @eb32_lookup shr_zero fuel dup5 ex_root
                   (get_key (put_key dup4 80 7) 80)) ⇓ r /\
    r = hd 80 (filter (fun c => get_key (put_key dup4 80 7) c
                                =? get_key (put_key dup4 80 7) 80)
                      [16; 32; 48; 64]).
Proof.
  destruct (@eb32_insert_then_lookup shr_zero ex_root (put_key dup4 80 7)
              [16; 32; 48; 64] 80 dup5 80) as (r & T & E & _).
  - apply run_write with dup4.
    + apply (@run_insert_new shr_zero ex_root dup3 [16; 32; 48] 64 9);
        [|ex_cell|discriminate|reflexivity|unfold UINT32_MOD; lia|ex_returns].
      apply (@run_insert_new shr_zero ex_root dup2 [16; 32] 48 7);
        [|ex_cell|discriminate|reflexivity|unfold UINT32_MOD; lia|ex_returns].
      apply (@run_insert_new shr_zero ex_root dup1 [16] 32 5);
        [|ex_cell|discriminate|reflexivity|unfold UINT32_MOD; lia|ex_returns].
      apply (@run_insert_new shr_zero ex_root ex_empty [] 16 7);
        [|ex_cell|discriminate|reflexivity|unfold UINT32_MOD; lia|ex_returns].
      apply run_init. exact ex_initial.
    + apply caller_put_key; [discriminate|reflexivity|unfold UINT32_MOD; lia].
  - ex_cell.
  - discriminate.
  - reflexivity.
  - ex_returns.
  - exists r. split; [exact T|exact E].
Defined.

(** * Lookup and traversal, for the unsigned and the signed keys *)



(** C3. Traversal: in every store that is reached, [eb_first] followed by
    [eb_next] until it returns null visits every linked cell exactly once,
    and the keys of the cells visited never decrease: as unsigned numbers
    in the stores reached with [eb32_insert], as [int32_t] in those
    reached with [eb32i_insert]. *)
Theorem eb_forward_visits_all {U : UndefShift} :
  (forall root m h,
     run root m h ->
     exists L,
       (fun fuel => eb_forward fuel m root) ⇓ L /\
       NoDup L /\
       (forall c, In c L <-> is_linked m c) /\
       StronglySorted Z.le (map (get_key m) L)) /\
  (forall root m h,
     runi root m h ->
     exists L,
       (fun fuel => eb_forward fuel m root) ⇓ L /\
       NoDup L /\
       (forall c, In c L <-> is_linked m c) /\
       StronglySorted Z.le (map (fun c => to_int32 (get_key m c)) L)).
Proof.
  split.
  - intros root m h R.
    destruct (run_state root m h R) as (st & I & _ & L).
    exists (cells_of st). split; [now apply eb_forward_spec|].
    split; [now apply (inv_cells_NoDup m root)|]. split; auto.
    apply sorted_map. now apply (cells_sorted m root).
  - intros root m h R.
    destruct (eb32i_forward_order root m h R) as (L & T & N & Hl & S & _).
    exists L. auto.
Qed.

Lemma eb_forward_visits_all_witness :
  (exists L,
     (fun fuel => eb_forward fuel ex3 ex_root) ⇓ L /\
     NoDup L /\
     (forall c, In c L <-> is_linked ex3 c) /\
     StronglySorted Z.le (map (get_key ex3) L)) /\
  (exists L,
     (fun fuel => eb_forward fuel exi4 ex_root) ⇓ L /\
     NoDup L /\
     (forall c, In c L <-> is_linked exi4 c) /\
     StronglySorted Z.le (map (fun c => to_int32 (get_key exi4 c)) L)).
Proof.
  destruct (@eb_forward_visits_all shr_zero) as [Hu Hs]. split.
  - exact (Hu ex_root ex3 [16; 32; 48] ex3_run).
  - exact (Hs ex_root exi4 [16; 32; 48; 64] exi4_run).
Defined.
